(** * advanced-vector: [RawMemory<T>] and [Vector<T>] of vector.h

    A shallow embedding of the two class templates of
    [advanced-vector/vector.h] and the proofs of the properties stated for
    them.

    The embedding follows the header member by member.  Objects live in a
    store and are designated by locations, so that [this != &rhs] is a
    comparison of locations and two references to one object see each other's
    writes.  Raw storage is a heap of blocks; a block is a list of slots and a
    slot is either uninitialized ([None]) or holds a live element
    ([Some v]).  Element operations that may throw consume a fault schedule;
    stack unwinding runs the destructors of the locals in scope. *)

From stdpp Require Import gmap list.
From Stdlib Require Import ZArith Lia.

Local Open Scope Z_scope.

(** ** Outcomes and the state-and-exception monad *)

Inductive fault := AssertionFailed | Undefined.

Inductive outcome (Σ A : Type) : Type :=
| Ok (a : A) (σ : Σ)
| Throw (σ : Σ)
| Fault (f : fault).
Arguments Ok {Σ A} a σ.
Arguments Throw {Σ A} σ.
Arguments Fault {Σ A} f.

Definition M (Σ A : Type) : Type := Σ → outcome Σ A.

Definition ret {Σ A} (a : A) : M Σ A := λ σ, Ok a σ.

Definition bind {Σ A B} (m : M Σ A) (f : A → M Σ B) : M Σ B :=
  λ σ, match m σ with
       | Ok a σ' => f a σ'
       | Throw σ' => Throw σ'
       | Fault e => Fault e
       end.

Definition throw {Σ A} : M Σ A := λ σ, Throw σ.

Definition undefined {Σ A} : M Σ A := λ _, Fault Undefined.

(** [assert(b)] of <cassert>. *)
Definition assert {Σ} (b : bool) : M Σ unit :=
  λ σ, if b then Ok tt σ else Fault AssertionFailed.

(** [try { m } catch (...) { h }]; the handler ends in [throw;] when the
    source rethrows. *)
Definition try_catch {Σ A} (m : M Σ A) (h : M Σ A) : M Σ A :=
  λ σ, match m σ with
       | Throw σ' => h σ'
       | o => o
       end.

(** A scope whose local is destroyed by [cleanup] when the scope is left,
    normally or by an exception. *)
Definition finally {Σ A} (m : M Σ A) (cleanup : M Σ unit) : M Σ A :=
  λ σ, match m σ with
       | Ok a σ' => bind cleanup (λ _, ret a) σ'
       | Throw σ' => bind cleanup (λ _, throw) σ'
       | Fault e => Fault e
       end.

Definition get {Σ} : M Σ Σ := λ σ, Ok σ σ.
Definition put {Σ} (σ' : Σ) : M Σ unit := λ _, Ok tt σ'.

Declare Scope vec_scope.
Delimit Scope vec_scope with vec.
Notation "x ← m ; f" := (bind m (λ x, f))
  (at level 20, m at level 100, f at level 200, only parsing) : vec_scope.
Notation "m ;; f" := (bind m (λ _, f))
  (at level 100, f at level 200, only parsing, right associativity) : vec_scope.
Local Open Scope vec_scope.

(** The state of a finished run, when there is one. *)
Definition final_state {Σ A} (o : outcome Σ A) : option Σ :=
  match o with
  | Ok _ σ => Some σ
  | Throw σ => Some σ
  | Fault _ => None
  end.

(** ** Specifications of runs

    [wp m Q E F σ]: the run of [m] from [σ] ends normally in a state and with
    a result satisfying [Q], or by an exception in a state satisfying [E];
    [F] holds when it goes wrong. *)
Definition wp {Σ A} (m : M Σ A) (Q : A → Σ → Prop) (E : Σ → Prop) (F : Prop)
    (σ : Σ) : Prop :=
  match m σ with
  | Ok a σ' => Q a σ'
  | Throw σ' => E σ'
  | Fault _ => F
  end.

(** ** size_t, pointers *)

Definition SIZE_MODULUS : Z := 2 ^ 64.

(** Arithmetic on [size_t] wraps around. *)
Definition wrap (z : Z) : Z := z mod SIZE_MODULUS.

(** No object has more than [PTRDIFF_MAX] bytes: [operator new] cannot
    provide more. *)
Definition PTRDIFF_MAX : Z := 2 ^ 63 - 1.

Definition addr := nat.
Definition loc := nat.

(** A [T*]: the block it points into ([None] for a null pointer) and the
    position in the block, in elements. *)
Record ptr := Ptr { p_blk : option addr; p_off : Z }.

Definition nullptr : ptr := Ptr None 0.

Definition ptr_add (p : ptr) (k : Z) : ptr := Ptr (p_blk p) (p_off p + k).

Definition is_null (p : ptr) : bool :=
  match p_blk p with None => true | Some _ => false end.

Global Instance ptr_eq_dec : EqDecision ptr.
Proof. solve_decision. Defined.

(** [p == q]. *)
Definition ptr_eqb (p q : ptr) : bool := bool_decide (p = q).

(** Relational comparison of two pointers into one array compares their
    positions. *)
Definition ptr_geb (p q : ptr) : bool := p_off q <=? p_off p.
Definition ptr_leb (p q : ptr) : bool := p_off p <=? p_off q.
Definition ptr_ltb (p q : ptr) : bool := p_off p <? p_off q.

(** [p - q], defined for two pointers into the same array. *)
Definition ptr_diff {Σ} (p q : ptr) : M Σ Z :=
  if bool_decide (p_blk p = p_blk q) then ret (p_off p - p_off q)
  else undefined.

(** ** Lists of elements in the middle of a shift

    [shifting l j z]: the elements [l] with the slot [j] opened and holding
    [z], as they stand while [Emplace] moves the tail one slot to the right.
    [erasing l j i x]: the elements [l] after [i] steps of the leftward move
    of [Erase] at position [j], the slot last moved from holding [x]. *)
Definition shifting {A} (l : list A) (j : nat) (z : A) : list A :=
  take j l ++ z :: drop j l.

Definition erasing {A} (l : list A) (j i : nat) (x : A) : list A :=
  take j l ++ take i (drop (S j) l) ++ x :: drop (S (j + i)) l.

(** ** The element type *)

(** What the container needs to know about [T]: its value-initialized value,
    what a move leaves behind in its source, the three type traits the
    header consults, and [sizeof(T)]. *)
Class Element (T : Type) := {
  value_init : T;
  moved_from : T → T;
  nothrow_move_constructible : bool;
  copy_constructible : bool;
  nothrow_move_assignable : bool;
  sizeof_T : Z;
  sizeof_T_bounds : 0 < sizeof_T ≤ PTRDIFF_MAX;
}.

(** ** Objects *)

(** [RawMemory<T>]: [buffer_] and [capacity_]. *)
Record RawMemory := { buffer_ : ptr; capacity_ : Z }.

(** [Vector<T>]: [data_] and [size_]. *)
Record Vector := { data_ : RawMemory; size_ : Z }.

(** A reference to a [RawMemory] object: a stand-alone object or the
    [data_] member of a vector. *)
Inductive raw_ref :=
| RawObj (l : loc)
| VecData (l : loc).

Global Instance raw_ref_eq_dec : EqDecision raw_ref.
Proof. solve_decision. Defined.

(** ** Raw storage and element lifetime *)

Section vector.
Context {T : Type} `{!Element T}.

(** The largest number of slots [operator new] can provide: as many as fit
    in [PTRDIFF_MAX] bytes. *)
Definition max_slots : Z := PTRDIFF_MAX / sizeof_T.

(** A slot is uninitialized or holds a live element. *)
Abbreviation slot := (option T) (only parsing).
Abbreviation block := (list (option T)) (only parsing).

(** [heap]: the live allocations.  [fuse]: the fault schedule; [Some k] makes
    the operation after [k] further fallible ones throw, [None] schedules no
    fault. *)
Record memory := Memory { heap : gmap addr block; fuse : option nat }.

Definition MM (A : Type) : Type := M memory A.

(** One fallible operation: an allocation, a constructor or an assignment
    that may throw. *)
Definition tick : MM unit :=
  λ μ, match fuse μ with
       | None => Ok tt μ
       | Some O => Throw (Memory (heap μ) None)
       | Some (S k) => Ok tt (Memory (heap μ) (Some k))
       end.

Definition tick_unless (nothrow : bool) : MM unit :=
  if nothrow then ret tt else tick.

(** The slot a pointer designates, when it points into a live block. *)
Definition slot_at (h : gmap addr block) (p : ptr) : option slot :=
  match p_blk p with
  | None => None
  | Some a =>
      match h !! a with
      | None => None
      | Some b => if 0 <=? p_off p then b !! Z.to_nat (p_off p) else None
      end
  end.

Definition set_slot (h : gmap addr block) (p : ptr) (s : slot) : gmap addr block :=
  match p_blk p with
  | None => h
  | Some a =>
      match h !! a with
      | None => h
      | Some b => <[a := <[Z.to_nat (p_off p) := s]> b]> h
      end
  end.

(** Reading [*p]: [p] must point to a live element. *)
Definition load (p : ptr) : MM T :=
  λ μ, match slot_at (heap μ) p with
       | Some (Some v) => Ok v μ
       | _ => Fault Undefined
       end.

(** The end of a constructor run by placement [new (p) T(...)]: the slot
    holds [v] from now on.  An element that was alive in the slot is not
    destroyed. *)
Definition place (p : ptr) (v : T) : MM unit :=
  λ μ, match slot_at (heap μ) p with
       | Some _ => Ok tt (Memory (set_slot (heap μ) p (Some v)) (fuse μ))
       | None => Fault Undefined
       end.

(** The end of an assignment to the live element [*p]. *)
Definition assign (p : ptr) (v : T) : MM unit :=
  λ μ, match slot_at (heap μ) p with
       | Some (Some _) => Ok tt (Memory (set_slot (heap μ) p (Some v)) (fuse μ))
       | _ => Fault Undefined
       end.

(** [std::destroy_at(p)], [p->~T()]. *)
Definition destroy_at (p : ptr) : MM unit :=
  λ μ, match slot_at (heap μ) p with
       | Some (Some _) => Ok tt (Memory (set_slot (heap μ) p None) (fuse μ))
       | _ => Fault Undefined
       end.

(** Copy construction of [*src] into the slot [dst]. *)
Definition copy_construct (dst src : ptr) : MM unit :=
  v ← load src; tick;; place dst v.

(** Move construction of [*src] into the slot [dst]. *)
Definition move_construct (dst src : ptr) : MM unit :=
  v ← load src;
  tick_unless nothrow_move_constructible;;
  place dst v;;
  assign src (moved_from v).

(** [new (dst) T()]. *)
Definition value_construct (dst : ptr) : MM unit :=
  tick;; place dst value_init.

(** Copy assignment of [*src] to [*dst]. *)
Definition copy_assign (dst src : ptr) : MM unit :=
  load dst;; v ← load src; tick;; assign dst v.

(** Move assignment of [*src] to [*dst]. *)
Definition move_assign (dst src : ptr) : MM unit :=
  load dst;;
  v ← load src;
  tick_unless nothrow_move_assignable;;
  assign dst v;;
  assign src (moved_from v).

(** Move assignment to [*dst] of a local [tmp] holding [v]. *)
Definition move_assign_local (dst : ptr) (v : T) : MM unit :=
  load dst;; tick_unless nothrow_move_assignable;; assign dst v.

(** The arguments [Types&&... values] of a constructor call: either
    arguments that make the value [v] and alias no element, or one
    [const T&] bound to the element at [p], which selects the copy
    constructor. *)
Inductive ctor_args :=
| CtorValue (v : T)
| CtorCopyOf (p : ptr).

(** Running [T(std::forward<Types>(values)...)]. *)
Definition construct_value (args : ctor_args) : MM T :=
  match args with
  | CtorValue v => tick;; ret v
  | CtorCopyOf p => v ← load p; tick;; ret v
  end.

(** [new (p) T(std::forward<Types>(values)...)]. *)
Definition construct_at (p : ptr) (args : ctor_args) : MM unit :=
  v ← construct_value args; place p v.

(** *** The algorithms of <memory> and <algorithm> *)

Fixpoint destroy_loop (first : ptr) (n : nat) : MM unit :=
  match n with
  | O => ret tt
  | S n' => destroy_at first;; destroy_loop (ptr_add first 1) n'
  end.

(** [std::destroy_n(first, n)]; a count that is not positive destroys
    nothing. *)
Definition destroy_n (first : ptr) (n : Z) : MM unit :=
  destroy_loop first (Z.to_nat n).

(** The loop shared by the [std::uninitialized_*_n] algorithms: [step i]
    constructs the [i]-th element of the destination; when it throws, the
    [i] elements constructed so far are destroyed and the exception is
    rethrown. *)
Fixpoint uninitialized_loop (step : Z → MM unit) (d_first : ptr) (i : Z) (n : nat)
  : MM unit :=
  match n with
  | O => ret tt
  | S n' =>
      try_catch (step i) (destroy_n d_first i;; throw);;
      uninitialized_loop step d_first (i + 1) n'
  end.

(** [std::uninitialized_value_construct_n(first, n)]. *)
Definition uninitialized_value_construct_n (first : ptr) (n : Z) : MM unit :=
  uninitialized_loop (λ i, value_construct (ptr_add first i)) first 0 (Z.to_nat n).

(** [std::uninitialized_copy_n(first, n, d_first)]. *)
Definition uninitialized_copy_n (first : ptr) (n : Z) (d_first : ptr) : MM unit :=
  uninitialized_loop (λ i, copy_construct (ptr_add d_first i) (ptr_add first i))
    d_first 0 (Z.to_nat n).

(** [std::uninitialized_move_n(first, n, d_first)]. *)
Definition uninitialized_move_n (first : ptr) (n : Z) (d_first : ptr) : MM unit :=
  uninitialized_loop (λ i, move_construct (ptr_add d_first i) (ptr_add first i))
    d_first 0 (Z.to_nat n).

Fixpoint assign_loop (step : Z → MM unit) (i : Z) (n : nat) : MM unit :=
  match n with
  | O => ret tt
  | S n' => step i;; assign_loop step (i + 1) n'
  end.

(** The length of the range [[first, last)]; the range must be valid. *)
Definition range_length (first last : ptr) : MM nat :=
  n ← ptr_diff last first;
  if n <? 0 then undefined else ret (Z.to_nat n).

(** [std::copy(first, last, d_first)]. *)
Definition std_copy (first last d_first : ptr) : MM unit :=
  n ← range_length first last;
  assign_loop (λ i, copy_assign (ptr_add d_first i) (ptr_add first i)) 0 n.

(** [std::move(first, last, d_first)]. *)
Definition std_move (first last d_first : ptr) : MM unit :=
  n ← range_length first last;
  assign_loop (λ i, move_assign (ptr_add d_first i) (ptr_add first i)) 0 n.

(** [std::move_backward(first, last, d_last)]. *)
Definition std_move_backward (first last d_last : ptr) : MM unit :=
  n ← range_length first last;
  assign_loop (λ i, move_assign (ptr_add d_last (- 1 - i)) (ptr_add last (- 1 - i))) 0 n.

(** *** RawMemory: allocation *)

(** [operator new(bytes)]: throws [std::bad_alloc] when the request cannot
    be met, otherwise returns a fresh block of [bytes] bytes.  A block is
    kept as the slots it has room for, [bytes / sizeof(T)] of them, all
    uninitialized; a request of 0 bytes gives a block without a slot. *)
Definition operator_new (bytes : Z) : MM ptr :=
  if PTRDIFF_MAX <? bytes then throw
  else
    tick;;
    μ ← get;
    let a := fresh (dom (heap μ)) in
    put (Memory (<[a := replicate (Z.to_nat (bytes / sizeof_T)) None]> (heap μ))
           (fuse μ));;
    ret (Ptr (Some a) 0).

(** [operator delete(buf)]: [buf] is the start of a live block. *)
Definition operator_delete (buf : ptr) : MM unit :=
  λ μ, match p_blk buf with
       | None => Ok tt μ
       | Some a =>
           match heap μ !! a with
           | Some _ =>
               if p_off buf =? 0 then Ok tt (Memory (delete a (heap μ)) (fuse μ))
               else Fault Undefined
           | None => Fault Undefined
           end
       end.

(** [RawMemory::Allocate].  The byte count [n * sizeof(T)] is a product of
    two [size_t] and wraps around. *)
Definition Allocate (n : Z) : MM ptr :=
  if negb (n =? 0) then operator_new (wrap (n * sizeof_T)) else ret nullptr.

(** [RawMemory::Deallocate]. *)
Definition Deallocate (buf : ptr) : MM unit := operator_delete buf.


(** The objects alive in the program and the memory they manage. *)
Record state := State {
  raws : gmap loc RawMemory;
  vecs : gmap loc Vector;
  mem : memory;
}.

Definition VM (A : Type) : Type := M state A.

(** A memory operation run as a step of the program. *)
Definition lift {A} (m : MM A) : VM A :=
  λ σ, match m (mem σ) with
       | Ok a μ => Ok a (State (raws σ) (vecs σ) μ)
       | Throw μ => Throw (State (raws σ) (vecs σ) μ)
       | Fault e => Fault e
       end.

Definition get_raw (r : raw_ref) : VM RawMemory :=
  λ σ, match r with
       | RawObj l =>
           match raws σ !! l with
           | Some x => Ok x σ
           | None => Fault Undefined
           end
       | VecData l =>
           match vecs σ !! l with
           | Some v => Ok (data_ v) σ
           | None => Fault Undefined
           end
       end.

Definition set_raw (r : raw_ref) (x : RawMemory) : VM unit :=
  λ σ, match r with
       | RawObj l =>
           match raws σ !! l with
           | Some _ => Ok tt (State (<[l := x]> (raws σ)) (vecs σ) (mem σ))
           | None => Fault Undefined
           end
       | VecData l =>
           match vecs σ !! l with
           | Some v =>
               Ok tt (State (raws σ)
                        (<[l := {| data_ := x; size_ := size_ v |}]> (vecs σ)) (mem σ))
           | None => Fault Undefined
           end
       end.

Definition get_buffer (r : raw_ref) : VM ptr :=
  x ← get_raw r; ret (buffer_ x).
Definition set_buffer (r : raw_ref) (p : ptr) : VM unit :=
  x ← get_raw r; set_raw r {| buffer_ := p; capacity_ := capacity_ x |}.
Definition get_capacity (r : raw_ref) : VM Z :=
  x ← get_raw r; ret (capacity_ x).
Definition set_capacity (r : raw_ref) (n : Z) : VM unit :=
  x ← get_raw r; set_raw r {| buffer_ := buffer_ x; capacity_ := n |}.

Definition get_size (this : loc) : VM Z :=
  λ σ, match vecs σ !! this with
       | Some v => Ok (size_ v) σ
       | None => Fault Undefined
       end.
Definition set_size (this : loc) (n : Z) : VM unit :=
  λ σ, match vecs σ !! this with
       | Some v =>
           Ok tt (State (raws σ)
                    (<[this := {| data_ := data_ v; size_ := n |}]> (vecs σ)) (mem σ))
       | None => Fault Undefined
       end.

(** [std::swap(a, b)] on two places: [tmp = a; a = b; b = tmp]. *)
Definition std_swap {A} (get_a : VM A) (set_a : A → VM unit)
    (get_b : VM A) (set_b : A → VM unit) : VM unit :=
  tmp ← get_a; b ← get_b; set_a b;; set_b tmp.

(** The storage of a local object begins and ends. *)
Definition new_raw (x : RawMemory) : VM raw_ref :=
  λ σ, let l := fresh (dom (raws σ)) in
       Ok (RawObj l) (State (<[l := x]> (raws σ)) (vecs σ) (mem σ)).
Definition end_raw (r : raw_ref) : VM unit :=
  λ σ, match r with
       | RawObj l => Ok tt (State (delete l (raws σ)) (vecs σ) (mem σ))
       | VecData _ => Fault Undefined
       end.
Definition new_vec (v : Vector) : VM loc :=
  λ σ, let l := fresh (dom (vecs σ)) in
       Ok l (State (raws σ) (<[l := v]> (vecs σ)) (mem σ)).
Definition end_vec (l : loc) : VM unit :=
  λ σ, Ok tt (State (raws σ) (delete l (vecs σ)) (mem σ)).

(** ** RawMemory<T> *)

(** [RawMemory() = default]. *)
Definition RawMemory_default : RawMemory := {| buffer_ := nullptr; capacity_ := 0 |}.

(** [explicit RawMemory(size_t capacity)]. *)
Definition RawMemory_ctor (capacity : Z) : MM RawMemory :=
  p ← Allocate capacity; ret {| buffer_ := p; capacity_ := capacity |}.

(** [RawMemory(RawMemory&& rhs) noexcept]: the members of the new object. *)
Definition RawMemory_move_ctor (rhs : raw_ref) : VM RawMemory :=
  p ← get_buffer rhs;
  c ← get_capacity rhs;
  set_buffer rhs nullptr;;
  set_capacity rhs 0;;
  ret {| buffer_ := p; capacity_ := c |}.

(** [void Swap(RawMemory& other) noexcept]. *)
Definition RawMemory_Swap (this other : raw_ref) : VM unit :=
  std_swap (get_buffer this) (set_buffer this) (get_buffer other) (set_buffer other);;
  std_swap (get_capacity this) (set_capacity this)
    (get_capacity other) (set_capacity other).

(** [RawMemory& operator=(RawMemory&& rhs) noexcept]. *)
Definition RawMemory_move_assign (this rhs : raw_ref) : VM unit :=
  if bool_decide (this ≠ rhs) then RawMemory_Swap this rhs else ret tt.

(** [~RawMemory()]. *)
Definition RawMemory_dtor (this : raw_ref) : VM unit :=
  p ← get_buffer this;
  if negb (is_null p) then lift (Deallocate p) else ret tt.

(** [T* operator+(size_t offset) noexcept]. *)
Definition RawMemory_plus (this : raw_ref) (offset : Z) : VM ptr :=
  c ← get_capacity this;
  assert (offset <=? c);;
  p ← get_buffer this;
  ret (ptr_add p offset).

(** [T& operator[](size_t index) noexcept]. *)
Definition RawMemory_index (this : raw_ref) (index : Z) : VM ptr :=
  c ← get_capacity this;
  assert (index <? c);;
  p ← get_buffer this;
  ret (ptr_add p index).

(** [T* GetAddress() noexcept]. *)
Definition GetAddress (this : raw_ref) : VM ptr := get_buffer this.

(** [size_t Capacity() const] of [RawMemory]. *)
Definition RawMemory_Capacity (this : raw_ref) : VM Z := get_capacity this.

(** A block with a local [RawMemory<T> new_data(capacity)]. *)
Definition with_raw {A} (capacity : Z) (body : raw_ref → VM A) : VM A :=
  x ← lift (RawMemory_ctor capacity);
  new_data ← new_raw x;
  finally (body new_data) (RawMemory_dtor new_data;; end_raw new_data).

(** ** Vector<T> *)

(** [iterator begin() noexcept]. *)
Definition Vector_begin (this : loc) : VM ptr := GetAddress (VecData this).

(** [iterator end() noexcept]. *)
Definition Vector_end (this : loc) : VM ptr :=
  s ← get_size this; RawMemory_plus (VecData this) s.

Definition cbegin (this : loc) : VM ptr := Vector_begin this.
Definition cend (this : loc) : VM ptr := Vector_end this.

(** [size_t Size() const noexcept]. *)
Definition Size (this : loc) : VM Z := get_size this.

(** [size_t Capacity() const noexcept]. *)
Definition Capacity (this : loc) : VM Z := RawMemory_Capacity (VecData this).

(** [++size_]. *)
Definition incr_size (this : loc) : VM unit :=
  s ← get_size this; set_size this (wrap (s + 1)).

(** [explicit Vector() noexcept = default]. *)
Definition Vector_default : Vector := {| data_ := RawMemory_default; size_ := 0 |}.
Definition Vector_ctor : VM loc := new_vec Vector_default.

(** [~Vector()], followed by the destructor of the member [data_]. *)
Definition Vector_dtor (this : loc) : VM unit :=
  s ← get_size this;
  (if negb (s =? 0) then
     p ← GetAddress (VecData this); lift (destroy_n p s)
   else ret tt);;
  RawMemory_dtor (VecData this).

(** [explicit Vector(size_t size)].  When the body throws, the member
    [data_] is destroyed and the object never comes to life. *)
Definition Vector_ctor_size (size : Z) : VM loc :=
  d ← lift (RawMemory_ctor size);
  this ← new_vec {| data_ := d; size_ := size |};
  try_catch
    (p ← GetAddress (VecData this); lift (uninitialized_value_construct_n p size))
    (RawMemory_dtor (VecData this);; end_vec this;; throw);;
  ret this.

(** [Vector(const Vector& other)]. *)
Definition Vector_copy_ctor (other : loc) : VM loc :=
  n ← get_size other;
  d ← lift (RawMemory_ctor n);
  this ← new_vec {| data_ := d; size_ := n |};
  try_catch
    (src ← GetAddress (VecData other);
     s ← get_size this;
     dst ← GetAddress (VecData this);
     lift (uninitialized_copy_n src s dst))
    (RawMemory_dtor (VecData this);; end_vec this;; throw);;
  ret this.

(** [Vector(Vector&& other) noexcept]. *)
Definition Vector_move_ctor (other : loc) : VM loc :=
  d ← RawMemory_move_ctor (VecData other);
  s ← get_size other;
  this ← new_vec {| data_ := d; size_ := s |};
  set_size other 0;;
  ret this.

(** [void Swap(Vector& other) noexcept]. *)
Definition Swap (this other : loc) : VM unit :=
  RawMemory_Swap (VecData this) (VecData other);;
  std_swap (get_size this) (set_size this) (get_size other) (set_size other).

(** [void CopyWithOldCopacity(const Vector& rhs)]. *)
Definition CopyWithOldCopacity (this rhs : loc) : VM unit :=
  rs ← Size rhs;
  ts ← Size this;
  let copy_size := if rs <? ts then rs else ts in
  (if rs <? ts then
     p ← RawMemory_plus (VecData this) rs;
     s ← get_size this;
     lift (destroy_n p (wrap (s - rs)))
   else
     p ← RawMemory_plus (VecData rhs) ts;
     s ← get_size this;
     d ← GetAddress (VecData this);
     lift (uninitialized_copy_n p (wrap (rs - s)) d));;
  first ← GetAddress (VecData rhs);
  last ← RawMemory_plus (VecData rhs) copy_size;
  d ← GetAddress (VecData this);
  lift (std_copy first last d);;
  rs ← Size rhs;
  set_size this rs.

(** [Vector& operator=(const Vector& rhs)]. *)
Definition Vector_copy_assign (this rhs : loc) : VM unit :=
  if bool_decide (this ≠ rhs) then
    rs ← Size rhs;
    c ← Capacity this;
    if c <? rs then
      copy ← Vector_copy_ctor rhs;
      finally (Swap this copy) (Vector_dtor copy;; end_vec copy)
    else CopyWithOldCopacity this rhs
  else ret tt.

(** [Vector& operator=(Vector&& rhs) noexcept]. *)
Definition Vector_move_assign (this rhs : loc) : VM unit :=
  if bool_decide (this ≠ rhs) then
    RawMemory_Swap (VecData this) (VecData rhs);;
    std_swap (get_size this) (set_size this) (get_size rhs) (set_size rhs)
  else ret tt.

(** [static void CopyOrMoveInNewData(T* from, size_t size, T* to)]. *)
Definition CopyOrMoveInNewData (from : ptr) (size : Z) (to : ptr) : MM unit :=
  if nothrow_move_constructible || negb copy_constructible then
    uninitialized_move_n from size to
  else
    uninitialized_copy_n from size to.

(** [void Reserve(size_t new_capacity)]. *)
Definition Reserve (this : loc) (new_capacity : Z) : VM unit :=
  c ← RawMemory_Capacity (VecData this);
  if new_capacity <=? c then ret tt
  else
    with_raw new_capacity (λ new_data,
      from ← GetAddress (VecData this);
      s ← get_size this;
      to ← GetAddress new_data;
      lift (CopyOrMoveInNewData from s to);;
      lift (destroy_n from s);;
      RawMemory_Swap (VecData this) new_data).

(** [void Resize(size_t new_size)]. *)
Definition Resize (this : loc) (new_size : Z) : VM unit :=
  s ← get_size this;
  if new_size =? s then ret tt
  else
    (if new_size <? s then
       p ← RawMemory_plus (VecData this) new_size;
       lift (destroy_n p (wrap (s - new_size)))
     else
       Reserve this new_size;;
       p ← RawMemory_plus (VecData this) s;
       lift (uninitialized_value_construct_n p (wrap (new_size - s))));;
    set_size this new_size.

(** [void PopBack() noexcept]. *)
Definition PopBack (this : loc) : VM unit :=
  s ← get_size this;
  if s =? 0 then ret tt
  else
    set_size this (wrap (s - 1));;
    s' ← get_size this;
    p ← RawMemory_plus (VecData this) s';
    lift (destroy_at p).

(** [void CopyData(T* from, size_t size, T* to, RawMemory<T>& new_data,
    T* new_pos)]. *)
Definition CopyData (this : loc) (from : ptr) (size : Z) (to : ptr)
    (new_data : raw_ref) (new_pos : ptr) : VM unit :=
  try_catch (lift (CopyOrMoveInNewData from size to))
    (lift (destroy_at new_pos);;
     a ← GetAddress new_data;
     b ← Vector_begin this;
     k ← ptr_diff from b;
     lift (destroy_n a k);;
     throw).

(** [assert(cpos >= cbegin() || cpos <= cend())]: the asserted expression. *)
Definition Emplace_assertion (this : loc) (cpos : ptr) : VM bool :=
  b ← cbegin this;
  if ptr_geb cpos b then ret true
  else e ← cend this; ret (ptr_leb cpos e).

(** [assert(cpos >= cbegin() || cpos < cend())]: the asserted expression. *)
Definition Erase_assertion (this : loc) (cpos : ptr) : VM bool :=
  b ← cbegin this;
  if ptr_geb cpos b then ret true
  else e ← cend this; ret (ptr_ltb cpos e).

(** [iterator Emplace(const_iterator cpos, Types&&... values)]. *)
Definition Emplace (this : loc) (cpos : ptr) (values : ctor_args) : VM ptr :=
  ok ← Emplace_assertion this cpos;
  assert ok;;
  let pos := cpos in
  s ← get_size this;
  c ← Capacity this;
  if s =? c then
    with_raw (if s =? 0 then 1 else wrap (2 * c)) (λ new_data,
      if s =? 0 then
        new_pos ← GetAddress new_data;
        lift (construct_at new_pos values);;
        RawMemory_Swap (VecData this) new_data;;
        incr_size this;;
        ret new_pos
      else
        b ← Vector_begin this;
        before ← ptr_diff pos b;
        e ← Vector_end this;
        after ← ptr_diff e pos;
        new_pos ← RawMemory_plus new_data (wrap before);
        lift (construct_at new_pos values);;
        to ← GetAddress new_data;
        CopyData this b (wrap before) to new_data new_pos;;
        CopyData this pos (wrap after) (ptr_add new_pos 1) new_data new_pos;;
        old ← GetAddress (VecData this);
        lift (destroy_n old s);;
        RawMemory_Swap (VecData this) new_data;;
        incr_size this;;
        ret new_pos)
  else
    e ← Vector_end this;
    if ptr_eqb pos e then
      lift (construct_at pos values);;
      incr_size this;;
      ret pos
    else
      tmp ← lift (construct_value values);
      lift (move_construct e (ptr_add e (-1)));;
      lift (std_move_backward pos (ptr_add e (-1)) e);;
      lift (move_assign_local pos tmp);;
      incr_size this;;
      ret pos.

(** [T& EmplaceBack(Types&&... values)]. *)
Definition EmplaceBack (this : loc) (values : ctor_args) : VM ptr :=
  e ← Vector_end this; Emplace this e values.

(** [void PushBack(const T& value)] and [void PushBack(T&& value)]. *)
Definition PushBack (this : loc) (value : ctor_args) : VM unit :=
  EmplaceBack this value;; ret tt.

(** [iterator Insert(const_iterator cpos, const T& value)] and
    [iterator Insert(const_iterator cpos, T&& value)]. *)
Definition Insert (this : loc) (cpos : ptr) (value : ctor_args) : VM ptr :=
  Emplace this cpos value.

(** [iterator Erase(const_iterator cpos)]. *)
Definition Erase (this : loc) (cpos : ptr) : VM ptr :=
  ok ← Erase_assertion this cpos;
  assert ok;;
  let pos := cpos in
  e ← Vector_end this;
  lift (std_move (ptr_add pos 1) e pos);;
  PopBack this;;
  ret pos.

(** [T& operator[](size_t index) noexcept]. *)
Definition Vector_index (this : loc) (index : Z) : VM ptr :=
  s ← get_size this;
  assert (index <? s);;
  RawMemory_index (VecData this) index.

(** ** The representation invariant *)

(** The block of a vector of capacity [cap] that holds [elems]: the elements
    in its first slots, the other slots uninitialized. *)
Definition blk_of (elems : list T) (cap : nat) : list (option T) :=
  (Some <$> elems) ++ replicate (cap - length elems) None.

(** [vec_repr h v elems]: in the heap [h] the vector object [v] holds exactly
    the elements [elems]: its size is their number and is at most its
    capacity, its capacity is a number of slots that [operator new] can
    provide, its buffer is null exactly when the capacity is 0, and
    otherwise is the start of a block of [capacity] slots of which the first
    [size] hold the elements and the others are uninitialized. *)
Definition vec_repr (h : gmap addr (list (option T))) (v : Vector)
    (elems : list T) : Prop :=
  size_ v = Z.of_nat (length elems) ∧
  size_ v ≤ capacity_ (data_ v) ≤ max_slots ∧
  p_off (buffer_ (data_ v)) = 0 ∧
  match p_blk (buffer_ (data_ v)) with
  | None => capacity_ (data_ v) = 0
  | Some a =>
      0 < capacity_ (data_ v) ∧
      h !! a = Some (blk_of elems (Z.to_nat (capacity_ (data_ v))))
  end.

(** What a caller can see of the vector at [this]: its slots, its size and
    its capacity. *)
Definition observe (this : loc) : VM (list (option T) * Z * Z) :=
  v ← (λ σ, match vecs σ !! this with
            | Some v => Ok v σ
            | None => Fault Undefined
            end);
  slots ← (λ σ, match p_blk (buffer_ (data_ v)) with
                | Some a => Ok (default [] (heap (mem σ) !! a)) σ
                | None => Ok [] σ
                end);
  ret (slots, size_ v, capacity_ (data_ v)).

(** The invariant of the vector at [this] in the state [σ]. *)
Definition Vector_invariant (σ : state) (this : loc) : Prop :=
  ∃ v elems, vecs σ !! this = Some v ∧ vec_repr (heap (mem σ)) v elems.

(** What the constructor arguments [values] make when run in the heap [h]. *)
Definition args_value (h : gmap addr (list (option T))) (values : ctor_args)
    (x : T) : Prop :=
  match values with
  | CtorValue v => x = v
  | CtorCopyOf p => slot_at h p = Some (Some x)
  end.

(** The capacity after a growth by [Emplace]. *)
Definition grown_capacity (c : Z) : Z := if c =? 0 then 1 else 2 * c.

(** [relocated sb sb' o n]: the block [sb'] is the block [sb] after elements
    of its slots [[o, o + n)] have been copied or moved elsewhere: every
    live slot is still live, and the slots outside the range are
    untouched. *)
Definition relocated (sb sb' : list (option T)) (o n : nat) : Prop :=
  length sb' = length sb ∧
  (∀ i, (i < o ∨ o + n ≤ i)%nat → sb' !! i = sb !! i) ∧
  (∀ i w, sb !! i = Some (Some w) → ∃ w', sb' !! i = Some (Some w')).

(** What [Emplace] at offset [j] with arguments making [x] has done when it
    returns [r]: the vector at [this] holds the old elements with [x]
    inserted at [j], [r] points to the slot [j] of its buffer, its capacity
    has grown exactly when the vector was full, and no other object has
    changed. *)
Definition Emplace_returns (σ : state) (this : loc) (v : Vector)
    (elems : list T) (j : nat) (x : T) (r : ptr) (σ' : state) : Prop :=
  ∃ v',
    raws σ' = raws σ ∧
    vecs σ' = <[this := v']> (vecs σ) ∧
    r = ptr_add (buffer_ (data_ v')) (Z.of_nat j) ∧
    vec_repr (heap (mem σ')) v' (take j elems ++ x :: drop j elems) ∧
    capacity_ (data_ v') =
      (if size_ v =? capacity_ (data_ v)
       then grown_capacity (capacity_ (data_ v))
       else capacity_ (data_ v)) ∧
    (fuse (mem σ) = None → fuse (mem σ') = None).

(** What holds when [Emplace] throws: a fault was scheduled or the grown
    capacity cannot be allocated; and when the vector was full and the
    relocation copies or cannot throw, every object and the heap are as
    before the call. *)
Definition Emplace_throws (σ : state) (v : Vector) (σ' : state) : Prop :=
  (fuse (mem σ) ≠ None ∨
   (size_ v = capacity_ (data_ v) ∧
    max_slots < grown_capacity (capacity_ (data_ v)))) ∧
  (size_ v = capacity_ (data_ v) →
   nothrow_move_constructible || copy_constructible = true →
   raws σ' = raws σ ∧ vecs σ' = vecs σ ∧ heap (mem σ') = heap (mem σ)).

(** What [Erase] at offset [j] has done when it returns [r]: the vector at
    [this] holds the old elements without the one at [j], in the same
    buffer and with the same capacity, [r] is the position it was given, and
    no other object has changed. *)
Definition Erase_returns (σ : state) (this : loc) (v : Vector)
    (elems : list T) (j : nat) (r : ptr) (σ' : state) : Prop :=
  ∃ v',
    raws σ' = raws σ ∧
    vecs σ' = <[this := v']> (vecs σ) ∧
    r = ptr_add (buffer_ (data_ v)) (Z.of_nat j) ∧
    data_ v' = data_ v ∧
    size_ v' = size_ v - 1 ∧
    vec_repr (heap (mem σ')) v' (take j elems ++ drop (S j) elems) ∧
    (fuse (mem σ) = None → fuse (mem σ') = None).

(** ** The operations on a vector *)

(** The member functions of [Vector] that can be called on an existing
    vector, other than the move constructor (from this vector), the move
    assignment and [Swap]. *)
Inductive operation :=
| OpBegin
| OpEnd
| OpSize
| OpCapacity
| OpIndex (index : Z)
| OpCopyFrom                       (* the source of a copy construction *)
| OpCopyAssignTo (lhs : loc)       (* the source of a copy assignment *)
| OpCopyWithOldCopacity (rhs : loc)
| OpCopyAssign (rhs : loc)
| OpReserve (new_capacity : Z)
| OpResize (new_size : Z)
| OpEmplaceBack (values : ctor_args)
| OpPushBack (value : ctor_args)
| OpPopBack
| OpInsert (cpos : ptr) (value : ctor_args)
| OpCopyData (from : ptr) (size : Z) (to : ptr) (new_data : raw_ref) (new_pos : ptr)
| OpEmplace (cpos : ptr) (values : ctor_args)
| OpErase (cpos : ptr).

Definition run_op (this : loc) (op : operation) : VM unit :=
  match op with
  | OpBegin => Vector_begin this;; ret tt
  | OpEnd => Vector_end this;; ret tt
  | OpSize => Size this;; ret tt
  | OpCapacity => Capacity this;; ret tt
  | OpIndex index => Vector_index this index;; ret tt
  | OpCopyFrom => Vector_copy_ctor this;; ret tt
  | OpCopyAssignTo lhs => Vector_copy_assign lhs this
  | OpCopyWithOldCopacity rhs => CopyWithOldCopacity this rhs
  | OpCopyAssign rhs => Vector_copy_assign this rhs
  | OpReserve new_capacity => Reserve this new_capacity
  | OpResize new_size => Resize this new_size
  | OpEmplaceBack values => EmplaceBack this values;; ret tt
  | OpPushBack value => PushBack this value
  | OpPopBack => PopBack this
  | OpInsert cpos value => Insert this cpos value;; ret tt
  | OpCopyData from size to new_data new_pos =>
      CopyData this from size to new_data new_pos
  | OpEmplace cpos values => Emplace this cpos values;; ret tt
  | OpErase cpos => Erase this cpos;; ret tt
  end.

(** The vector at [this] exists and has a capacity of at least [c]. *)
Definition capacity_at_least (this : loc) (c : Z) (σ : state) : Prop :=
  ∃ v, vecs σ !! this = Some v ∧ c ≤ capacity_ (data_ v).

(** ** The storage of a vector along its operations *)

(** The heap [h] once the block of the buffer [p] is released. *)
Definition released (h : gmap addr (list (option T))) (p : ptr)
    : gmap addr (list (option T)) :=
  match p_blk p with
  | Some a => delete a h
  | None => h
  end.

(** The heap [h] with the block of the buffer [p] holding the slots [b]. *)
Definition stored (h : gmap addr (list (option T))) (p : ptr)
    (b : list (option T)) : gmap addr (list (option T)) :=
  match p_blk p with
  | Some a => <[a := b]> h
  | None => h
  end.

(** An operation that took the vector object from [v] to [v'] and the heap
    from [h] to [h'] has kept the storage: the buffer and the capacity are
    the same, the block of the vector now holds [elems'] and no other block
    has changed. *)
Definition storage_kept (h : gmap addr (list (option T))) (v : Vector)
    (elems' : list T) (v' : Vector) (h' : gmap addr (list (option T))) : Prop :=
  data_ v' = data_ v ∧
  h' = stored h (buffer_ (data_ v))
         (blk_of elems' (Z.to_nat (capacity_ (data_ v)))).

(** The operation has renewed the storage: the buffer of [v'] is a block
    that did not exist in [h] and now holds [elems'], the block of [v] is
    released, and no other block has changed. *)
Definition storage_renewed (h : gmap addr (list (option T))) (v : Vector)
    (elems' : list T) (v' : Vector) (h' : gmap addr (list (option T))) : Prop :=
  ∃ a', h !! a' = None ∧
        buffer_ (data_ v') = Ptr (Some a') 0 ∧
        h' = <[a' := blk_of elems' (Z.to_nat (capacity_ (data_ v')))]>
               (released h (buffer_ (data_ v))).

(** What [Emplace] at offset [j] with arguments making [x] has done to the
    storage when it returns: renewed it when the vector was full, kept it
    otherwise. *)
Definition Emplace_storage (σ : state) (this : loc) (v : Vector)
    (elems : list T) (j : nat) (x : T) (σ' : state) : Prop :=
  ∃ v', vecs σ' !! this = Some v' ∧
        if size_ v =? capacity_ (data_ v)
        then storage_renewed (heap (mem σ)) v
               (take j elems ++ x :: drop j elems) v' (heap (mem σ'))
        else storage_kept (heap (mem σ)) v
               (take j elems ++ x :: drop j elems) v' (heap (mem σ')).

(** The objects and the heap of [σ'] are those of [σ]. *)
Definition unchanged (σ σ' : state) : Prop :=
  raws σ' = raws σ ∧ vecs σ' = vecs σ ∧ heap (mem σ') = heap (mem σ).

(** No fault is scheduled in [σ'] unless one was in [σ]. *)
Definition no_new_fault (σ σ' : state) : Prop :=
  fuse (mem σ) = None → fuse (mem σ') = None.

(** What holds when [Emplace] below the capacity, at a position before the
    end, throws: either every object and the heap are as before the call,
    or the last element had already been moved into the slot behind it; no
    object has changed then, so the size is the old one, while the block of
    the vector holds one more live element than the size. *)
Definition Emplace_in_place_throws (σ : state) (v : Vector) (elems : list T)
    (σ' : state) : Prop :=
  unchanged σ σ' ∨
  (raws σ' = raws σ ∧ vecs σ' = vecs σ ∧
   ∃ elems2, length elems2 = S (length elems) ∧
             heap (mem σ') =
               stored (heap (mem σ)) (buffer_ (data_ v))
                 (blk_of elems2 (Z.to_nat (capacity_ (data_ v))))).

(** What holds when the relocation of the elements into a new block
    throws, whatever [T] is: no object has changed, the block of the vector
    holds as many live elements as before, and no other block has changed,
    so the new block is gone. *)
Definition relocation_throws (σ : state) (v : Vector) (elems : list T)
    (σ' : state) : Prop :=
  raws σ' = raws σ ∧ vecs σ' = vecs σ ∧
  ∃ elems', length elems' = length elems ∧
            heap (mem σ') =
              stored (heap (mem σ)) (buffer_ (data_ v))
                (blk_of elems' (Z.to_nat (capacity_ (data_ v)))).

(** The memory [μ] in the course of a relocation of [n] elements from the
    block [sb] at [a] of the heap [h] into a block at [a']: only these two
    blocks differ from [h], every live slot of the source is still live and
    the slots of the source beyond the first [n] are untouched. *)
Definition relocating (h : gmap addr (list (option T))) (a a' : addr)
    (sb : list (option T)) (n : nat) (μ : memory) : Prop :=
  ∃ sb' db', heap μ = <[a' := db']> (<[a := sb']> h) ∧ relocated sb sb' 0 n.

(** ** Well-formed states and the calls of a program *)

(** The vector object at [l] owns the block [a]. *)
Definition owns (vs : gmap loc Vector) (l : loc) (a : addr) : Prop :=
  ∃ v, vs !! l = Some v ∧ p_blk (buffer_ (data_ v)) = Some a.

(** The vector objects [vs] and the heap [h] are well formed: every vector
    satisfies the invariant of the class, no block is owned by two vectors,
    and every block of the heap is owned by a vector. *)
Definition wf (vs : gmap loc Vector) (h : gmap addr (list (option T))) : Prop :=
  (∀ l v, vs !! l = Some v → ∃ elems, vec_repr h v elems) ∧
  (∀ l l' a, owns vs l a → owns vs l' a → l = l') ∧
  (∀ a, is_Some (h !! a) → ∃ l, owns vs l a).

Definition heap_wf (σ : state) : Prop := wf (vecs σ) (heap (mem σ)).

(** The calls a program can make on its vectors: the constructors, the end
    of the lifetime of a vector, and the public member functions that
    change a vector.  A position is given by its offset from [begin()]. *)
Inductive call :=
| NewVector
| NewVectorOfSize (n : Z)
| NewCopy (other : loc)
| NewMoved (other : loc)
| Destroy (this : loc)
| CopyAssign (this rhs : loc)
| MoveAssign (this rhs : loc)
| CallSwap (this other : loc)
| CallReserve (this : loc) (n : Z)
| CallResize (this : loc) (n : Z)
| CallPushBack (this : loc) (value : ctor_args)
| CallEmplaceBack (this : loc) (values : ctor_args)
| CallPopBack (this : loc)
| CallInsert (this : loc) (j : nat) (value : ctor_args)
| CallEmplace (this : loc) (j : nat) (values : ctor_args)
| CallErase (this : loc) (j : nat).

Definition run_call (c : call) : VM unit :=
  match c with
  | NewVector => Vector_ctor;; ret tt
  | NewVectorOfSize n => Vector_ctor_size n;; ret tt
  | NewCopy other => Vector_copy_ctor other;; ret tt
  | NewMoved other => Vector_move_ctor other;; ret tt
  | Destroy this => Vector_dtor this;; end_vec this
  | CopyAssign this rhs => Vector_copy_assign this rhs
  | MoveAssign this rhs => Vector_move_assign this rhs
  | CallSwap this other => Swap this other
  | CallReserve this n => Reserve this n
  | CallResize this n => Resize this n
  | CallPushBack this value => PushBack this value
  | CallEmplaceBack this values => EmplaceBack this values;; ret tt
  | CallPopBack this => PopBack this
  | CallInsert this j value =>
      b ← Vector_begin this; Insert this (ptr_add b (Z.of_nat j)) value;; ret tt
  | CallEmplace this j values =>
      b ← Vector_begin this; Emplace this (ptr_add b (Z.of_nat j)) values;; ret tt
  | CallErase this j =>
      b ← Vector_begin this; Erase this (ptr_add b (Z.of_nat j));; ret tt
  end.

(** The constructor arguments are usable in the heap [h]: they alias no
    element, or they are a reference to a live element. *)
Definition args_usable (h : gmap addr (list (option T))) (values : ctor_args)
    : Prop :=
  ∃ x, args_value h values x.

(** What the class asks of its callers: the vectors named exist, a size is
    not negative and its byte count [n * sizeof(T)] does not wrap around,
    a position of an insertion is in [[begin, end]] and a
    position of an erasure in [[begin, end)], a reference argument is bound
    to a live element.  A copy assignment within the capacity of the
    destination is left out when the destination is not empty and holds
    fewer elements than the source. *)
Definition call_allowed (σ : state) (c : call) : Prop :=
  match c with
  | NewVector => True
  | NewVectorOfSize n => 0 ≤ n ∧ n * sizeof_T < SIZE_MODULUS
  | NewCopy other | NewMoved other => is_Some (vecs σ !! other)
  | Destroy this | CallPopBack this => is_Some (vecs σ !! this)
  | CopyAssign this rhs =>
      ∃ v w, vecs σ !! this = Some v ∧ vecs σ !! rhs = Some w ∧
             (this = rhs ∨ capacity_ (data_ v) < size_ w ∨
              size_ w ≤ size_ v ∨ size_ v = 0)
  | MoveAssign this rhs | CallSwap this rhs =>
      is_Some (vecs σ !! this) ∧ is_Some (vecs σ !! rhs)
  | CallReserve this n | CallResize this n =>
      is_Some (vecs σ !! this) ∧ 0 ≤ n ∧ n * sizeof_T < SIZE_MODULUS
  | CallPushBack this values | CallEmplaceBack this values =>
      is_Some (vecs σ !! this) ∧ args_usable (heap (mem σ)) values
  | CallInsert this j values | CallEmplace this j values =>
      (∃ v, vecs σ !! this = Some v ∧ Z.of_nat j ≤ size_ v) ∧
      args_usable (heap (mem σ)) values
  | CallErase this j =>
      ∃ v, vecs σ !! this = Some v ∧ Z.of_nat j < size_ v
  end.

End vector.

(** ** Element types and runs used as examples *)

(** [int]: every operation is [noexcept] and a move leaves the value. *)
Definition int_element : Element Z := {|
  value_init := 0;
  moved_from := λ x, x;
  nothrow_move_constructible := true;
  copy_constructible := true;
  nothrow_move_assignable := true;
  sizeof_T := 4;
  sizeof_T_bounds := ltac:(split; [reflexivity | discriminate]);
|}.

(** A copyable element whose copy and move constructors may throw:
    relocation copies it. *)
Definition throwing_copy_element : Element Z := {|
  value_init := 0;
  moved_from := λ x, x;
  nothrow_move_constructible := false;
  copy_constructible := true;
  nothrow_move_assignable := false;
  sizeof_T := 4;
  sizeof_T_bounds := ltac:(split; [reflexivity | discriminate]);
|}.

(** A move-only element, like a [std::unique_ptr<int>] whose move
    constructor is not [noexcept]: a move leaves a null pointer behind, and
    relocation moves it. *)
Definition move_only_element : Element (option Z) := {|
  value_init := None;
  moved_from := λ _, None;
  nothrow_move_constructible := false;
  copy_constructible := false;
  nothrow_move_assignable := false;
  sizeof_T := 8;
  sizeof_T_bounds := ltac:(split; [reflexivity | discriminate]);
|}.

(** The program state without objects, with no fault scheduled. *)
Definition empty_state {T} : state (T := T) := State ∅ ∅ (Memory ∅ None).

(** The same state with the [k]-th next fallible operation made to throw. *)
Definition with_fuse {T} (σ : state (T := T)) (k : nat) : state :=
  State (raws σ) (vecs σ) (Memory (heap (mem σ)) (Some k)).

(** [PushBack] of the values [xs], one after the other. *)
Fixpoint push_backs {T} `{!Element T} (this : loc) (xs : list T) : VM unit :=
  match xs with
  | [] => ret tt
  | x :: xs' => PushBack this (CtorValue x);; push_backs this xs'
  end.

(** The capacity of a vector that was empty before [n] calls of
    [PushBack]. *)
Fixpoint capacity_after (n : nat) : Z :=
  match n with
  | O => 0
  | S n' =>
      let c := capacity_after n' in
      if Z.of_nat n' =? c then grown_capacity c else c
  end.

Section int_runs.
#[local] Existing Instance int_element.

(** A vector [dst] holding [1] with capacity 2, a vector [src] holding
    [7, 8], and the copy assignment [dst = src]. *)
Definition copy_assign_within_capacity : outcome (state (T := Z)) (loc * loc) :=
  (dst ← Vector_ctor;
   Reserve dst 2;;
   PushBack dst (CtorValue 1);;
   src ← Vector_ctor;
   PushBack src (CtorValue 7);;
   PushBack src (CtorValue 8);;
   Vector_copy_assign dst src;;
   ret (dst, src)) empty_state.

End int_runs.

(** Two [RawMemory] objects: one holding a block of 2 slots, one holding a
    block of 3 slots. *)
Definition two_raws : state (T := Z) :=
  State
    (<[1%nat := {| buffer_ := Ptr (Some 1%nat) 0; capacity_ := 3 |}]>
       (<[0%nat := {| buffer_ := Ptr (Some 0%nat) 0; capacity_ := 2 |}]> ∅))
    ∅
    (Memory (<[1%nat := replicate 3 None]> (<[0%nat := replicate 2 None]> ∅)) None).

(** A full vector of two elements at location 0, in a block at address 0. *)
Definition full_pair {T} (x y : T) : state (T := T) :=
  State ∅
    (<[0%nat := {| data_ := {| buffer_ := Ptr (Some 0%nat) 0; capacity_ := 2 |};
                   size_ := 2 |}]> ∅)
    (Memory (<[0%nat := [Some x; Some y]]> ∅) None).

(** The state in which a run ends when it throws. *)
Definition thrown_state {Σ A} (o : outcome Σ A) (default : Σ) : Σ :=
  match o with
  | Throw σ => σ
  | _ => default
  end.

(** The result and the state of a run that returns. *)
Definition returned {Σ A} (o : outcome Σ A) : option (A * Σ) :=
  match o with
  | Ok a σ => Some (a, σ)
  | _ => None
  end.

(** The state after [copy_assign_within_capacity]: [dst], at location 0,
    has size 2 and a block whose second slot is uninitialized. *)
Definition after_copy_assign_within_capacity : state (T := Z) :=
  State ∅
    (<[1%nat := {| data_ := {| buffer_ := Ptr (Some 2%nat) 0; capacity_ := 2 |};
                   size_ := 2 |}]>
       (<[0%nat := {| data_ := {| buffer_ := Ptr (Some 0%nat) 0; capacity_ := 2 |};
                      size_ := 2 |}]> ∅))
    (Memory (<[2%nat := [Some 7; Some 8]]> (<[0%nat := [Some 7; None]]> ∅)) None).

(** The vector object of [full_pair]. *)
Definition full_pair_vector : Vector :=
  {| data_ := {| buffer_ := Ptr (Some 0%nat) 0; capacity_ := 2 |}; size_ := 2 |}.

(** A vector of two elements in a block of four slots, at location 0. *)
Definition pair_in_four_vector : Vector :=
  {| data_ := {| buffer_ := Ptr (Some 0%nat) 0; capacity_ := 4 |}; size_ := 2 |}.

Definition pair_in_four {T} (x y : T) : state (T := T) :=
  State ∅ (<[0%nat := pair_in_four_vector]> ∅)
    (Memory (<[0%nat := [Some x; Some y; None; None]]> ∅) None).

(** A full vector holding [1, 2] at location 0 and a full vector holding
    [7, 8, 9] at location 1, each in a block of its own. *)
Definition triple_vector : Vector :=
  {| data_ := {| buffer_ := Ptr (Some 1%nat) 0; capacity_ := 3 |}; size_ := 3 |}.

Definition pair_and_triple : state (T := Z) :=
  State ∅
    (<[1%nat := triple_vector]> (<[0%nat := full_pair_vector]> ∅))
    (Memory (<[1%nat := [Some 7; Some 8; Some 9]]>
               (<[0%nat := [Some 1; Some 2]]> ∅)) None).

(** * Proofs *)

(** ** Rules for [wp] *)

Section wp_rules.
Context {Σ : Type}.
Implicit Types (σ : Σ) (E : Σ → Prop) (F : Prop).

Lemma wp_ret {A} (a : A) (Q : A → Σ → Prop) E F σ :
  Q a σ → wp (ret a) Q E F σ.
Proof. done. Qed.

Lemma wp_bind {A B} (m : M Σ A) (f : A → M Σ B) (Q : B → Σ → Prop) E F σ :
  wp m (λ a σ', wp (f a) Q E F σ') E F σ → wp (bind m f) Q E F σ.
Proof. unfold wp, bind. by destruct (m σ). Qed.

Lemma wp_throw {A} (Q : A → Σ → Prop) E F σ : E σ → wp throw Q E F σ.
Proof. done. Qed.

Lemma wp_undefined {A} (Q : A → Σ → Prop) E F σ : F → wp undefined Q E F σ.
Proof. done. Qed.

Lemma wp_assert (b : bool) (Q : unit → Σ → Prop) E F σ :
  (b = true → Q tt σ) → (b = false → F) → wp (assert b) Q E F σ.
Proof. unfold wp, assert. destruct b; auto. Qed.

Lemma wp_get (Q : Σ → Σ → Prop) E F σ : Q σ σ → wp get Q E F σ.
Proof. done. Qed.

Lemma wp_put σ' (Q : unit → Σ → Prop) E F σ : Q tt σ' → wp (put σ') Q E F σ.
Proof. done. Qed.

Lemma wp_mono {A} (m : M Σ A) (Q Q' : A → Σ → Prop) E E' F F' σ :
  wp m Q E F σ →
  (∀ a σ', Q a σ' → Q' a σ') → (∀ σ', E σ' → E' σ') → (F → F') →
  wp m Q' E' F' σ.
Proof. unfold wp. destruct (m σ); auto. Qed.

Lemma wp_try_catch {A} (m h : M Σ A) (Q : A → Σ → Prop) E F σ :
  wp m Q (λ σ', wp h Q E F σ') F σ → wp (try_catch m h) Q E F σ.
Proof. unfold wp, try_catch. by destruct (m σ). Qed.

Lemma wp_finally {A} (m : M Σ A) (c : M Σ unit) (Q : A → Σ → Prop) E F σ :
  wp m (λ a σ', wp c (λ _ σ'', Q a σ'') E F σ')
       (λ σ', wp c (λ _ σ'', E σ'') E F σ') F σ →
  wp (finally m c) Q E F σ.
Proof.
  unfold wp, finally, bind. destruct (m σ) as [a σ'|σ'|]; [| |done].
  - by destruct (c σ').
  - by destruct (c σ').
Qed.

(** What [wp] says about the three kinds of outcome. *)
Lemma wp_Ok {A} (m : M Σ A) (Q : A → Σ → Prop) E F σ a σ' :
  wp m Q E F σ → m σ = Ok a σ' → Q a σ'.
Proof. unfold wp. intros Hwp Hrun. by rewrite Hrun in Hwp. Qed.

Lemma wp_Throw {A} (m : M Σ A) (Q : A → Σ → Prop) E F σ σ' :
  wp m Q E F σ → m σ = Throw σ' → E σ'.
Proof. unfold wp. intros Hwp Hrun. by rewrite Hrun in Hwp. Qed.

Lemma wp_no_Fault {A} (m : M Σ A) (Q : A → Σ → Prop) E σ e :
  wp m Q E False σ → m σ ≠ Fault e.
Proof. unfold wp. intros Hwp Hrun. by rewrite Hrun in Hwp. Qed.

Lemma wp_returns {A} (m : M Σ A) (Q : A → Σ → Prop) σ :
  wp m Q (λ _, False) False σ → ∃ a σ', m σ = Ok a σ' ∧ Q a σ'.
Proof. unfold wp. destruct (m σ); naive_solver. Qed.

End wp_rules.

(** ** size_t arithmetic *)

Lemma wrap_small z : 0 ≤ z < SIZE_MODULUS → wrap z = z.
Proof. intros. unfold wrap. by apply Z.mod_small. Qed.

Lemma wrap_ptrdiff z : 0 ≤ z ≤ 2 * PTRDIFF_MAX + 1 → wrap z = z.
Proof.
  intros. apply wrap_small.
  change SIZE_MODULUS with (2 * PTRDIFF_MAX + 2). lia.
Qed.

Section slots.
Context {T : Type} `{!Element T}.

(** [n] slots fit in [PTRDIFF_MAX] bytes exactly when [n] is at most
    [max_slots]. *)
Lemma max_slots_bytes n : n ≤ max_slots ↔ n * sizeof_T ≤ PTRDIFF_MAX.
Proof.
  pose proof sizeof_T_bounds as [Hpos _]. unfold max_slots. split; intros Hn.
  - pose proof (Z.mul_div_le PTRDIFF_MAX sizeof_T Hpos). nia.
  - apply Z.div_le_lower_bound; lia.
Qed.

Lemma max_slots_le : max_slots ≤ PTRDIFF_MAX.
Proof.
  pose proof sizeof_T_bounds as [Hpos _].
  pose proof (proj1 (max_slots_bytes max_slots) (Z.le_refl _)).
  assert (0 ≤ max_slots) by (apply Z.div_pos; [done | lia]).
  nia.
Qed.

Lemma max_slots_pos : 0 < max_slots.
Proof.
  pose proof sizeof_T_bounds as [_ Hle].
  pose proof (proj2 (max_slots_bytes 1)). lia.
Qed.

Lemma wrap_slots z : 0 ≤ z ≤ 2 * max_slots + 1 → wrap z = z.
Proof. intros. apply wrap_ptrdiff. pose proof max_slots_le. lia. Qed.

(** The byte count of a request of at most twice [max_slots] slots does
    not wrap around. *)
Lemma bytes_fit n :
  0 ≤ n ≤ 2 * max_slots → 0 ≤ n * sizeof_T < SIZE_MODULUS.
Proof.
  intros Hn.
  pose proof sizeof_T_bounds as [Hpos _].
  pose proof (proj1 (max_slots_bytes max_slots) (Z.le_refl _)).
  change SIZE_MODULUS with (2 * PTRDIFF_MAX + 2). nia.
Qed.

End slots.

(** ** Rules for the memory operations *)

Section memory_rules.
Context {T : Type} `{!Element T}.
Implicit Types (h : gmap addr (list (option T))) (f : option nat).
Implicit Types (b : list (option T)) (a : addr) (o : Z) (v : T).
Implicit Types (E : memory (T:=T) → Prop) (F : Prop).

Lemma slot_at_block h a o b :
  h !! a = Some b → 0 ≤ o → slot_at h (Ptr (Some a) o) = b !! Z.to_nat o.
Proof.
  intros Ha Ho. unfold slot_at. cbn [p_blk p_off]. rewrite Ha.
  destruct (Z.leb_spec 0 o); [done | lia].
Qed.

Lemma set_slot_block h a o b s :
  h !! a = Some b →
  set_slot h (Ptr (Some a) o) s = <[a := <[Z.to_nat o := s]> b]> h.
Proof. intros Ha. unfold set_slot. cbn [p_blk p_off]. by rewrite Ha. Qed.

(** A fallible operation either goes through, and no fault appears in the
    schedule that was not there, or throws, which takes a scheduled fault. *)
Lemma wp_tick (Q : unit → memory → Prop) E F h f :
  (∀ f', (f = None → f' = None) → Q tt (Memory h f')) →
  (f ≠ None → E (Memory h None)) →
  wp tick Q E F (Memory h f).
Proof.
  intros HQ HE. unfold wp, tick. cbn [heap fuse]. destruct f as [[|k]|]; auto.
  apply HQ. done.
Qed.

Lemma wp_tick_unless (nothrow : bool) (Q : unit → memory → Prop) E F h f :
  (∀ f', (f = None → f' = None) → (nothrow = true → f' = f) →
         Q tt (Memory h f')) →
  (f ≠ None → nothrow = false → E (Memory h None)) →
  wp (tick_unless nothrow) Q E F (Memory h f).
Proof.
  intros HQ HE. destruct nothrow; simpl.
  - apply wp_ret. by apply HQ.
  - apply wp_tick; [|by auto]. intros f' Hf. apply HQ; [done | done].
Qed.

Lemma wp_load (Q : T → memory → Prop) E F h f a o b v :
  h !! a = Some b → 0 ≤ o → b !! Z.to_nat o = Some (Some v) →
  Q v (Memory h f) →
  wp (load (Ptr (Some a) o)) Q E F (Memory h f).
Proof.
  intros Ha Ho Hv HQ. unfold wp, load. cbn [heap fuse].
  by rewrite (slot_at_block _ _ _ _ Ha Ho), Hv.
Qed.

Lemma wp_place (Q : unit → memory → Prop) E F h f a o b v :
  h !! a = Some b → 0 ≤ o → (Z.to_nat o < length b)%nat →
  Q tt (Memory (<[a := <[Z.to_nat o := Some v]> b]> h) f) →
  wp (place (Ptr (Some a) o) v) Q E F (Memory h f).
Proof.
  intros Ha Ho Hlen HQ. unfold wp, place. cbn [heap fuse].
  rewrite (slot_at_block _ _ _ _ Ha Ho).
  destruct (lookup_lt_is_Some_2 b _ Hlen) as [s ->].
  by rewrite (set_slot_block _ _ _ _ _ Ha).
Qed.

Lemma wp_assign (Q : unit → memory → Prop) E F h f a o b v w :
  h !! a = Some b → 0 ≤ o → b !! Z.to_nat o = Some (Some w) →
  Q tt (Memory (<[a := <[Z.to_nat o := Some v]> b]> h) f) →
  wp (assign (Ptr (Some a) o) v) Q E F (Memory h f).
Proof.
  intros Ha Ho Hw HQ. unfold wp, assign. cbn [heap fuse].
  rewrite (slot_at_block _ _ _ _ Ha Ho), Hw.
  by rewrite (set_slot_block _ _ _ _ _ Ha).
Qed.

Lemma wp_destroy_at (Q : unit → memory → Prop) E F h f a o b w :
  h !! a = Some b → 0 ≤ o → b !! Z.to_nat o = Some (Some w) →
  Q tt (Memory (<[a := <[Z.to_nat o := None]> b]> h) f) →
  wp (destroy_at (Ptr (Some a) o)) Q E F (Memory h f).
Proof.
  intros Ha Ho Hw HQ. unfold wp, destroy_at. cbn [heap fuse].
  rewrite (slot_at_block _ _ _ _ Ha Ho), Hw.
  by rewrite (set_slot_block _ _ _ _ _ Ha).
Qed.

(** A memory operation changes the memory only. *)
Lemma wp_lift {A} (m : MM A) (Q : A → state → Prop) (E : state → Prop) F
    (σ : state (T:=T)) :
  wp m (λ x μ, Q x (State (raws σ) (vecs σ) μ))
       (λ μ, E (State (raws σ) (vecs σ) μ)) F (mem σ) →
  wp (lift m) Q E F σ.
Proof. unfold wp, lift. by destruct (m (mem σ)). Qed.

(** Whatever a memory operation does, the objects are as before. *)
Lemma wp_lift_any {A} (m : MM A) (Q : A → state → Prop) (E : state → Prop)
    (σ : state (T:=T)) :
  (∀ x μ, Q x (State (raws σ) (vecs σ) μ)) →
  (∀ μ, E (State (raws σ) (vecs σ) μ)) →
  wp (lift m) Q E True σ.
Proof. intros HQ HE. unfold wp, lift. destruct (m (mem σ)); auto. Qed.

End memory_rules.

(** ** Lists as blocks of slots *)

Section list_facts.
Context {A : Type}.
Implicit Types (l k : list A) (i j n : nat) (x y : A).

Lemma lookup_inserts_case l i k j :
  list_inserts i k l !! j =
    if decide (i ≤ j < i + length k ∧ j < length l)%nat then k !! (j - i)%nat
    else l !! j.
Proof.
  case_decide as Hc.
  - apply list_lookup_inserts; lia.
  - destruct (decide (j < i)%nat); [by apply list_lookup_inserts_lt|].
    destruct (decide (i + length k ≤ j)%nat); [by apply list_lookup_inserts_ge|].
    assert (length l ≤ j)%nat as Hj by lia.
    rewrite (lookup_ge_None_2 l j Hj). apply lookup_ge_None_2.
    by rewrite length_inserts.
Qed.

Lemma lookup_replicate_case n x i :
  replicate n x !! i = if decide (i < n)%nat then Some x else None.
Proof.
  case_decide.
  - by apply lookup_replicate_2.
  - apply lookup_ge_None_2. rewrite length_replicate. lia.
Qed.

Lemma inserts_snoc l i k x :
  (i + length k < length l)%nat →
  <[(i + length k)%nat := x]> (list_inserts i k l) = list_inserts i (k ++ [x]) l.
Proof.
  intros Hlen. rewrite list_inserts_app_l. simpl.
  by rewrite (Nat.add_comm (length k) i).
Qed.

Lemma inserts_id l i k :
  (∀ j, (j < length k)%nat → l !! (i + j)%nat = k !! j) → list_inserts i k l = l.
Proof.
  intros Hk. apply list_eq. intros j. rewrite lookup_inserts_case.
  case_decide as Hc; [|done].
  rewrite <-(Hk (j - i)%nat) by lia. f_equal. lia.
Qed.

Lemma inserts_inserts_same l i k k' :
  length k = length k' →
  list_inserts i k (list_inserts i k' l) = list_inserts i k l.
Proof.
  intros Hlen. apply list_eq. intros j. rewrite !lookup_inserts_case.
  rewrite length_inserts. case_decide as Hc; [done|].
  case_decide as Hc'; [|done]. lia.
Qed.

End list_facts.

(** ** The loops *)

Section loops.
Context {T : Type} `{!Element T}.
Implicit Types (h : gmap addr (list (option T))) (f : option nat).
Implicit Types (b : list (option T)) (a : addr) (o : Z) (v : T).
Implicit Types (E : memory (T:=T) → Prop) (F : Prop).


Lemma wp_destroy_loop (Q : unit → memory → Prop) E F h f a o (n : nat) b :
  h !! a = Some b → 0 ≤ o →
  (∀ i, (Z.to_nat o ≤ i < Z.to_nat o + n)%nat → ∃ v, b !! i = Some (Some v)) →
  Q tt (Memory (<[a := list_inserts (Z.to_nat o) (replicate n None) b]> h) f) →
  wp (destroy_loop (Ptr (Some a) o) n) Q E F (Memory h f).
Proof.
  revert h o b. induction n as [|n IH]; intros h o b Ha Ho Hlive HQ.
  - simpl in *. rewrite insert_id in HQ by done. by apply wp_ret.
  - simpl destroy_loop. apply wp_bind.
    destruct (Hlive (Z.to_nat o)) as [w Hw]; [lia|].
    eapply wp_destroy_at; [done..|].
    unfold ptr_add; cbn [p_blk p_off].
    eapply IH.
    + apply lookup_insert_eq.
    + lia.
    + intros i Hi. destruct (Hlive i) as [w' Hw']; [lia|].
      exists w'. rewrite list_lookup_insert_ne by lia. done.
    + rewrite insert_insert_eq.
      replace (Z.to_nat (o + 1)) with (S (Z.to_nat o)) by lia.
      rewrite <-list_insert_inserts_lt by lia. done.
Qed.

Lemma wp_destroy_n (Q : unit → memory → Prop) E F h f a o n b :
  h !! a = Some b → 0 ≤ o →
  (∀ i, (Z.to_nat o ≤ i < Z.to_nat o + Z.to_nat n)%nat →
        ∃ v, b !! i = Some (Some v)) →
  Q tt (Memory (<[a := list_inserts (Z.to_nat o) (replicate (Z.to_nat n) None) b]> h) f) →
  wp (destroy_n (Ptr (Some a) o) n) Q E F (Memory h f).
Proof. apply wp_destroy_loop. Qed.

(** Destroying no element is possible through any pointer. *)
Lemma wp_destroy_n_0 (Q : unit → memory → Prop) E F p n μ :
  n ≤ 0 → Q tt μ → wp (destroy_n p n) Q E F μ.
Proof.
  intros Hn HQ. unfold destroy_n. replace (Z.to_nat n) with O by lia. done.
Qed.

(** The loop of the [uninitialized_*_n] algorithms, with an invariant. *)
Lemma wp_uninitialized_loop (I : nat → memory → Prop) (step : Z → MM unit)
    d (i0 : Z) (n : nat) (Q : unit → memory → Prop) E F μ :
  I O μ →
  (∀ (k : nat) μ', (k < n)%nat → I k μ' →
     wp (step (i0 + Z.of_nat k)) (λ _, I (S k))
        (λ μ'', wp (destroy_n d (i0 + Z.of_nat k)) (λ _, E) E F μ'') F μ') →
  (∀ μ', I n μ' → Q tt μ') →
  wp (uninitialized_loop step d i0 n) Q E F μ.
Proof.
  revert I i0 μ. induction n as [|n IH]; intros I i0 μ HI Hstep HQ.
  - by apply wp_ret, HQ.
  - simpl. apply wp_bind, wp_try_catch.
    pose proof (Hstep O μ ltac:(lia) HI) as H0. rewrite Z.add_0_r in H0.
    eapply wp_mono; [exact H0| | |done].
    + intros [] μ' HI'. cbv beta.
      apply (IH (λ k, I (S k))); [done| |done].
      intros k μ'' Hk HIk.
      replace (i0 + 1 + Z.of_nat k) with (i0 + Z.of_nat (S k)) by lia.
      apply Hstep; [lia | done].
    + intros μ' Hd. apply wp_bind. eapply wp_mono; [exact Hd| |done|done].
      intros [] μ'' HE. by apply wp_throw.
Qed.

(** The loop of [std::copy], [std::move] and [std::move_backward], with an
    invariant. *)
Lemma wp_assign_loop (I : nat → memory → Prop) (step : Z → MM unit)
    (i0 : Z) (n : nat) (Q : unit → memory → Prop) E F μ :
  I O μ →
  (∀ (k : nat) μ', (k < n)%nat → I k μ' →
     wp (step (i0 + Z.of_nat k)) (λ _, I (S k)) E F μ') →
  (∀ μ', I n μ' → Q tt μ') →
  wp (assign_loop step i0 n) Q E F μ.
Proof.
  revert I i0 μ. induction n as [|n IH]; intros I i0 μ HI Hstep HQ.
  - by apply wp_ret, HQ.
  - simpl. apply wp_bind.
    pose proof (Hstep O μ ltac:(lia) HI) as H0. rewrite Z.add_0_r in H0.
    eapply wp_mono; [exact H0| |done|done].
    intros [] μ' HI'. cbv beta.
    apply (IH (λ k, I (S k))); [done| |done].
    intros k μ'' Hk HIk.
    replace (i0 + 1 + Z.of_nat k) with (i0 + Z.of_nat (S k)) by lia.
    apply Hstep; [lia | done].
Qed.

Lemma wp_range_length (Q : nat → memory → Prop) E F a o1 o2 μ :
  o1 ≤ o2 → Q (Z.to_nat (o2 - o1)) μ →
  wp (range_length (Ptr (Some a) o1) (Ptr (Some a) o2)) Q E F μ.
Proof.
  intros Hle HQ. unfold range_length, ptr_diff. cbn [p_blk p_off].
  rewrite bool_decide_eq_true_2 by done.
  apply wp_bind, wp_ret.
  destruct (Z.ltb_spec (o2 - o1) 0); [lia|]. by apply wp_ret.
Qed.

End loops.

(** ** Shifts of lists, pointwise *)

Section shift_facts.
Context {A : Type}.
Implicit Types (l k : list A) (i j n : nat) (x y z : A).

Lemma lookup_app_case l k i :
  (l ++ k) !! i =
    if decide (i < length l)%nat then l !! i else k !! (i - length l)%nat.
Proof.
  case_decide.
  - by apply lookup_app_l.
  - apply lookup_app_r. lia.
Qed.

Lemma lookup_cons_case x l i :
  (x :: l) !! i = if decide (i = 0)%nat then Some x else l !! (i - 1)%nat.
Proof. destruct i as [|i]; simpl; [done|]. by rewrite Nat.sub_0_r. Qed.

End shift_facts.

Ltac list_lookups :=
  repeat first
    [ rewrite list_lookup_insert
    | rewrite lookup_app_case
    | rewrite lookup_cons_case
    | rewrite lookup_take
    | rewrite lookup_drop
    | rewrite lookup_replicate_case
    | rewrite list_lookup_fmap
    | rewrite lookup_inserts_case
    | rewrite length_insert
    | rewrite length_app
    | rewrite length_take
    | rewrite length_drop
    | rewrite length_fmap
    | rewrite length_replicate
    | rewrite length_inserts
    | rewrite length_cons ].

Ltac list_pointwise :=
  apply list_eq; intros ?; list_lookups;
  repeat case_decide; try lia; try done; try (f_equal; lia).

Section shift_steps.
Context {A : Type}.
Implicit Types (l k : list A) (i j n : nat) (x y z : A).

Lemma length_shifting l j z : length (shifting l j z) = S (length l).
Proof. unfold shifting. list_lookups. simpl. lia. Qed.

Lemma shifting_last l j y z :
  length l = S j → l !! j = Some y → <[j := z]> (l ++ [y]) = shifting l j z.
Proof.
  intros Hlen Hy. unfold shifting. apply list_eq; intros i. list_lookups.
  simpl length. repeat case_decide; try lia; try done; try (f_equal; lia).
  all: try (subst; rewrite <-Hy; f_equal; lia).
  all: try (rewrite !lookup_ge_None_2 by (simpl; lia); done).
Qed.

Lemma shifting_step l j y z z' :
  l !! j = Some y →
  <[j := z']> (<[S j := y]> (shifting l (S j) z)) = shifting l j z'.
Proof.
  intros Hy. pose proof (lookup_lt_Some _ _ _ Hy).
  unfold shifting. apply list_eq; intros i. list_lookups.
  repeat case_decide; try lia; try done; try (f_equal; lia).
  all: try (subst; rewrite <-Hy; f_equal; lia).
Qed.

Lemma shifting_fill l j x z :
  (j ≤ length l)%nat → <[j := x]> (shifting l j z) = shifting l j x.
Proof. intros Hj. unfold shifting. list_pointwise. Qed.

Lemma shifting_lookup_hole l j z : (j ≤ length l)%nat → shifting l j z !! j = Some z.
Proof.
  intros Hj. unfold shifting. list_lookups.
  repeat case_decide; try lia; done.
Qed.

Lemma shifting_lookup_before l j z i :
  (j ≤ length l)%nat → (i < j)%nat → shifting l j z !! i = l !! i.
Proof.
  intros Hj Hi. unfold shifting. list_lookups.
  repeat case_decide; try lia; try done.
Qed.

Lemma length_erasing l j i x :
  (S (j + i) ≤ length l)%nat → length (erasing l j i x) = length l.
Proof. intros Hlen. unfold erasing. list_lookups. simpl. lia. Qed.

Lemma erasing_0 l j x : l !! j = Some x → erasing l j 0 x = l.
Proof.
  intros Hx. pose proof (lookup_lt_Some _ _ _ Hx).
  unfold erasing. apply list_eq; intros i. list_lookups.
  repeat case_decide; try lia; try done; try (f_equal; lia).
  all: try (subst; rewrite <-Hx; f_equal; lia).
Qed.

Lemma erasing_step l j i x y z :
  l !! S (j + i) = Some y →
  <[S (j + i) := z]> (<[(j + i)%nat := y]> (erasing l j i x)) = erasing l j (S i) z.
Proof.
  intros Hy. pose proof (lookup_lt_Some _ _ _ Hy).
  unfold erasing. apply list_eq; intros i'. list_lookups.
  repeat case_decide; try lia; try done; try (f_equal; lia).
  all: try (subst; rewrite <-Hy; f_equal; lia).
Qed.

Lemma erasing_end l j i x :
  S (j + i) = length l → erasing l j i x = (take j l ++ drop (S j) l) ++ [x].
Proof.
  intros Hlen. unfold erasing. apply list_eq; intros i'. list_lookups.
  repeat case_decide; try lia; try done; try (f_equal; lia).
  all: try (rewrite !lookup_ge_None_2 by (simpl; lia); done).
Qed.

Lemma erasing_lookup_hole l j i x :
  (S (j + i) ≤ length l)%nat → erasing l j i x !! (j + i)%nat = Some x.
Proof.
  intros Hlen. unfold erasing. list_lookups.
  repeat case_decide; try lia; done.
Qed.

Lemma erasing_lookup_after l j i x i' :
  (S (j + i) ≤ length l)%nat → (j + i < i')%nat → erasing l j i x !! i' = l !! i'.
Proof.
  intros Hlen Hi'. unfold erasing. list_lookups.
  repeat case_decide; try lia; try done; try (f_equal; lia).
  all: try (rewrite !lookup_ge_None_2 by (simpl; lia); done).
Qed.

End shift_steps.

(** ** Blocks of vectors *)

Section blocks.
Context {T : Type} `{!Element T}.
Implicit Types (l : list T) (cap i j : nat) (x y : T).

Lemma length_blk_of l cap : (length l ≤ cap)%nat → length (blk_of l cap) = cap.
Proof. intros Hl. unfold blk_of. list_lookups. lia. Qed.

Lemma lookup_blk_of l cap i :
  blk_of l cap !! i =
    if decide (i < length l)%nat then Some <$> l !! i
    else if decide (i < cap)%nat then Some None else None.
Proof. unfold blk_of. list_lookups. repeat case_decide; try lia; done. Qed.

Lemma lookup_blk_of_elem l cap i x :
  l !! i = Some x → blk_of l cap !! i = Some (Some x).
Proof.
  intros Hx. pose proof (lookup_lt_Some _ _ _ Hx).
  rewrite lookup_blk_of. case_decide; [|lia]. by rewrite Hx.
Qed.

Lemma lookup_blk_of_free l cap i :
  (length l ≤ i < cap)%nat → blk_of l cap !! i = Some None.
Proof. intros Hi. rewrite lookup_blk_of. repeat case_decide; try lia; done. Qed.

Lemma blk_of_nil cap : blk_of (T:=T) [] cap = replicate cap None.
Proof. unfold blk_of. simpl. f_equal. lia. Qed.

Lemma blk_of_insert l cap i x :
  (i < length l)%nat →
  <[i := Some x]> (blk_of l cap) = blk_of (<[i := x]> l) cap.
Proof.
  intros Hi. unfold blk_of.
  rewrite insert_app_l by (rewrite length_fmap; lia).
  by rewrite list_fmap_insert, length_insert.
Qed.

Lemma blk_of_snoc l cap x :
  (length l < cap)%nat →
  <[length l := Some x]> (blk_of l cap) = blk_of (l ++ [x]) cap.
Proof.
  intros Hl. unfold blk_of. apply list_eq; intros i. list_lookups.
  simpl length. repeat case_decide; try lia; try done; try (f_equal; lia).
  all: try (rewrite !lookup_ge_None_2 by (simpl; lia); done).
  all: try (subst; replace (length l - length l)%nat with O by lia; done).
Qed.

Lemma blk_of_pop l cap x :
  (length l < cap)%nat →
  <[length l := None]> (blk_of (l ++ [x]) cap) = blk_of l cap.
Proof.
  intros Hl. unfold blk_of. apply list_eq; intros i. list_lookups.
  simpl length. repeat case_decide; try lia; try done; try (f_equal; lia).
  all: try (rewrite !lookup_ge_None_2 by (simpl; lia); done).
Qed.

(** The new block of an insertion with growth, once the new element and the
    two parts of the old elements are in place. *)
Lemma grown_block l cap j x :
  (j ≤ length l)%nat → (length l < cap)%nat →
  list_inserts (S j) (Some <$> drop j l)
    (list_inserts 0 (Some <$> take j l) (<[j := Some x]> (replicate cap None)))
  = blk_of (take j l ++ x :: drop j l) cap.
Proof.
  intros Hj Hl. unfold blk_of. apply list_eq; intros i. list_lookups.
  simpl length. repeat case_decide; try lia; try done; try (f_equal; lia).
  all: try (rewrite !lookup_ge_None_2 by (simpl; lia); done).
  all: try (f_equal; f_equal; lia).
Qed.

End blocks.

(** ** The algorithms on blocks *)

Section algorithms.
Context {T : Type} `{!Element T}.
Implicit Types (h : gmap addr (list (option T))) (f : option nat).
Implicit Types (b : list (option T)) (a : addr) (o : Z) (v : T).
Implicit Types (E : memory (T:=T) → Prop) (F : Prop).

(** Copying [vs] from one block into uninitialized slots of another: either
    all of them arrive, or the copy throws and the heap is as before. *)
Lemma wp_uninitialized_copy_n (Q : unit → memory → Prop) E F h f
    sa so sb da d_o db (vs : list T) n :
  sa ≠ da → h !! sa = Some sb → h !! da = Some db → 0 ≤ so → 0 ≤ d_o →
  Z.to_nat n = length vs →
  (∀ i v, vs !! i = Some v → sb !! (Z.to_nat so + i)%nat = Some (Some v)) →
  (∀ i, (i < length vs)%nat → db !! (Z.to_nat d_o + i)%nat = Some None) →
  (∀ f', (f = None → f' = None) →
     Q tt (Memory (<[da := list_inserts (Z.to_nat d_o) (Some <$> vs) db]> h) f')) →
  (f ≠ None → E (Memory h None)) →
  wp (uninitialized_copy_n (Ptr (Some sa) so) n (Ptr (Some da) d_o)) Q E F
     (Memory h f).
Proof.
  intros Hne Hsa Hda Hso Hdo Hn Hsrc Hdst HQ HE.
  unfold uninitialized_copy_n. rewrite Hn.
  apply (wp_uninitialized_loop (λ k μ, ∃ f', (f = None → f' = None) ∧
    μ = Memory (<[da := list_inserts (Z.to_nat d_o) (Some <$> take k vs) db]> h) f')).
  - exists f. split; [done|]. simpl. by rewrite insert_id.
  - intros k μ Hk (f' & Hf' & ->).
    destruct (lookup_lt_is_Some_2 vs k Hk) as [v Hv].
    assert (∀ j, (j < length vs)%nat → (Z.to_nat d_o + j < length db)%nat) as Hlen.
    { intros j Hj. eapply lookup_lt_Some, Hdst, Hj. }
    unfold copy_construct, ptr_add. cbn [p_blk p_off].
    apply wp_bind. eapply wp_load.
    { rewrite lookup_insert_ne by done. exact Hsa. }
    { lia. }
    { replace (Z.to_nat (so + (0 + Z.of_nat k))) with (Z.to_nat so + k)%nat by lia.
      by apply Hsrc. }
    apply wp_bind, wp_tick.
    + intros f'' Hf''. eapply wp_place.
      { apply lookup_insert_eq. }
      { lia. }
      { rewrite length_inserts. specialize (Hlen k Hk). lia. }
      exists f''. split; [naive_solver|]. f_equal.
      rewrite insert_insert_eq. f_equal.
      replace (Z.to_nat (d_o + (0 + Z.of_nat k))) with
        (Z.to_nat d_o + length (Some <$> take k vs))%nat
        by (rewrite length_fmap, length_take; lia).
      rewrite inserts_snoc by (rewrite length_fmap, length_take;
                               specialize (Hlen k Hk); lia).
      by rewrite (take_S_r _ _ _ Hv), fmap_app.
    + intros Hf. eapply wp_destroy_n.
      { apply lookup_insert_eq. }
      { lia. }
      { intros i Hi. rewrite lookup_inserts_case, length_fmap, length_take.
        case_decide as Hc.
        - rewrite list_lookup_fmap, lookup_take_lt by lia.
          destruct (lookup_lt_is_Some_2 vs (i - Z.to_nat d_o)%nat) as [w ->]; [lia|].
          by exists w.
        - specialize (Hlen (i - Z.to_nat d_o)%nat). lia. }
      rewrite insert_insert_eq.
      replace (Z.to_nat (0 + Z.of_nat k)) with (length (Some <$> take k vs))
        by (rewrite length_fmap, length_take; lia).
      rewrite inserts_inserts_same by by rewrite length_replicate.
      rewrite inserts_id.
      * rewrite insert_id by done. apply HE. naive_solver.
      * intros j. rewrite length_replicate, length_fmap, length_take. intros Hj.
        rewrite lookup_replicate_2 by lia. apply Hdst. lia.
  - intros μ (f' & Hf' & ->). rewrite take_ge by lia. by apply HQ.
Qed.

(** Moving [vs] from one block into uninitialized slots of another: when
    all of them arrive, the sources are left in their moved-from states.
    Only a move constructor that may throw makes the algorithm throw. *)
Lemma wp_uninitialized_move_n (Q : unit → memory → Prop) E F h f
    sa so sb da d_o db (vs : list T) n :
  sa ≠ da → h !! sa = Some sb → h !! da = Some db → 0 ≤ so → 0 ≤ d_o →
  Z.to_nat n = length vs →
  (∀ i v, vs !! i = Some v → sb !! (Z.to_nat so + i)%nat = Some (Some v)) →
  (∀ i, (i < length vs)%nat → db !! (Z.to_nat d_o + i)%nat = Some None) →
  (∀ f', (f = None → f' = None) →
     (nothrow_move_constructible = true → f' = f) →
     Q tt (Memory
             (<[da := list_inserts (Z.to_nat d_o) (Some <$> vs) db]>
                (<[sa := list_inserts (Z.to_nat so)
                           (Some <$> (moved_from <$> vs)) sb]> h)) f')) →
  (f ≠ None → nothrow_move_constructible = false →
     ∀ k, (k < length vs)%nat →
       E (Memory (<[sa := list_inserts (Z.to_nat so)
                            (Some <$> (moved_from <$> take k vs)) sb]> h) None)) →
  wp (uninitialized_move_n (Ptr (Some sa) so) n (Ptr (Some da) d_o)) Q E F
     (Memory h f).
Proof.
  intros Hne Hsa Hda Hso Hdo Hn Hsrc Hdst HQ HE.
  unfold uninitialized_move_n. rewrite Hn.
  apply (wp_uninitialized_loop (λ k μ, ∃ f', (f = None → f' = None) ∧
    (nothrow_move_constructible = true → f' = f) ∧
    μ = Memory
          (<[da := list_inserts (Z.to_nat d_o) (Some <$> take k vs) db]>
             (<[sa := list_inserts (Z.to_nat so)
                        (Some <$> (moved_from <$> take k vs)) sb]> h)) f')).
  - exists f. split; [done|]. split; [done|]. simpl.
    rewrite (insert_id h sa) by done. by rewrite insert_id.
  - intros k μ Hk (f' & Hf' & Hnt & ->).
    destruct (lookup_lt_is_Some_2 vs k Hk) as [v Hv].
    assert (∀ j, (j < length vs)%nat → (Z.to_nat d_o + j < length db)%nat) as Hlen.
    { intros j Hj. eapply lookup_lt_Some, Hdst, Hj. }
    assert (∀ j, (j < length vs)%nat → (Z.to_nat so + j < length sb)%nat) as Hlens.
    { intros j Hj. destruct (lookup_lt_is_Some_2 vs j Hj) as [w Hw].
      eapply lookup_lt_Some, Hsrc, Hw. }
    unfold move_construct, ptr_add. cbn [p_blk p_off].
    apply wp_bind. eapply wp_load.
    { rewrite lookup_insert_ne by done. apply lookup_insert_eq. }
    { lia. }
    { replace (Z.to_nat (so + (0 + Z.of_nat k))) with (Z.to_nat so + k)%nat by lia.
      rewrite list_lookup_inserts_ge
        by (rewrite !length_fmap, length_take; lia).
      by apply Hsrc. }
    apply wp_bind, wp_tick_unless.
    + intros f'' Hf'' Hnt''. apply wp_bind. eapply wp_place.
      { apply lookup_insert_eq. }
      { lia. }
      { rewrite length_inserts. specialize (Hlen k Hk). lia. }
      rewrite insert_insert_eq.
      eapply wp_assign.
      { rewrite lookup_insert_ne by done. apply lookup_insert_eq. }
      { lia. }
      { replace (Z.to_nat (so + (0 + Z.of_nat k))) with (Z.to_nat so + k)%nat by lia.
        rewrite list_lookup_inserts_ge
          by (rewrite !length_fmap, length_take; lia).
        by apply Hsrc. }
      exists f''. split; [naive_solver|]. split; [naive_solver|]. f_equal.
      rewrite (insert_insert_ne _ da sa) by done.
      rewrite insert_insert_eq.
      rewrite (insert_insert_ne _ sa da) by done.
      f_equal.
      * f_equal.
        replace (Z.to_nat (d_o + (0 + Z.of_nat k))) with
          (Z.to_nat d_o + length (Some <$> take k vs))%nat
          by (rewrite length_fmap, length_take; lia).
        rewrite inserts_snoc by (rewrite length_fmap, length_take;
                                 specialize (Hlen k Hk); lia).
        by rewrite (take_S_r _ _ _ Hv), fmap_app.
      * f_equal.
        replace (Z.to_nat (so + (0 + Z.of_nat k))) with
          (Z.to_nat so + length (Some <$> (moved_from <$> take k vs)))%nat
          by (rewrite !length_fmap, length_take; lia).
        rewrite inserts_snoc by (rewrite !length_fmap, length_take;
                                 specialize (Hlens k Hk); lia).
        by rewrite (take_S_r _ _ _ Hv), !fmap_app.
    + intros Hf Hnt'. eapply wp_destroy_n.
      { apply lookup_insert_eq. }
      { lia. }
      { intros i Hi. rewrite lookup_inserts_case, length_fmap, length_take.
        case_decide as Hc.
        - rewrite list_lookup_fmap, lookup_take_lt by lia.
          destruct (lookup_lt_is_Some_2 vs (i - Z.to_nat d_o)%nat) as [w ->]; [lia|].
          by exists w.
        - specialize (Hlen (i - Z.to_nat d_o)%nat). lia. }
      rewrite insert_insert_eq.
      replace (Z.to_nat (0 + Z.of_nat k)) with (length (Some <$> take k vs))
        by (rewrite length_fmap, length_take; lia).
      rewrite inserts_inserts_same by by rewrite length_replicate.
      rewrite inserts_id.
      * rewrite (insert_id _ da db) by by rewrite lookup_insert_ne.
        apply HE; [naive_solver | done | done].
      * intros j. rewrite length_replicate, length_fmap, length_take. intros Hj.
        rewrite lookup_replicate_2 by lia. apply Hdst. lia.
  - intros μ (f' & Hf' & Hnt & ->). rewrite take_ge by lia. by apply HQ.
Qed.

(** [std::move] of the elements after position [j] one slot to the left, as
    [Erase] runs it: the element at [j] is overwritten and the last slot is
    left holding a moved-from element [x]. *)
Lemma wp_std_move_left (Q : unit → memory → Prop) E F h f a (l : list T)
    (cap j : nat) (k s : Z) :
  h !! a = Some (blk_of l cap) → (j < length l)%nat → (length l ≤ cap)%nat →
  k = Z.of_nat j → s = Z.of_nat (length l) →
  (∀ f' x, (f = None → f' = None) →
     Q tt (Memory (<[a := blk_of ((take j l ++ drop (S j) l) ++ [x]) cap]> h) f')) →
  (f ≠ None → nothrow_move_assignable = false →
   ∀ i x, (S (j + i) < length l)%nat →
          E (Memory (<[a := blk_of (erasing l j i x) cap]> h) None)) →
  wp (std_move (Ptr (Some a) (k + 1)) (Ptr (Some a) s) (Ptr (Some a) k)) Q E F
     (Memory h f).
Proof.
  intros Ha Hj Hcap -> -> HQ HE.
  unfold std_move. apply wp_bind, wp_range_length; [lia|].
  destruct (lookup_lt_is_Some_2 l j Hj) as [x0 Hx0].
  apply (wp_assign_loop (λ i μ, ∃ f' x, (f = None → f' = None) ∧
    μ = Memory (<[a := blk_of (erasing l j i x) cap]> h) f')).
  - exists f, x0. split; [done|]. rewrite (erasing_0 _ _ _ Hx0).
    by rewrite insert_id.
  - intros i μ Hi (f' & x & Hf' & ->).
    destruct (lookup_lt_is_Some_2 l (S (j + i))) as [y Hy]; [lia|].
    unfold move_assign, ptr_add. cbn [p_blk p_off].
    replace (Z.of_nat j + (0 + Z.of_nat i)) with (Z.of_nat (j + i)) by lia.
    replace (Z.of_nat j + 1 + (0 + Z.of_nat i)) with (Z.of_nat (S (j + i))) by lia.
    apply wp_bind. eapply wp_load.
    { apply lookup_insert_eq. }
    { lia. }
    { rewrite Nat2Z.id. apply lookup_blk_of_elem, erasing_lookup_hole. lia. }
    apply wp_bind. eapply wp_load.
    { apply lookup_insert_eq. }
    { lia. }
    { rewrite Nat2Z.id. apply lookup_blk_of_elem.
      rewrite erasing_lookup_after by lia. exact Hy. }
    apply wp_bind, wp_tick_unless.
    + intros f'' Hf'' _. apply wp_bind. eapply wp_assign.
      { apply lookup_insert_eq. }
      { lia. }
      { rewrite Nat2Z.id. apply lookup_blk_of_elem, erasing_lookup_hole. lia. }
      rewrite insert_insert_eq, Nat2Z.id.
      rewrite blk_of_insert by (rewrite length_erasing; lia).
      eapply wp_assign.
      { apply lookup_insert_eq. }
      { lia. }
      { rewrite Nat2Z.id. apply lookup_blk_of_elem.
        rewrite list_lookup_insert_ne by lia.
        rewrite erasing_lookup_after by lia. exact Hy. }
      rewrite insert_insert_eq, Nat2Z.id.
      rewrite blk_of_insert by (rewrite length_insert, length_erasing; lia).
      exists f'', (moved_from y). split; [naive_solver|].
      by rewrite (erasing_step _ _ _ _ _ _ Hy).
    + intros Hf Hnt. apply HE; [naive_solver | done | lia].
  - intros μ (f' & x & Hf' & ->).
    rewrite erasing_end by lia. by apply HQ.
Qed.

(** [std::move_backward] of the elements from position [j] one slot to the
    right, as [Emplace] runs it once the last element has been moved into
    the slot behind it: the slot [j] is left holding a moved-from element. *)
Lemma wp_std_move_backward_right (Q : unit → memory → Prop) E F h f a
    (l : list T) (cap j m : nat) (z : T) (k s : Z) :
  h !! a = Some (blk_of (shifting l m z) cap) →
  (j ≤ m)%nat → S m = length l → (length l < cap)%nat →
  k = Z.of_nat j → s = Z.of_nat (length l) →
  (∀ f' z', (f = None → f' = None) →
     Q tt (Memory (<[a := blk_of (shifting l j z') cap]> h) f')) →
  (f ≠ None → nothrow_move_assignable = false →
   ∀ i z', E (Memory (<[a := blk_of (shifting l i z') cap]> h) None)) →
  wp (std_move_backward (Ptr (Some a) k) (Ptr (Some a) (s + -1)) (Ptr (Some a) s))
     Q E F (Memory h f).
Proof.
  intros Ha Hj Hm Hcap -> -> HQ HE.
  unfold std_move_backward. apply wp_bind, wp_range_length; [lia|].
  apply (wp_assign_loop (λ i μ, ∃ f' z', (f = None → f' = None) ∧
    μ = Memory (<[a := blk_of (shifting l (m - i) z') cap]> h) f')).
  - exists f, z. split; [done|]. rewrite Nat.sub_0_r. by rewrite insert_id.
  - intros i μ Hi (f' & z' & Hf' & ->).
    assert (∃ q, m - i = S q)%nat as [q Hq] by (exists (m - i - 1)%nat; lia).
    destruct (lookup_lt_is_Some_2 l q) as [y Hy]; [lia|].
    unfold move_assign, ptr_add. cbn [p_blk p_off].
    replace (Z.of_nat (length l) + (- 1 - (0 + Z.of_nat i)))
      with (Z.of_nat (S q)) by lia.
    replace (Z.of_nat (length l) + - 1 + (- 1 - (0 + Z.of_nat i)))
      with (Z.of_nat q) by lia.
    rewrite Hq.
    apply wp_bind. eapply wp_load.
    { apply lookup_insert_eq. }
    { lia. }
    { rewrite Nat2Z.id. apply lookup_blk_of_elem, shifting_lookup_hole. lia. }
    apply wp_bind. eapply wp_load.
    { apply lookup_insert_eq. }
    { lia. }
    { rewrite Nat2Z.id. apply lookup_blk_of_elem.
      rewrite shifting_lookup_before by lia. exact Hy. }
    apply wp_bind, wp_tick_unless.
    + intros f'' Hf'' _. apply wp_bind. eapply wp_assign.
      { apply lookup_insert_eq. }
      { lia. }
      { rewrite Nat2Z.id. apply lookup_blk_of_elem, shifting_lookup_hole. lia. }
      rewrite insert_insert_eq, Nat2Z.id.
      rewrite blk_of_insert by (rewrite length_shifting; lia).
      eapply wp_assign.
      { apply lookup_insert_eq. }
      { lia. }
      { rewrite Nat2Z.id. apply lookup_blk_of_elem.
        rewrite list_lookup_insert_ne by lia.
        rewrite shifting_lookup_before by lia. exact Hy. }
      rewrite insert_insert_eq, Nat2Z.id.
      rewrite blk_of_insert by (rewrite length_insert, length_shifting; lia).
      exists f'', (moved_from y). split; [naive_solver|].
      rewrite (shifting_step _ _ _ _ _ Hy).
      by replace (m - S i)%nat with q by lia.
    + intros Hf Hnt. apply HE; [naive_solver | done].
  - intros μ (f' & z' & Hf' & ->).
    replace (m - Z.to_nat (Z.of_nat (length l) + -1 - Z.of_nat j))%nat with j by lia.
    by apply HQ.
Qed.

Lemma relocated_refl (sb : list (option T)) (i n : nat) : relocated sb sb i n.
Proof. split; [done|]. split; [done|]. eauto. Qed.

Lemma relocated_moved (sb : list (option T)) (i : nat) (ws : list T) (n : nat) :
  (length ws ≤ n)%nat → relocated sb (list_inserts i (Some <$> ws) sb) i n.
Proof.
  intros Hn. split; [by rewrite length_inserts|]. split.
  - intros j Hj. rewrite lookup_inserts_case, length_fmap.
    case_decide; [lia | done].
  - intros j w Hw. rewrite lookup_inserts_case, length_fmap.
    case_decide as Hc; [|by eauto].
    rewrite list_lookup_fmap.
    destruct (lookup_lt_is_Some_2 ws (j - i)%nat) as [w' ->]; [lia|].
    by exists w'.
Qed.

(** A block whose first [n] slots are live and whose other slots are
    uninitialized is the block of a vector of [n] elements. *)
Lemma block_is_blk_of (sb : list (option T)) (n cap : nat) :
  length sb = cap → (n ≤ cap)%nat →
  (∀ i, (i < n)%nat → ∃ w, sb !! i = Some (Some w)) →
  (∀ i, (n ≤ i < cap)%nat → sb !! i = Some None) →
  ∃ l, length l = n ∧ sb = blk_of l cap.
Proof.
  revert sb cap. induction n as [|n IH]; intros sb cap Hlen Hn Hlive Hfree.
  - exists []. split; [done|]. rewrite blk_of_nil.
    apply list_eq. intros i. rewrite lookup_replicate_case.
    case_decide as Hi.
    + apply Hfree. lia.
    + apply lookup_ge_None_2. lia.
  - destruct sb as [|s0 sb]; [simpl in Hlen; lia|].
    destruct (Hlive O) as [w Hw]; [lia|]. simpl in Hw. simplify_eq.
    destruct (IH sb (length sb)) as (l & Hl & Hsb); [done|simpl in *; lia|..].
    + intros i Hi. apply (Hlive (S i)). lia.
    + intros i Hi. apply (Hfree (S i)). simpl. lia.
    + exists (w :: l). split; [simpl; lia|].
      unfold blk_of in *. simpl. f_equal. done.
Qed.

(** The block of a vector from which elements have been relocated is still
    the block of a vector with as many elements. *)
Lemma relocated_is_blk_of (elems : list T) (cap : nat) sb' (o n : nat) :
  relocated (blk_of elems cap) sb' o n →
  (o + n ≤ length elems)%nat → (length elems ≤ cap)%nat →
  ∃ elems', length elems' = length elems ∧ sb' = blk_of elems' cap.
Proof.
  intros (Hlen & Hout & Hlive) Hon Hcap.
  rewrite length_blk_of in Hlen by done.
  apply block_is_blk_of; [done|done|..].
  - intros i Hi. destruct (lookup_lt_is_Some_2 elems i Hi) as [w Hw].
    apply (Hlive i w). by apply lookup_blk_of_elem.
  - intros i Hi. rewrite Hout by lia. apply lookup_blk_of_free. lia.
Qed.

(** Relocation by the policy of [CopyOrMoveInNewData]: the elements arrive
    in the destination and the source block stays live; it is unchanged when
    the policy is to copy.  When the relocation throws, the destination is
    as before; if the elements are copied or their move constructor
    cannot throw, the policy was to copy and the source is as before
    too. *)
Lemma wp_CopyOrMoveInNewData (Q : unit → memory → Prop) E F h f
    sa so sb da d_o db (vs : list T) n :
  sa ≠ da → h !! sa = Some sb → h !! da = Some db → 0 ≤ so → 0 ≤ d_o →
  Z.to_nat n = length vs →
  (∀ i v, vs !! i = Some v → sb !! (Z.to_nat so + i)%nat = Some (Some v)) →
  (∀ i, (i < length vs)%nat → db !! (Z.to_nat d_o + i)%nat = Some None) →
  (∀ f' sb', (f = None → f' = None) →
     relocated sb sb' (Z.to_nat so) (length vs) →
     (nothrow_move_constructible || negb copy_constructible = false → sb' = sb) →
     Q tt (Memory
             (<[da := list_inserts (Z.to_nat d_o) (Some <$> vs) db]>
                (<[sa := sb']> h)) f')) →
  (f ≠ None → ∀ sb',
     relocated sb sb' (Z.to_nat so) (length vs) →
     (nothrow_move_constructible || copy_constructible = true →
      nothrow_move_constructible || negb copy_constructible = false ∧ sb' = sb) →
     E (Memory (<[sa := sb']> h) None)) →
  wp (CopyOrMoveInNewData (Ptr (Some sa) so) n (Ptr (Some da) d_o)) Q E F
     (Memory h f).
Proof.
  intros Hne Hsa Hda Hso Hdo Hn Hsrc Hdst HQ HE.
  unfold CopyOrMoveInNewData.
  destruct (nothrow_move_constructible || negb copy_constructible) eqn:Hpolicy.
  - eapply wp_uninitialized_move_n; [done..| |].
    + intros f' Hf' _. apply HQ; [done| |done].
      apply relocated_moved. by rewrite length_fmap.
    + intros Hf Hnt k Hk. apply HE; [done| |].
      * apply relocated_moved. rewrite length_fmap, length_take. lia.
      * rewrite Hnt in *. simpl in *. destruct copy_constructible; done.
  - eapply wp_uninitialized_copy_n; [done..| |].
    + intros f' Hf'.
      specialize (HQ f' sb Hf' (relocated_refl _ _ _) (λ _, eq_refl)).
      by rewrite (insert_id h sa sb) in HQ.
    + intros Hf.
      specialize (HE Hf sb (relocated_refl _ _ _) (λ _, conj eq_refl eq_refl)).
      by rewrite (insert_id h sa sb) in HE.
Qed.

(** *** Relocation into a block of any size

    Whatever the size of the destination block, a relocation that returns
    or throws has written to the two blocks only and has left every live
    slot of the source live. *)

Lemma relocating_fuse h a a' sb n hp f f' :
  relocating h a a' sb n (Memory hp f) → relocating h a a' sb n (Memory hp f').
Proof. intros (sb' & db' & Hh & Hrel). by exists sb', db'. Qed.

Lemma relocating_tick h a a' sb n nothrow μ :
  relocating h a a' sb n μ →
  wp (tick_unless nothrow) (λ _, relocating h a a' sb n)
     (relocating h a a' sb n) True μ.
Proof.
  intros Hμ. destruct μ as [hp f]. apply wp_tick_unless.
  - intros f' _ _. by eapply relocating_fuse.
  - intros _ _. by eapply relocating_fuse.
Qed.

Lemma relocating_dst h a a' sb n μ o s :
  relocating h a a' sb n μ →
  relocating h a a' sb n
    (Memory (set_slot (heap μ) (Ptr (Some a') o) s) (fuse μ)).
Proof.
  intros (sb' & db' & Hh & Hrel). cbn [heap].
  rewrite (set_slot_block _ _ _ db') by (rewrite Hh; apply lookup_insert_eq).
  eexists sb', _. split; [|done]. by rewrite Hh, insert_insert_eq.
Qed.

Lemma relocating_src h a a' sb n μ o w y :
  a ≠ a' → (Z.to_nat o < n)%nat → 0 ≤ o →
  relocating h a a' sb n μ →
  slot_at (heap μ) (Ptr (Some a) o) = Some (Some y) →
  relocating h a a' sb n
    (Memory (set_slot (heap μ) (Ptr (Some a) o) (Some w)) (fuse μ)).
Proof.
  intros Hne Ho Ho' (sb' & db' & Hh & Hlen & Hout & Hlive) Hy. cbn [heap].
  assert (heap μ !! a = Some sb') as Ha.
  { rewrite Hh, lookup_insert_ne by done. apply lookup_insert_eq. }
  rewrite (slot_at_block _ _ _ _ Ha Ho') in Hy.
  rewrite (set_slot_block _ _ _ _ _ Ha).
  exists (<[Z.to_nat o := Some w]> sb'), db'. split.
  - rewrite Hh. rewrite (insert_insert_ne _ a a') by done.
    by rewrite insert_insert_eq.
  - split; [by rewrite length_insert|]. split.
    + intros i Hi. rewrite list_lookup_insert_ne by lia. apply Hout. lia.
    + intros i z Hz. destruct (decide (i = Z.to_nat o)) as [->|Hi].
      * exists w. apply list_lookup_insert_eq. by eapply lookup_lt_Some.
      * rewrite list_lookup_insert_ne by done. by eapply Hlive.
Qed.

Lemma relocating_destroy_loop h a a' sb n μ o (k : nat) :
  relocating h a a' sb n μ →
  wp (destroy_loop (Ptr (Some a') o) k) (λ _, relocating h a a' sb n)
     (λ _, False) True μ.
Proof.
  revert μ o. induction k as [|k IH]; intros μ o Hμ; [done|].
  simpl destroy_loop. apply wp_bind. unfold wp at 1, destroy_at.
  destruct (slot_at (heap μ) (Ptr (Some a') o)) as [[y|]|]; [|done..].
  apply IH. by apply relocating_dst.
Qed.

Lemma relocating_step h a a' sb n μ (move : bool) (i : Z) (k : nat) :
  a ≠ a' → (k < n)%nat →
  relocating h a a' sb n μ →
  wp (if move
      then move_construct (ptr_add (Ptr (Some a') 0) (i + Z.of_nat k))
             (ptr_add (Ptr (Some a) 0) (0 + Z.of_nat k))
      else copy_construct (ptr_add (Ptr (Some a') 0) (i + Z.of_nat k))
             (ptr_add (Ptr (Some a) 0) (0 + Z.of_nat k)))
     (λ _, relocating h a a' sb n) (relocating h a a' sb n) True μ.
Proof.
  intros Hne Hk Hμ. unfold ptr_add. cbn [p_blk p_off].
  destruct move; unfold move_construct, copy_construct.
  - apply wp_bind. unfold wp at 1, load.
    destruct (slot_at (heap μ) (Ptr (Some a) (0 + (0 + Z.of_nat k))))
      as [[y|]|] eqn:Hy; [|done..].
    apply wp_bind.
    eapply wp_mono;
      [exact (relocating_tick h a a' sb n nothrow_move_constructible μ Hμ)
      | |done|done].
    intros [] μ1 Hμ1. cbv beta.
    apply wp_bind. unfold wp at 1, place.
    destruct (slot_at (heap μ1) (Ptr (Some a') (0 + (i + Z.of_nat k))));
      [|done].
    pose proof (relocating_dst _ _ _ _ _ _ (0 + (i + Z.of_nat k)) (Some y) Hμ1)
      as Hμ2.
    set (μ2 := Memory (set_slot (heap μ1)
                         (Ptr (Some a') (0 + (i + Z.of_nat k))) (Some y))
                 (fuse μ1)) in *.
    unfold wp, assign.
    destruct (slot_at (heap μ2) (Ptr (Some a) (0 + (0 + Z.of_nat k))))
      as [[z|]|] eqn:Hz; [|done..].
    apply (relocating_src h a a' sb n μ2 (0 + (0 + Z.of_nat k)) (moved_from y)
             z Hne); [lia|lia|exact Hμ2|exact Hz].
  - apply wp_bind. unfold wp at 1, load.
    destruct (slot_at (heap μ) (Ptr (Some a) (0 + (0 + Z.of_nat k))))
      as [[y|]|] eqn:Hy; [|done..].
    apply wp_bind.
    eapply wp_mono;
      [exact (relocating_tick h a a' sb n false μ Hμ)| |done|done].
    intros [] μ1 Hμ1. cbv beta. unfold wp, place.
    destruct (slot_at (heap μ1) (Ptr (Some a') (0 + (i + Z.of_nat k))));
      [|done].
    by apply relocating_dst.
Qed.

Lemma relocating_CopyOrMoveInNewData h a a' sb n μ size :
  a ≠ a' → (Z.to_nat size ≤ n)%nat →
  relocating h a a' sb n μ →
  wp (CopyOrMoveInNewData (Ptr (Some a) 0) size (Ptr (Some a') 0))
     (λ _, relocating h a a' sb n) (relocating h a a' sb n) True μ.
Proof.
  intros Hne Hsize Hμ. unfold CopyOrMoveInNewData.
  assert (∀ move : bool,
    wp (uninitialized_loop
          (λ i, if move
                then move_construct (ptr_add (Ptr (Some a') 0) i)
                       (ptr_add (Ptr (Some a) 0) i)
                else copy_construct (ptr_add (Ptr (Some a') 0) i)
                       (ptr_add (Ptr (Some a) 0) i))
          (Ptr (Some a') 0) 0 (Z.to_nat size))
       (λ _, relocating h a a' sb n) (relocating h a a' sb n) True μ) as Hloop.
  { intros move.
    apply (wp_uninitialized_loop (λ _, relocating h a a' sb n)); [done| |done].
    intros k μ' Hk Hμ'.
    eapply wp_mono;
      [exact (relocating_step h a a' sb n μ' move 0 k Hne ltac:(lia) Hμ')
      |done| |done].
    intros μ'' Hμ''. unfold destroy_n.
    eapply wp_mono; [by apply relocating_destroy_loop|done|done|done]. }
  destruct (nothrow_move_constructible || negb copy_constructible).
  - exact (Hloop true).
  - exact (Hloop false).
Qed.

(** Two blocks written one after the other, twice. *)
Lemma insert_insert_pair h a a' (A A' B B' : list (option T)) :
  a ≠ a' →
  <[a' := B']> (<[a := A']> (<[a' := B]> (<[a := A]> h))) =
  <[a' := B']> (<[a := A']> h).
Proof.
  intros Hne. apply map_eq. intros k.
  destruct (decide (k = a')) as [->|]; [|destruct (decide (k = a)) as [->|]];
    by simplify_map_eq.
Qed.

Lemma insert_insert_over h a a' (A' B B' : list (option T)) :
  a ≠ a' →
  <[a' := B']> (<[a := A']> (<[a' := B]> h)) = <[a' := B']> (<[a := A']> h).
Proof.
  intros Hne. apply map_eq. intros k.
  destruct (decide (k = a')) as [->|]; [|destruct (decide (k = a)) as [->|]];
    by simplify_map_eq.
Qed.

End algorithms.

(** ** Rules for the objects *)

Section object_rules.
Context {T : Type} `{!Element T}.
Implicit Types (σ : state (T:=T)) (E : state (T:=T) → Prop) (F : Prop).
Implicit Types (this l : loc) (v : Vector) (x : RawMemory).

Lemma wp_get_size (Q : Z → state → Prop) E F σ this v :
  vecs σ !! this = Some v → Q (size_ v) σ → wp (get_size this) Q E F σ.
Proof. intros Hv HQ. unfold wp, get_size. by rewrite Hv. Qed.

Lemma wp_set_size (Q : unit → state → Prop) E F σ this v n :
  vecs σ !! this = Some v →
  Q tt (State (raws σ) (<[this := {| data_ := data_ v; size_ := n |}]> (vecs σ))
          (mem σ)) →
  wp (set_size this n) Q E F σ.
Proof. intros Hv HQ. unfold wp, set_size. by rewrite Hv. Qed.

Lemma wp_get_raw_vec (Q : RawMemory → state → Prop) E F σ l v :
  vecs σ !! l = Some v → Q (data_ v) σ → wp (get_raw (VecData l)) Q E F σ.
Proof. intros Hv HQ. unfold wp, get_raw. by rewrite Hv. Qed.

Lemma wp_get_raw_obj (Q : RawMemory → state → Prop) E F σ l x :
  raws σ !! l = Some x → Q x σ → wp (get_raw (RawObj l)) Q E F σ.
Proof. intros Hx HQ. unfold wp, get_raw. by rewrite Hx. Qed.

Lemma wp_set_raw_vec (Q : unit → state → Prop) E F σ l v x :
  vecs σ !! l = Some v →
  Q tt (State (raws σ) (<[l := {| data_ := x; size_ := size_ v |}]> (vecs σ))
          (mem σ)) →
  wp (set_raw (VecData l) x) Q E F σ.
Proof. intros Hv HQ. unfold wp, set_raw. by rewrite Hv. Qed.

Lemma wp_set_raw_obj (Q : unit → state → Prop) E F σ l x y :
  raws σ !! l = Some y →
  Q tt (State (<[l := x]> (raws σ)) (vecs σ) (mem σ)) →
  wp (set_raw (RawObj l) x) Q E F σ.
Proof. intros Hy HQ. unfold wp, set_raw. by rewrite Hy. Qed.

Lemma wp_new_raw (Q : raw_ref → state → Prop) E F σ x :
  (∀ l, raws σ !! l = None →
        Q (RawObj l) (State (<[l := x]> (raws σ)) (vecs σ) (mem σ))) →
  wp (new_raw x) Q E F σ.
Proof.
  intros HQ. unfold wp, new_raw. apply HQ.
  apply not_elem_of_dom, is_fresh.
Qed.

Lemma wp_end_raw (Q : unit → state → Prop) E F σ l :
  Q tt (State (delete l (raws σ)) (vecs σ) (mem σ)) →
  wp (end_raw (RawObj l)) Q E F σ.
Proof. done. Qed.

Lemma wp_new_vec (Q : loc → state → Prop) E F σ v :
  (∀ l, vecs σ !! l = None →
        Q l (State (raws σ) (<[l := v]> (vecs σ)) (mem σ))) →
  wp (new_vec v) Q E F σ.
Proof.
  intros HQ. unfold wp, new_vec. apply HQ.
  apply not_elem_of_dom, is_fresh.
Qed.

Lemma wp_ptr_diff {Σ} (Q : Z → Σ → Prop) (E' : Σ → Prop) F (s : Σ) b o1 o2 :
  Q (o1 - o2) s → wp (ptr_diff (Ptr b o1) (Ptr b o2)) Q E' F s.
Proof.
  intros HQ. unfold ptr_diff. cbn [p_blk p_off].
  by rewrite bool_decide_eq_true_2.
Qed.

Lemma wp_end_vec (Q : unit → state → Prop) E F σ l :
  Q tt (State (raws σ) (delete l (vecs σ)) (mem σ)) →
  wp (end_vec l) Q E F σ.
Proof. done. Qed.

End object_rules.

(** Tactics that walk through a member function, one step at a time. *)
Ltac solve_lookup :=
  cbn [raws vecs mem heap fuse];
  first
    [ eassumption
    | apply lookup_insert_eq
    | rewrite lookup_insert_ne by (first [done | congruence | lia]);
      solve_lookup
    | rewrite lookup_delete_ne by (first [done | congruence | lia]);
      solve_lookup ].

Ltac wp_unfold :=
  unfold cbegin, cend, Vector_begin, Vector_end, Capacity, Size, incr_size,
    RawMemory_plus, RawMemory_index, RawMemory_Capacity, GetAddress, std_swap,
    get_buffer, set_buffer, get_capacity, set_capacity, ptr_add;
  cbn [p_blk p_off].

Ltac wp_step :=
  lazymatch goal with
  | |- wp (bind (RawMemory_dtor _) _) _ _ _ _ => fail "the end of a scope"
  | |- wp (bind (Vector_dtor _) _) _ _ _ _ => fail "the end of a scope"
  | |- wp (bind _ _) _ _ _ _ => apply wp_bind
  | |- wp (ret _) _ _ _ _ => apply wp_ret
  | |- wp (get_size _) _ _ _ _ => eapply wp_get_size; [solve_lookup|]
  | |- wp (set_size _ _) _ _ _ _ => eapply wp_set_size; [solve_lookup|]
  | |- wp (get_raw (VecData _)) _ _ _ _ => eapply wp_get_raw_vec; [solve_lookup|]
  | |- wp (get_raw (RawObj _)) _ _ _ _ => eapply wp_get_raw_obj; [solve_lookup|]
  | |- wp (set_raw (VecData _) _) _ _ _ _ => eapply wp_set_raw_vec; [solve_lookup|]
  | |- wp (set_raw (RawObj _) _) _ _ _ _ => eapply wp_set_raw_obj; [solve_lookup|]
  | |- wp (end_raw (RawObj _)) _ _ _ _ => apply wp_end_raw
  | |- wp (end_vec _) _ _ _ _ => apply wp_end_vec
  | |- wp (lift _) _ _ _ _ => apply wp_lift
  | |- wp (finally _ _) _ _ _ _ => apply wp_finally
  | |- wp (try_catch _ _) _ _ _ _ => apply wp_try_catch
  | |- wp throw _ _ _ _ => apply wp_throw
  | |- wp (ptr_diff (Ptr ?b _) (Ptr ?b _)) _ _ _ _ => apply wp_ptr_diff
  | |- wp (assert true) _ _ _ _ => apply wp_assert; [intros _|done]
  end;
  cbn [raws vecs mem heap fuse data_ size_ buffer_ capacity_ p_blk p_off];
  rewrite ?Z.add_0_l, ?Z.sub_0_r.

Ltac wp_steps := repeat (wp_unfold; wp_step).

Ltac wp_assert_lia :=
  apply wp_assert;
  [ intros _
  | let H := fresh in
    intros H; first [apply Z.leb_gt in H | apply Z.ltb_ge in H]; lia ].



Section member_rules.
Context {T : Type} `{!Element T}.
Implicit Types (σ : state (T:=T)) (E : state (T:=T) → Prop) (F : Prop).
Implicit Types (this l : loc) (v : Vector) (x : RawMemory).

(** Swapping the [data_] of a vector with a stand-alone [RawMemory]. *)
Lemma wp_RawMemory_Swap_vec_obj (Q : unit → state → Prop) E F σ this l v x :
  vecs σ !! this = Some v → raws σ !! l = Some x →
  Q tt (State (<[l := data_ v]> (raws σ))
          (<[this := {| data_ := x; size_ := size_ v |}]> (vecs σ)) (mem σ)) →
  wp (RawMemory_Swap (VecData this) (RawObj l)) Q E F σ.
Proof.
  intros Hv Hx HQ. destruct σ as [r vs μ]. cbn [raws vecs mem] in *.
  unfold RawMemory_Swap. wp_steps.
  rewrite !insert_insert_eq.
  destruct v as [[vb vc] vsz], x as [xb xc]. exact HQ.
Qed.

(** [operator new]: a fresh block of uninitialized slots, or
    [std::bad_alloc]. *)
Lemma wp_operator_new_bytes (Q : ptr → memory → Prop)
    (E : memory (T:=T) → Prop) F h f bytes :
  (∀ a f', h !! a = None → bytes ≤ PTRDIFF_MAX → (f = None → f' = None) →
     Q (Ptr (Some a) 0)
       (Memory (<[a := replicate (Z.to_nat (bytes / sizeof_T)) None]> h) f')) →
  (f ≠ None ∨ PTRDIFF_MAX < bytes → ∀ f', E (Memory h f')) →
  wp (operator_new bytes) Q E F (Memory h f).
Proof.
  intros HQ HE. unfold operator_new.
  destruct (Z.ltb_spec PTRDIFF_MAX bytes) as [Hn|Hn].
  - apply wp_throw, HE. by right.
  - apply wp_bind, wp_tick.
    + intros f' Hf'. apply wp_bind, wp_get, wp_bind, wp_put, wp_ret.
      cbn [heap fuse]. apply HQ; [|done..].
      apply not_elem_of_dom, is_fresh.
    + intros Hf. apply HE. by left.
Qed.

(** The operator new of [Allocate] for [n] slots whose byte count does not
    wrap around: a fresh block of exactly [n] uninitialized slots, or
    [std::bad_alloc]. *)
Lemma wp_operator_new (Q : ptr → memory → Prop) (E : memory (T:=T) → Prop) F
    h f n :
  0 ≤ n * sizeof_T < SIZE_MODULUS →
  (∀ a f', h !! a = None → n ≤ max_slots → (f = None → f' = None) →
     Q (Ptr (Some a) 0)
       (Memory (<[a := replicate (Z.to_nat n) None]> h) f')) →
  (f ≠ None ∨ max_slots < n → ∀ f', E (Memory h f')) →
  wp (operator_new (wrap (n * sizeof_T))) Q E F (Memory h f).
Proof.
  intros Hn HQ HE. rewrite wrap_small by done.
  pose proof sizeof_T_bounds as [Hpos _].
  apply wp_operator_new_bytes.
  - intros a f' Ha Hle Hf'. rewrite Z.div_mul by lia.
    apply HQ; [done| |done]. by apply max_slots_bytes.
  - intros Hthrow. apply HE. destruct Hthrow as [?|Hbig]; [by left|right].
    pose proof (max_slots_bytes n). lia.
Qed.

Lemma wp_operator_delete (Q : unit → memory → Prop) (E : memory (T:=T) → Prop)
    F h f a b :
  h !! a = Some b → Q tt (Memory (delete a h) f) →
  wp (operator_delete (Ptr (Some a) 0)) Q E F (Memory h f).
Proof.
  intros Ha HQ. unfold wp, operator_delete. cbn [p_blk p_off heap fuse].
  by rewrite Ha.
Qed.

(** Running the constructor on the arguments. *)
Lemma wp_construct_value (Q : T → memory → Prop) (E : memory (T:=T) → Prop) F
    (h : gmap addr (list (option T))) (f : option nat) values (w : T) :
  args_value h values w →
  (∀ f', (f = None → f' = None) → Q w (Memory h f')) →
  (f ≠ None → E (Memory h None)) →
  wp (construct_value values) Q E F (Memory h f).
Proof.
  intros Hx HQ HE. destruct values as [u|p]; simpl in *.
  - subst. apply wp_bind, wp_tick; [|done].
    intros f' Hf'. by apply wp_ret, HQ.
  - apply wp_bind. unfold wp at 1, load. cbn [heap]. rewrite Hx.
    apply wp_bind, wp_tick; [|done].
    intros f' Hf'. by apply wp_ret, HQ.
Qed.

(** The value of the arguments does not depend on a block allocated after
    they were bound. *)
Lemma args_value_alloc (h : gmap addr (list (option T))) a b values (w : T) :
  h !! a = None → args_value h values w → args_value (<[a := b]> h) values w.
Proof.
  intros Ha. destruct values as [u|p]; [done|]. simpl.
  unfold slot_at. destruct (p_blk p) as [a'|]; [|done].
  destruct (decide (a = a')) as [->|Hne].
  - by rewrite Ha.
  - by rewrite lookup_insert_ne.
Qed.

(** The end of the scope of a local [RawMemory]: its destructor releases the
    block it holds, and its storage ends. *)
Lemma wp_raw_cleanup (Q : unit → state → Prop) E F σ l a n
    (b : list (option T)) :
  raws σ !! l = Some {| buffer_ := Ptr (Some a) 0; capacity_ := n |} →
  heap (mem σ) !! a = Some b →
  Q tt (State (delete l (raws σ)) (vecs σ)
          (Memory (delete a (heap (mem σ))) (fuse (mem σ)))) →
  wp (bind (RawMemory_dtor (RawObj l)) (λ _, end_raw (RawObj l))) Q E F σ.
Proof.
  intros Hl Ha HQ. destruct σ as [r vs [h f]]. cbn [raws vecs mem heap fuse] in *.
  unfold RawMemory_dtor. wp_steps. cbn [is_null p_blk negb]. wp_steps.
  unfold Deallocate. eapply wp_operator_delete; [done|]. wp_steps. exact HQ.
Qed.

Lemma wp_raw_cleanup_null (Q : unit → state → Prop) E F σ l n :
  raws σ !! l = Some {| buffer_ := Ptr None 0; capacity_ := n |} →
  Q tt (State (delete l (raws σ)) (vecs σ) (mem σ)) →
  wp (bind (RawMemory_dtor (RawObj l)) (λ _, end_raw (RawObj l))) Q E F σ.
Proof.
  intros Hl HQ. destruct σ as [r vs [h f]]. cbn [raws vecs mem heap fuse] in *.
  unfold RawMemory_dtor. wp_steps. cbn [is_null p_blk negb]. wp_steps. exact HQ.
Qed.

End member_rules.

(** ** Emplace *)

Section emplace.
Context {T : Type} `{!Element T}.
Implicit Types (σ : state (T:=T)) (this l : loc) (v : Vector).
Implicit Types (h : gmap addr (list (option T))) (f : option nat).
Implicit Types (elems : list T) (x : T) (j : nat).

Lemma Emplace_throws_intro σ v σ' :
  fuse (mem σ) ≠ None →
  (nothrow_move_constructible || copy_constructible = true →
   raws σ' = raws σ ∧ vecs σ' = vecs σ ∧ heap (mem σ') = heap (mem σ)) →
  Emplace_throws σ v σ'.
Proof. intros Hf Hsame. split; [by left | auto]. Qed.

(** Nothing has changed: the block of the vector is the block of its
    elements. *)
Lemma relocation_throws_same r vs h f f' a c s elems :
  h !! a = Some (blk_of elems (Z.to_nat c)) →
  relocation_throws (State r vs (Memory h f))
    {| data_ := {| buffer_ := Ptr (Some a) 0; capacity_ := c |}; size_ := s |}
    elems (State r vs (Memory h f')).
Proof.
  intros Ha. split; [done|]. split; [done|]. exists elems. split; [done|].
  unfold stored. cbn [raws vecs mem heap data_ buffer_ capacity_ p_blk].
  by rewrite insert_id.
Qed.

(** [Emplace] into a full vector.  When it throws, the vector is as the
    relocation left it. *)
Lemma Emplace_grow_valid r vs h f this a c elems j values x :
  let v := {| data_ := {| buffer_ := Ptr (Some a) 0; capacity_ := c |}; size_ := c |} in
  let σ := State r vs (Memory h f) in
  vs !! this = Some v →
  0 < c ≤ max_slots → c = Z.of_nat (length elems) →
  h !! a = Some (blk_of elems (Z.to_nat c)) →
  (j ≤ length elems)%nat →
  args_value h values x →
  wp (Emplace this (Ptr (Some a) (Z.of_nat j)) values)
     (λ r σ', Emplace_returns σ this v elems j x r σ' ∧
              Emplace_storage σ this v elems j x σ')
     (λ σ', Emplace_throws σ v σ' ∧ relocation_throws σ v elems σ') False σ.
Proof.
  intros v σ. subst v σ. intros Hv Hc Hlen Ha Hj Hx.
  unfold Emplace, Emplace_assertion. wp_steps.
  unfold ptr_geb. cbn [p_off].
  destruct (Z.leb_spec 0 (Z.of_nat j)) as [_|?]; [|lia].
  wp_steps.
  rewrite Z.eqb_refl.
  destruct (Z.eqb_spec c 0) as [?|_]; [lia|].
  rewrite wrap_slots by lia.
  unfold with_raw, RawMemory_ctor, Allocate.
  destruct (Z.eqb_spec (2 * c) 0) as [?|_]; [lia|]. cbn [negb].
  wp_steps.
  apply wp_operator_new; [apply bytes_fit; pose proof max_slots_pos; lia|..].
  2:{ intros Hthrow f'. split; [|by apply relocation_throws_same]. split.
      - cbn [mem fuse data_ size_ capacity_]. unfold grown_capacity.
        destruct (Z.eqb_spec c 0); [lia|]. destruct Hthrow; [by left|right; lia].
      - done. }
  intros a' f1 Ha' Hcap Hf1. wp_steps.
  apply wp_new_raw. intros l Hl. cbn [raws vecs mem] in Hl |- *.
  assert (a ≠ a') as Hne by congruence.
  set (N := Z.to_nat (2 * c)).
  wp_steps. wp_assert_lia. wp_steps.
  rewrite wrap_slots by lia. wp_assert_lia. wp_steps.
  unfold construct_at. apply wp_bind.
  eapply wp_construct_value; [by apply args_value_alloc| |].
  2:{ intros Hf. eapply wp_raw_cleanup; [solve_lookup..|].
      cbn [raws vecs mem heap fuse].
      rewrite !delete_insert_id by done.
      split; [|by apply relocation_throws_same].
      apply Emplace_throws_intro; [cbn [mem fuse]; intuition congruence|]. intros _.
      done. }
  intros f2 Hf2. eapply wp_place; [solve_lookup|lia| |].
  { unfold N. rewrite length_replicate. lia. }
  rewrite insert_insert_eq.
  rewrite Nat2Z.id.
  set (B0 := <[j := Some x]> (replicate N None)).
  wp_steps.
  (* the elements before the position *)
  unfold CopyData at 1. wp_steps.
  eapply (wp_CopyOrMoveInNewData _ _ _ _ _ a 0 _ a' 0 _ (take j elems));
    [done|solve_lookup|solve_lookup|lia|lia|..].
  { rewrite length_take. lia. }
  { intros i w Hw. apply lookup_take_Some in Hw as [Hw ?].
    by apply lookup_blk_of_elem. }
  { intros i Hi. rewrite length_take in Hi. unfold B0.
    rewrite list_lookup_insert_ne by lia.
    apply lookup_replicate_2. unfold N. lia. }
  2:{ intros Hf sb' Hrel Hsame. wp_steps.
      eapply wp_destroy_at; [solve_lookup|lia| |].
      { rewrite Nat2Z.id. unfold B0.
        apply list_lookup_insert_eq. rewrite length_replicate. unfold N. lia. }
      wp_steps.
      apply wp_destroy_n_0; [done|]. wp_steps.
      eapply wp_raw_cleanup; [solve_lookup..|].
      cbn [raws vecs mem heap fuse].
      rewrite delete_insert_id by done.
      match goal with
      | |- context [State r vs (Memory ?h' None)] =>
          assert (h' = <[a := sb']> h) as ->
      end.
      { apply map_eq. intros k.
        destruct (decide (k = a')) as [->|]; [|destruct (decide (k = a)) as [->|]];
          simplify_map_eq; done. }
      split.
      - apply Emplace_throws_intro; [cbn [mem fuse]; intuition congruence|].
        intros Htr. cbn [raws vecs mem heap fuse].
        destruct (Hsame Htr) as [_ ->]. by rewrite insert_id.
      - split; [done|]. split; [done|].
        rewrite length_take in Hrel.
        apply relocated_is_blk_of in Hrel as (elems' & Hlen' & ->); [|lia..].
        by exists elems'. }
  intros f3 A1 Hf3 HA1 Hcopy1.
  rewrite insert_insert_over by done.
  set (B1 := list_inserts (Z.to_nat 0) (Some <$> take j elems) B0).
  pose proof HA1 as HA1full.
  destruct HA1 as (HA1len & HA1out & HA1live). rewrite length_take in HA1out.
  wp_steps.
  (* the elements from the position on *)
  unfold CopyData at 1. wp_steps.
  rewrite wrap_slots by lia.
  eapply (wp_CopyOrMoveInNewData _ _ _ _ _ a _ _ a' _ _ (drop j elems));
    [done|solve_lookup|solve_lookup|lia|lia|..].
  { rewrite length_drop. lia. }
  { intros i w Hw. rewrite lookup_drop in Hw. rewrite Nat2Z.id.
    rewrite HA1out by lia. by apply lookup_blk_of_elem. }
  { intros i Hi. rewrite length_drop in Hi. unfold B1, B0.
    rewrite list_lookup_inserts_ge by (rewrite length_fmap, length_take; lia).
    rewrite list_lookup_insert_ne by lia.
    apply lookup_replicate_2. unfold N. lia. }
  2:{ intros Hf sb' Hrel Hsame. wp_steps.
      eapply wp_destroy_at; [solve_lookup|lia| |].
      { rewrite Nat2Z.id. unfold B1, B0.
        rewrite list_lookup_inserts_ge by (rewrite length_fmap, length_take; lia).
        apply list_lookup_insert_eq. rewrite length_replicate. unfold N. lia. }
      wp_steps.
      eapply wp_destroy_n; [solve_lookup|lia| |].
      { intros i Hi. rewrite Nat2Z.id in *. rewrite list_lookup_insert_ne by lia.
        unfold B1. rewrite lookup_inserts_case.
        rewrite length_fmap, length_take, list_lookup_fmap, lookup_take_lt by lia.
        case_decide as Hcase.
        - destruct (lookup_lt_is_Some_2 elems (i - Z.to_nat 0)%nat) as [w ->];
            [lia|]. by exists w.
        - unfold B0 in Hcase. rewrite length_insert, length_replicate in Hcase.
          unfold N in Hcase. lia. }
      wp_steps.
      eapply wp_raw_cleanup; [solve_lookup..|].
      cbn [raws vecs mem heap fuse].
      rewrite delete_insert_id by done.
      match goal with
      | |- context [State r vs (Memory ?h' None)] =>
          assert (h' = <[a := sb']> h) as ->
      end.
      { apply map_eq. intros k.
        destruct (decide (k = a')) as [->|]; [|destruct (decide (k = a)) as [->|]];
          simplify_map_eq; done. }
      split.
      - apply Emplace_throws_intro; [cbn [mem fuse]; intuition congruence|].
        intros Htr. cbn [raws vecs mem heap fuse].
        destruct (Hsame Htr) as [Hpol ->]. rewrite (Hcopy1 Hpol).
        by rewrite insert_id.
      - split; [done|]. split; [done|].
        apply relocated_is_blk_of in HA1full as (elems1 & Hlen1 & ->);
          [|rewrite ?length_take; lia..].
        rewrite length_drop, Nat2Z.id in Hrel.
        apply relocated_is_blk_of in Hrel as (elems' & Hlen' & ->); [|lia..].
        exists elems'. split; [lia | done]. }
  intros f4 A2 Hf4 HA2 _.
  rewrite insert_insert_pair by done.
  destruct HA2 as (HA2len & HA2out & HA2live).
  wp_steps.
  eapply wp_destroy_n; [solve_lookup|lia| |].
  { intros i Hi.
    destruct (lookup_lt_is_Some_2 elems i) as [w Hw]; [lia|].
    destruct (HA1live i w) as [w1 Hw1]; [by apply lookup_blk_of_elem|].
    destruct (HA2live i w1 Hw1) as [w2 Hw2]. by exists w2. }
  rewrite insert_insert_ne, insert_insert_eq by done.
  wp_steps.
  eapply wp_RawMemory_Swap_vec_obj; [solve_lookup..|].
  cbn [raws vecs mem heap fuse data_ size_ buffer_ capacity_].
  wp_steps.
  eapply wp_raw_cleanup; [solve_lookup..|].
  cbn [raws vecs mem heap fuse data_ size_ buffer_ capacity_].
  split.
  { eexists. split_and!; cbn [raws vecs mem heap fuse data_ size_ buffer_ capacity_].
    - by rewrite insert_insert_eq, delete_insert_id.
    - by rewrite insert_insert_eq.
    - done.
    - assert (length (take j elems ++ x :: drop j elems) = S (length elems)) as Hl'.
      { rewrite length_app, length_take, length_cons, length_drop. lia. }
      unfold vec_repr. cbn [data_ size_ buffer_ capacity_ p_blk p_off].
      rewrite wrap_slots by lia. split_and!; try lia.
      rewrite lookup_delete_ne, lookup_insert_eq by done. f_equal.
      unfold B1, B0, N.
      replace (Z.to_nat (Z.of_nat j + 1)) with (S j) by lia.
      change (Z.to_nat 0) with O.
      apply grown_block; lia.
    - rewrite Z.eqb_refl. unfold grown_capacity.
      destruct (Z.eqb_spec c 0); [lia | done].
    - intuition congruence. }
  { eexists. split; [solve_lookup|].
    cbn [raws vecs mem heap fuse data_ size_ buffer_ capacity_].
    rewrite Z.eqb_refl. exists a'. unfold released.
    cbn [data_ size_ buffer_ capacity_ p_blk p_off].
    split; [done|]. split; [done|].
    unfold B1, B0, N.
    replace (Z.to_nat (Z.of_nat j + 1)) with (S j) by lia.
    change (Z.to_nat 0) with O.
    rewrite grown_block by lia.
    apply map_eq. intros k.
    destruct (decide (k = a')) as [->|]; [|destruct (decide (k = a)) as [->|]];
      by simplify_map_eq. }
Qed.

Lemma Emplace_grow r vs h f this a c elems j values x :
  let v := {| data_ := {| buffer_ := Ptr (Some a) 0; capacity_ := c |}; size_ := c |} in
  let σ := State r vs (Memory h f) in
  vs !! this = Some v →
  0 < c ≤ max_slots → c = Z.of_nat (length elems) →
  h !! a = Some (blk_of elems (Z.to_nat c)) →
  (j ≤ length elems)%nat →
  args_value h values x →
  wp (Emplace this (Ptr (Some a) (Z.of_nat j)) values)
     (λ r σ', Emplace_returns σ this v elems j x r σ' ∧
              Emplace_storage σ this v elems j x σ')
     (Emplace_throws σ v) False σ.
Proof.
  intros v σ Hv Hc Hlen Ha Hj Hx.
  pose proof (Emplace_grow_valid r vs h f this a c elems j values x Hv Hc Hlen
                Ha Hj Hx) as Hwp.
  eapply wp_mono; [exact Hwp|done| |done].
  by intros σ' [? _].
Qed.

Lemma Emplace_grow_first_valid r vs h f this values x :
  let v := {| data_ := {| buffer_ := Ptr None 0; capacity_ := 0 |}; size_ := 0 |} in
  let σ := State r vs (Memory h f) in
  vs !! this = Some v →
  args_value h values x →
  wp (Emplace this (Ptr None 0) values)
     (λ r σ', Emplace_returns σ this v [] 0 x r σ' ∧
              Emplace_storage σ this v [] 0 x σ')
     (λ σ', Emplace_throws σ v σ' ∧ relocation_throws σ v [] σ') False σ.
Proof.
  intros v σ. subst v σ. intros Hv Hx.
  unfold Emplace, Emplace_assertion. wp_steps.
  unfold ptr_geb. cbn [p_off Z.leb Z.compare]. wp_steps.
  cbn [Z.eqb].
  unfold with_raw, RawMemory_ctor, Allocate. cbn [Z.eqb negb].
  wp_steps.
  apply wp_operator_new; [apply bytes_fit; pose proof max_slots_pos; lia|..].
  2:{ intros Hthrow f'.
      split; [|split; [done|split; [done|by exists []]]].
      split; [|done].
      cbn [mem fuse data_ size_ capacity_].
      destruct Hthrow as [?|Hbig]; [by left|].
      pose proof max_slots_pos. lia. }
  intros a' f1 Ha' Hcap Hf1. wp_steps.
  apply wp_new_raw. intros l Hl. cbn [raws vecs mem] in Hl |- *.
  wp_steps.
  unfold construct_at. apply wp_bind.
  eapply wp_construct_value; [by apply args_value_alloc| |].
  2:{ intros Hf. eapply wp_raw_cleanup; [solve_lookup..|].
      cbn [raws vecs mem heap fuse].
      rewrite !delete_insert_id by done.
      split; [|split; [done|split; [done|by exists []]]].
      apply Emplace_throws_intro; [cbn [mem fuse]; intuition congruence|].
      done. }
  intros f2 Hf2. eapply wp_place; [solve_lookup|lia| |].
  { rewrite length_replicate. lia. }
  rewrite insert_insert_eq. wp_steps.
  eapply wp_RawMemory_Swap_vec_obj; [solve_lookup..|].
  cbn [raws vecs mem heap fuse data_ size_ buffer_ capacity_].
  wp_steps.
  eapply wp_raw_cleanup_null; [solve_lookup|].
  cbn [raws vecs mem heap fuse data_ size_ buffer_ capacity_].
  split.
  { eexists. split_and!; cbn [raws vecs mem heap fuse data_ size_ buffer_ capacity_].
    - by rewrite insert_insert_eq, delete_insert_id.
    - by rewrite insert_insert_eq.
    - done.
    - unfold vec_repr. cbn [data_ size_ buffer_ capacity_ p_blk p_off].
      split_and!; try done.
      by rewrite lookup_insert_eq.
    - done.
    - intuition congruence. }
  { eexists. split; [solve_lookup|].
    cbn [raws vecs mem heap fuse data_ size_ buffer_ capacity_ Z.eqb].
    exists a'. unfold released.
    cbn [data_ size_ buffer_ capacity_ p_blk p_off].
    split; [done|]. split; [done|]. done. }
Qed.

Lemma Emplace_grow_first r vs h f this values x :
  let v := {| data_ := {| buffer_ := Ptr None 0; capacity_ := 0 |}; size_ := 0 |} in
  let σ := State r vs (Memory h f) in
  vs !! this = Some v →
  args_value h values x →
  wp (Emplace this (Ptr None 0) values)
     (λ r σ', Emplace_returns σ this v [] 0 x r σ' ∧
              Emplace_storage σ this v [] 0 x σ')
     (Emplace_throws σ v) False σ.
Proof.
  intros v σ Hv Hx.
  pose proof (Emplace_grow_first_valid r vs h f this values x Hv Hx) as Hwp.
  eapply wp_mono; [exact Hwp|done| |done].
  by intros σ' [? _].
Qed.

Lemma Emplace_at_end r vs h f this a c elems values x :
  let s := Z.of_nat (length elems) in
  let v := {| data_ := {| buffer_ := Ptr (Some a) 0; capacity_ := c |}; size_ := s |} in
  let σ := State r vs (Memory h f) in
  vs !! this = Some v →
  s < c ≤ max_slots →
  h !! a = Some (blk_of elems (Z.to_nat c)) →
  args_value h values x →
  wp (Emplace this (Ptr (Some a) s) values)
     (λ r σ', Emplace_returns σ this v elems (length elems) x r σ' ∧
              Emplace_storage σ this v elems (length elems) x σ')
     (λ σ', Emplace_throws σ v σ' ∧ unchanged σ σ') False σ.
Proof.
  intros s v σ. subst s v σ. intros Hv Hc Ha Hx.
  unfold Emplace, Emplace_assertion. wp_steps.
  unfold ptr_geb. cbn [p_off].
  destruct (Z.leb_spec 0 (Z.of_nat (length elems))) as [_|?]; [|lia].
  wp_steps.
  destruct (Z.eqb_spec (Z.of_nat (length elems)) c) as [?|Hsc]; [lia|].
  wp_steps. wp_assert_lia. wp_steps.
  unfold ptr_eqb. rewrite bool_decide_eq_true_2 by done.
  wp_steps.
  unfold construct_at. apply wp_bind.
  eapply wp_construct_value; [done| |].
  2:{ intros Hf. split; [|done]. split; [by left|].
      cbn [data_ size_ capacity_]. lia. }
  intros f1 Hf1. eapply wp_place; [solve_lookup|lia| |].
  { rewrite length_blk_of; lia. }
  wp_steps.
  split.
  { eexists. split_and!; cbn [raws vecs mem heap fuse data_ size_ buffer_ capacity_].
    - done.
    - done.
    - done.
    - rewrite take_ge, drop_ge by lia.
      unfold vec_repr. cbn [data_ size_ buffer_ capacity_ p_blk p_off].
      rewrite wrap_slots by lia. rewrite length_app. cbn [length].
      split_and!; try lia.
      rewrite lookup_insert_eq, Nat2Z.id. f_equal.
      apply blk_of_snoc. lia.
    - destruct (Z.eqb_spec (Z.of_nat (length elems)) c); [lia|done].
    - done. }
  { eexists. split; [solve_lookup|].
    cbn [raws vecs mem heap fuse data_ size_ buffer_ capacity_].
    destruct (Z.eqb_spec (Z.of_nat (length elems)) c); [lia|].
    split; [done|]. unfold stored.
    cbn [data_ size_ buffer_ capacity_ p_blk p_off].
    rewrite take_ge, drop_ge by lia.
    rewrite Nat2Z.id, blk_of_snoc by lia. done. }
Qed.

Lemma Emplace_middle r vs h f this a c elems j values x :
  let s := Z.of_nat (length elems) in
  let v := {| data_ := {| buffer_ := Ptr (Some a) 0; capacity_ := c |}; size_ := s |} in
  let σ := State r vs (Memory h f) in
  vs !! this = Some v →
  s < c ≤ max_slots →
  h !! a = Some (blk_of elems (Z.to_nat c)) →
  (j < length elems)%nat →
  args_value h values x →
  wp (Emplace this (Ptr (Some a) (Z.of_nat j)) values)
     (λ r σ', Emplace_returns σ this v elems j x r σ' ∧
              Emplace_storage σ this v elems j x σ')
     (λ σ', Emplace_throws σ v σ' ∧ Emplace_in_place_throws σ v elems σ')
     False σ.
Proof.
  intros s v σ. subst s v σ. intros Hv Hc Ha Hj Hx.
  assert (∀ σ', fuse (mem (State r vs (Memory h f))) ≠ None →
    Emplace_throws (State r vs (Memory h f))
      {| data_ := {| buffer_ := Ptr (Some a) 0; capacity_ := c |};
         size_ := Z.of_nat (length elems) |} σ') as Hthrows.
  { intros σ' Hf. split; [by left|]. cbn [data_ size_ capacity_]. lia. }
  cbn [mem fuse] in Hthrows.
  unfold Emplace, Emplace_assertion. wp_steps.
  unfold ptr_geb. cbn [p_off].
  destruct (Z.leb_spec 0 (Z.of_nat j)) as [_|?]; [|lia].
  wp_steps.
  destruct (Z.eqb_spec (Z.of_nat (length elems)) c) as [?|Hsc]; [lia|].
  wp_steps. wp_assert_lia. wp_steps.
  unfold ptr_eqb. rewrite bool_decide_eq_false_2 by (intros [=]; lia).
  wp_steps.
  eapply wp_construct_value; [done| |].
  2:{ intros Hf. split; [by apply Hthrows|]. by left. }
  intros f1 Hf1. wp_steps.
  (* the last element moves into the slot behind it *)
  assert (∃ m, length elems = S m) as [m Hm]
    by (exists (length elems - 1)%nat; lia).
  destruct (lookup_lt_is_Some_2 elems m) as [y Hy]; [lia|].
  unfold move_construct.
  apply wp_bind. eapply wp_load; [solve_lookup|lia| |].
  { replace (Z.to_nat (Z.of_nat (length elems) + -1)) with m by lia.
    by apply lookup_blk_of_elem. }
  apply wp_bind, wp_tick_unless.
  2:{ intros Hf _. split; [apply Hthrows; intuition congruence|]. by left. }
  intros f2 Hf2 _. apply wp_bind.
  eapply wp_place; [solve_lookup|lia| |].
  { rewrite length_blk_of; lia. }
  rewrite Nat2Z.id, blk_of_snoc by lia.
  eapply wp_assign; [solve_lookup|lia| |].
  { replace (Z.to_nat (Z.of_nat (length elems) + -1)) with m by lia.
    apply lookup_blk_of_elem. by apply lookup_app_l_Some. }
  rewrite insert_insert_eq.
  replace (Z.to_nat (Z.of_nat (length elems) + -1)) with m by lia.
  rewrite blk_of_insert by (rewrite length_app; lia).
  rewrite (shifting_last _ _ _ _ Hm Hy).
  wp_steps.
  (* the elements from the position on move one slot to the right *)
  eapply wp_std_move_backward_right;
    [solve_lookup| | exact (eq_sym Hm) | | done | done | |].
  { lia. }
  { lia. }
  2:{ intros Hf _ i z'. split; [apply Hthrows; intuition congruence|].
      right. split; [done|]. split; [done|].
      exists (shifting elems i z'). split; [apply length_shifting|].
      unfold stored. cbn [raws vecs mem heap fuse data_ buffer_ capacity_ p_blk].
      by rewrite insert_insert_eq. }
  intros f3 z' Hf3. rewrite insert_insert_eq. wp_steps.
  (* the new element is assigned to the position *)
  unfold move_assign_local.
  apply wp_bind. eapply wp_load; [solve_lookup|lia| |].
  { rewrite Nat2Z.id. apply lookup_blk_of_elem, shifting_lookup_hole. lia. }
  apply wp_bind, wp_tick_unless.
  2:{ intros Hf _. split; [apply Hthrows; intuition congruence|].
      right. split; [done|]. split; [done|].
      exists (shifting elems j z'). split; [apply length_shifting|].
      unfold stored. by cbn [raws vecs mem heap fuse data_ buffer_ capacity_ p_blk]. }
  intros f4 Hf4 _.
  eapply wp_assign; [solve_lookup|lia| |].
  { rewrite Nat2Z.id. apply lookup_blk_of_elem, shifting_lookup_hole. lia. }
  rewrite insert_insert_eq, Nat2Z.id.
  rewrite blk_of_insert by (rewrite length_shifting; lia).
  rewrite shifting_fill by lia.
  wp_steps.
  split.
  { eexists. split_and!; cbn [raws vecs mem heap fuse data_ size_ buffer_ capacity_].
    - done.
    - done.
    - done.
    - fold (shifting elems j x).
      unfold vec_repr. cbn [data_ size_ buffer_ capacity_ p_blk p_off].
      rewrite wrap_slots by lia. rewrite length_shifting.
      split_and!; try lia.
      by rewrite lookup_insert_eq.
    - destruct (Z.eqb_spec (Z.of_nat (length elems)) c); [lia|done].
    - intuition congruence. }
  { eexists. split; [solve_lookup|].
    cbn [raws vecs mem heap fuse data_ size_ buffer_ capacity_].
    destruct (Z.eqb_spec (Z.of_nat (length elems)) c); [lia|].
    split; [done|]. unfold stored.
    cbn [data_ size_ buffer_ capacity_ p_blk p_off]. done. }
Qed.

(** [Emplace] at any position of any vector, for what it does to the
    vector and to the heap. *)
Lemma Emplace_spec_storage σ this v elems j values x :
  vecs σ !! this = Some v →
  vec_repr (heap (mem σ)) v elems →
  (j ≤ length elems)%nat →
  args_value (heap (mem σ)) values x →
  wp (Emplace this (ptr_add (buffer_ (data_ v)) (Z.of_nat j)) values)
     (λ r σ', Emplace_returns σ this v elems j x r σ' ∧
              Emplace_storage σ this v elems j x σ')
     (Emplace_throws σ v) False σ.
Proof.
  destruct σ as [r vs [h f]], v as [[[[a|] o] c] s].
  all: cbn [raws vecs mem heap fuse]; unfold vec_repr, ptr_add;
    cbn [data_ size_ buffer_ capacity_ p_blk p_off].
  - intros Hv (Hs & Hc & -> & Hpos & Ha) Hj Hx. subst s. rewrite Z.add_0_l.
    destruct (decide (Z.of_nat (length elems) = c)) as [<-|Hne].
    + by apply Emplace_grow; [|lia|..].
    + destruct (decide (j = length elems)) as [->|Hne'].
      * pose proof (Emplace_at_end r vs h f this a c elems values x Hv
                      ltac:(lia) Ha Hx) as Hwp.
        eapply wp_mono; [exact Hwp|done| |done].
        by intros σ' [? _].
      * pose proof (Emplace_middle r vs h f this a c elems j values x Hv
                      ltac:(lia) Ha ltac:(lia) Hx) as Hwp.
        eapply wp_mono; [exact Hwp|done| |done].
        by intros σ' [? _].
  - intros Hv (Hs & Hc & -> & ->) Hj Hx.
    assert (s = 0) as -> by lia.
    destruct elems as [|??]; [|simpl in Hs; lia].
    assert (j = O) as -> by (simpl in Hj; lia).
    by apply Emplace_grow_first.
Qed.

(** [Emplace] below the capacity, at a position before the end: what holds
    when it throws. *)
Lemma Emplace_in_place_spec σ this v elems j values x :
  vecs σ !! this = Some v →
  vec_repr (heap (mem σ)) v elems →
  size_ v < capacity_ (data_ v) →
  (j < length elems)%nat →
  args_value (heap (mem σ)) values x →
  wp (Emplace this (ptr_add (buffer_ (data_ v)) (Z.of_nat j)) values)
     (λ r σ', Emplace_returns σ this v elems j x r σ' ∧
              Emplace_storage σ this v elems j x σ')
     (λ σ', Emplace_throws σ v σ' ∧ Emplace_in_place_throws σ v elems σ')
     False σ.
Proof.
  destruct σ as [r vs [h f]], v as [[[[a|] o] c] s].
  all: cbn [raws vecs mem heap fuse]; unfold vec_repr, ptr_add;
    cbn [data_ size_ buffer_ capacity_ p_blk p_off].
  - intros Hv (Hs & Hc & -> & Hpos & Ha) Hlt Hj Hx. subst s. rewrite Z.add_0_l.
    exact (Emplace_middle r vs h f this a c elems j values x Hv
             ltac:(lia) Ha Hj Hx).
  - intros Hv (Hs & Hc & -> & ->) Hlt Hj Hx. lia.
Qed.

(** [Emplace] into a full vector, whatever [T] is: when it throws, the
    vector is as the relocation left it. *)
Lemma Emplace_full_spec σ this v elems j values x :
  vecs σ !! this = Some v →
  vec_repr (heap (mem σ)) v elems →
  size_ v = capacity_ (data_ v) →
  (j ≤ length elems)%nat →
  args_value (heap (mem σ)) values x →
  wp (Emplace this (ptr_add (buffer_ (data_ v)) (Z.of_nat j)) values)
     (λ r σ', Emplace_returns σ this v elems j x r σ' ∧
              Emplace_storage σ this v elems j x σ')
     (λ σ', Emplace_throws σ v σ' ∧ relocation_throws σ v elems σ')
     False σ.
Proof.
  destruct σ as [r vs [h f]], v as [[[[a|] o] c] s].
  all: cbn [raws vecs mem heap fuse]; unfold vec_repr, ptr_add;
    cbn [data_ size_ buffer_ capacity_ p_blk p_off].
  - intros Hv (Hs & Hc & -> & Hpos & Ha) Hfull Hj Hx. subst s c.
    rewrite Z.add_0_l.
    exact (Emplace_grow_valid r vs h f this a (Z.of_nat (length elems)) elems
             j values x Hv ltac:(lia) eq_refl Ha Hj Hx).
  - intros Hv (Hs & Hc & -> & ->) Hfull Hj Hx.
    assert (s = 0) as -> by lia.
    destruct elems as [|??]; [|simpl in Hs; lia].
    assert (j = O) as -> by (simpl in Hj; lia).
    exact (Emplace_grow_first_valid r vs h f this values x Hv Hx).
Qed.

(** [Emplace] at the end of any vector: when it throws, every object and
    the heap are as before the call, provided the relocation copies or
    cannot throw. *)
Lemma Emplace_end_spec σ this v elems values x :
  vecs σ !! this = Some v →
  vec_repr (heap (mem σ)) v elems →
  args_value (heap (mem σ)) values x →
  wp (Emplace this (ptr_add (buffer_ (data_ v)) (Z.of_nat (length elems))) values)
     (λ r σ', Emplace_returns σ this v elems (length elems) x r σ' ∧
              Emplace_storage σ this v elems (length elems) x σ')
     (λ σ', Emplace_throws σ v σ' ∧
            (nothrow_move_constructible || copy_constructible = true →
             unchanged σ σ'))
     False σ.
Proof.
  destruct σ as [r vs [h f]], v as [[[[a|] o] c] s].
  all: cbn [raws vecs mem heap fuse]; unfold vec_repr, ptr_add;
    cbn [data_ size_ buffer_ capacity_ p_blk p_off].
  - intros Hv (Hs & Hc & -> & Hpos & Ha) Hx. subst s. rewrite Z.add_0_l.
    destruct (decide (Z.of_nat (length elems) = c)) as [<-|Hne].
    + pose proof (Emplace_grow r vs h f this a (Z.of_nat (length elems)) elems
                    (length elems) values x Hv ltac:(lia) eq_refl Ha
                    ltac:(lia) Hx) as Hwp.
      eapply wp_mono; [exact Hwp|done| |done].
      intros σ' Hthrows. split; [done|]. intros Htr.
      destruct Hthrows as [_ Hsame]. by apply Hsame.
    + pose proof (Emplace_at_end r vs h f this a c elems values x Hv
                    ltac:(lia) Ha Hx) as Hwp.
      eapply wp_mono; [exact Hwp|done| |done].
      intros σ' [? ?]. done.
  - intros Hv (Hs & Hc & -> & ->) Hx.
    assert (s = 0) as -> by lia.
    destruct elems as [|??]; [|simpl in Hs; lia].
    pose proof (Emplace_grow_first r vs h f this values x Hv Hx) as Hwp.
    eapply wp_mono; [exact Hwp|done| |done].
    intros σ' Hthrows. split; [done|]. intros Htr.
    destruct Hthrows as [_ Hsame]. by apply Hsame.
Qed.

(** [Emplace] at any position of any vector. *)
Lemma Emplace_spec σ this v elems j values x :
  vecs σ !! this = Some v →
  vec_repr (heap (mem σ)) v elems →
  (j ≤ length elems)%nat →
  args_value (heap (mem σ)) values x →
  wp (Emplace this (ptr_add (buffer_ (data_ v)) (Z.of_nat j)) values)
     (Emplace_returns σ this v elems j x) (Emplace_throws σ v) False σ.
Proof.
  intros Hv Hrepr Hj Hx.
  eapply wp_mono; [by apply Emplace_spec_storage| | |]; [|done..].
  by intros r σ' [? _].
Qed.

(** [EmplaceBack], and with it [PushBack], is [Emplace] at the end. *)
Lemma EmplaceBack_spec_storage σ this v elems values x :
  vecs σ !! this = Some v →
  vec_repr (heap (mem σ)) v elems →
  args_value (heap (mem σ)) values x →
  wp (EmplaceBack this values)
     (λ r σ', Emplace_returns σ this v elems (length elems) x r σ' ∧
              Emplace_storage σ this v elems (length elems) x σ')
     (Emplace_throws σ v) False σ.
Proof.
  intros Hv Hrepr Hx. unfold EmplaceBack.
  destruct σ as [r vs [h f]]. cbn [raws vecs mem heap fuse] in *.
  pose proof Hrepr as (Hs & Hc & _). wp_steps. wp_assert_lia. wp_steps.
  rewrite Hs. apply (Emplace_spec_storage (State r vs (Memory h f))); auto.
Qed.

Lemma EmplaceBack_spec σ this v elems values x :
  vecs σ !! this = Some v →
  vec_repr (heap (mem σ)) v elems →
  args_value (heap (mem σ)) values x →
  wp (EmplaceBack this values)
     (Emplace_returns σ this v elems (length elems) x) (Emplace_throws σ v)
     False σ.
Proof.
  intros Hv Hrepr Hx.
  eapply wp_mono; [by apply EmplaceBack_spec_storage| | |]; [|done..].
  by intros r σ' [? _].
Qed.

(** [EmplaceBack] leaves everything as it was when it throws, provided the
    relocation copies or cannot throw. *)
Lemma EmplaceBack_spec_strong σ this v elems values x :
  vecs σ !! this = Some v →
  vec_repr (heap (mem σ)) v elems →
  args_value (heap (mem σ)) values x →
  wp (EmplaceBack this values)
     (λ r σ', Emplace_returns σ this v elems (length elems) x r σ' ∧
              Emplace_storage σ this v elems (length elems) x σ')
     (λ σ', Emplace_throws σ v σ' ∧
            (nothrow_move_constructible || copy_constructible = true →
             unchanged σ σ'))
     False σ.
Proof.
  intros Hv Hrepr Hx. unfold EmplaceBack.
  destruct σ as [r vs [h f]]. cbn [raws vecs mem heap fuse] in *.
  pose proof Hrepr as (Hs & Hc & _). wp_steps. wp_assert_lia. wp_steps.
  rewrite Hs. apply (Emplace_end_spec (State r vs (Memory h f))); auto.
Qed.

End emplace.

(** ** Erase *)

Section erase.
Context {T : Type} `{!Element T}.
Implicit Types (σ : state (T:=T)) (this l : loc) (v : Vector).
Implicit Types (h : gmap addr (list (option T))) (f : option nat).
Implicit Types (elems : list T) (x : T) (j : nat).

(** [Erase] at a position of the vector, for what it does to the vector and
    to the heap: only the block of the vector changes. *)
Lemma Erase_spec_storage σ this v elems j :
  vecs σ !! this = Some v →
  vec_repr (heap (mem σ)) v elems →
  (j < length elems)%nat →
  wp (Erase this (ptr_add (buffer_ (data_ v)) (Z.of_nat j)))
     (λ r σ', Erase_returns σ this v elems j r σ' ∧
        heap (mem σ') =
          stored (heap (mem σ)) (buffer_ (data_ v))
            (blk_of (take j elems ++ drop (S j) elems)
               (Z.to_nat (capacity_ (data_ v)))))
     (λ σ', fuse (mem σ) ≠ None ∧ nothrow_move_assignable = false ∧
        raws σ' = raws σ ∧ vecs σ' = vecs σ ∧
        ∃ elems', length elems' = length elems ∧
                  take j elems' = take j elems ∧
                  vec_repr (heap (mem σ')) v elems' ∧
                  storage_kept (heap (mem σ)) v elems' v (heap (mem σ')))
     False σ.
Proof.
  destruct σ as [r vs [h f]], v as [[[[a|] o] c] s].
  all: cbn [raws vecs mem heap fuse]; unfold vec_repr, ptr_add;
    cbn [data_ size_ buffer_ capacity_ p_blk p_off].
  2:{ intros _ (Hs & Hc & _ & ->) Hj. lia. }
  intros Hv (Hs & Hc & -> & Hpos & Ha) Hj. subst s. rewrite Z.add_0_l.
  unfold Erase, Erase_assertion. wp_steps.
  unfold ptr_geb. cbn [p_off].
  destruct (Z.leb_spec 0 (Z.of_nat j)) as [_|?]; [|lia].
  wp_steps. wp_assert_lia. wp_steps.
  eapply wp_std_move_left; [solve_lookup| | |done|done| |].
  { lia. }
  { lia. }
  2:{ intros Hf Hnt i x Hi. split; [done|]. split; [done|].
      split; [done|]. split; [done|].
      exists (erasing elems j i x).
      assert (length (erasing elems j i x) = length elems) as Hlen
        by (apply length_erasing; lia).
      split; [done|]. split.
      { unfold erasing. rewrite take_app_length' by (rewrite length_take; lia).
        done. }
      split.
      - unfold vec_repr. cbn [data_ size_ buffer_ capacity_ p_blk p_off heap mem].
        rewrite Hlen. split_and!; try done; try lia.
        by rewrite lookup_insert_eq.
      - by split. }
  intros f1 x Hf1.
  unfold PopBack. wp_steps.
  destruct (Z.eqb_spec (Z.of_nat (length elems)) 0) as [?|_]; [lia|].
  wp_steps. rewrite wrap_slots by lia. wp_assert_lia. wp_steps.
  assert (length (take j elems ++ drop (S j) elems) = (length elems - 1)%nat)
    as Hlen by (rewrite length_app, length_take, length_drop; lia).
  eapply wp_destroy_at; [solve_lookup|lia| |].
  { replace (Z.to_nat (Z.of_nat (length elems) - 1))
      with (length (take j elems ++ drop (S j) elems)) by lia.
    apply lookup_blk_of_elem. apply list_lookup_middle. done. }
  rewrite insert_insert_eq.
  replace (Z.to_nat (Z.of_nat (length elems) - 1))
    with (length (take j elems ++ drop (S j) elems)) by lia.
  rewrite blk_of_pop by lia.
  wp_steps.
  split; [|done].
  eexists. split_and!; cbn [raws vecs mem heap fuse data_ size_ buffer_ capacity_].
  - done.
  - done.
  - done.
  - done.
  - done.
  - unfold vec_repr. cbn [data_ size_ buffer_ capacity_ p_blk p_off].
    split_and!; try lia.
    by rewrite lookup_insert_eq.
  - done.
Qed.

Lemma Erase_spec σ this v elems j :
  vecs σ !! this = Some v →
  vec_repr (heap (mem σ)) v elems →
  (j < length elems)%nat →
  wp (Erase this (ptr_add (buffer_ (data_ v)) (Z.of_nat j)))
     (Erase_returns σ this v elems j)
     (λ _, fuse (mem σ) ≠ None ∧ nothrow_move_assignable = false) False σ.
Proof.
  intros Hv Hrepr Hj.
  eapply wp_mono; [by apply Erase_spec_storage| | |done].
  - by intros r σ' [? _].
  - intros σ' (? & ? & _). done.
Qed.

End erase.

(** ** Reserve *)

Section reserve.
Context {T : Type} `{!Element T}.
Implicit Types (σ : state (T:=T)) (this l : loc) (v : Vector).
Implicit Types (h : gmap addr (list (option T))) (f : option nat).
Implicit Types (elems : list T) (x : T) (j : nat).

Lemma relocated_block elems (n : nat) :
  (length elems ≤ n)%nat →
  list_inserts 0 (Some <$> elems) (replicate n None) = blk_of elems n.
Proof.
  intros Hn. unfold blk_of. apply list_eq; intros i. list_lookups.
  repeat case_decide; try lia; try done; try (f_equal; lia).
  by rewrite Nat.sub_0_r.
Qed.

Lemma wp_CopyOrMoveInNewData_0 (Q : unit → memory → Prop)
    (E : memory (T:=T) → Prop) F from to μ :
  Q tt μ → wp (CopyOrMoveInNewData from 0 to) Q E F μ.
Proof.
  intros HQ. unfold CopyOrMoveInNewData.
  by destruct (nothrow_move_constructible || negb copy_constructible).
Qed.

(** [Reserve] beyond the capacity: the elements are relocated into a new
    block of exactly [n] slots and the old block is released; when it
    throws, the vector is as the relocation left it, and nothing has
    changed provided the relocation copies or cannot throw. *)
Lemma Reserve_spec_valid σ this v elems n :
  vecs σ !! this = Some v →
  vec_repr (heap (mem σ)) v elems →
  capacity_ (data_ v) < n →
  n * sizeof_T < SIZE_MODULUS →
  wp (Reserve this n)
     (λ _ σ', ∃ v',
        raws σ' = raws σ ∧
        vecs σ' = <[this := v']> (vecs σ) ∧
        capacity_ (data_ v') = n ∧
        size_ v' = size_ v ∧
        n ≤ max_slots ∧
        storage_renewed (heap (mem σ)) v elems v' (heap (mem σ')) ∧
        no_new_fault σ σ')
     (λ σ', (fuse (mem σ) ≠ None ∨ max_slots < n) ∧
        (nothrow_move_constructible || copy_constructible = true →
         unchanged σ σ') ∧
        relocation_throws σ v elems σ')
     False σ.
Proof.
  destruct σ as [r vs [h f]], v as [[[[a|] o] c] s].
  all: cbn [raws vecs mem heap fuse]; unfold vec_repr;
    cbn [data_ size_ buffer_ capacity_ p_blk p_off].
  - intros Hv (Hs & Hc & -> & Hpos & Ha) Hn Hbytes. subst s.
    pose proof sizeof_T_bounds as [Hsz _].
    unfold Reserve. wp_steps.
    destruct (Z.leb_spec n c) as [?|_]; [lia|].
    unfold with_raw, RawMemory_ctor, Allocate.
    destruct (Z.eqb_spec n 0) as [?|_]; [lia|]. cbn [negb].
    wp_steps. apply wp_operator_new; [nia|..].
    2:{ intros Hthrow f'. split; [tauto|]. split; [done|].
        by apply relocation_throws_same. }
    intros a' f1 Ha' Hcap Hf1. wp_steps.
    apply wp_new_raw. intros l Hl. cbn [raws vecs mem] in Hl |- *.
    assert (a ≠ a') as Hne by congruence.
    wp_steps.
    eapply (wp_CopyOrMoveInNewData _ _ _ _ _ a _ _ a' _ _ elems);
      [done|solve_lookup|solve_lookup|lia|lia|..].
    { lia. }
    { intros i w Hw. by apply lookup_blk_of_elem. }
    { intros i Hi. apply lookup_replicate_2. lia. }
    2:{ intros Hf sb' Hrel Hsame.
        eapply wp_raw_cleanup; [solve_lookup..|].
        cbn [raws vecs mem heap fuse].
        rewrite delete_insert_id by done.
        match goal with
        | |- context [State r vs (Memory ?h' None)] =>
            assert (h' = <[a := sb']> h) as ->
        end.
        { apply map_eq. intros k.
          destruct (decide (k = a')) as [->|];
            [|destruct (decide (k = a)) as [->|]]; by simplify_map_eq. }
        split; [left; intuition congruence|]. split.
        - intros Htr. destruct (Hsame Htr) as [_ ->]. unfold unchanged.
          cbn [raws vecs mem heap fuse]. by rewrite insert_id.
        - split; [done|]. split; [done|].
          apply relocated_is_blk_of in Hrel as (elems' & Hlen' & ->); [|lia..].
          by exists elems'. }
    intros f2 A1 Hf2 (HA1len & HA1out & HA1live) _.
    rewrite insert_insert_over by done.
    wp_steps.
    eapply wp_destroy_n; [solve_lookup|lia| |].
    { intros i Hi.
      destruct (lookup_lt_is_Some_2 elems i) as [w Hw]; [lia|].
      apply (HA1live i w). by apply lookup_blk_of_elem. }
    rewrite insert_insert_ne, insert_insert_eq by done.
    wp_steps.
    eapply wp_RawMemory_Swap_vec_obj; [solve_lookup..|].
    cbn [raws vecs mem heap fuse data_ size_ buffer_ capacity_].
    eapply wp_raw_cleanup; [solve_lookup..|].
    cbn [raws vecs mem heap fuse data_ size_ buffer_ capacity_].
    eexists.
    split; [|split; [|split; [|split; [|split; [|split]]]]];
      cbn [raws vecs mem heap fuse data_ size_ buffer_ capacity_].
    + by rewrite insert_insert_eq, delete_insert_id.
    + done.
    + done.
    + done.
    + done.
    + exists a'. unfold released.
      cbn [data_ size_ buffer_ capacity_ p_blk p_off].
      split; [done|]. split; [done|].
      change (Z.to_nat 0) with O. rewrite relocated_block by lia.
      apply map_eq. intros k.
      destruct (decide (k = a')) as [->|]; [|destruct (decide (k = a)) as [->|]];
        by simplify_map_eq.
    + unfold no_new_fault. cbn [mem fuse]. intuition congruence.
  - intros Hv (Hs & Hc & -> & ->) Hn Hbytes.
    pose proof sizeof_T_bounds as [Hsz _].
    assert (s = 0) as -> by lia.
    destruct elems as [|??]; [|simpl in Hs; lia].
    unfold Reserve. wp_steps.
    destruct (Z.leb_spec n 0) as [?|_]; [lia|].
    unfold with_raw, RawMemory_ctor, Allocate.
    destruct (Z.eqb_spec n 0) as [?|_]; [lia|]. cbn [negb].
    wp_steps. apply wp_operator_new; [nia|..].
    2:{ intros Hthrow f'. split; [tauto|]. split; [done|].
        split; [done|]. split; [done|]. by exists []. }
    intros a' f1 Ha' Hcap Hf1. wp_steps.
    apply wp_new_raw. intros l Hl. cbn [raws vecs mem] in Hl |- *.
    wp_steps.
    apply wp_CopyOrMoveInNewData_0. wp_steps.
    apply wp_destroy_n_0; [done|]. wp_steps.
    eapply wp_RawMemory_Swap_vec_obj; [solve_lookup..|].
    cbn [raws vecs mem heap fuse data_ size_ buffer_ capacity_].
    eapply wp_raw_cleanup_null; [solve_lookup|].
    cbn [raws vecs mem heap fuse data_ size_ buffer_ capacity_].
    eexists.
    split; [|split; [|split; [|split; [|split; [|split]]]]];
      cbn [raws vecs mem heap fuse data_ size_ buffer_ capacity_].
    + by rewrite insert_insert_eq, delete_insert_id.
    + done.
    + done.
    + done.
    + done.
    + exists a'. unfold released.
      cbn [data_ size_ buffer_ capacity_ p_blk p_off].
      split; [done|]. split; [done|]. by rewrite blk_of_nil.
    + done.
Qed.

Lemma Reserve_spec_storage σ this v elems n :
  vecs σ !! this = Some v →
  vec_repr (heap (mem σ)) v elems →
  capacity_ (data_ v) < n →
  n * sizeof_T < SIZE_MODULUS →
  wp (Reserve this n)
     (λ _ σ', ∃ v',
        raws σ' = raws σ ∧
        vecs σ' = <[this := v']> (vecs σ) ∧
        capacity_ (data_ v') = n ∧
        size_ v' = size_ v ∧
        n ≤ max_slots ∧
        storage_renewed (heap (mem σ)) v elems v' (heap (mem σ')) ∧
        no_new_fault σ σ')
     (λ σ', (fuse (mem σ) ≠ None ∨ max_slots < n) ∧
        (nothrow_move_constructible || copy_constructible = true →
         unchanged σ σ'))
     False σ.
Proof.
  intros Hv Hrepr Hn Hbytes.
  eapply wp_mono; [by apply Reserve_spec_valid|done| |done].
  by intros σ' (? & ? & _).
Qed.

(** A default-constructed vector holds no element, in any heap. *)
Lemma vec_repr_default h : vec_repr h Vector_default [].
Proof.
  pose proof max_slots_pos. unfold vec_repr, Vector_default, RawMemory_default.
  cbn [data_ size_ buffer_ capacity_ nullptr p_blk p_off length].
  split_and!; try done; lia.
Qed.

(** A vector object whose storage was renewed or kept by an operation
    holds the elements that the operation left in its block. *)
Lemma storage_renewed_repr h v elems' v' h' :
  storage_renewed h v elems' v' h' →
  size_ v' = Z.of_nat (length elems') →
  size_ v' ≤ capacity_ (data_ v') ≤ max_slots →
  0 < capacity_ (data_ v') →
  vec_repr h' v' elems'.
Proof.
  intros (a' & Ha' & Hbuf & ->) Hs Hc Hpos. unfold vec_repr.
  rewrite Hbuf. cbn [p_blk p_off]. split_and!; try done; try lia.
  by rewrite lookup_insert_eq.
Qed.

Lemma storage_kept_repr h v elems elems' v' h' :
  vec_repr h v elems →
  storage_kept h v elems' v' h' →
  size_ v' = Z.of_nat (length elems') →
  size_ v' ≤ capacity_ (data_ v') →
  vec_repr h' v' elems'.
Proof.
  intros (Hs & Hc & Hoff & Hblk) [Hdata ->] Hs' Hc'. unfold vec_repr, stored.
  rewrite Hdata in *. split_and!; try done; try lia.
  destruct (p_blk (buffer_ (data_ v))) as [a|]; [|done].
  split; [tauto|]. by rewrite lookup_insert_eq.
Qed.

(** [Reserve] beyond the capacity, for what it does to the vector. *)
Lemma Reserve_spec σ this v elems n :
  vecs σ !! this = Some v →
  vec_repr (heap (mem σ)) v elems →
  capacity_ (data_ v) < n →
  n * sizeof_T < SIZE_MODULUS →
  wp (Reserve this n)
     (λ _ σ', ∃ v' a,
        raws σ' = raws σ ∧
        vecs σ' = <[this := v']> (vecs σ) ∧
        data_ v' = {| buffer_ := Ptr (Some a) 0; capacity_ := n |} ∧
        size_ v' = size_ v ∧
        vec_repr (heap (mem σ')) v' elems ∧
        (fuse (mem σ) = None → fuse (mem σ') = None))
     (λ σ', (fuse (mem σ) ≠ None ∨ max_slots < n) ∧
        (nothrow_move_constructible || copy_constructible = true →
         raws σ' = raws σ ∧ vecs σ' = vecs σ ∧ heap (mem σ') = heap (mem σ)))
     False σ.
Proof.
  intros Hv Hrepr Hn Hbytes.
  eapply wp_mono; [by apply (Reserve_spec_storage σ this v elems n)| | |done].
  - intros [] σ' (v' & Hraws & Hvecs & Hcap & Hsize & Hmax & Hst & Hf).
    pose proof Hrepr as (Hs & Hc & _).
    pose proof Hst as (a & _ & Hbuf & _).
    exists v', a. split_and!; try done.
    + destruct v' as [[p c] s]. cbn [data_ buffer_ capacity_] in *. by subst.
    + eapply storage_renewed_repr; [done|lia|lia|lia].
  - intros σ' [Hthrow Hsame]. done.
Qed.

End reserve.

(** ** The capacity along the operations

    The capacity of a vector is a field of the object; the memory the
    operations work on does not hold it.  The rules below follow an
    operation through its steps whatever the memory operations do. *)

Section frame_rules.
Context {T : Type} `{!Element T}.
Implicit Types (σ : state (T:=T)) (E : state (T:=T) → Prop).
Implicit Types (this l : loc) (v : Vector).

Lemma wp_lift_RawMemory_ctor_any (Q : RawMemory → state → Prop) E σ n :
  (∀ p μ, Q {| buffer_ := p; capacity_ := n |} (State (raws σ) (vecs σ) μ)) →
  (∀ μ, E (State (raws σ) (vecs σ) μ)) →
  wp (lift (RawMemory_ctor n)) Q E True σ.
Proof.
  intros HQ HE. unfold wp, lift, RawMemory_ctor, bind, ret.
  destruct (Allocate n (mem σ)); auto.
Qed.

Lemma wp_lift_Deallocate_any (Q : unit → state → Prop) E σ p :
  (∀ μ, Q tt (State (raws σ) (vecs σ) μ)) →
  wp (lift (Deallocate p)) Q E True σ.
Proof.
  intros HQ. unfold wp, lift, Deallocate, operator_delete.
  destruct (p_blk p); [|by destruct σ; apply HQ].
  destruct (heap (mem σ) !! _); [|done].
  destruct (p_off p =? 0); [apply HQ | done].
Qed.

Lemma wp_ptr_diff_any (Q : Z → state → Prop) E σ p q :
  (∀ z, Q z σ) → wp (ptr_diff p q) Q E True σ.
Proof. intros HQ. unfold ptr_diff. case_bool_decide; [apply wp_ret, HQ | done]. Qed.

Lemma wp_get_size_any (Q : Z → state → Prop) E σ l :
  (∀ v, vecs σ !! l = Some v → Q (size_ v) σ) → wp (get_size l) Q E True σ.
Proof. intros HQ. unfold wp, get_size. destruct (vecs σ !! l); auto. Qed.

Lemma wp_get_raw_any (Q : RawMemory → state → Prop) E σ ref :
  (∀ x, Q x σ) → wp (get_raw ref) Q E True σ.
Proof.
  intros HQ. unfold wp, get_raw.
  destruct ref; [destruct (raws σ !! l) | destruct (vecs σ !! l)]; auto.
Qed.

Lemma wp_get_raw_vec_any (Q : RawMemory → state → Prop) E σ l :
  (∀ v, vecs σ !! l = Some v → Q (data_ v) σ) →
  wp (get_raw (VecData l)) Q E True σ.
Proof. intros HQ. unfold wp, get_raw. destruct (vecs σ !! l); auto. Qed.

Lemma wp_get_raw_obj_any (Q : RawMemory → state → Prop) E σ l :
  (∀ x, raws σ !! l = Some x → Q x σ) →
  wp (get_raw (RawObj l)) Q E True σ.
Proof. intros HQ. unfold wp, get_raw. destruct (raws σ !! l); auto. Qed.

End frame_rules.

Ltac fr_step :=
  lazymatch goal with
  | |- wp (bind _ _) _ _ _ _ => apply wp_bind
  | |- wp (ret _) _ _ _ _ => apply wp_ret
  | |- wp throw _ _ _ _ => apply wp_throw
  | |- wp (lift (RawMemory_ctor _)) _ _ True _ =>
      apply wp_lift_RawMemory_ctor_any; [intros ? ?|intros ?]
  | |- wp (lift (Deallocate _)) _ _ True _ =>
      apply wp_lift_Deallocate_any; intros ?
  | |- wp (lift _) _ _ True _ => apply wp_lift_any; [intros ? ?|intros ?]
  | |- wp (get_size _) _ _ _ _ =>
      first [eapply wp_get_size; [solve_lookup|]
            | apply wp_get_size_any; intros ? ?]
  | |- wp (set_size _ _) _ _ _ _ => eapply wp_set_size; [solve_lookup|]
  | |- wp (get_raw (VecData _)) _ _ _ _ =>
      first [eapply wp_get_raw_vec; [solve_lookup|]
            | apply wp_get_raw_vec_any; intros ? ?]
  | |- wp (get_raw (RawObj _)) _ _ _ _ =>
      first [eapply wp_get_raw_obj; [solve_lookup|]
            | apply wp_get_raw_obj_any; intros ? ?]
  | |- wp (get_raw _) _ _ True _ => apply wp_get_raw_any; intros ?
  | |- wp (set_raw (VecData _) _) _ _ _ _ => eapply wp_set_raw_vec; [solve_lookup|]
  | |- wp (set_raw (RawObj _) _) _ _ _ _ => eapply wp_set_raw_obj; [solve_lookup|]
  | |- wp (new_raw _) _ _ _ _ => apply wp_new_raw; intros ? ?
  | |- wp (new_vec _) _ _ _ _ => apply wp_new_vec; intros ? ?
  | |- wp (end_raw (RawObj _)) _ _ _ _ => apply wp_end_raw
  | |- wp (end_vec _) _ _ _ _ => apply wp_end_vec
  | |- wp (finally _ _) _ _ _ _ => apply wp_finally
  | |- wp (try_catch _ _) _ _ _ _ => apply wp_try_catch
  | |- wp (assert _) _ _ True _ => apply wp_assert; [intros ?|done]
  | |- wp (ptr_diff _ _) _ _ True _ => apply wp_ptr_diff_any; intros ?
  | |- wp (if ?b then _ else _) _ _ _ _ => destruct b eqn:?
  end;
  cbn [raws vecs mem heap fuse data_ size_ buffer_ capacity_] in *.

Ltac fr_unfold :=
  unfold cbegin, cend, Vector_begin, Vector_end, Capacity, Size, incr_size,
    RawMemory_plus, RawMemory_index, RawMemory_Capacity, GetAddress,
    RawMemory_Swap, std_swap, RawMemory_dtor, with_raw,
    get_buffer, set_buffer, get_capacity, set_capacity.

Ltac fr_steps := repeat (fr_unfold; fr_step).

Ltac fr_done :=
  eexists; split; [solve_lookup|];
  cbn [data_ size_ buffer_ capacity_]; try lia.

Section capacity.
Context {T : Type} `{!Element T}.
Implicit Types (σ : state (T:=T)) (this l : loc) (v : Vector).

Lemma PopBack_capacity σ this v :
  vecs σ !! this = Some v →
  wp (PopBack this) (λ _, capacity_at_least this (capacity_ (data_ v)))
     (capacity_at_least this (capacity_ (data_ v))) True σ.
Proof.
  intros Hv. destruct σ as [r vs μ]. cbn [vecs] in Hv.
  unfold PopBack. fr_steps; fr_done.
Qed.

Lemma Reserve_capacity σ this v n :
  vecs σ !! this = Some v →
  wp (Reserve this n) (λ _, capacity_at_least this (capacity_ (data_ v)))
     (capacity_at_least this (capacity_ (data_ v))) True σ.
Proof.
  intros Hv. destruct σ as [r vs μ]. cbn [vecs] in Hv.
  unfold Reserve. fr_steps; fr_done.
  all: apply Z.leb_gt in Heqb; lia.
Qed.

Lemma Resize_capacity σ this v n :
  vecs σ !! this = Some v →
  wp (Resize this n) (λ _, capacity_at_least this (capacity_ (data_ v)))
     (capacity_at_least this (capacity_ (data_ v))) True σ.
Proof.
  intros Hv. destruct σ as [r vs μ]. cbn [vecs] in Hv.
  unfold Resize, Reserve. fr_steps; fr_done.
  all: apply Z.leb_gt in Heqb1; lia.
Qed.

Lemma Erase_capacity σ this v cpos :
  vecs σ !! this = Some v →
  wp (Erase this cpos) (λ _, capacity_at_least this (capacity_ (data_ v)))
     (capacity_at_least this (capacity_ (data_ v))) True σ.
Proof.
  intros Hv. destruct σ as [r vs μ]. cbn [vecs] in Hv.
  unfold Erase, Erase_assertion, PopBack. fr_steps; fr_done.
Qed.

Lemma CopyData_capacity σ this v from size to new_data new_pos :
  vecs σ !! this = Some v →
  wp (CopyData this from size to new_data new_pos)
     (λ _, capacity_at_least this (capacity_ (data_ v)))
     (capacity_at_least this (capacity_ (data_ v))) True σ.
Proof.
  intros Hv. destruct σ as [r vs μ]. cbn [vecs] in Hv.
  unfold CopyData. fr_steps; fr_done.
Qed.

Lemma Emplace_capacity σ this v cpos values :
  vecs σ !! this = Some v →
  0 ≤ capacity_ (data_ v) ≤ PTRDIFF_MAX →
  wp (Emplace this cpos values)
     (λ _, capacity_at_least this (capacity_ (data_ v)))
     (capacity_at_least this (capacity_ (data_ v))) True σ.
Proof.
  intros Hv Hc. destruct σ as [r vs μ]. cbn [vecs] in Hv.
  unfold Emplace, Emplace_assertion, CopyData. fr_steps; fr_done.
  all: rewrite wrap_ptrdiff by lia; lia.
Qed.

Lemma EmplaceBack_capacity σ this v values :
  vecs σ !! this = Some v →
  0 ≤ capacity_ (data_ v) ≤ PTRDIFF_MAX →
  wp (EmplaceBack this values)
     (λ _, capacity_at_least this (capacity_ (data_ v)))
     (capacity_at_least this (capacity_ (data_ v))) True σ.
Proof.
  intros Hv Hc. destruct σ as [r vs μ]. cbn [vecs] in Hv.
  unfold EmplaceBack. fr_steps.
  by apply (Emplace_capacity (State r vs μ)).
Qed.

Lemma CopyWithOldCopacity_capacity σ this v rhs :
  vecs σ !! this = Some v →
  wp (CopyWithOldCopacity this rhs)
     (λ _, capacity_at_least this (capacity_ (data_ v)))
     (capacity_at_least this (capacity_ (data_ v))) True σ.
Proof.
  intros Hv. destruct σ as [r vs μ]. cbn [vecs] in Hv.
  unfold CopyWithOldCopacity. fr_steps; fr_done.
Qed.

Lemma Vector_copy_ctor_capacity σ this v other
    (Q : loc → state → Prop) (E : state → Prop) :
  vecs σ !! this = Some v →
  (∀ l d s μ, vecs σ !! l = None →
     vecs σ !! other = Some s →
     Q l (State (raws σ)
            (<[l := {| data_ := {| buffer_ := d; capacity_ := size_ s |};
                       size_ := size_ s |}]> (vecs σ)) μ)) →
  (∀ μ, E (State (raws σ) (vecs σ) μ)) →
  wp (Vector_copy_ctor other) Q E True σ.
Proof.
  intros Hv HQ HE. destruct σ as [r vs μ]. cbn [raws vecs] in *.
  unfold Vector_copy_ctor. fr_steps; auto.
  all: rewrite delete_insert_id by done; auto.
Qed.

Lemma Vector_copy_assign_capacity σ this v rhs :
  vecs σ !! this = Some v →
  wp (Vector_copy_assign this rhs)
     (λ _, capacity_at_least this (capacity_ (data_ v)))
     (capacity_at_least this (capacity_ (data_ v))) True σ.
Proof.
  intros Hv. unfold Vector_copy_assign.
  case_bool_decide as Hne; [|by apply wp_ret; exists v].
  destruct σ as [r vs μ]. cbn [vecs] in Hv.
  fr_steps.
  - eapply Vector_copy_ctor_capacity; [done| |].
    + intros l d s μ' Hl Hs. cbn [raws vecs] in *.
      assert (l ≠ this) by congruence.
      unfold Swap, Vector_dtor. fr_steps; fr_done.
      all: assert (s = v0) as -> by congruence; lia.
    + intros μ'. by exists v.
  - by apply (CopyWithOldCopacity_capacity (State r vs μ)).
Qed.

Lemma Vector_copy_assign_source_capacity σ this v lhs :
  vecs σ !! this = Some v →
  wp (Vector_copy_assign lhs this)
     (λ _, capacity_at_least this (capacity_ (data_ v)))
     (capacity_at_least this (capacity_ (data_ v))) True σ.
Proof.
  intros Hv. unfold Vector_copy_assign.
  case_bool_decide as Hne; [|by apply wp_ret; exists v].
  destruct σ as [r vs μ]. cbn [vecs] in Hv.
  fr_steps.
  - eapply Vector_copy_ctor_capacity; [done| |].
    + intros l d s μ' Hl Hs. cbn [raws vecs] in *.
      assert (l ≠ this) by congruence.
      unfold Swap, Vector_dtor. fr_steps; fr_done.
      all: assert (s = v) as -> by congruence; lia.
    + intros μ'. by exists v.
  - unfold CopyWithOldCopacity. fr_steps; fr_done.
Qed.

(** No operation of a vector, apart from the moves and [Swap], decreases
    its capacity, whether it returns or throws. *)
Lemma run_op_capacity σ this v op :
  vecs σ !! this = Some v →
  0 ≤ capacity_ (data_ v) ≤ PTRDIFF_MAX →
  wp (run_op this op) (λ _, capacity_at_least this (capacity_ (data_ v)))
     (capacity_at_least this (capacity_ (data_ v))) True σ.
Proof.
  intros Hv Hc. destruct op; cbn [run_op].
  - destruct σ as [r vs μ]. fr_steps; fr_done.
  - destruct σ as [r vs μ]. fr_steps; fr_done.
  - destruct σ as [r vs μ]. fr_steps; fr_done.
  - destruct σ as [r vs μ]. fr_steps; fr_done.
  - destruct σ as [r vs μ]. unfold Vector_index. fr_steps; fr_done.
  - apply wp_bind. eapply Vector_copy_ctor_capacity; [done| |].
    + intros l d s μ' Hl Hs. apply wp_ret. exists v. split; [|lia].
      cbn [vecs]. rewrite lookup_insert_ne by congruence. done.
    + intros μ'. by exists v.
  - by apply Vector_copy_assign_source_capacity.
  - by apply CopyWithOldCopacity_capacity.
  - by apply Vector_copy_assign_capacity.
  - by apply Reserve_capacity.
  - by apply Resize_capacity.
  - apply wp_bind. eapply wp_mono; [by apply EmplaceBack_capacity|..]; auto.
  - unfold PushBack.
    apply wp_bind. eapply wp_mono; [by apply EmplaceBack_capacity|..]; auto.
  - by apply PopBack_capacity.
  - unfold Insert.
    apply wp_bind. eapply wp_mono; [by apply Emplace_capacity|..]; auto.
  - by apply CopyData_capacity.
  - apply wp_bind. eapply wp_mono; [by apply Emplace_capacity|..]; auto.
  - apply wp_bind. eapply wp_mono; [by apply Erase_capacity|..]; auto.
Qed.

End capacity.

(** * The properties of the specification *)

Section properties.
Context {T : Type} `{!Element T}.
Implicit Types (σ : state (T:=T)) (this l : loc) (v : Vector).
Implicit Types (elems : list T) (x : T) (j : nat).

(** C10. Move-assigning a vector to itself is a no-op: the self-check skips
    the swap, and the whole program state, so the size, the capacity and
    the elements of the vector, is unchanged. *)
Theorem self_move_assign_is_noop σ this :
  Vector_move_assign this this σ = Ok tt σ.
Proof.
  unfold Vector_move_assign. by rewrite bool_decide_eq_false_2 by auto.
Qed.

(** C9. The asserted expressions of [Emplace] and [Erase] are disjunctions
    that evaluate to true for every pointer [cpos], also one outside the
    range of valid positions: neither assertion ever fires. *)
Theorem position_assertions_always_hold σ this v cpos :
  vecs σ !! this = Some v →
  0 ≤ size_ v ≤ capacity_ (data_ v) →
  Emplace_assertion this cpos σ = Ok true σ ∧
  Erase_assertion this cpos σ = Ok true σ.
Proof.
  intros Hv Hs.
  assert (wp (Emplace_assertion this cpos) (λ b σ', b = true ∧ σ' = σ)
            (λ _, False) False σ) as Hemplace.
  { unfold Emplace_assertion. wp_steps. unfold ptr_geb, ptr_leb. cbn [p_off].
    destruct (Z.leb_spec (p_off (buffer_ (data_ v))) (p_off cpos)).
    - by apply wp_ret.
    - wp_steps. wp_assert_lia. wp_steps. split; [|done]. apply Z.leb_le. lia. }
  assert (wp (Erase_assertion this cpos) (λ b σ', b = true ∧ σ' = σ)
            (λ _, False) False σ) as Herase.
  { unfold Erase_assertion. wp_steps. unfold ptr_geb, ptr_ltb. cbn [p_off].
    destruct (Z.leb_spec (p_off (buffer_ (data_ v))) (p_off cpos)).
    - by apply wp_ret.
    - wp_steps. wp_assert_lia. wp_steps. split; [|done]. apply Z.ltb_lt. lia. }
  apply wp_returns in Hemplace as (b & σ' & -> & -> & ->).
  apply wp_returns in Herase as (b & σ' & -> & -> & ->).
  done.
Qed.

(** C2, as amended. Move-assigning [rhs] into a distinct [lhs] swaps the two
    objects: [lhs] holds the former base address and capacity of [rhs], and
    [rhs] holds those of [lhs]; [rhs] is left empty only when [lhs] was
    empty. *)
Theorem RawMemory_move_assign_swaps σ (lhs rhs : raw_ref) (a b : RawMemory) :
  lhs ≠ rhs →
  get_raw lhs σ = Ok a σ →
  get_raw rhs σ = Ok b σ →
  ∃ σ', RawMemory_move_assign lhs rhs σ = Ok tt σ' ∧
        get_raw lhs σ' = Ok b σ' ∧
        get_raw rhs σ' = Ok a σ' ∧
        mem σ' = mem σ.
Proof.
  intros Hne Ha Hb.
  assert (wp (RawMemory_move_assign lhs rhs)
            (λ _ σ', get_raw lhs σ' = Ok b σ' ∧ get_raw rhs σ' = Ok a σ' ∧
                     mem σ' = mem σ)
            (λ _, False) False σ) as Hwp.
  { unfold RawMemory_move_assign. rewrite bool_decide_eq_true_2 by done.
    destruct σ as [r vs μ], a as [pa ca], b as [pb cb].
    unfold RawMemory_Swap.
    destruct lhs as [l|l], rhs as [l'|l']; unfold get_raw in Ha, Hb;
      cbn [raws vecs mem] in Ha, Hb.
    - destruct (r !! l) as [xa|] eqn:Hl; [|done].
      destruct (r !! l') as [xb|] eqn:Hl'; [|done].
      simplify_eq. assert (l ≠ l') by congruence.
      wp_steps. unfold get_raw. cbn [raws vecs mem].
      rewrite lookup_insert_eq.
      rewrite !(lookup_insert_ne _ l' l) by done.
      rewrite !lookup_insert_eq. split; [reflexivity|split; reflexivity].
    - destruct (r !! l) as [xa|] eqn:Hl; [|done].
      destruct (vs !! l') as [[[? ?] ?]|] eqn:Hl'; [|done].
      cbn [data_] in *. simplify_eq.
      wp_steps. unfold get_raw. cbn [raws vecs mem].
      rewrite !lookup_insert_eq. split; [reflexivity|split; reflexivity].
    - destruct (vs !! l) as [[[? ?] ?]|] eqn:Hl; [|done].
      destruct (r !! l') as [xb|] eqn:Hl'; [|done].
      cbn [data_] in *. simplify_eq.
      wp_steps. unfold get_raw. cbn [raws vecs mem].
      rewrite !lookup_insert_eq. split; [reflexivity|split; reflexivity].
    - destruct (vs !! l) as [[[? ?] ?]|] eqn:Hl; [|done].
      destruct (vs !! l') as [[[? ?] ?]|] eqn:Hl'; [|done].
      cbn [data_] in *. simplify_eq. assert (l ≠ l') by congruence.
      wp_steps. unfold get_raw. cbn [raws vecs mem].
      rewrite lookup_insert_eq.
      rewrite !(lookup_insert_ne _ l' l) by done.
      rewrite !lookup_insert_eq. split; [reflexivity|split; reflexivity]. }
  apply wp_returns in Hwp as ([] & σ' & Hrun & Hpost). eauto.
Qed.

(** C5. No operation of a vector other than the move construction from it,
    the move assignment and [Swap] decreases its capacity: after [Resize],
    [PopBack], [Erase], copy assignment and every other operation, whether
    it returned or threw, the capacity is at least what it was. *)
Theorem capacity_never_decreases σ this v op σ' :
  vecs σ !! this = Some v →
  0 ≤ capacity_ (data_ v) ≤ PTRDIFF_MAX →
  final_state (run_op this op σ) = Some σ' →
  ∃ v', vecs σ' !! this = Some v' ∧ capacity_ (data_ v) ≤ capacity_ (data_ v').
Proof.
  intros Hv Hc Hrun. pose proof (run_op_capacity σ this v op Hv Hc) as Hwp.
  unfold wp in Hwp. destruct (run_op this op σ); simplify_eq/=; done.
Qed.

(** The arguments of a constructor call that are a reference to an element
    of the vector itself make a copy of that element. *)
Lemma args_value_own_element (h : gmap addr (list (option T))) v elems i x :
  vec_repr h v elems → elems !! i = Some x →
  args_value h (CtorCopyOf (ptr_add (buffer_ (data_ v)) (Z.of_nat i))) x.
Proof.
  intros (Hs & Hc & Hoff & Hblk) Hx. pose proof (lookup_lt_Some _ _ _ Hx).
  destruct v as [[[[a|] o] c] s]; cbn [data_ size_ buffer_ capacity_ p_blk p_off] in *.
  - destruct Hblk as [Hpos Ha]. subst o. unfold ptr_add. cbn [p_blk p_off].
    rewrite Z.add_0_l. simpl. rewrite (slot_at_block _ _ _ _ Ha) by lia.
    rewrite Nat2Z.id. by apply lookup_blk_of_elem.
  - lia.
Qed.

Lemma vec_repr_slot (h : gmap addr (list (option T))) v elems i x :
  vec_repr h v elems → elems !! i = Some x →
  slot_at h (ptr_add (buffer_ (data_ v)) (Z.of_nat i)) = Some (Some x).
Proof. apply args_value_own_element. Qed.

Lemma vec_repr_free_slot (h : gmap addr (list (option T))) v elems i :
  vec_repr h v elems → size_ v ≤ i < capacity_ (data_ v) →
  slot_at h (ptr_add (buffer_ (data_ v)) i) = Some None.
Proof.
  intros (Hs & Hc & Hoff & Hblk) Hi.
  destruct v as [[[[a|] o] c] s]; cbn [data_ size_ buffer_ capacity_ p_blk p_off] in *.
  - destruct Hblk as [Hpos Ha]. subst o. unfold ptr_add. cbn [p_blk p_off].
    rewrite Z.add_0_l. rewrite (slot_at_block _ _ _ _ Ha) by lia.
    apply lookup_blk_of_free. lia.
  - lia.
Qed.

(** C7. [Insert(pos, v)] is [Emplace(pos, v)], and for every position [pos]
    of a vector in [[begin, end]], at offset [j], [Emplace] does not go
    wrong, returns unless an element operation or the allocation fails, and
    when it returns [r]: [r] is the slot [j] of the buffer and holds the
    value [x] made from the arguments, the elements before [j] are
    unchanged, those from [j] on are one position to the right, and the
    size is one more.  The arguments may be a reference to an element of
    the vector itself, in which case [x] is the value that element had
    before the call. *)
Theorem Emplace_inserts σ this v elems j values x :
  vecs σ !! this = Some v →
  vec_repr (heap (mem σ)) v elems →
  (j ≤ length elems)%nat →
  (values = CtorValue x ∨
   ∃ i, values = CtorCopyOf (ptr_add (buffer_ (data_ v)) (Z.of_nat i)) ∧
        elems !! i = Some x) →
  let pos := ptr_add (buffer_ (data_ v)) (Z.of_nat j) in
  Insert this pos values σ = Emplace this pos values σ ∧
  (∀ e, Emplace this pos values σ ≠ Fault e) ∧
  (fuse (mem σ) = None →
   (size_ v = capacity_ (data_ v) →
    grown_capacity (capacity_ (data_ v)) ≤ max_slots) →
   ∃ r σ', Emplace this pos values σ = Ok r σ') ∧
  (∀ r σ', Emplace this pos values σ = Ok r σ' →
     ∃ v' elems',
       vecs σ' !! this = Some v' ∧
       vec_repr (heap (mem σ')) v' elems' ∧
       r = ptr_add (buffer_ (data_ v')) (Z.of_nat j) ∧
       slot_at (heap (mem σ')) r = Some (Some x) ∧
       size_ v' = size_ v + 1 ∧
       elems' = take j elems ++ x :: drop j elems ∧
       (∀ i, (i < j)%nat → elems' !! i = elems !! i) ∧
       elems' !! j = Some x ∧
       (∀ i, (j ≤ i)%nat → elems' !! S i = elems !! i)).
Proof.
  intros Hv Hrepr Hj Hvalues pos.
  assert (args_value (heap (mem σ)) values x) as Hx.
  { destruct Hvalues as [->|(i & -> & Hi)]; [done|].
    by eapply args_value_own_element. }
  pose proof (Emplace_spec σ this v elems j values x Hv Hrepr Hj Hx) as Hwp.
  fold pos in Hwp. unfold wp in Hwp.
  split; [done|]. split; [|split].
  - intros e He. by rewrite He in Hwp.
  - intros Hf Hcap. destruct (Emplace this pos values σ) as [r σ'|σ'|e];
      [by eauto| |done].
    destruct Hwp as [[?|[? ?]] _]; [done|lia].
  - intros r σ' Hrun. rewrite Hrun in Hwp.
    destruct Hwp as (v' & Hraws & Hvecs & -> & Hrepr' & Hcap' & Hf).
    exists v', (take j elems ++ x :: drop j elems).
    assert ((take j elems ++ x :: drop j elems) !! j = Some x) as Hxj.
    { apply (shifting_lookup_hole elems j x Hj). }
    split_and!; try done.
    + rewrite Hvecs. apply lookup_insert_eq.
    + by eapply vec_repr_slot.
    + destruct Hrepr as [-> _], Hrepr' as [-> _].
      rewrite length_app, length_take, length_cons, length_drop. lia.
    + intros i Hi. by apply (shifting_lookup_before elems j x).
    + intros i Hi. fold (shifting elems j x). unfold shifting.
      list_lookups. repeat case_decide; try lia. f_equal. lia.
Qed.

(** C8. For every position [pos] of a non-empty vector in [[begin, end)], at
    offset [j], [Erase] does not go wrong, returns unless a move assignment
    fails, and when it returns: the result is [pos], the elements before
    [j] are unchanged, each element after [j] is one position to the left,
    so the element formerly at [j + 1] is at [j], the last slot that held an
    element is uninitialized again, the size is one less, and the buffer
    and the capacity are the same. *)
Theorem Erase_removes σ this v elems j :
  vecs σ !! this = Some v →
  vec_repr (heap (mem σ)) v elems →
  (j < length elems)%nat →
  let pos := ptr_add (buffer_ (data_ v)) (Z.of_nat j) in
  (∀ e, Erase this pos σ ≠ Fault e) ∧
  (fuse (mem σ) = None ∨ nothrow_move_assignable = true →
   ∃ r σ', Erase this pos σ = Ok r σ') ∧
  (∀ r σ', Erase this pos σ = Ok r σ' →
     ∃ v' elems',
       vecs σ' !! this = Some v' ∧
       vec_repr (heap (mem σ')) v' elems' ∧
       r = pos ∧
       data_ v' = data_ v ∧
       size_ v' = size_ v - 1 ∧
       elems' = take j elems ++ drop (S j) elems ∧
       (∀ i, (i < j)%nat → elems' !! i = elems !! i) ∧
       (∀ i, (j ≤ i)%nat → elems' !! i = elems !! S i) ∧
       slot_at (heap (mem σ')) (ptr_add (buffer_ (data_ v)) (size_ v - 1))
         = Some None).
Proof.
  intros Hv Hrepr Hj pos.
  pose proof (Erase_spec σ this v elems j Hv Hrepr Hj) as Hwp.
  fold pos in Hwp. unfold wp in Hwp.
  split; [|split].
  - intros e He. by rewrite He in Hwp.
  - intros Hf. destruct (Erase this pos σ) as [r σ'|σ'|e];
      [by eauto| |done].
    destruct Hwp as [? Hnt]. destruct Hf as [?|Hnt']; [done|congruence].
  - intros r σ' Hrun. rewrite Hrun in Hwp.
    destruct Hwp as (v' & Hraws & Hvecs & -> & Hdata & Hsize & Hrepr' & Hf).
    exists v', (take j elems ++ drop (S j) elems).
    split_and!; try done.
    + rewrite Hvecs. apply lookup_insert_eq.
    + intros i Hi. list_lookups. repeat case_decide; try lia; done.
    + intros i Hi. list_lookups. repeat case_decide; try lia. f_equal. lia.
    + rewrite <-Hdata. eapply vec_repr_free_slot; [done|].
      destruct Hrepr as (? & ? & _). rewrite Hsize, Hdata. lia.
Qed.


(** The capacities that repeated [PushBack] goes through are the powers of
    two: after [n ≥ 1] calls the capacity is the least power of two that is
    at least [n]. *)
Lemma capacity_after_bounds n :
  (1 ≤ n)%nat →
  Z.of_nat n ≤ capacity_after n < 2 * Z.of_nat n ∧
  ∃ k, 0 ≤ k ∧ capacity_after n = 2 ^ k.
Proof.
  induction n as [|n IH]; [lia|]. intros _.
  destruct n as [|n].
  { change (capacity_after 1) with 1. split; [lia|]. by exists 0. }
  destruct IH as [Hb (k & Hk & Hpow)]; [lia|].
  change (capacity_after (S (S n))) with
    (if Z.of_nat (S n) =? capacity_after (S n)
     then grown_capacity (capacity_after (S n)) else capacity_after (S n)).
  unfold grown_capacity.
  destruct (Z.eqb_spec (Z.of_nat (S n)) (capacity_after (S n))) as [Heq|Hne].
  - destruct (Z.eqb_spec (capacity_after (S n)) 0) as [?|_]; [lia|].
    split; [lia|]. exists (k + 1). split; [lia|].
    rewrite Hpow, Z.pow_add_r by lia. lia.
  - split; [lia|]. by exists k.
Qed.

Lemma capacity_after_le n : capacity_after n ≤ 2 * Z.of_nat n.
Proof.
  destruct n as [|n]; [done|].
  pose proof (capacity_after_bounds (S n)). lia.
Qed.

(** [PushBack] of the values [xs] into a vector whose capacity is what
    repeated [PushBack] from the empty vector has made it. *)
Lemma push_backs_spec xs σ this v elems :
  vecs σ !! this = Some v →
  vec_repr (heap (mem σ)) v elems →
  fuse (mem σ) = None →
  capacity_ (data_ v) = capacity_after (length elems) →
  2 * Z.of_nat (length elems + length xs) ≤ max_slots →
  ∃ σ' v',
    push_backs this xs σ = Ok tt σ' ∧
    vecs σ' !! this = Some v' ∧
    vec_repr (heap (mem σ')) v' (elems ++ xs) ∧
    capacity_ (data_ v') = capacity_after (length (elems ++ xs)) ∧
    fuse (mem σ') = None.
Proof.
  revert σ v elems. induction xs as [|x xs IH]; intros σ v elems Hv Hrepr Hf Hc Hmax.
  { exists σ, v. rewrite app_nil_r. by simpl. }
  pose proof (EmplaceBack_spec σ this v elems (CtorValue x) x Hv Hrepr eq_refl)
    as Hwp.
  unfold wp in Hwp. simpl push_backs. unfold PushBack, bind.
  pose proof Hrepr as (Hs & _).
  destruct (EmplaceBack this (CtorValue x) σ) as [r σ1|σ1|e]; [| |done].
  2:{ destruct Hwp as [[?|[Hfull Hbig]] _]; [done|].
      exfalso. revert Hbig. rewrite Hc. unfold grown_capacity.
      rewrite Hc, Hs in Hfull. rewrite <-Hfull.
      simpl length in Hmax. pose proof max_slots_pos.
      destruct (Z.eqb_spec (Z.of_nat (length elems)) 0); lia. }
  destruct Hwp as (v1 & Hraws & Hvecs & -> & Hrepr1 & Hcap1 & Hf1).
  rewrite take_ge, drop_ge in Hrepr1 by lia. simpl in Hrepr1.
  destruct (IH σ1 v1 (elems ++ [x])) as (σ' & v' & Hrun & Hv' & Hrepr' & Hc' & Hf').
  - rewrite Hvecs. apply lookup_insert_eq.
  - done.
  - auto.
  - rewrite Hcap1, length_app, Nat.add_1_r. simpl capacity_after.
    by rewrite Hs, Hc.
  - rewrite length_app. simpl length in *. lia.
  - exists σ', v'. cbn [ret]. rewrite <-app_assoc in Hrepr', Hc'. done.
Qed.

(** C6, as amended. When an insertion grows a full vector, the new
    capacity is 1 if the capacity was 0 and twice the capacity otherwise,
    and the insertion returns unless a failure is scheduled or the grown
    capacity cannot be allocated.  [Reserve(n)] beyond the capacity, for
    [n] whose byte count [n * sizeof(T)] does not wrap around, does not go
    wrong, returns unless a failure is scheduled or [n] slots cannot be
    allocated, and makes the capacity [n] with a block of exactly [n]
    slots.  [PushBack] of [xs] one after the other into a new vector makes
    the capacity go through 0, 1, 2, 4, 8, ...: after [m ≥ 1] calls it is
    the least power of two that is at least [m]. *)
Theorem growth_capacity_rule σ this v elems j values x n (xs : list T) :
  vecs σ !! this = Some v →
  vec_repr (heap (mem σ)) v elems →
  (j ≤ length elems)%nat →
  args_value (heap (mem σ)) values x →
  (size_ v = capacity_ (data_ v) →
   (fuse (mem σ) = None →
    grown_capacity (capacity_ (data_ v)) ≤ max_slots →
    ∃ r σ',
      Emplace this (ptr_add (buffer_ (data_ v)) (Z.of_nat j)) values σ
      = Ok r σ') ∧
   ∀ r σ',
     Emplace this (ptr_add (buffer_ (data_ v)) (Z.of_nat j)) values σ = Ok r σ' ∨
     Insert this (ptr_add (buffer_ (data_ v)) (Z.of_nat j)) values σ = Ok r σ' ∨
     EmplaceBack this values σ = Ok r σ' ∨
     PushBack this values σ = Ok tt σ' →
     ∃ v', vecs σ' !! this = Some v' ∧
           capacity_ (data_ v') =
             (if capacity_ (data_ v) =? 0 then 1 else 2 * capacity_ (data_ v))) ∧
  (capacity_ (data_ v) < n →
   n * sizeof_T < SIZE_MODULUS →
   (∀ e, Reserve this n σ ≠ Fault e) ∧
   (fuse (mem σ) = None → n ≤ max_slots →
    ∃ σ', Reserve this n σ = Ok tt σ') ∧
   ∀ σ', Reserve this n σ = Ok tt σ' →
     ∃ v' a blk, vecs σ' !! this = Some v' ∧
                 data_ v' = {| buffer_ := Ptr (Some a) 0; capacity_ := n |} ∧
                 heap (mem σ') !! a = Some blk ∧
                 Z.of_nat (length blk) = n) ∧
  (fuse (mem σ) = None → 2 * Z.of_nat (length xs) ≤ max_slots →
   ∃ σ', bind Vector_ctor (λ new, bind (push_backs new xs) (λ _, Capacity new)) σ
         = Ok (capacity_after (length xs)) σ') ∧
  capacity_after <$> seq 0 10 = [0; 1; 2; 4; 4; 8; 8; 8; 8; 16] ∧
  (∀ m, (1 ≤ m)%nat →
     Z.of_nat m ≤ capacity_after m < 2 * Z.of_nat m ∧
     ∃ k, 0 ≤ k ∧ capacity_after m = 2 ^ k).
Proof.
  intros Hv Hrepr Hj Hx.
  pose proof (Emplace_spec σ this v elems j values x Hv Hrepr Hj Hx) as Hwp.
  unfold wp in Hwp.
  assert (∀ r σ', Emplace this (ptr_add (buffer_ (data_ v)) (Z.of_nat j)) values σ
                    = Ok r σ' →
    ∃ v', vecs σ' !! this = Some v' ∧
          capacity_ (data_ v') =
            (if size_ v =? capacity_ (data_ v)
             then grown_capacity (capacity_ (data_ v))
             else capacity_ (data_ v))) as Hemplace.
  { intros r σ' Hrun. rewrite Hrun in Hwp.
    destruct Hwp as (v' & _ & Hvecs & _ & _ & Hcap & _).
    exists v'. split; [|done]. rewrite Hvecs. apply lookup_insert_eq. }
  assert (∀ r σ', EmplaceBack this values σ = Ok r σ' →
    ∃ v', vecs σ' !! this = Some v' ∧
          capacity_ (data_ v') =
            (if size_ v =? capacity_ (data_ v)
             then grown_capacity (capacity_ (data_ v))
             else capacity_ (data_ v))) as Hback.
  { intros r σ' Hrun.
    pose proof (EmplaceBack_spec σ this v elems values x Hv Hrepr Hx) as Hwp'.
    unfold wp in Hwp'. rewrite Hrun in Hwp'.
    destruct Hwp' as (v' & _ & Hvecs & _ & _ & Hcap & _).
    exists v'. split; [|done]. rewrite Hvecs. apply lookup_insert_eq. }
  split_and!.
  - intros Hfull. split.
    + intros Hf Hcap.
      destruct (Emplace this (ptr_add (buffer_ (data_ v)) (Z.of_nat j)) values σ)
        as [r σ'|σ'|e]; [by eauto| |done].
      destruct Hwp as [[?|[? ?]] _]; [done|lia].
    + intros r σ' Hrun. rewrite Hfull, Z.eqb_refl in Hemplace, Hback.
      unfold grown_capacity in *.
      destruct Hrun as [Hrun|[Hrun|[Hrun|Hrun]]]; [by eauto..|].
      unfold PushBack, bind in Hrun.
      destruct (EmplaceBack this values σ) as [r' σ''|?|?] eqn:Hrun';
        [|done|done].
      cbn in Hrun. injection Hrun as <-. exact (Hback r' σ'' eq_refl).
  - intros Hn Hbytes.
    pose proof (Reserve_spec σ this v elems n Hv Hrepr Hn Hbytes) as Hres.
    unfold wp in Hres. split; [|split].
    + intros e He. by rewrite He in Hres.
    + intros Hf Hmax. destruct (Reserve this n σ) as [[] σ'|σ'|e];
        [by eauto| |done].
      destruct Hres as [[?|?] _]; [done|lia].
    + intros σ' Hrun. rewrite Hrun in Hres.
      destruct Hres as (v' & a & _ & Hvecs & Hdata & _ & Hrepr' & _).
      destruct Hrepr' as (Hs' & Hc' & _ & Hblk). rewrite Hdata in *.
      cbn [buffer_ capacity_ p_blk] in *. destruct Hblk as [Hpos Ha].
      exists v', a, (blk_of elems (Z.to_nat n)). split_and!; try done.
      * rewrite Hvecs. apply lookup_insert_eq.
      * rewrite length_blk_of; lia.
  - intros Hf Hmax. unfold Vector_ctor, new_vec, bind at 1.
    set (new := fresh (dom (vecs σ))).
    destruct (push_backs_spec xs
                (State (raws σ) (<[new := Vector_default]> (vecs σ)) (mem σ))
                new Vector_default [])
      as (σ' & v' & Hrun & Hv' & Hrepr' & Hc' & Hf'); cbn [raws vecs mem].
    + apply lookup_insert_eq.
    + apply vec_repr_default.
    + done.
    + done.
    + simpl. lia.
    + exists σ'. unfold bind. rewrite Hrun.
      unfold Capacity, RawMemory_Capacity, get_capacity, get_raw, bind, ret.
      rewrite Hv'. by rewrite Hc'.
  - done.
  - apply capacity_after_bounds.
Qed.

End properties.

(** * The properties at concrete vectors *)

(** The vector of [full_pair] holds its two elements. *)
Lemma full_pair_repr {T} `{!Element T} (x y : T) :
  2 ≤ max_slots →
  vec_repr (heap (mem (full_pair x y))) full_pair_vector [x; y].
Proof. intros Hmax. by unfold vec_repr. Defined.

(** C1. The copy assignment [dst = src] with [dst] of size 1 and capacity
    2 and [src] holding [7, 8] returns with [dst] of size 2 whose second
    slot was never constructed: reading [dst[1]] is undefined, where
    [src[1]] is 8.  [CopyWithOldCopacity] passes [data_.GetAddress()], the
    first slot, to [std::uninitialized_copy_n] as the destination instead
    of the first uninitialized slot. *)
Theorem copy_assign_within_capacity_leaves_tail_uninitialized :
  copy_assign_within_capacity = Ok (0%nat, 1%nat) after_copy_assign_within_capacity ∧
  Size 0%nat after_copy_assign_within_capacity
    = Ok 2 after_copy_assign_within_capacity ∧
  Vector_index 0%nat 1 after_copy_assign_within_capacity
    = Ok (Ptr (Some 0%nat) 1) after_copy_assign_within_capacity ∧
  slot_at (heap (mem after_copy_assign_within_capacity)) (Ptr (Some 0%nat) 1)
    = Some None ∧
  load (Ptr (Some 0%nat) 1) (mem after_copy_assign_within_capacity)
    = Fault Undefined ∧
  Vector_index 1%nat 1 after_copy_assign_within_capacity
    = Ok (Ptr (Some 2%nat) 1) after_copy_assign_within_capacity ∧
  load (Ptr (Some 2%nat) 1) (mem after_copy_assign_within_capacity)
    = Ok 8 (mem after_copy_assign_within_capacity).
Proof. repeat split; vm_compute; reflexivity. Qed.

(** C4. The same copy assignment returns normally and leaves [dst] outside
    the invariant: its size is 2 and its second slot is uninitialized. *)
Theorem copy_assign_within_capacity_breaks_invariant :
  copy_assign_within_capacity = Ok (0%nat, 1%nat) after_copy_assign_within_capacity ∧
  ¬ Vector_invariant (Element0 := int_element)
      after_copy_assign_within_capacity 0%nat.
Proof.
  split; [vm_compute; reflexivity|].
  intros (v & elems & Hv & Hs & _ & _ & Hblk).
  vm_compute in Hv. injection Hv as <-.
  cbn [data_ size_ buffer_ capacity_ p_blk] in *.
  destruct Hblk as [_ Hblk].
  destruct elems as [|a [|b [|c elems]]]; simplify_eq/=.
Qed.

(** C2 as stated fails: after the move assignment of an object holding a
    block of 3 slots into one holding a block of 2 slots, the source is not
    empty; it holds the block of 2 slots of the destination. *)
Lemma RawMemory_move_assign_leaves_rhs_nonempty :
  fst <$> returned
    (bind (RawMemory_move_assign (T := Z) (RawObj 0%nat) (RawObj 1%nat))
       (λ _, get_raw (RawObj 1%nat)) two_raws)
    = Some {| buffer_ := Ptr (Some 0%nat) 0; capacity_ := 2 |} ∧
  {| buffer_ := Ptr (Some 0%nat) 0; capacity_ := 2 |} ≠ RawMemory_default.
Proof. split; [vm_compute; reflexivity | discriminate]. Qed.

(** The amended C2 at the same two objects. *)
Lemma RawMemory_move_assign_swaps_witness :
  ∃ σ', RawMemory_move_assign (T := Z) (RawObj 0%nat) (RawObj 1%nat) two_raws
          = Ok tt σ' ∧
        get_raw (RawObj 0%nat) σ'
          = Ok {| buffer_ := Ptr (Some 1%nat) 0; capacity_ := 3 |} σ' ∧
        get_raw (RawObj 1%nat) σ'
          = Ok {| buffer_ := Ptr (Some 0%nat) 0; capacity_ := 2 |} σ' ∧
        mem σ' = mem two_raws.
Proof.
  apply (RawMemory_move_assign_swaps (T := Z) two_raws (RawObj 0%nat)
           (RawObj 1%nat)).
  - discriminate.
  - vm_compute. reflexivity.
  - vm_compute. reflexivity.
Defined.



(** C5 at [PopBack] on a full vector of two elements. *)
Lemma capacity_never_decreases_witness :
  ∃ v', vecs (State ∅ (<[0%nat := {| data_ := data_ full_pair_vector;
                                     size_ := 1 |}]> ∅)
                (Memory (<[0%nat := [Some 1; None]]> ∅) None)) !! 0%nat
          = Some v' ∧
        capacity_ (data_ full_pair_vector) ≤ capacity_ (data_ v').
Proof.
  apply (capacity_never_decreases (Element0 := int_element) (full_pair 1 2)
           0%nat full_pair_vector OpPopBack).
  - vm_compute. reflexivity.
  - vm_compute. split; discriminate.
  - vm_compute. reflexivity.
Defined.

(** C6 as stated fails: [Reserve(2^62 + 1)] on an empty vector of [int]
    returns with capacity [2^62 + 1], but the byte count
    [(2^62 + 1) * sizeof(int)] wraps around to 4 and the block has one
    slot, not [2^62 + 1]. *)
Lemma Reserve_wrapped_byte_count_allocates_one_slot :
  fst <$> returned
    (bind Vector_ctor (λ v,
       bind (Reserve (Element0 := int_element) v (2 ^ 62 + 1)) (λ _,
       observe v)) empty_state)
  = Some ([None], 0, 2 ^ 62 + 1) ∧
  Z.of_nat (length [None (A := Z)]) ≠ 2 ^ 62 + 1.
Proof. split; [vm_compute; reflexivity | vm_compute; discriminate]. Qed.

(** The amended C6 at a full vector of two elements: [PushBack] makes the
    capacity 4, [Reserve(5)] returns with a block of 5 slots, and three
    [PushBack] into a new vector make its capacity 4. *)
Lemma growth_capacity_rule_witness :
  (∃ v', vecs (State ∅ (<[0%nat := {| data_ := {| buffer_ := Ptr (Some 1%nat) 0;
                                                  capacity_ := 4 |};
                                      size_ := 3 |}]> ∅)
                 (Memory (<[1%nat := [Some 1; Some 2; Some 3; None]]> ∅) None))
           !! 0%nat = Some v' ∧
         capacity_ (data_ v') = 4) ∧
  (∃ σ', Reserve (Element0 := int_element) 0%nat 5 (full_pair 1 2)
         = Ok tt σ') ∧
  (∃ v' a blk,
     vecs (State ∅ (<[0%nat := {| data_ := {| buffer_ := Ptr (Some 1%nat) 0;
                                              capacity_ := 5 |};
                                  size_ := 2 |}]> ∅)
             (Memory (<[1%nat := [Some 1; Some 2; None; None; None]]> ∅) None))
       !! 0%nat = Some v' ∧
     data_ v' = {| buffer_ := Ptr (Some a) 0; capacity_ := 5 |} ∧
     heap (Memory (<[1%nat := [Some 1; Some 2; None; None; None]]> ∅) None) !! a
       = Some blk ∧
     Z.of_nat (length blk) = 5) ∧
  ∃ σ', bind Vector_ctor
          (λ new, bind (push_backs (Element0 := int_element) new [10; 20; 30])
                    (λ _, Capacity new)) (full_pair 1 2)
        = Ok 4 σ'.
Proof.
  destruct (growth_capacity_rule (Element0 := int_element) (full_pair 1 2) 0%nat
       full_pair_vector [1; 2] 2 (CtorValue 3) 3 5 [10; 20; 30]
       ltac:(vm_compute; reflexivity)
       (full_pair_repr (Element0 := int_element) 1 2
          ltac:(vm_compute; discriminate))
       ltac:(simpl; lia)
       eq_refl) as (Hgrow & Hreserve & Hpush & _).
  split; [|split; [|split]].
  - apply (proj2 (Hgrow eq_refl) (Ptr (Some 1%nat) 2)).
    right. right. right. vm_compute. reflexivity.
  - apply (proj1 (proj2 (Hreserve ltac:(simpl; lia)
                           ltac:(vm_compute; reflexivity)))).
    + reflexivity.
    + vm_compute. discriminate.
  - apply (proj2 (proj2 (Hreserve ltac:(simpl; lia)
                           ltac:(vm_compute; reflexivity)))).
    vm_compute. reflexivity.
  - apply Hpush.
    + reflexivity.
    + vm_compute. discriminate.
Defined.

(** C7 at the insertion of a copy of the first element of a full vector at
    its second position. *)
Lemma Emplace_inserts_witness :
  ∃ r σ', Emplace (Element0 := int_element) 0%nat (Ptr (Some 0%nat) 1)
            (CtorCopyOf (Ptr (Some 0%nat) 0)) (full_pair 1 2) = Ok r σ'.
Proof.
  apply (proj1 (proj2 (proj2
    (Emplace_inserts (Element0 := int_element) (full_pair 1 2) 0%nat
       full_pair_vector [1; 2] 1 (CtorCopyOf (Ptr (Some 0%nat) 0)) 1
       ltac:(vm_compute; reflexivity)
       (full_pair_repr (Element0 := int_element) 1 2
          ltac:(vm_compute; discriminate))
       ltac:(simpl; lia)
       (or_intror (ex_intro _ O (conj eq_refl eq_refl))))))).
  - reflexivity.
  - intros _. vm_compute. discriminate.
Defined.

(** C8 at the first position of a vector of two elements. *)
Lemma Erase_removes_witness :
  ∃ r σ', Erase (Element0 := int_element) 0%nat (Ptr (Some 0%nat) 0)
            (full_pair 1 2) = Ok r σ'.
Proof.
  apply (proj1 (proj2
    (Erase_removes (Element0 := int_element) (full_pair 1 2) 0%nat
       full_pair_vector [1; 2] 0
       ltac:(vm_compute; reflexivity)
       (full_pair_repr (Element0 := int_element) 1 2
          ltac:(vm_compute; discriminate))
       ltac:(simpl; lia)))).
  left. reflexivity.
Defined.

(** C9 at two positions outside the vector: one far behind its end, one
    before its begin. *)
Lemma position_assertions_always_hold_witness :
  Emplace_assertion (T := Z) 0%nat (Ptr (Some 0%nat) 100) (full_pair 1 2)
    = Ok true (full_pair 1 2) ∧
  Erase_assertion (T := Z) 0%nat (Ptr (Some 0%nat) (-5)) (full_pair 1 2)
    = Ok true (full_pair 1 2).
Proof.
  split.
  - apply (position_assertions_always_hold (T := Z) (full_pair 1 2) 0%nat
             full_pair_vector (Ptr (Some 0%nat) 100));
      [vm_compute; reflexivity | vm_compute; split; discriminate].
  - apply (position_assertions_always_hold (T := Z) (full_pair 1 2) 0%nat
             full_pair_vector (Ptr (Some 0%nat) (-5)));
      [vm_compute; reflexivity | vm_compute; split; discriminate].
Defined.

(** ** Scenarios

    Runs of the embedding on vectors of [int], started from the empty program
    state. *)

Section scenarios.
#[local] Existing Instance int_element.

(** Three [PushBack]: size 3, capacity 4. *)
Example build_three :
  fst <$> returned
    (bind Vector_ctor (λ v,
       bind (push_backs v [10; 20; 30]) (λ _, observe v)) empty_state)
  = Some ([Some 10; Some 20; Some 30; None], 3, 4).
Proof. vm_compute. reflexivity. Qed.

(** [Resize] down keeps the capacity; [Resize] up value-initializes. *)
Example grow_then_shrink :
  fst <$> returned
    (bind Vector_ctor (λ v,
       bind (push_backs v [1; 2; 3; 4; 5]) (λ _,
       bind (Resize v 2) (λ _,
       bind (observe v) (λ small,
       bind (Resize v 4) (λ _,
       bind (observe v) (λ large, ret (small, large))))))) empty_state)
  = Some (([Some 1; Some 2; None; None; None; None; None; None], 2, 8),
          ([Some 1; Some 2; Some 0; Some 0; None; None; None; None], 4, 8)).
Proof. vm_compute. reflexivity. Qed.

(** [Insert] in the middle, without growth. *)
Example insert_in_middle :
  fst <$> returned
    (bind Vector_ctor (λ v,
       bind (push_backs v [1; 2; 4; 5]) (λ _,
       bind (Reserve v 8) (λ _,
       bind (Vector_begin v) (λ b,
       bind (Insert v (ptr_add b 2) (CtorValue 3)) (λ r,
       bind (observe v) (λ o, ret (r, o))))))) empty_state)
  = Some (Ptr (Some 3%nat) 2,
          ([Some 1; Some 2; Some 3; Some 4; Some 5; None; None; None], 5, 8)).
Proof. vm_compute. reflexivity. Qed.

(** [Insert] of an element of the vector itself, with growth. *)
Example insert_own_element :
  fst <$> returned
    (bind Vector_ctor (λ v,
       bind (push_backs v [1; 2; 3; 4]) (λ _,
       bind (Vector_begin v) (λ b,
       bind (Insert v (ptr_add b 1) (CtorCopyOf (ptr_add b 3))) (λ _,
       observe v)))) empty_state)
  = Some ([Some 1; Some 4; Some 2; Some 3; Some 4; None; None; None], 5, 8).
Proof. vm_compute. reflexivity. Qed.

(** [Erase] in the middle. *)
Example erase_middle :
  fst <$> returned
    (bind Vector_ctor (λ v,
       bind (push_backs v [1; 2; 3; 4; 5]) (λ _,
       bind (Vector_begin v) (λ b,
       bind (Erase v (ptr_add b 2)) (λ r,
       bind (lift (load r)) (λ x,
       bind (observe v) (λ o, ret (x, o))))))) empty_state)
  = Some (4, ([Some 1; Some 2; Some 4; Some 5; None; None; None; None], 4, 8)).
Proof. vm_compute. reflexivity. Qed.

(** Copy assignment of a shorter vector keeps the capacity. *)
Example copy_assign_shrinking :
  fst <$> returned
    (bind Vector_ctor (λ dst,
       bind (push_backs dst [1; 2; 3; 4; 5]) (λ _,
       bind Vector_ctor (λ src,
       bind (push_backs src [7; 8]) (λ _,
       bind (Vector_copy_assign dst src) (λ _, observe dst))))) empty_state)
  = Some ([Some 7; Some 8; None; None; None; None; None; None], 2, 8).
Proof. vm_compute. reflexivity. Qed.

(** Copy assignment beyond the capacity copies and swaps. *)
Example copy_assign_growing :
  fst <$> returned
    (bind Vector_ctor (λ dst,
       bind (push_backs dst [1; 2]) (λ _,
       bind Vector_ctor (λ src,
       bind (push_backs src [9; 8; 7; 6; 5]) (λ _,
       bind (Vector_copy_assign dst src) (λ _,
       bind (observe dst) (λ d,
       bind (observe src) (λ s, ret (d, s)))))))) empty_state)
  = Some (([Some 9; Some 8; Some 7; Some 6; Some 5], 5, 5),
          ([Some 9; Some 8; Some 7; Some 6; Some 5; None; None; None], 5, 8)).
Proof. vm_compute. reflexivity. Qed.

(** The size, copy and move constructors. *)
Example constructors :
  fst <$> returned
    (bind (Vector_ctor_size 3) (λ a,
       bind (Vector_copy_ctor a) (λ b,
       bind (Vector_move_ctor a) (λ c,
       bind (observe a) (λ oa,
       bind (observe b) (λ ob,
       bind (observe c) (λ oc, ret (oa, ob, oc))))))) empty_state)
  = Some (([], 0, 0),
          ([Some 0; Some 0; Some 0], 3, 3),
          ([Some 0; Some 0; Some 0], 3, 3)).
Proof. vm_compute. reflexivity. Qed.

End scenarios.

Section throwing_scenarios.
#[local] Existing Instance throwing_copy_element.

(** A copy construction whose third element copy throws: nothing of the
    destination is left, and the source is intact. *)
Example copy_construction_throws :
  bind Vector_ctor (λ src,
    bind (push_backs src [1; 2; 3; 4; 5]) (λ _,
    bind (λ σ, Ok tt (with_fuse σ 3)) (λ _,
    Vector_copy_ctor src))) empty_state
  = Throw
      (State ∅
         (<[0%nat := {| data_ := {| buffer_ := Ptr (Some 3%nat) 0;
                                    capacity_ := 8 |};
                        size_ := 5 |}]> ∅)
         (Memory
            (<[3%nat := [Some 1; Some 2; Some 3; Some 4; Some 5;
                         None; None; None]]> ∅) None)).
Proof. vm_compute. reflexivity. Qed.

End throwing_scenarios.

(** * The other member functions *)

(** ** Value construction and copy assignment of ranges *)

Section more_algorithms.
Context {T : Type} `{!Element T}.
Implicit Types (h : gmap addr (list (option T))) (f : option nat).
Implicit Types (b : list (option T)) (a : addr) (o : Z) (v : T).
Implicit Types (E : memory (T:=T) → Prop) (F : Prop).

(** Value-constructing [n] elements in uninitialized slots: either all of
    them are constructed, or the construction throws and the heap is as
    before. *)
Lemma wp_uninitialized_value_construct_n (Q : unit → memory → Prop) E F h f
    a o b n :
  h !! a = Some b → 0 ≤ o →
  (∀ i, (i < Z.to_nat n)%nat → b !! (Z.to_nat o + i)%nat = Some None) →
  (∀ f', (f = None → f' = None) →
     Q tt (Memory (<[a := list_inserts (Z.to_nat o)
                           (replicate (Z.to_nat n) (Some value_init)) b]> h) f')) →
  (f ≠ None → E (Memory h None)) →
  wp (uninitialized_value_construct_n (Ptr (Some a) o) n) Q E F (Memory h f).
Proof.
  intros Ha Ho Hfree HQ HE.
  unfold uninitialized_value_construct_n.
  apply (wp_uninitialized_loop (λ k μ, ∃ f', (f = None → f' = None) ∧
    μ = Memory (<[a := list_inserts (Z.to_nat o)
                          (replicate k (Some value_init)) b]> h) f')).
  - exists f. split; [done|]. simpl. by rewrite insert_id.
  - intros k μ Hk (f' & Hf' & ->).
    assert (∀ j, (j < Z.to_nat n)%nat → (Z.to_nat o + j < length b)%nat) as Hlen.
    { intros j Hj. eapply lookup_lt_Some, Hfree, Hj. }
    unfold value_construct, ptr_add. cbn [p_blk p_off].
    apply wp_bind, wp_tick.
    + intros f'' Hf''. eapply wp_place.
      { apply lookup_insert_eq. }
      { lia. }
      { rewrite length_inserts. specialize (Hlen k Hk). lia. }
      exists f''. split; [naive_solver|]. f_equal.
      rewrite insert_insert_eq. f_equal.
      replace (Z.to_nat (o + (0 + Z.of_nat k))) with
        (Z.to_nat o + length (replicate k (Some (value_init (T:=T)))))%nat
        by (rewrite length_replicate; lia).
      rewrite inserts_snoc by (rewrite length_replicate;
                               specialize (Hlen k Hk); lia).
      f_equal. replace (S k) with (k + 1)%nat by lia.
      by rewrite replicate_add.
    + intros Hf. eapply wp_destroy_n.
      { apply lookup_insert_eq. }
      { lia. }
      { intros i Hi. rewrite lookup_inserts_case, length_replicate.
        case_decide as Hc.
        - rewrite lookup_replicate_2 by lia. by eexists.
        - specialize (Hlen (i - Z.to_nat o)%nat). lia. }
      rewrite insert_insert_eq.
      replace (Z.to_nat (0 + Z.of_nat k))
        with (length (replicate k (Some (value_init (T:=T)))))
        by (rewrite length_replicate; lia).
      rewrite inserts_inserts_same by by rewrite !length_replicate.
      rewrite inserts_id.
      * rewrite insert_id by done. apply HE. naive_solver.
      * intros j. rewrite !length_replicate. intros Hj.
        rewrite lookup_replicate_2 by lia. apply Hfree. lia.
  - intros μ (f' & Hf' & ->). by apply HQ.
Qed.

(** Constructing no element is possible through any pointer. *)
Lemma wp_uninitialized_value_construct_n_0 (Q : unit → memory → Prop) E F p n μ :
  n ≤ 0 → Q tt μ → wp (uninitialized_value_construct_n p n) Q E F μ.
Proof.
  intros Hn HQ. unfold uninitialized_value_construct_n.
  replace (Z.to_nat n) with O by lia. done.
Qed.

Lemma wp_uninitialized_copy_n_0 (Q : unit → memory → Prop) E F p q n μ :
  n ≤ 0 → Q tt μ → wp (uninitialized_copy_n p n q) Q E F μ.
Proof.
  intros Hn HQ. unfold uninitialized_copy_n.
  replace (Z.to_nat n) with O by lia. done.
Qed.

(** [std::copy] of the elements [vs] at the start of one block over live
    elements at the start of another: either all of them are assigned, or
    an assignment throws and the first of them have been assigned. *)
Lemma wp_std_copy (Q : unit → memory → Prop) E F h f sa sb da db
    (vs : list T) (n : Z) :
  sa ≠ da → h !! sa = Some sb → h !! da = Some db →
  n = Z.of_nat (length vs) →
  (∀ i v, vs !! i = Some v → sb !! i = Some (Some v)) →
  (∀ i, (i < length vs)%nat → ∃ w, db !! i = Some (Some w)) →
  (∀ f', (f = None → f' = None) →
     Q tt (Memory (<[da := list_inserts 0 (Some <$> vs) db]> h) f')) →
  (f ≠ None → ∀ k, (k < length vs)%nat →
     E (Memory (<[da := list_inserts 0 (Some <$> take k vs) db]> h) None)) →
  wp (std_copy (Ptr (Some sa) 0) (Ptr (Some sa) n) (Ptr (Some da) 0)) Q E F
     (Memory h f).
Proof.
  intros Hne Hsa Hda -> Hsrc Hdst HQ HE.
  unfold std_copy. apply wp_bind, wp_range_length; [lia|].
  rewrite Z.sub_0_r, Nat2Z.id.
  apply (wp_assign_loop (λ k μ, ∃ f', (f = None → f' = None) ∧
    μ = Memory (<[da := list_inserts 0 (Some <$> take k vs) db]> h) f')).
  - exists f. split; [done|]. simpl. by rewrite insert_id.
  - intros k μ Hk (f' & Hf' & ->).
    destruct (lookup_lt_is_Some_2 vs k Hk) as [v Hv].
    destruct (Hdst k Hk) as [w Hw].
    pose proof (lookup_lt_Some _ _ _ Hw) as Hlen.
    assert (list_inserts 0 (Some <$> take k vs) db !! k = Some (Some w)) as Hw'.
    { rewrite list_lookup_inserts_ge
        by (rewrite length_fmap, length_take; lia). done. }
    unfold copy_assign, ptr_add. cbn [p_blk p_off].
    rewrite !Z.add_0_l.
    apply wp_bind. eapply wp_load.
    { apply lookup_insert_eq. }
    { lia. }
    { rewrite Nat2Z.id. exact Hw'. }
    apply wp_bind. eapply wp_load.
    { rewrite lookup_insert_ne by done. exact Hsa. }
    { lia. }
    { rewrite Nat2Z.id. by apply Hsrc. }
    apply wp_bind, wp_tick.
    + intros f'' Hf''. eapply wp_assign.
      { apply lookup_insert_eq. }
      { lia. }
      { rewrite Nat2Z.id. exact Hw'. }
      exists f''. split; [naive_solver|]. f_equal.
      rewrite insert_insert_eq. f_equal. rewrite Nat2Z.id.
      replace k with (0 + length (Some <$> take k vs))%nat at 1
        by (rewrite length_fmap, length_take; lia).
      rewrite inserts_snoc by (rewrite length_fmap, length_take; lia).
      by rewrite (take_S_r _ _ _ Hv), fmap_app.
    + intros Hf. apply HE; [naive_solver | done].
  - intros μ (f' & Hf' & ->). rewrite take_ge by lia. by apply HQ.
Qed.

(** Copying an empty range assigns nothing. *)
Lemma wp_std_copy_0 (Q : unit → memory → Prop) E F p d μ :
  Q tt μ → wp (std_copy p p d) Q E F μ.
Proof.
  intros HQ. unfold std_copy, range_length, ptr_diff.
  rewrite bool_decide_eq_true_2 by done.
  apply wp_bind, wp_bind, wp_ret. rewrite Z.sub_diag. simpl.
  apply wp_ret. simpl. by apply wp_ret.
Qed.

End more_algorithms.

(** ** Blocks along the operations *)

Section more_blocks.
Context {T : Type} `{!Element T}.
Implicit Types (l vs ws : list T) (cap i j n k : nat) (x y : T).

Lemma blk_of_destroy_tail l cap n :
  (n ≤ length l)%nat → (length l ≤ cap)%nat →
  list_inserts n (replicate (length l - n) None) (blk_of l cap)
  = blk_of (take n l) cap.
Proof.
  intros Hn Hl. unfold blk_of. apply list_eq; intros i. list_lookups.
  repeat case_decide; try lia; try done.
Qed.

Lemma blk_of_destroy_all l cap :
  (length l ≤ cap)%nat →
  list_inserts 0 (replicate (length l) None) (blk_of l cap) = replicate cap None.
Proof.
  intros Hl. rewrite <-(blk_of_nil cap), <-(take_0 l).
  rewrite <-blk_of_destroy_tail by lia. by rewrite Nat.sub_0_r.
Qed.

Lemma blk_of_construct_tail l cap k x :
  (length l + k ≤ cap)%nat →
  list_inserts (length l) (replicate k (Some x)) (blk_of l cap)
  = blk_of (l ++ replicate k x) cap.
Proof.
  intros Hl. unfold blk_of. apply list_eq; intros i. list_lookups.
  repeat case_decide; try lia; try done.
Qed.

Lemma blk_of_assign_front vs ws cap :
  (length vs ≤ length ws)%nat → (length ws ≤ cap)%nat →
  list_inserts 0 (Some <$> vs) (blk_of ws cap)
  = blk_of (vs ++ drop (length vs) ws) cap.
Proof.
  intros Hvs Hws. unfold blk_of. apply list_eq; intros i. list_lookups.
  repeat case_decide; try lia; try done; try (f_equal; f_equal; lia).
Qed.

Lemma blk_of_construct_all cap x :
  list_inserts 0 (replicate cap (Some x)) (replicate cap None)
  = blk_of (replicate cap x) cap.
Proof.
  rewrite <-(blk_of_nil cap).
  exact (blk_of_construct_tail [] cap cap x (Nat.le_refl _)).
Qed.

End more_blocks.

(** ** Construction and destruction *)

Section lifetime.
Context {T : Type} `{!Element T}.
Implicit Types (σ : state (T:=T)) (E : state (T:=T) → Prop) (F : Prop).
Implicit Types (this l : loc) (v w : Vector).
Implicit Types (h : gmap addr (list (option T))) (f : option nat).
Implicit Types (elems : list T) (x : T) (j : nat).

(** The destructor of a vector destroys its elements and releases its
    block; it cannot throw. *)
Lemma wp_Vector_dtor (Q : unit → state → Prop) E F σ l v elems :
  vecs σ !! l = Some v →
  vec_repr (heap (mem σ)) v elems →
  Q tt (State (raws σ) (vecs σ)
          (Memory (released (heap (mem σ)) (buffer_ (data_ v))) (fuse (mem σ)))) →
  wp (Vector_dtor l) Q E F σ.
Proof.
  destruct σ as [r vs [h f]], v as [[[[a|] o] c] s].
  all: cbn [raws vecs mem heap fuse]; unfold vec_repr, released;
    cbn [data_ size_ buffer_ capacity_ p_blk p_off].
  - intros Hv (Hs & Hc & -> & Hpos & Ha) HQ. subst s.
    unfold Vector_dtor. wp_steps.
    destruct (Z.eqb_spec (Z.of_nat (length elems)) 0) as [Hz|Hnz]; cbn [negb].
    + wp_steps. unfold RawMemory_dtor. wp_steps. cbn [is_null p_blk negb].
      wp_steps. unfold Deallocate. eapply wp_operator_delete; [done|]. done.
    + wp_steps.
      eapply wp_destroy_n; [solve_lookup|lia| |].
      { intros i Hi. destruct (lookup_lt_is_Some_2 elems i) as [w Hw]; [lia|].
        exists w. by apply lookup_blk_of_elem. }
      wp_steps. unfold RawMemory_dtor. wp_steps. cbn [is_null p_blk negb].
      wp_steps. unfold Deallocate.
      eapply wp_operator_delete; [solve_lookup|].
      by rewrite delete_insert_eq.
  - intros Hv (Hs & Hc & -> & ->) HQ.
    assert (s = 0) as -> by lia.
    unfold Vector_dtor. wp_steps. cbn [Z.eqb negb]. wp_steps.
    unfold RawMemory_dtor. wp_steps. cbn [is_null p_blk negb]. wp_steps. done.
Qed.

(** The end of the scope of a local vector. *)
Lemma wp_vec_cleanup (Q : unit → state → Prop) E F σ l v elems :
  vecs σ !! l = Some v →
  vec_repr (heap (mem σ)) v elems →
  Q tt (State (raws σ) (delete l (vecs σ))
          (Memory (released (heap (mem σ)) (buffer_ (data_ v))) (fuse (mem σ)))) →
  wp (bind (Vector_dtor l) (λ _, end_vec l)) Q E F σ.
Proof.
  intros Hv Hrepr HQ. apply wp_bind.
  eapply wp_Vector_dtor; [done..|]. by apply wp_end_vec.
Qed.

(** [Vector(size)]: a new vector of [n] value-initialized elements, in a
    block of exactly [n] slots, or no block when [n] is 0; when the
    allocation or a constructor throws, nothing is left of it. *)
Lemma Vector_ctor_size_spec σ n :
  0 ≤ n →
  n * sizeof_T < SIZE_MODULUS →
  wp (Vector_ctor_size n)
     (λ this σ', ∃ v',
        vecs σ !! this = None ∧
        raws σ' = raws σ ∧ vecs σ' = <[this := v']> (vecs σ) ∧
        size_ v' = n ∧ capacity_ (data_ v') = n ∧ n ≤ max_slots ∧
        (if n =? 0 then v' = Vector_default ∧ heap (mem σ') = heap (mem σ)
         else storage_renewed (heap (mem σ)) Vector_default
                (replicate (Z.to_nat n) value_init) v' (heap (mem σ'))) ∧
        no_new_fault σ σ')
     (λ σ', (fuse (mem σ) ≠ None ∨ max_slots < n) ∧ unchanged σ σ')
     False σ.
Proof.
  intros Hn Hbytes. destruct σ as [r vs [h f]].
  pose proof sizeof_T_bounds as [Hsz _].
  unfold Vector_ctor_size, RawMemory_ctor, Allocate, no_new_fault, unchanged.
  cbn [raws vecs mem heap fuse].
  destruct (Z.eqb_spec n 0) as [->|Hnz]; cbn [negb].
  - wp_steps. apply wp_new_vec. intros this Hthis. cbn [raws vecs mem] in *.
    wp_steps. apply wp_uninitialized_value_construct_n_0; [done|].
    wp_steps. eexists. pose proof max_slots_pos.
    split_and!; try done; lia.
  - wp_steps. apply wp_operator_new; [nia|..].
    2:{ intros Hthrow f'. cbn [raws vecs mem heap fuse]. split; [tauto|done]. }
    intros a f1 Ha Hcap Hf1. wp_steps.
    apply wp_new_vec. intros this Hthis. cbn [raws vecs mem] in *.
    wp_steps.
    eapply wp_uninitialized_value_construct_n; [solve_lookup|lia| |..].
    { intros i Hi. apply lookup_replicate_2. lia. }
    + intros f2 Hf2. wp_steps. eexists.
      split_and!; cbn [data_ size_ buffer_ capacity_]; try done.
      * exists a. split_and!; try done.
        cbn [data_ size_ buffer_ capacity_ released p_blk nullptr].
        rewrite insert_insert_eq. f_equal.
        change (Z.to_nat 0) with O. apply blk_of_construct_all.
      * intuition congruence.
    + intros Hf. wp_steps. unfold RawMemory_dtor. wp_steps.
      cbn [is_null p_blk negb]. wp_steps. unfold Deallocate.
      eapply wp_operator_delete; [solve_lookup|]. wp_steps.
      split; [left; intuition congruence|].
      split_and!; try done.
      * by rewrite delete_insert_id.
      * by rewrite delete_insert_id.
Qed.

(** [Vector(const Vector& other)]: a new vector holding copies of the
    elements of [other], in a block of exactly as many slots, or no block
    when [other] is empty; [other] is untouched.  When the allocation or a
    copy throws, nothing is left of the new vector. *)
Lemma Vector_copy_ctor_spec σ other w elems :
  vecs σ !! other = Some w →
  vec_repr (heap (mem σ)) w elems →
  wp (Vector_copy_ctor other)
     (λ this σ', ∃ v',
        vecs σ !! this = None ∧
        raws σ' = raws σ ∧ vecs σ' = <[this := v']> (vecs σ) ∧
        size_ v' = size_ w ∧ capacity_ (data_ v') = size_ w ∧
        (if size_ w =? 0 then v' = Vector_default ∧ heap (mem σ') = heap (mem σ)
         else storage_renewed (heap (mem σ)) Vector_default elems v'
                (heap (mem σ'))) ∧
        no_new_fault σ σ')
     (λ σ', fuse (mem σ) ≠ None ∧ unchanged σ σ')
     False σ.
Proof.
  intros Hw Hrepr. destruct σ as [r vs [h f]].
  unfold Vector_copy_ctor, RawMemory_ctor, Allocate, no_new_fault, unchanged.
  cbn [raws vecs mem heap fuse] in *.
  wp_steps.
  destruct (Z.eqb_spec (size_ w) 0) as [Hz|Hnz]; cbn [negb].
  - wp_steps. apply wp_new_vec. intros this Hthis. cbn [raws vecs mem] in *.
    assert (this ≠ other) by congruence.
    wp_steps. rewrite Hz. apply wp_uninitialized_copy_n_0; [done|].
    wp_steps. eexists. split_and!; try done.
  - destruct w as [[[[a|] o] c] s]; unfold vec_repr in Hrepr;
      cbn [data_ size_ buffer_ capacity_ p_blk p_off] in *.
    2:{ destruct Hrepr as (Hs & Hc & _ & ->). lia. }
    destruct Hrepr as (Hs & Hc & -> & Hpos & Ha).
    wp_steps. apply wp_operator_new; [apply bytes_fit; lia|..].
    2:{ intros [Hf|Hbig] f'; [|lia]. cbn [raws vecs mem heap fuse].
        split; [done|]. done. }
    intros a' f1 Ha' Hcap Hf1. wp_steps.
    apply wp_new_vec. intros this Hthis. cbn [raws vecs mem] in *.
    assert (this ≠ other) by congruence.
    assert (a ≠ a') by congruence.
    wp_steps.
    eapply (wp_uninitialized_copy_n _ _ _ _ _ a 0 _ a' 0 _ elems);
      [done|solve_lookup|solve_lookup|lia|lia|..].
    { lia. }
    { intros i x Hx. by apply lookup_blk_of_elem. }
    { intros i Hi. apply lookup_replicate_2. lia. }
    + intros f2 Hf2. wp_steps. eexists.
      split_and!; cbn [data_ size_ buffer_ capacity_]; try done.
      * exists a'. split_and!; try done.
        cbn [data_ size_ buffer_ capacity_ released p_blk nullptr].
        rewrite insert_insert_eq. f_equal.
        change (Z.to_nat 0) with O. apply relocated_block. lia.
      * intuition congruence.
    + intros Hf. wp_steps. unfold RawMemory_dtor. wp_steps.
      cbn [is_null p_blk negb]. wp_steps. unfold Deallocate.
      eapply wp_operator_delete; [solve_lookup|]. wp_steps.
      split; [intuition congruence|].
      split_and!; try done.
      * by rewrite delete_insert_id.
      * by rewrite delete_insert_id.
Qed.

(** [Vector(Vector&& other)]: the new vector takes over the buffer, the
    capacity and the size of [other], which is left empty; the memory is
    not touched, and nothing can throw. *)
Lemma Vector_move_ctor_spec σ other w :
  vecs σ !! other = Some w →
  wp (Vector_move_ctor other)
     (λ this σ',
        vecs σ !! this = None ∧
        σ' = State (raws σ)
               (<[other := Vector_default]> (<[this := w]> (vecs σ))) (mem σ))
     (λ _, False) False σ.
Proof.
  intros Hw. destruct σ as [r vs μ]. cbn [raws vecs mem] in *.
  unfold Vector_move_ctor, RawMemory_move_ctor. wp_steps.
  apply wp_new_vec. intros this Hthis. cbn [raws vecs mem] in *.
  assert (this ≠ other) as Hne.
  { intros ->. by rewrite lookup_insert_eq in Hthis. }
  rewrite !lookup_insert_ne in Hthis by done.
  wp_steps. split; [done|]. f_equal.
  destruct w as [[p c] s]. cbn [data_ size_ buffer_ capacity_].
  apply map_eq. intros k.
  destruct (decide (k = other)) as [->|]; [|destruct (decide (k = this)) as [->|]];
    by simplify_map_eq.
Qed.


End lifetime.

(** ** PopBack, Reserve and Resize *)

Section resizing.
Context {T : Type} `{!Element T}.
Implicit Types (σ : state (T:=T)) (E : state (T:=T) → Prop) (F : Prop).
Implicit Types (this l : loc) (v w : Vector).
Implicit Types (h : gmap addr (list (option T))) (f : option nat).
Implicit Types (elems : list T) (x : T) (j : nat).

Lemma stored_same h v elems :
  vec_repr h v elems →
  stored h (buffer_ (data_ v)) (blk_of elems (Z.to_nat (capacity_ (data_ v)))) = h.
Proof.
  intros (_ & _ & _ & Hblk). unfold stored.
  destruct (p_blk (buffer_ (data_ v))) as [a|]; [|done].
  destruct Hblk as [_ Ha]. by rewrite insert_id.
Qed.

(** [PopBack]: nothing on an empty vector; otherwise the last element is
    destroyed, in place. *)
Lemma PopBack_spec σ this v elems :
  vecs σ !! this = Some v →
  vec_repr (heap (mem σ)) v elems →
  wp (PopBack this)
     (λ _ σ',
        if size_ v =? 0 then σ' = σ
        else σ' = State (raws σ)
                    (<[this := {| data_ := data_ v; size_ := size_ v - 1 |}]>
                       (vecs σ))
                    (Memory
                       (stored (heap (mem σ)) (buffer_ (data_ v))
                          (blk_of (take (length elems - 1) elems)
                             (Z.to_nat (capacity_ (data_ v)))))
                       (fuse (mem σ))))
     (λ _, False) False σ.
Proof.
  destruct σ as [r vs [h f]], v as [[[[a|] o] c] s].
  all: cbn [raws vecs mem heap fuse]; unfold vec_repr, stored;
    cbn [data_ size_ buffer_ capacity_ p_blk p_off].
  - intros Hv (Hs & Hc & -> & Hpos & Ha). subst s.
    unfold PopBack. wp_steps.
    destruct (Z.eqb_spec (Z.of_nat (length elems)) 0) as [Hz|Hnz]; [by wp_steps|].
    wp_steps. rewrite wrap_slots by lia. wp_assert_lia. wp_steps.
    destruct (lookup_lt_is_Some_2 elems (length elems - 1)) as [y Hy]; [lia|].
    eapply wp_destroy_at; [solve_lookup|lia| |].
    { replace (Z.to_nat (Z.of_nat (length elems) - 1))
        with (length elems - 1)%nat by lia.
      by apply lookup_blk_of_elem. }
    wp_steps. do 3 f_equal.
    replace (Z.to_nat (Z.of_nat (length elems) - 1))
      with (length elems - 1)%nat by lia.
    rewrite <-blk_of_destroy_tail by lia.
    replace (length elems - (length elems - 1))%nat with 1%nat by lia. done.
  - intros Hv (Hs & Hc & -> & ->).
    assert (s = 0) as -> by lia.
    unfold PopBack. by wp_steps.
Qed.

(** [Reserve] within the capacity does nothing. *)
Lemma Reserve_within_capacity σ this v n :
  vecs σ !! this = Some v →
  n ≤ capacity_ (data_ v) →
  Reserve this n σ = Ok tt σ.
Proof.
  intros Hv Hn. unfold Reserve, RawMemory_Capacity, get_capacity, get_raw, bind.
  rewrite Hv. unfold ret.
  destruct (Z.leb_spec n (capacity_ (data_ v))); [done|lia].
Qed.

(** [Resize(n)]: the vector holds its first [n] elements, followed by
    value-initialized elements when [n] is beyond its size; the storage is
    renewed, with a capacity of exactly [n], when [n] is beyond the
    capacity, and kept otherwise.  It throws only when it has to grow; then
    the vector still holds its elements, provided the relocation copies or
    cannot throw. *)
Lemma Resize_spec σ this v elems n :
  vecs σ !! this = Some v →
  vec_repr (heap (mem σ)) v elems →
  0 ≤ n →
  n * sizeof_T < SIZE_MODULUS →
  let elems' := take (Z.to_nat n) elems
                ++ replicate (Z.to_nat n - length elems) value_init in
  wp (Resize this n)
     (λ _ σ', ∃ v',
        raws σ' = raws σ ∧
        vecs σ' = <[this := v']> (vecs σ) ∧
        size_ v' = n ∧
        (if n <=? capacity_ (data_ v)
         then storage_kept (heap (mem σ)) v elems' v' (heap (mem σ'))
         else capacity_ (data_ v') = n ∧ n ≤ max_slots ∧
              storage_renewed (heap (mem σ)) v elems' v' (heap (mem σ'))) ∧
        no_new_fault σ σ')
     (λ σ', (fuse (mem σ) ≠ None ∨ max_slots < n) ∧
        size_ v < n ∧
        (nothrow_move_constructible || copy_constructible = true →
         raws σ' = raws σ ∧
         ∃ v', vecs σ' = <[this := v']> (vecs σ) ∧
               size_ v' = size_ v ∧
               vec_repr (heap (mem σ')) v' elems))
     False σ.
Proof.
  intros Hv Hrepr Hn Hbytes elems'.
  pose proof Hrepr as (Hs & Hc & Hoff & Hblk).
  unfold Resize. apply wp_bind. eapply wp_get_size; [done|].
  destruct (Z.eqb_spec n (size_ v)) as [Heq|Hne].
  { apply wp_ret. exists v.
    assert (elems' = elems) as ->.
    { unfold elems'. rewrite take_ge by lia.
      replace (Z.to_nat n - length elems)%nat with O by lia.
      apply app_nil_r. }
    unfold no_new_fault. split_and!; try done.
    - by rewrite insert_id.
    - destruct (Z.leb_spec n (capacity_ (data_ v))); [|lia].
      split; [done|]. by rewrite stored_same. }
  destruct (Z.ltb_spec n (size_ v)) as [Hlt|Hge].
  { (* shrinking *)
    assert (elems' = take (Z.to_nat n) elems) as ->.
    { unfold elems'.
      replace (Z.to_nat n - length elems)%nat with O by lia.
      apply app_nil_r. }
    destruct σ as [r vs [h f]], v as [[[[a|] o] c] s];
      cbn [raws vecs mem heap fuse data_ size_ buffer_ capacity_ p_blk p_off] in *.
    2:{ lia. }
    subst o s. destruct Hblk as [Hpos Ha].
    wp_steps. wp_assert_lia. wp_steps.
    rewrite wrap_slots by lia.
    eapply wp_destroy_n; [solve_lookup|lia| |].
    { intros i Hi. destruct (lookup_lt_is_Some_2 elems i) as [y Hy]; [lia|].
      exists y. by apply lookup_blk_of_elem. }
    wp_steps. eexists. unfold no_new_fault.
    split_and!; cbn [raws vecs mem heap fuse data_ size_ buffer_ capacity_];
      try done.
    destruct (Z.leb_spec n c); [|lia].
    split; [done|]. unfold stored.
    cbn [data_ size_ buffer_ capacity_ p_blk p_off]. f_equal.
    rewrite <-blk_of_destroy_tail by lia. do 2 f_equal. lia. }
  (* growing *)
  assert (size_ v < n) as Hgt by lia. clear Hne Hge.
  assert (elems' = elems ++ replicate (Z.to_nat n - length elems) value_init)
    as ->.
  { unfold elems'. by rewrite take_ge by lia. }
  apply wp_bind, wp_bind.
  destruct (Z.leb_spec n (capacity_ (data_ v))) as [Hle|Hbig].
  - (* within the capacity *)
    unfold wp at 1. rewrite (Reserve_within_capacity σ this v n Hv Hle).
    destruct σ as [r vs [h f]], v as [[[[a|] o] c] s];
      cbn [raws vecs mem heap fuse data_ size_ buffer_ capacity_ p_blk p_off] in *.
    2:{ lia. }
    subst o s. destruct Hblk as [Hpos Ha].
    wp_steps. wp_assert_lia. wp_steps.
    rewrite wrap_slots by lia.
    eapply wp_uninitialized_value_construct_n; [solve_lookup|lia| |..].
    { intros i Hi. rewrite Nat2Z.id. apply lookup_blk_of_free. lia. }
    + intros f1 Hf1. wp_steps. eexists. unfold no_new_fault.
      split_and!; cbn [raws vecs mem heap fuse data_ size_ buffer_ capacity_];
        try done.
      split; [done|]. unfold stored.
      cbn [data_ size_ buffer_ capacity_ p_blk p_off]. f_equal.
      rewrite Nat2Z.id.
      rewrite <-blk_of_construct_tail by lia. do 2 f_equal. lia.
    + intros Hf. split; [by left|]. split; [done|]. intros _.
      cbn [raws vecs mem heap fuse]. split; [done|].
      eexists. split; [by rewrite insert_id|]. split; [done|].
      unfold vec_repr. cbn [data_ size_ buffer_ capacity_ p_blk p_off]. done.
  - (* beyond the capacity *)
    eapply wp_mono; [by apply (Reserve_spec_storage σ this v elems n)| | |done].
    2:{ intros σ' [Hthrow Hsame]. split; [done|]. split; [done|].
        intros Htr. destruct (Hsame Htr) as (Hr & Hvs & Hh).
        split; [done|]. exists v. split; [by rewrite Hvs, insert_id|].
        split; [done|]. by rewrite Hh. }
    intros [] σ1 (v1 & Hraws & Hvecs & Hcap & Hsize & Hmax & Hst & Hf).
    assert (vec_repr (heap (mem σ1)) v1 elems) as Hrepr1.
    { apply (storage_renewed_repr _ _ _ _ _ Hst). all: lia. }
    destruct Hst as (a' & Ha' & Hbuf & Hh1).
    destruct σ as [r vs [h f]], σ1 as [r1 vs1 [h1 f1]],
      v1 as [[p1 c1] s1]; unfold no_new_fault in *;
      cbn [raws vecs mem heap fuse data_ size_ buffer_ capacity_ p_blk p_off] in *.
    subst r1 vs1 c1 s1 p1.
    wp_steps. wp_assert_lia. wp_steps.
    rewrite wrap_slots by lia.
    eapply wp_uninitialized_value_construct_n;
      [rewrite Hh1; apply lookup_insert_eq|lia| |..].
    { intros i Hi. apply lookup_blk_of_free. lia. }
    + intros f2 Hf2. wp_steps. eexists.
      split; [done|]. split; [by rewrite insert_insert_eq|].
      cbn [raws vecs mem heap fuse data_ size_ buffer_ capacity_].
      split_and!; try done.
      * exists a'. split_and!; try done.
        cbn [data_ size_ buffer_ capacity_]. rewrite Hh1, insert_insert_eq.
        f_equal. rewrite Hs, Nat2Z.id.
        rewrite <-blk_of_construct_tail by lia. do 2 f_equal. lia.
      * intuition congruence.
    + intros Hf1. split; [left; intuition congruence|]. split; [done|].
      intros _. cbn [raws vecs mem heap fuse]. split; [done|].
      eexists. split; [done|]. split; [done|]. done.
Qed.

End resizing.

(** ** Swap, the accessors and the copy assignment *)

Section assignment.
Context {T : Type} `{!Element T}.
Implicit Types (σ : state (T:=T)) (E : state (T:=T) → Prop) (F : Prop).
Implicit Types (this l : loc) (v w : Vector).
Implicit Types (h : gmap addr (list (option T))) (f : option nat).
Implicit Types (elems : list T) (x : T) (j : nat).

(** [Swap] exchanges the two vector objects; the memory is not touched. *)
Lemma wp_Swap (Q : unit → state → Prop) E F σ this other v w :
  this ≠ other →
  vecs σ !! this = Some v → vecs σ !! other = Some w →
  Q tt (State (raws σ) (<[other := v]> (<[this := w]> (vecs σ))) (mem σ)) →
  wp (Swap this other) Q E F σ.
Proof.
  intros Hne Hv Hw HQ. destruct σ as [r vs μ]. cbn [raws vecs mem] in *.
  unfold Swap, RawMemory_Swap. wp_steps.
  destruct v as [[vb vc] vsz], w as [[wb wc] wsz].
  cbn [data_ size_ buffer_ capacity_] in *.
  match goal with |- Q tt (State _ ?m _) =>
    replace m with (<[other := {| data_ := {| buffer_ := vb; capacity_ := vc |};
                                  size_ := vsz |}]>
                      (<[this := {| data_ := {| buffer_ := wb; capacity_ := wc |};
                                    size_ := wsz |}]> vs)) end; [done|].
  apply map_eq. intros k.
  destruct (decide (k = other)) as [->|]; [|destruct (decide (k = this)) as [->|]];
    by simplify_map_eq.
Qed.

(** Swapping a vector with itself changes nothing. *)
Lemma Swap_self σ this v :
  vecs σ !! this = Some v → Swap this this σ = Ok tt σ.
Proof.
  intros Hv.
  assert (wp (Swap this this) (λ _ τ', τ' = σ) (λ _, False) False σ) as Hwp.
  { destruct σ as [r vs μ]. cbn [raws vecs mem] in *.
    unfold Swap, RawMemory_Swap. wp_steps.
    rewrite !insert_insert_eq. f_equal.
    destruct v as [[p c] s]. cbn [data_ size_ buffer_ capacity_].
    by rewrite insert_id. }
  apply wp_returns in Hwp as ([] & τ' & Hrun & ->). done.
Qed.

Lemma Vector_begin_eq σ this v :
  vecs σ !! this = Some v →
  Vector_begin this σ = Ok (buffer_ (data_ v)) σ.
Proof.
  intros Hv. unfold Vector_begin, GetAddress, get_buffer, get_raw, bind, ret.
  by rewrite Hv.
Qed.

Lemma Vector_end_eq σ this v :
  vecs σ !! this = Some v →
  Vector_end this σ =
    if size_ v <=? capacity_ (data_ v)
    then Ok (ptr_add (buffer_ (data_ v)) (size_ v)) σ
    else Fault AssertionFailed.
Proof.
  intros Hv.
  unfold Vector_end, RawMemory_plus, get_size, get_capacity, get_buffer,
    get_raw, bind, ret, assert.
  repeat (rewrite Hv; cbv beta iota).
  destruct (size_ v <=? capacity_ (data_ v)); cbv beta iota; [|done].
  by repeat (rewrite Hv; cbv beta iota).
Qed.

Lemma Vector_index_eq σ this v index :
  vecs σ !! this = Some v →
  Vector_index this index σ =
    if (index <? size_ v) && (index <? capacity_ (data_ v))
    then Ok (ptr_add (buffer_ (data_ v)) index) σ
    else Fault AssertionFailed.
Proof.
  intros Hv.
  unfold Vector_index, RawMemory_index, get_size, get_capacity, get_buffer,
    get_raw, bind, ret, assert.
  repeat (rewrite Hv; cbv beta iota).
  destruct (index <? size_ v); cbv beta iota; [|done].
  repeat (rewrite Hv; cbv beta iota).
  destruct (index <? capacity_ (data_ v)); cbv beta iota; [|done].
  by repeat (rewrite Hv; cbv beta iota).
Qed.

(** A block allocated after a vector was built does not change what the
    vector holds. *)
Lemma vec_repr_alloc h v elems a b :
  h !! a = None → vec_repr h v elems → vec_repr (<[a := b]> h) v elems.
Proof.
  intros Ha (Hs & Hc & Hoff & Hblk). unfold vec_repr.
  split; [done|]. split; [done|]. split; [done|].
  revert Hblk. destruct (p_blk (buffer_ (data_ v))) as [a0|]; [|done].
  intros [Hpos Ha0]. split; [done|].
  rewrite lookup_insert_ne by congruence. done.
Qed.

(** Copy assignment from a vector that holds more elements than the
    capacity allows: the elements are copied into a new block of exactly as
    many slots, which becomes the storage of the vector, and the old
    elements and block are released.  When the allocation or a copy throws,
    nothing has changed. *)
Lemma Vector_copy_assign_renews σ this rhs v w elems welems :
  this ≠ rhs →
  vecs σ !! this = Some v → vecs σ !! rhs = Some w →
  vec_repr (heap (mem σ)) v elems →
  vec_repr (heap (mem σ)) w welems →
  capacity_ (data_ v) < size_ w →
  wp (Vector_copy_assign this rhs)
     (λ _ σ', ∃ v',
        raws σ' = raws σ ∧
        vecs σ' = <[this := v']> (vecs σ) ∧
        size_ v' = size_ w ∧
        capacity_ (data_ v') = size_ w ∧
        storage_renewed (heap (mem σ)) v welems v' (heap (mem σ')) ∧
        no_new_fault σ σ')
     (λ σ', fuse (mem σ) ≠ None ∧ unchanged σ σ')
     False σ.
Proof.
  intros Hne Hv Hw Hrepr Hwrepr Hbig.
  pose proof Hrepr as (Hs & Hc & Hoff & Hblk).
  unfold Vector_copy_assign. rewrite bool_decide_eq_true_2 by done.
  unfold Size, Capacity, RawMemory_Capacity, get_capacity.
  apply wp_bind. eapply wp_get_size; [done|].
  apply wp_bind, wp_bind. eapply wp_get_raw_vec; [done|]. apply wp_ret.
  destruct (Z.ltb_spec (capacity_ (data_ v)) (size_ w)) as [_|?]; [|lia].
  apply wp_bind.
  eapply wp_mono; [by apply (Vector_copy_ctor_spec σ rhs w welems)| | |done].
  2:{ intros σ' [Hf Hsame]. done. }
  intros copy σ1 (v1 & Hcopy & Hraws & Hvecs & Hsize & Hcap & Hst & Hf).
  destruct (Z.eqb_spec (size_ w) 0) as [?|_]; [lia|].
  destruct Hst as (a' & Ha' & Hbuf & Hh1).
  assert (copy ≠ this) by congruence.
  destruct σ as [r vs [h f]], σ1 as [r1 vs1 [h1 f1]]; unfold no_new_fault in *;
    cbn [raws vecs mem heap fuse released p_blk nullptr] in *.
  subst r1 vs1.
  apply wp_finally.
  eapply wp_Swap; [done|solve_lookup|solve_lookup|].
  cbn [raws vecs mem heap fuse].
  eapply wp_vec_cleanup; [solve_lookup| |].
  { cbn [raws vecs mem heap fuse]. rewrite Hh1. by apply vec_repr_alloc. }
  cbn [raws vecs mem heap fuse].
  exists v1. split_and!; try done.
  - apply map_eq. intros k.
    destruct (decide (k = copy)) as [->|]; [|destruct (decide (k = this)) as [->|]];
      by simplify_map_eq.
  - exists a'. split_and!; try done.
    rewrite Hh1. unfold released.
    revert Hblk. destruct (p_blk (buffer_ (data_ v))) as [a|]; [|done].
    intros [_ Ha]. rewrite delete_insert_ne by congruence. done.
Qed.

(** Copy assignment within the capacity, from a vector that holds no more
    elements than this one, or into an empty vector: the vector holds
    copies of the elements of the source, in place.  When a copy throws
    and the vector was empty, nothing has changed; when it throws while the
    vector shrinks, the size is still the old one although the elements
    beyond the size of the source are destroyed. *)
Lemma Vector_copy_assign_keeps σ this rhs v w elems welems :
  this ≠ rhs →
  vecs σ !! this = Some v → vecs σ !! rhs = Some w →
  vec_repr (heap (mem σ)) v elems →
  vec_repr (heap (mem σ)) w welems →
  (∀ a, p_blk (buffer_ (data_ v)) = Some a → p_blk (buffer_ (data_ w)) ≠ Some a) →
  size_ w ≤ capacity_ (data_ v) →
  size_ w ≤ size_ v ∨ size_ v = 0 →
  wp (Vector_copy_assign this rhs)
     (λ _ σ', ∃ v',
        raws σ' = raws σ ∧
        vecs σ' = <[this := v']> (vecs σ) ∧
        size_ v' = size_ w ∧
        storage_kept (heap (mem σ)) v welems v' (heap (mem σ')) ∧
        no_new_fault σ σ')
     (λ σ', fuse (mem σ) ≠ None ∧
        (size_ v = 0 → unchanged σ σ') ∧
        (size_ w < size_ v →
         raws σ' = raws σ ∧ vecs σ' = vecs σ ∧
         slot_at (heap (mem σ')) (ptr_add (buffer_ (data_ v)) (size_ w))
           = Some None))
     False σ.
Proof.
  intros Hne Hv Hw Hrepr Hwrepr Hdisj Hfit Hcase.
  unfold Vector_copy_assign. rewrite bool_decide_eq_true_2 by done.
  destruct σ as [r vs [h f]], v as [[[va vo] c] ts], w as [[[wa wo] wc] rs].
  unfold vec_repr, no_new_fault, unchanged, storage_kept, stored in *.
  cbn [raws vecs mem heap fuse data_ size_ buffer_ capacity_ p_blk p_off] in *.
  destruct Hrepr as (Hts & Hc & -> & Hblk).
  destruct Hwrepr as (Hrs & Hwc & -> & Hwblk).
  wp_steps.
  destruct (Z.ltb_spec c rs) as [?|_]; [lia|].
  unfold CopyWithOldCopacity. wp_steps.
  destruct (Z.ltb_spec rs ts) as [Hlt|Hge].
  - (* the vector shrinks *)
    destruct va as [a|]; [|lia]. destruct Hblk as [Hpos Ha].
    wp_steps. wp_assert_lia. wp_steps.
    rewrite wrap_slots by lia.
    eapply wp_destroy_n; [solve_lookup|lia| |].
    { intros i Hi. destruct (lookup_lt_is_Some_2 elems i) as [y Hy]; [lia|].
      exists y. by apply lookup_blk_of_elem. }
    replace (Z.to_nat (ts - rs)) with (length elems - Z.to_nat rs)%nat by lia.
    rewrite blk_of_destroy_tail by lia.
    wp_steps. wp_assert_lia. wp_steps.
    destruct (decide (rs = 0)) as [->|Hrs0].
    + apply wp_std_copy_0. wp_steps.
      destruct welems; [|simpl in Hrs; lia].
      eexists. split_and!; try done.
    + destruct wa as [b|]; [|lia]. destruct Hwblk as [Hwpos Hb].
      assert (b ≠ a) as Hba by (intros ->; by eapply Hdisj).
      eapply (wp_std_copy _ _ _ _ _ b _ a _ welems);
        [done|solve_lookup|solve_lookup|done|..].
      { intros i y Hy. by apply lookup_blk_of_elem. }
      { intros i Hi.
        destruct (lookup_lt_is_Some_2 (take (Z.to_nat rs) elems) i) as [y Hy].
        { rewrite length_take. lia. }
        exists y. by apply lookup_blk_of_elem. }
      * intros f1 Hf1. wp_steps. eexists.
        split; [done|]. split; [done|].
        cbn [data_ size_ buffer_ capacity_]. split_and!; try done.
        rewrite insert_insert_eq. f_equal.
        rewrite blk_of_assign_front by (rewrite ?length_take; lia).
        rewrite drop_ge by (rewrite length_take; lia). by rewrite app_nil_r.
      * intros Hf k Hk. split; [done|]. split; [lia|]. intros _.
        split; [done|]. split; [done|].
        cbn [heap ptr_add p_blk p_off].
        rewrite (slot_at_block _ a _ _ (lookup_insert_eq _ _ _)) by lia.
        rewrite ?Z.add_0_l.
        rewrite list_lookup_inserts_ge
          by (rewrite length_fmap, length_take; lia).
        apply lookup_blk_of_free. rewrite length_take. lia.
  - (* the vector keeps its size, or was empty *)
    wp_steps. wp_assert_lia. wp_steps.
    destruct (decide (ts = 0)) as [->|Hts0].
    + (* it was empty *)
      destruct elems; [|simpl in Hts; lia].
      rewrite Z.sub_0_r, wrap_slots by lia.
      destruct (decide (rs = 0)) as [->|Hrs0].
      * apply wp_uninitialized_copy_n_0; [done|]. wp_steps.
        wp_assert_lia. wp_steps.
        apply wp_std_copy_0. wp_steps.
        destruct welems; [|simpl in Hrs; lia].
        eexists. split; [done|]. split; [done|].
        cbn [data_ size_ buffer_ capacity_]. split_and!; try done.
        destruct va as [a|]; [|done]. destruct Hblk as [Hpos Ha].
        by rewrite insert_id.
      * destruct va as [a|]; [|lia]. destruct Hblk as [Hpos Ha].
        destruct wa as [b|]; [|lia]. destruct Hwblk as [Hwpos Hb].
        assert (b ≠ a) as Hba by (intros ->; by eapply Hdisj).
        eapply (wp_uninitialized_copy_n _ _ _ _ _ b 0 _ a 0 _ welems);
          [done|solve_lookup|solve_lookup|lia|lia|..].
        { lia. }
        { intros i y Hy. by apply lookup_blk_of_elem. }
        { intros i Hi. apply lookup_blk_of_free. simpl. lia. }
        -- intros f1 Hf1. wp_steps. wp_assert_lia. wp_steps.
           apply wp_std_copy_0. wp_steps.
           eexists. split; [done|]. split; [done|].
           cbn [data_ size_ buffer_ capacity_]. split_and!; try done.
           f_equal. rewrite blk_of_nil. change (Z.to_nat 0) with O.
           apply relocated_block. lia.
        -- intros Hf. split; [done|]. split; [done|]. lia.
    + (* it keeps its size *)
      assert (rs = ts) as -> by lia.
      destruct va as [a|]; [|lia]. destruct Hblk as [Hpos Ha].
      destruct wa as [b|]; [|lia]. destruct Hwblk as [Hwpos Hb].
      assert (b ≠ a) as Hba by (intros ->; by eapply Hdisj).
      rewrite Z.sub_diag.
      apply wp_uninitialized_copy_n_0; [done|]. wp_steps.
      wp_assert_lia. wp_steps.
      eapply (wp_std_copy _ _ _ _ _ b _ a _ welems);
        [done|solve_lookup|solve_lookup|done|..].
      { intros i y Hy. by apply lookup_blk_of_elem. }
      { intros i Hi.
        destruct (lookup_lt_is_Some_2 elems i) as [y Hy]; [lia|].
        exists y. by apply lookup_blk_of_elem. }
      * intros f1 Hf1. wp_steps. eexists.
        split; [done|]. split; [done|].
        cbn [data_ size_ buffer_ capacity_]. split_and!; try done.
        f_equal.
        rewrite blk_of_assign_front by lia.
        rewrite drop_ge by lia. by rewrite app_nil_r.
      * intros Hf k Hk. split; [done|]. split; lia.
Qed.

(** An operation on one vector does not disturb another vector whose block
    is not the block of the first. *)
Lemma storage_kept_other h v elems' v' h' w welems :
  storage_kept h v elems' v' h' →
  (∀ a, p_blk (buffer_ (data_ v)) = Some a → p_blk (buffer_ (data_ w)) ≠ Some a) →
  vec_repr h w welems → vec_repr h' w welems.
Proof.
  intros [_ ->] Hdisj (Hs & Hc & Hoff & Hblk). unfold vec_repr, stored.
  split; [done|]. split; [done|]. split; [done|].
  revert Hblk. destruct (p_blk (buffer_ (data_ w))) as [b|]; [|done].
  intros [Hpos Hb]. split; [done|].
  destruct (p_blk (buffer_ (data_ v))) as [a|]; [|done].
  rewrite lookup_insert_ne; [done|]. intros ->. by eapply Hdisj.
Qed.

Lemma storage_renewed_other h v elems' v' h' w welems :
  storage_renewed h v elems' v' h' →
  (∀ a, p_blk (buffer_ (data_ v)) = Some a → p_blk (buffer_ (data_ w)) ≠ Some a) →
  vec_repr h w welems → vec_repr h' w welems.
Proof.
  intros (a' & Ha' & _ & ->) Hdisj (Hs & Hc & Hoff & Hblk).
  unfold vec_repr, released.
  split; [done|]. split; [done|]. split; [done|].
  revert Hblk. destruct (p_blk (buffer_ (data_ w))) as [b|]; [|done].
  intros [Hpos Hb]. split; [done|].
  rewrite lookup_insert_ne by congruence.
  destruct (p_blk (buffer_ (data_ v))) as [a|]; [|done].
  rewrite lookup_delete_ne; [done|]. intros ->. by eapply Hdisj.
Qed.

End assignment.

(** * Further properties of the two classes *)

Section raw_memory_properties.
Context {T : Type} `{!Element T}.
Implicit Types (σ : state (T:=T)) (μ : memory (T:=T)).
Implicit Types (this l : loc) (v w : Vector) (x : RawMemory).

(** X1. [RawMemory(n)] records the capacity [n].  It asks for no memory
    when [n] is 0 and holds a null buffer; for [n > 0] it asks [operator
    new] for [n * sizeof(T)] bytes, a product computed in [size_t], and
    holds a block that did not exist before, no other block changing.
    When the product does not wrap around the block has exactly [n]
    uninitialized slots; when it does, the block has fewer slots than the
    capacity it records.  It throws only when the allocation fails, and
    then the heap is as before. *)
Theorem RawMemory_ctor_allocates μ n :
  0 ≤ n →
  wp (RawMemory_ctor n)
     (λ x μ',
        capacity_ x = n ∧
        (fuse μ = None → fuse μ' = None) ∧
        if n =? 0 then x = RawMemory_default ∧ heap μ' = heap μ
        else
          wrap (n * sizeof_T) ≤ PTRDIFF_MAX ∧
          ∃ a (slots : nat),
            buffer_ x = Ptr (Some a) 0 ∧ heap μ !! a = None ∧
            heap μ' = <[a := replicate slots None]> (heap μ) ∧
            Z.of_nat slots = wrap (n * sizeof_T) / sizeof_T ∧
            (n * sizeof_T < SIZE_MODULUS → Z.of_nat slots = n ∧ n ≤ max_slots) ∧
            (SIZE_MODULUS ≤ n * sizeof_T → Z.of_nat slots < n))
     (λ μ', (fuse μ ≠ None ∨ PTRDIFF_MAX < wrap (n * sizeof_T)) ∧
            n ≠ 0 ∧ heap μ' = heap μ)
     False μ.
Proof.
  intros Hn. destruct μ as [h f]. unfold RawMemory_ctor, Allocate.
  cbn [heap fuse]. pose proof sizeof_T_bounds as [Hsz _].
  destruct (Z.eqb_spec n 0) as [->|Hnz]; cbn [negb].
  - apply wp_bind, wp_ret, wp_ret. done.
  - assert (0 ≤ wrap (n * sizeof_T) < SIZE_MODULUS) as Hwrap.
    { unfold wrap. apply Z.mod_pos_bound. done. }
    assert (0 ≤ wrap (n * sizeof_T) / sizeof_T) as Hslots
      by (apply Z.div_pos; lia).
    apply wp_bind, wp_operator_new_bytes.
    + intros a f' Ha Hmax Hf. apply wp_ret. cbn [heap fuse capacity_ buffer_].
      split_and!; try done.
      exists a, (Z.to_nat (wrap (n * sizeof_T) / sizeof_T)).
      split_and!; try done.
      * lia.
      * intros Hfit. rewrite Z2Nat.id by done.
        rewrite wrap_small in * by lia.
        rewrite Z.div_mul by lia. split; [done|].
        by apply max_slots_bytes.
      * intros Hover. rewrite Z2Nat.id by done.
        apply Z.div_lt_upper_bound; lia.
    + intros Hthrow f'. cbn [heap fuse]. split_and!; try done.
Qed.

(** X2. The move constructor of [RawMemory] gives the new object the buffer
    and the capacity of its source and leaves the source empty, without
    touching the memory; the destructor of the source then releases
    nothing, so the block is not released twice. *)
Theorem RawMemory_move_ctor_empties_source σ (rhs : raw_ref) x :
  get_raw rhs σ = Ok x σ →
  ∃ σ', RawMemory_move_ctor rhs σ = Ok x σ' ∧
        get_raw rhs σ' = Ok RawMemory_default σ' ∧
        mem σ' = mem σ ∧
        RawMemory_dtor rhs σ' = Ok tt σ'.
Proof.
  intros Hx.
  assert (wp (RawMemory_move_ctor rhs)
            (λ y σ', y = x ∧ get_raw rhs σ' = Ok RawMemory_default σ' ∧
                     mem σ' = mem σ ∧ RawMemory_dtor rhs σ' = Ok tt σ')
            (λ _, False) False σ) as Hwp.
  { destruct σ as [r vs μ], x as [p c]. unfold RawMemory_move_ctor.
    destruct rhs as [l|l]; unfold get_raw in Hx; cbn [raws vecs mem] in Hx.
    - destruct (r !! l) as [y|] eqn:Hl; [|done]. simplify_eq.
      wp_steps. split; [done|].
      unfold RawMemory_dtor, get_buffer, get_raw, bind, ret.
      cbn [raws vecs mem]. rewrite !lookup_insert_eq. done.
    - destruct (vs !! l) as [[[? ?] ?]|] eqn:Hl; [|done].
      cbn [data_] in *. simplify_eq.
      wp_steps. split; [done|].
      unfold RawMemory_dtor, get_buffer, get_raw, bind, ret.
      cbn [raws vecs mem]. rewrite !lookup_insert_eq. done. }
  apply wp_returns in Hwp as (y & σ' & Hrun & -> & Hpost). eauto.
Qed.

End raw_memory_properties.

Section lifetime_properties.
Context {T : Type} `{!Element T}.
Implicit Types (σ : state (T:=T)) (μ : memory (T:=T)).
Implicit Types (this l : loc) (v w : Vector) (x : T).
Implicit Types (elems : list T).

(** X3. [Vector(n)], for [n] whose byte count [n * sizeof(T)] does not
    wrap around, makes a new vector of [n] value-initialized elements
    whose capacity is exactly [n], with no block at all when [n] is 0; no
    existing object or block changes.  It throws only when the allocation
    or a constructor fails, and then the block is released: every object
    and the heap are as before. *)
Theorem Vector_ctor_size_value_initializes σ n :
  0 ≤ n →
  n * sizeof_T < SIZE_MODULUS →
  wp (Vector_ctor_size n)
     (λ this σ', ∃ v',
        vecs σ !! this = None ∧
        raws σ' = raws σ ∧ vecs σ' = <[this := v']> (vecs σ) ∧
        size_ v' = n ∧ capacity_ (data_ v') = n ∧
        vec_repr (heap (mem σ')) v' (replicate (Z.to_nat n) value_init) ∧
        (∀ a, is_Some (heap (mem σ) !! a) →
              heap (mem σ') !! a = heap (mem σ) !! a) ∧
        (n = 0 → v' = Vector_default ∧ heap (mem σ') = heap (mem σ)))
     (λ σ', (fuse (mem σ) ≠ None ∨ max_slots < n) ∧ unchanged σ σ')
     False σ.
Proof.
  intros Hn Hbytes.
  eapply wp_mono; [by apply Vector_ctor_size_spec| | |done]; [|done].
  intros this σ' (v' & Hthis & Hraws & Hvecs & Hsize & Hcap & Hmax & Hst & Hf).
  exists v'. split_and!; try done.
  - destruct (Z.eqb_spec n 0) as [->|Hnz].
    + destruct Hst as [-> Hh]. apply vec_repr_default.
    + eapply storage_renewed_repr; [done|..].
      * rewrite length_replicate. lia.
      * lia.
      * lia.
  - intros a [b Hb]. destruct (Z.eqb_spec n 0) as [->|Hnz].
    + destruct Hst as [_ ->]. done.
    + destruct Hst as (a' & Ha' & _ & ->). cbn [released p_blk nullptr].
      rewrite lookup_insert_ne by congruence. done.
  - intros ->. done.
Qed.

(** X4. The copy constructor makes a new vector that holds copies of the
    elements of its source, in the same order, with a capacity that is
    exactly the size of the source; the source and every other block are
    untouched.  It throws only when the allocation or a copy fails, and
    then the block is released and nothing of the new vector is left:
    every object and the heap are as before. *)
Theorem Vector_copy_ctor_copies σ other w elems :
  vecs σ !! other = Some w →
  vec_repr (heap (mem σ)) w elems →
  wp (Vector_copy_ctor other)
     (λ this σ', ∃ v',
        vecs σ !! this = None ∧
        raws σ' = raws σ ∧ vecs σ' = <[this := v']> (vecs σ) ∧
        size_ v' = size_ w ∧ capacity_ (data_ v') = size_ w ∧
        vec_repr (heap (mem σ')) v' elems ∧
        vec_repr (heap (mem σ')) w elems ∧
        (∀ a, is_Some (heap (mem σ) !! a) →
              heap (mem σ') !! a = heap (mem σ) !! a))
     (λ σ', fuse (mem σ) ≠ None ∧ unchanged σ σ')
     False σ.
Proof.
  intros Hw Hrepr. pose proof Hrepr as (Hs & Hc & _).
  eapply wp_mono; [by apply (Vector_copy_ctor_spec σ other w elems)| | |done];
    [|done].
  intros this σ' (v' & Hthis & Hraws & Hvecs & Hsize & Hcap & Hst & Hf).
  exists v'.
  assert (∀ a, is_Some (heap (mem σ) !! a) →
               heap (mem σ') !! a = heap (mem σ) !! a) as Hsame.
  { intros a [b Hb]. destruct (Z.eqb_spec (size_ w) 0) as [Hz|Hnz].
    - destruct Hst as [_ ->]. done.
    - destruct Hst as (a' & Ha' & _ & ->). cbn [released p_blk nullptr].
      rewrite lookup_insert_ne by congruence. done. }
  split_and!; try done.
  - destruct (Z.eqb_spec (size_ w) 0) as [Hz|Hnz].
    + destruct Hst as [-> Hh].
      destruct elems; [apply vec_repr_default | simpl in Hs; lia].
    + eapply storage_renewed_repr; [done|lia|lia|lia].
  - destruct Hrepr as (? & ? & ? & Hblk). unfold vec_repr.
    split; [done|]. split; [done|]. split; [done|].
    revert Hblk. destruct (p_blk (buffer_ (data_ w))) as [a|]; [|done].
    intros [Hpos Ha]. split; [done|].
    rewrite Hsame by done. done.
Qed.

(** X5. The move constructor gives the new vector the buffer, the capacity
    and the size of its source and leaves the source an empty vector with
    no buffer; no other object changes, no element is touched, the memory
    is as before, and nothing can throw, whatever faults are scheduled. *)
Theorem Vector_move_ctor_takes_over σ other w :
  vecs σ !! other = Some w →
  ∃ this σ',
    Vector_move_ctor other σ = Ok this σ' ∧
    vecs σ !! this = None ∧
    vecs σ' !! this = Some w ∧
    vecs σ' !! other = Some Vector_default ∧
    (∀ l, l ≠ this → l ≠ other → vecs σ' !! l = vecs σ !! l) ∧
    raws σ' = raws σ ∧
    mem σ' = mem σ.
Proof.
  intros Hw.
  pose proof (Vector_move_ctor_spec σ other w Hw) as Hwp.
  apply wp_returns in Hwp as (this & σ' & Hrun & Hthis & ->).
  assert (this ≠ other) by congruence.
  exists this. eexists. split; [done|]. cbn [raws vecs mem].
  split_and!; try done.
  - by simplify_map_eq.
  - by simplify_map_eq.
  - intros l ? ?. by simplify_map_eq.
Qed.




(** X7. A temporary copy of a vector leaves no trace: copy construction
    followed by the destruction of the copy, or a copy construction that
    throws, ends with every object and the heap as before. *)
Theorem temporary_copy_leaves_no_trace σ other w elems :
  vecs σ !! other = Some w →
  vec_repr (heap (mem σ)) w elems →
  wp (bind (Vector_copy_ctor other)
        (λ copy, bind (Vector_dtor copy) (λ _, end_vec copy)))
     (λ _ σ', unchanged σ σ' ∧ no_new_fault σ σ')
     (λ σ', fuse (mem σ) ≠ None ∧ unchanged σ σ')
     False σ.
Proof.
  intros Hw Hrepr. pose proof Hrepr as (Hs & Hc & _).
  apply wp_bind.
  eapply wp_mono; [by apply (Vector_copy_ctor_spec σ other w elems)| | |done];
    [|done].
  intros this σ' (v' & Hthis & Hraws & Hvecs & Hsize & Hcap & Hst & Hf).
  destruct σ as [r vs [h f]], σ' as [r' vs' [h' f']].
  unfold unchanged, no_new_fault in *. cbn [raws vecs mem heap fuse] in *.
  subst r' vs'.
  destruct (Z.eqb_spec (size_ w) 0) as [Hz|Hnz].
  - destruct Hst as [-> ->].
    eapply (wp_vec_cleanup _ _ _ _ _ _ []);
      [solve_lookup|apply vec_repr_default|].
    cbn [raws vecs mem heap fuse released Vector_default RawMemory_default
         data_ buffer_ nullptr p_blk].
    by rewrite delete_insert_id.
  - assert (vec_repr h' v' elems) as Hrepr'.
    { apply (storage_renewed_repr _ _ _ _ _ Hst); lia. }
    destruct Hst as (a' & Ha' & Hbuf & ->). cbn [released nullptr p_blk] in *.
    eapply wp_vec_cleanup; [solve_lookup|done|].
    cbn [raws vecs mem heap fuse]. unfold released. rewrite Hbuf.
    cbn [p_blk]. by rewrite !delete_insert_id.
Qed.

End lifetime_properties.

Section access_properties.
Context {T : Type} `{!Element T}.
Implicit Types (σ : state (T:=T)) (μ : memory (T:=T)).
Implicit Types (this l : loc) (v w : Vector) (x : T).
Implicit Types (elems : list T).

Lemma lift_load_elem σ v elems i x :
  vec_repr (heap (mem σ)) v elems → elems !! i = Some x →
  lift (load (ptr_add (buffer_ (data_ v)) (Z.of_nat i))) σ = Ok x σ.
Proof.
  intros Hrepr Hx. unfold lift, load.
  rewrite (vec_repr_slot _ _ _ _ _ Hrepr Hx). by destruct σ as [r vs [h f]].
Qed.

(** X8. [operator[]] checks the index against the size: for an index
    below the size it returns the address of that element, and reading it
    gives the element; for any other index the assertion fails, also when
    the index is within the capacity. *)
Theorem Vector_index_is_checked σ this v elems index :
  vecs σ !! this = Some v →
  vec_repr (heap (mem σ)) v elems →
  0 ≤ index →
  (index < size_ v →
   ∃ x, elems !! Z.to_nat index = Some x ∧
        Vector_index this index σ = Ok (ptr_add (buffer_ (data_ v)) index) σ ∧
        bind (Vector_index this index) (λ p, lift (load p)) σ = Ok x σ) ∧
  (size_ v ≤ index → Vector_index this index σ = Fault AssertionFailed).
Proof.
  intros Hv Hrepr Hindex. pose proof Hrepr as (Hs & Hc & _).
  rewrite (Vector_index_eq σ this v index Hv).
  split.
  - intros Hlt.
    destruct (lookup_lt_is_Some_2 elems (Z.to_nat index)) as [x Hx]; [lia|].
    exists x. split; [done|].
    destruct (Z.ltb_spec index (size_ v)); [|lia].
    destruct (Z.ltb_spec index (capacity_ (data_ v))); [|lia].
    split; [done|]. unfold bind.
    rewrite (Vector_index_eq σ this v index Hv).
    destruct (Z.ltb_spec index (size_ v)); [|lia].
    destruct (Z.ltb_spec index (capacity_ (data_ v))); [|lia].
    cbn [andb]. rewrite <-(Z2Nat.id index) at 1 by done.
    by eapply lift_load_elem.
  - intros Hge. by destruct (Z.ltb_spec index (size_ v)); [lia|].
Qed.

(** X9. [begin()] and [end()] delimit the elements: [end()] is [begin()]
    plus the size, reading [begin() + i] gives the element [i] for every
    [i] below the size, and reading [*end()] is undefined, whether the
    vector is full or not. *)
Theorem begin_end_delimit_elements σ this v elems :
  vecs σ !! this = Some v →
  vec_repr (heap (mem σ)) v elems →
  Vector_begin this σ = Ok (buffer_ (data_ v)) σ ∧
  Vector_end this σ = Ok (ptr_add (buffer_ (data_ v)) (size_ v)) σ ∧
  Size this σ = Ok (Z.of_nat (length elems)) σ ∧
  (∀ i x, elems !! i = Some x →
     lift (load (ptr_add (buffer_ (data_ v)) (Z.of_nat i))) σ = Ok x σ) ∧
  lift (load (ptr_add (buffer_ (data_ v)) (size_ v))) σ = Fault Undefined.
Proof.
  intros Hv Hrepr. pose proof Hrepr as (Hs & Hc & Hoff & Hblk).
  split_and!.
  - by apply Vector_begin_eq.
  - rewrite (Vector_end_eq σ this v Hv).
    by destruct (Z.leb_spec (size_ v) (capacity_ (data_ v))); [|lia].
  - unfold Size, get_size. by rewrite Hv, Hs.
  - intros i x Hx. by eapply lift_load_elem.
  - unfold lift, load, slot_at, ptr_add. cbn [p_blk p_off].
    destruct (p_blk (buffer_ (data_ v))) as [a|]; [|done].
    destruct Hblk as [Hpos ->]. rewrite Hoff, Z.add_0_l.
    destruct (Z.leb_spec 0 (size_ v)); [|done].
    rewrite lookup_blk_of. rewrite Hs, Nat2Z.id.
    repeat case_decide; try lia; done.
Qed.

End access_properties.

Section mutator_properties.
Context {T : Type} `{!Element T}.
Implicit Types (σ : state (T:=T)) (μ : memory (T:=T)).
Implicit Types (this l : loc) (v w : Vector) (x : T).
Implicit Types (elems : list T).

(** X10. [Reserve(n)] never changes the elements or the size.  Within the
    capacity it does nothing at all.  Beyond the capacity, for [n] whose
    byte count [n * sizeof(T)] does not wrap around, it relocates the
    elements into a new block of exactly [n] slots and releases the old
    block, no other block changing; it throws only when the allocation or a
    relocation fails, and then every object and the heap are as before,
    provided [T] is copy-constructible or nothrow-move-constructible. *)
Theorem Reserve_keeps_elements σ this v elems n :
  vecs σ !! this = Some v →
  vec_repr (heap (mem σ)) v elems →
  (n ≤ capacity_ (data_ v) → Reserve this n σ = Ok tt σ) ∧
  (capacity_ (data_ v) < n →
   n * sizeof_T < SIZE_MODULUS →
   wp (Reserve this n)
      (λ _ σ', ∃ v',
         raws σ' = raws σ ∧
         vecs σ' = <[this := v']> (vecs σ) ∧
         size_ v' = size_ v ∧
         capacity_ (data_ v') = n ∧
         vec_repr (heap (mem σ')) v' elems ∧
         storage_renewed (heap (mem σ)) v elems v' (heap (mem σ')))
      (λ σ', (fuse (mem σ) ≠ None ∨ max_slots < n) ∧
         (nothrow_move_constructible || copy_constructible = true →
          unchanged σ σ'))
      False σ).
Proof.
  intros Hv Hrepr. pose proof Hrepr as (Hs & Hc & _). split.
  - by apply Reserve_within_capacity.
  - intros Hn Hbytes.
    eapply wp_mono; [by apply (Reserve_spec_storage σ this v elems n)| | |done];
      [|done].
    intros [] σ' (v' & Hraws & Hvecs & Hcap & Hsize & Hmax & Hst & Hf).
    exists v'. split_and!; try done.
    eapply storage_renewed_repr; [done|lia|lia|lia].
Qed.

(** X11. [Resize(n)], for [n] whose byte count [n * sizeof(T)] does not
    wrap around, makes the size [n]: the vector keeps its first [n]
    elements, and when [n] is beyond its size it holds its elements
    followed by value-initialized ones.  The storage is kept when [n] is
    within the capacity and renewed, with a capacity of exactly [n],
    otherwise.  It throws only when it has to grow; the vector then still
    holds exactly its former elements, provided [T] is copy-constructible
    or nothrow-move-constructible. *)
Theorem Resize_sets_size σ this v elems n :
  vecs σ !! this = Some v →
  vec_repr (heap (mem σ)) v elems →
  0 ≤ n →
  n * sizeof_T < SIZE_MODULUS →
  let elems' := take (Z.to_nat n) elems
                ++ replicate (Z.to_nat n - length elems) value_init in
  wp (Resize this n)
     (λ _ σ', ∃ v',
        raws σ' = raws σ ∧
        vecs σ' = <[this := v']> (vecs σ) ∧
        size_ v' = n ∧
        vec_repr (heap (mem σ')) v' elems' ∧
        capacity_ (data_ v') = Z.max n (capacity_ (data_ v)) ∧
        (if n <=? capacity_ (data_ v)
         then storage_kept (heap (mem σ)) v elems' v' (heap (mem σ'))
         else storage_renewed (heap (mem σ)) v elems' v' (heap (mem σ'))))
     (λ σ', (fuse (mem σ) ≠ None ∨ max_slots < n) ∧
        size_ v < n ∧
        (nothrow_move_constructible || copy_constructible = true →
         raws σ' = raws σ ∧
         ∃ v', vecs σ' = <[this := v']> (vecs σ) ∧
               size_ v' = size_ v ∧
               vec_repr (heap (mem σ')) v' elems))
     False σ.
Proof.
  intros Hv Hrepr Hn Hbytes elems'. pose proof Hrepr as (Hs & Hc & _).
  eapply wp_mono; [by apply (Resize_spec σ this v elems n)| | |done];
    [|done].
  intros [] σ' (v' & Hraws & Hvecs & Hsize & Hst & Hf).
  fold elems' in Hst.
  assert (length elems' = Z.to_nat n) as Hlen.
  { unfold elems'. rewrite length_app, length_take, length_replicate. lia. }
  exists v'. split_and!; try done.
  - destruct (Z.leb_spec n (capacity_ (data_ v))).
    + eapply storage_kept_repr; [done..|lia|].
      destruct Hst as [-> _]. lia.
    + destruct Hst as (Hcap & Hmax & Hst).
      eapply storage_renewed_repr; [done|lia|lia|lia].
  - destruct (Z.leb_spec n (capacity_ (data_ v))).
    + destruct Hst as [-> _]. lia.
    + destruct Hst as (Hcap & _). lia.
  - destruct (Z.leb_spec n (capacity_ (data_ v))); [done|tauto].
Qed.

(** X12. [PopBack] on an empty vector does nothing: the size does not wrap
    around.  On any other vector it destroys the last element in place:
    the buffer and the capacity are the same, the other elements are
    untouched and the slot of the last element is uninitialized again.  It
    cannot throw, whatever faults are scheduled. *)
Theorem PopBack_removes_last σ this v elems :
  vecs σ !! this = Some v →
  vec_repr (heap (mem σ)) v elems →
  (size_ v = 0 → PopBack this σ = Ok tt σ) ∧
  (0 < size_ v →
   ∃ σ' v',
     PopBack this σ = Ok tt σ' ∧
     raws σ' = raws σ ∧
     vecs σ' = <[this := v']> (vecs σ) ∧
     fuse (mem σ') = fuse (mem σ) ∧
     data_ v' = data_ v ∧
     size_ v' = size_ v - 1 ∧
     vec_repr (heap (mem σ')) v' (take (length elems - 1) elems) ∧
     storage_kept (heap (mem σ)) v (take (length elems - 1) elems) v'
       (heap (mem σ')) ∧
     slot_at (heap (mem σ')) (ptr_add (buffer_ (data_ v)) (size_ v - 1))
       = Some None).
Proof.
  intros Hv Hrepr. pose proof Hrepr as (Hs & Hc & _).
  pose proof (PopBack_spec σ this v elems Hv Hrepr) as Hwp.
  apply wp_returns in Hwp as ([] & σ' & Hrun & Hpost).
  split.
  - intros Hz. rewrite Hz in Hpost. cbn in Hpost. by subst.
  - intros Hpos. destruct (Z.eqb_spec (size_ v) 0) as [?|_]; [lia|].
    subst σ'. eexists _, _. split; [done|].
    cbn [raws vecs mem heap fuse data_ size_].
    assert (vec_repr
      (stored (heap (mem σ)) (buffer_ (data_ v))
         (blk_of (take (length elems - 1) elems)
            (Z.to_nat (capacity_ (data_ v)))))
      {| data_ := data_ v; size_ := size_ v - 1 |}
      (take (length elems - 1) elems)) as Hrepr'.
    { eapply storage_kept_repr; [done|by split|..];
        cbn [data_ size_]; rewrite ?length_take; lia. }
    split_and!; try done.
    apply (vec_repr_free_slot _ {| data_ := data_ v; size_ := size_ v - 1 |}
             _ _ Hrepr').
    cbn [data_ size_]. lia.
Qed.

(** X13. [Swap] exchanges the two vector objects, buffers, capacities and
    sizes, without touching any element or block; the move assignment
    between two distinct vectors does exactly the same; swapping twice
    restores the state, and swapping a vector with itself changes
    nothing. *)
Theorem Swap_exchanges σ this other v w :
  this ≠ other →
  vecs σ !! this = Some v →
  vecs σ !! other = Some w →
  let σ' := State (raws σ) (<[other := v]> (<[this := w]> (vecs σ))) (mem σ) in
  Swap this other σ = Ok tt σ' ∧
  Vector_move_assign this other σ = Ok tt σ' ∧
  Swap this other σ' = Ok tt σ ∧
  Swap this this σ = Ok tt σ.
Proof.
  intros Hne Hv Hw σ'.
  assert (∀ (τ : state (T:=T)) a b va vb,
    a ≠ b → vecs τ !! a = Some va → vecs τ !! b = Some vb →
    Swap a b τ = Ok tt (State (raws τ) (<[b := va]> (<[a := vb]> (vecs τ)))
                          (mem τ))) as Hswap.
  { intros τ a b va vb Hab Ha Hb.
    assert (wp (Swap a b)
              (λ _ τ', τ' = State (raws τ) (<[b := va]> (<[a := vb]> (vecs τ)))
                              (mem τ))
              (λ _, False) False τ) as Hwp by by eapply wp_Swap.
    apply wp_returns in Hwp as ([] & τ' & Hrun & ->). done. }
  split_and!.
  - by apply Hswap.
  - unfold Vector_move_assign. rewrite bool_decide_eq_true_2 by done.
    by apply Hswap.
  - rewrite (Hswap σ' this other w v Hne); unfold σ'; cbn [raws vecs mem].
    + destruct σ as [r vs μ]. cbn [raws vecs mem] in *. do 2 f_equal.
      apply map_eq. intros k.
      destruct (decide (k = other)) as [->|];
        [|destruct (decide (k = this)) as [->|]]; by simplify_map_eq.
    + by simplify_map_eq.
    + by simplify_map_eq.
  - by eapply Swap_self.
Qed.

End mutator_properties.

Section assignment_properties.
Context {T : Type} `{!Element T}.
Implicit Types (σ : state (T:=T)) (μ : memory (T:=T)).
Implicit Types (this l : loc) (v w : Vector) (x : T).
Implicit Types (elems : list T).

(** X14. Copy assignment from a vector that holds more elements than the
    capacity of the destination copies the elements into a new block of
    exactly as many slots, makes it the storage of the destination and
    releases the old block; the source is untouched.  It
    throws only when the allocation or a copy fails, and then every object
    and the heap are as before. *)
Theorem copy_assign_beyond_capacity σ this rhs v w elems welems :
  this ≠ rhs →
  vecs σ !! this = Some v → vecs σ !! rhs = Some w →
  vec_repr (heap (mem σ)) v elems →
  vec_repr (heap (mem σ)) w welems →
  (∀ a, p_blk (buffer_ (data_ v)) = Some a → p_blk (buffer_ (data_ w)) ≠ Some a) →
  capacity_ (data_ v) < size_ w →
  wp (Vector_copy_assign this rhs)
     (λ _ σ', ∃ v',
        raws σ' = raws σ ∧
        vecs σ' = <[this := v']> (vecs σ) ∧
        size_ v' = size_ w ∧
        capacity_ (data_ v') = size_ w ∧
        vec_repr (heap (mem σ')) v' welems ∧
        vec_repr (heap (mem σ')) w welems ∧
        storage_renewed (heap (mem σ)) v welems v' (heap (mem σ')))
     (λ σ', fuse (mem σ) ≠ None ∧ unchanged σ σ')
     False σ.
Proof.
  intros Hne Hv Hw Hrepr Hwrepr Hdisj Hbig.
  pose proof Hrepr as (Hs & Hc & _). pose proof Hwrepr as (Hws & Hwc & _).
  eapply wp_mono;
    [by apply (Vector_copy_assign_renews σ this rhs v w elems welems)| | |done];
    [|done].
  intros [] σ' (v' & Hraws & Hvecs & Hsize & Hcap & Hst & Hf).
  exists v'. split_and!; try done.
  - eapply storage_renewed_repr; [done|lia|lia|lia].
  - by eapply storage_renewed_other.
Qed.

(** X15. Copy assignment within the capacity, from a source that holds no
    more elements than the destination or into an empty destination,
    leaves the destination holding copies of the elements of the source,
    in its own block, with the same capacity; the source is untouched.
    When a copy throws and the destination was empty, every object and the
    heap are as before. *)
Theorem copy_assign_within_capacity_copies σ this rhs v w elems welems :
  this ≠ rhs →
  vecs σ !! this = Some v → vecs σ !! rhs = Some w →
  vec_repr (heap (mem σ)) v elems →
  vec_repr (heap (mem σ)) w welems →
  (∀ a, p_blk (buffer_ (data_ v)) = Some a → p_blk (buffer_ (data_ w)) ≠ Some a) →
  size_ w ≤ capacity_ (data_ v) →
  size_ w ≤ size_ v ∨ size_ v = 0 →
  wp (Vector_copy_assign this rhs)
     (λ _ σ', ∃ v',
        raws σ' = raws σ ∧
        vecs σ' = <[this := v']> (vecs σ) ∧
        data_ v' = data_ v ∧
        size_ v' = size_ w ∧
        vec_repr (heap (mem σ')) v' welems ∧
        vec_repr (heap (mem σ')) w welems ∧
        storage_kept (heap (mem σ)) v welems v' (heap (mem σ')))
     (λ σ', fuse (mem σ) ≠ None ∧ (size_ v = 0 → unchanged σ σ'))
     False σ.
Proof.
  intros Hne Hv Hw Hrepr Hwrepr Hdisj Hfit Hcase.
  pose proof Hrepr as (Hs & Hc & _). pose proof Hwrepr as (Hws & Hwc & _).
  eapply wp_mono;
    [by apply (Vector_copy_assign_keeps σ this rhs v w elems welems)| | |done].
  - intros [] σ' (v' & Hraws & Hvecs & Hsize & Hst & Hf).
    exists v'. split_and!; try done.
    + by destruct Hst.
    + eapply (storage_kept_repr _ v elems); [done|done|lia|].
      destruct Hst as [-> _]. lia.
    + by eapply storage_kept_other.
  - intros σ' (Hf & Hempty & _). done.
Qed.

(** X16. Copy assignment from a shorter source is not exception safe: it
    destroys the elements of the destination beyond the size of the source
    before it assigns, and sets the size last.  When an assignment throws,
    the destination still has its old size while the slot at the size of
    the source is uninitialized, so the destination no longer satisfies the
    invariant of the class. *)
Theorem copy_assign_shrinking_throw_breaks_invariant
    σ this rhs v w elems welems σ' :
  this ≠ rhs →
  vecs σ !! this = Some v → vecs σ !! rhs = Some w →
  vec_repr (heap (mem σ)) v elems →
  vec_repr (heap (mem σ)) w welems →
  (∀ a, p_blk (buffer_ (data_ v)) = Some a → p_blk (buffer_ (data_ w)) ≠ Some a) →
  size_ w < size_ v →
  Vector_copy_assign this rhs σ = Throw σ' →
  vecs σ' !! this = Some v ∧
  slot_at (heap (mem σ')) (ptr_add (buffer_ (data_ v)) (size_ w)) = Some None ∧
  ¬ Vector_invariant σ' this.
Proof.
  intros Hne Hv Hw Hrepr Hwrepr Hdisj Hlt Hrun.
  pose proof Hrepr as (Hs & Hc & _). pose proof Hwrepr as (Hws & Hwc & _).
  pose proof (Vector_copy_assign_keeps σ this rhs v w elems welems Hne Hv Hw
                Hrepr Hwrepr Hdisj ltac:(lia) ltac:(lia)) as Hwp.
  unfold wp in Hwp. rewrite Hrun in Hwp.
  destruct Hwp as (_ & _ & Hbroken).
  destruct (Hbroken Hlt) as (_ & Hvecs & Hslot).
  assert (vecs σ' !! this = Some v) as Hv' by by rewrite Hvecs.
  split; [done|]. split; [done|].
  intros (v' & elems' & Hv'' & Hrepr'). simplify_eq.
  pose proof Hrepr' as (Hs' & _).
  destruct (lookup_lt_is_Some_2 elems' (Z.to_nat (size_ w))) as [y Hy]; [lia|].
  pose proof (vec_repr_slot _ _ _ _ _ Hrepr' Hy) as Hlive.
  rewrite Z2Nat.id in Hlive by lia. congruence.
Qed.

End assignment_properties.

Section insertion_properties.
Context {T : Type} `{!Element T}.
Implicit Types (σ : state (T:=T)) (μ : memory (T:=T)).
Implicit Types (this l : loc) (v w : Vector) (x : T).
Implicit Types (elems : list T) (j : nat).

(** X17. [Emplace] reallocates exactly when the vector is full.  Below the
    capacity it works in place: the buffer and the capacity are the same,
    every address before the position still holds the element it held, and
    no other block changes.  On a full vector the elements go to a new
    block that did not exist before and the old block is released, so every
    address into the old block is dead; no other block changes. *)
Theorem Emplace_reallocates_only_when_full σ this v elems j values x r σ' :
  vecs σ !! this = Some v →
  vec_repr (heap (mem σ)) v elems →
  (j ≤ length elems)%nat →
  args_value (heap (mem σ)) values x →
  Emplace this (ptr_add (buffer_ (data_ v)) (Z.of_nat j)) values σ = Ok r σ' →
  ∃ v', vecs σ' !! this = Some v' ∧
    (size_ v < capacity_ (data_ v) →
       data_ v' = data_ v ∧
       (∀ i y, (i < j)%nat → elems !! i = Some y →
          slot_at (heap (mem σ')) (ptr_add (buffer_ (data_ v)) (Z.of_nat i))
            = Some (Some y)) ∧
       (∀ a, p_blk (buffer_ (data_ v)) ≠ Some a →
          heap (mem σ') !! a = heap (mem σ) !! a)) ∧
    (size_ v = capacity_ (data_ v) →
       ∃ a', buffer_ (data_ v') = Ptr (Some a') 0 ∧
             heap (mem σ) !! a' = None ∧
             is_Some (heap (mem σ') !! a') ∧
             (∀ a, p_blk (buffer_ (data_ v)) = Some a →
                heap (mem σ') !! a = None) ∧
             (∀ a, a ≠ a' → p_blk (buffer_ (data_ v)) ≠ Some a →
                heap (mem σ') !! a = heap (mem σ) !! a)).
Proof.
  intros Hv Hrepr Hj Hx Hrun.
  pose proof (Emplace_spec_storage σ this v elems j values x Hv Hrepr Hj Hx)
    as Hwp.
  unfold wp in Hwp. rewrite Hrun in Hwp.
  destruct Hwp as [Hret (v' & Hv' & Hst)].
  destruct Hret as (v'' & _ & Hvecs & _ & Hrepr' & _).
  assert (v'' = v') as ->.
  { rewrite Hvecs, lookup_insert_eq in Hv'. congruence. }
  exists v'. split; [done|]. split.
  - intros Hlt. destruct (Z.eqb_spec (size_ v) (capacity_ (data_ v))); [lia|].
    destruct Hst as [Hdata Hh]. split; [done|]. split.
    + intros i y Hi Hy. rewrite <-Hdata.
      eapply vec_repr_slot; [done|].
      rewrite lookup_app_l by (rewrite length_take; lia).
      rewrite lookup_take_lt by lia. done.
    + intros a Ha. rewrite Hh. unfold stored.
      destruct (p_blk (buffer_ (data_ v))) as [a0|]; [|done].
      rewrite lookup_insert_ne by congruence. done.
  - intros Hfull. rewrite Hfull, Z.eqb_refl in Hst.
    destruct Hst as (a' & Ha' & Hbuf & Hh). exists a'.
    split_and!; try done.
    + rewrite Hh, lookup_insert_eq. done.
    + intros a Ha. rewrite Hh. unfold released. rewrite Ha.
      destruct Hrepr as (_ & _ & _ & Hblk). rewrite Ha in Hblk.
      destruct Hblk as [_ Hlive].
      rewrite lookup_insert_ne by congruence. apply lookup_delete_eq.
    + intros a Hne Ha. rewrite Hh. unfold released.
      rewrite lookup_insert_ne by done.
      destruct (p_blk (buffer_ (data_ v))) as [a0|]; [|done].
      rewrite lookup_delete_ne by congruence. done.
Qed.

(** X18. [PushBack] and [EmplaceBack] append: the vector holds its former
    elements followed by the new one, and [EmplaceBack] returns the address
    of the new last element.  The argument may be a reference to an element
    of the vector itself, as in [v.PushBack(v[i])]: the appended value is
    the value that element had before the call, also when the call
    reallocates.  A call throws only when an element operation or the
    allocation fails. *)
Theorem PushBack_appends σ this v elems values x :
  vecs σ !! this = Some v →
  vec_repr (heap (mem σ)) v elems →
  (values = CtorValue x ∨
   ∃ i, values = CtorCopyOf (ptr_add (buffer_ (data_ v)) (Z.of_nat i)) ∧
        elems !! i = Some x) →
  wp (PushBack this values)
     (λ _ σ', ∃ v',
        vecs σ' !! this = Some v' ∧
        size_ v' = size_ v + 1 ∧
        vec_repr (heap (mem σ')) v' (elems ++ [x]))
     (Emplace_throws σ v) False σ ∧
  wp (EmplaceBack this values)
     (λ r σ', ∃ v',
        vecs σ' !! this = Some v' ∧
        size_ v' = size_ v + 1 ∧
        vec_repr (heap (mem σ')) v' (elems ++ [x]) ∧
        r = ptr_add (buffer_ (data_ v')) (size_ v) ∧
        lift (load r) σ' = Ok x σ')
     (Emplace_throws σ v) False σ.
Proof.
  intros Hv Hrepr Hvalues. pose proof Hrepr as (Hs & Hc & _).
  assert (args_value (heap (mem σ)) values x) as Hx.
  { destruct Hvalues as [->|(i & -> & Hi)]; [done|].
    by eapply args_value_own_element. }
  assert (wp (EmplaceBack this values)
     (λ r σ', ∃ v',
        vecs σ' !! this = Some v' ∧
        size_ v' = size_ v + 1 ∧
        vec_repr (heap (mem σ')) v' (elems ++ [x]) ∧
        r = ptr_add (buffer_ (data_ v')) (size_ v) ∧
        lift (load r) σ' = Ok x σ')
     (Emplace_throws σ v) False σ) as Hback.
  { eapply wp_mono; [by apply (EmplaceBack_spec σ this v elems values x)| | |done];
      [|done].
    intros r σ' (v' & Hraws & Hvecs & -> & Hrepr' & Hcap & Hf).
    rewrite take_ge, drop_ge in Hrepr' by lia.
    exists v'. pose proof Hrepr' as (Hs' & _).
    rewrite length_app in Hs'. simpl in Hs'.
    split_and!; try done.
    - rewrite Hvecs. apply lookup_insert_eq.
    - lia.
    - by rewrite Hs.
    - eapply lift_load_elem; [done|]. by apply list_lookup_middle. }
  split; [|done].
  unfold PushBack. apply wp_bind.
  eapply wp_mono; [exact Hback| | |done]; [|done].
  intros r σ' (v' & ? & ? & ? & _). apply wp_ret. eauto.
Qed.

(** X23. [PushBack] and [EmplaceBack] give the strong exception guarantee,
    whether the vector is full or not, provided [T] is copy-constructible
    or nothrow-move-constructible: when the call throws, from the
    allocation, from the constructor of the new element or from the
    relocation of an element, every object and the heap are as before the
    call. *)
Theorem PushBack_strong_exception_guarantee σ this v elems values x :
  vecs σ !! this = Some v →
  vec_repr (heap (mem σ)) v elems →
  (values = CtorValue x ∨
   ∃ i, values = CtorCopyOf (ptr_add (buffer_ (data_ v)) (Z.of_nat i)) ∧
        elems !! i = Some x) →
  nothrow_move_constructible || copy_constructible = true →
  (∀ σ', PushBack this values σ = Throw σ' → unchanged σ σ') ∧
  (∀ σ', EmplaceBack this values σ = Throw σ' → unchanged σ σ').
Proof.
  intros Hv Hrepr Hvalues Htr.
  assert (args_value (heap (mem σ)) values x) as Hx.
  { destruct Hvalues as [->|(i & -> & Hi)]; [done|].
    by eapply args_value_own_element. }
  assert (∀ σ', EmplaceBack this values σ = Throw σ' → unchanged σ σ') as Hback.
  { intros σ' Hrun.
    pose proof (EmplaceBack_spec_strong σ this v elems values x Hv Hrepr Hx)
      as Hwp.
    unfold wp in Hwp. rewrite Hrun in Hwp. destruct Hwp as [_ Hsame]. auto. }
  split; [|done].
  intros σ' Hrun. apply Hback. unfold PushBack, bind in Hrun.
  destruct (EmplaceBack this values σ); by simplify_eq/=.
Qed.

(** X19. [PushBack] followed by [PopBack] gives back the elements: the
    vector holds exactly its former elements and has its former size; only
    the capacity may have grown, when the vector was full. *)
Theorem PushBack_PopBack_round_trip σ this v elems values x :
  vecs σ !! this = Some v →
  vec_repr (heap (mem σ)) v elems →
  args_value (heap (mem σ)) values x →
  wp (bind (PushBack this values) (λ _, PopBack this))
     (λ _ σ', ∃ v',
        raws σ' = raws σ ∧
        vecs σ' = <[this := v']> (vecs σ) ∧
        size_ v' = size_ v ∧
        vec_repr (heap (mem σ')) v' elems ∧
        capacity_ (data_ v') =
          (if size_ v =? capacity_ (data_ v)
           then grown_capacity (capacity_ (data_ v))
           else capacity_ (data_ v)))
     (Emplace_throws σ v) False σ.
Proof.
  intros Hv Hrepr Hx. pose proof Hrepr as (Hs & Hc & _).
  unfold PushBack. apply wp_bind, wp_bind.
  eapply wp_mono; [by apply (EmplaceBack_spec σ this v elems values x)| | |done];
    [|done].
  intros r σ1 (v1 & Hraws & Hvecs & -> & Hrepr1 & Hcap & Hf).
  rewrite take_ge, drop_ge in Hrepr1 by lia.
  apply wp_ret.
  assert (vecs σ1 !! this = Some v1) as Hv1
    by (rewrite Hvecs; apply lookup_insert_eq).
  pose proof Hrepr1 as (Hs1 & Hc1 & _).
  rewrite length_app in Hs1. simpl in Hs1.
  eapply wp_mono; [by apply (PopBack_spec σ1 this v1 (elems ++ [x]))| | |done];
    [|done].
  intros [] σ' Hpost.
  destruct (Z.eqb_spec (size_ v1) 0) as [?|_]; [lia|]. subst σ'.
  cbn [raws vecs mem heap fuse].
  eexists. split; [done|]. split; [by rewrite Hvecs, insert_insert_eq|].
  cbn [data_ size_]. split; [lia|]. split; [|done].
  assert (take (length (elems ++ [x]) - 1) (elems ++ [x]) = elems) as ->.
  { rewrite length_app. simpl.
    replace (length elems + 1 - 1)%nat with (length elems) by lia.
    by rewrite take_app_length. }
  eapply (storage_kept_repr _ v1 (elems ++ [x]) elems); [done|by split|..];
    cbn [data_ size_]; lia.
Qed.

(** X20. [Insert] followed by [Erase] at the returned position gives back
    the elements: the vector holds exactly its former elements, and
    [Erase] returns the position of the element that followed, at the same
    offset in the buffer the vector now has. *)
Theorem Insert_Erase_round_trip σ this v elems j values x :
  vecs σ !! this = Some v →
  vec_repr (heap (mem σ)) v elems →
  (j ≤ length elems)%nat →
  args_value (heap (mem σ)) values x →
  wp (bind (Insert this (ptr_add (buffer_ (data_ v)) (Z.of_nat j)) values)
        (λ r, Erase this r))
     (λ r' σ', ∃ v',
        raws σ' = raws σ ∧
        vecs σ' = <[this := v']> (vecs σ) ∧
        size_ v' = size_ v ∧
        vec_repr (heap (mem σ')) v' elems ∧
        r' = ptr_add (buffer_ (data_ v')) (Z.of_nat j))
     (λ _, fuse (mem σ) ≠ None ∨
           (size_ v = capacity_ (data_ v) ∧
            max_slots < grown_capacity (capacity_ (data_ v))))
     False σ.
Proof.
  intros Hv Hrepr Hj Hx. pose proof Hrepr as (Hs & Hc & _).
  unfold Insert. apply wp_bind.
  eapply wp_mono; [by apply (Emplace_spec σ this v elems j values x)| | |done].
  2:{ by intros σ' [Hthrow _]. }
  intros r σ1 (v1 & Hraws & Hvecs & -> & Hrepr1 & Hcap & Hf).
  assert (vecs σ1 !! this = Some v1) as Hv1
    by (rewrite Hvecs; apply lookup_insert_eq).
  assert (length (take j elems ++ x :: drop j elems) = S (length elems))
    as Hlen.
  { rewrite length_app, length_take, length_cons, length_drop. lia. }
  eapply wp_mono;
    [apply (Erase_spec σ1 this v1 (take j elems ++ x :: drop j elems) j Hv1
              Hrepr1); lia| | |done].
  - intros r' σ' (v' & Hraws' & Hvecs' & -> & Hdata & Hsize & Hrepr' & Hf').
    exists v'. pose proof Hrepr1 as (Hs1 & _).
    split_and!.
    + congruence.
    + by rewrite Hvecs', Hvecs, insert_insert_eq.
    + lia.
    + assert (take j (take j elems ++ x :: drop j elems)
              ++ drop (S j) (take j elems ++ x :: drop j elems) = elems) as Heq.
      { rewrite take_app_length' by (rewrite length_take; lia).
        rewrite (cons_middle x), app_assoc.
        rewrite (drop_app_length' _ _ (S j))
          by (rewrite length_app, length_take; simpl; lia).
        apply take_drop. }
      by rewrite Heq in Hrepr'.
    + by rewrite Hdata.
  - intros σ' [Hthrow _]. left. intros Hnone. by apply Hthrow, Hf.
Qed.

(** X21. [Erase(end())] is not rejected: the assertion of [Erase] lets the
    position through, and the call then hands [std::move] the range from
    one past the end to the end, which is not a valid range: the behaviour
    is undefined, on an empty vector as on any other. *)
Theorem Erase_at_end_is_undefined σ this v elems :
  vecs σ !! this = Some v →
  vec_repr (heap (mem σ)) v elems →
  Vector_end this σ = Ok (ptr_add (buffer_ (data_ v)) (size_ v)) σ ∧
  Erase_assertion this (ptr_add (buffer_ (data_ v)) (size_ v)) σ = Ok true σ ∧
  Erase this (ptr_add (buffer_ (data_ v)) (size_ v)) σ = Fault Undefined.
Proof.
  intros Hv Hrepr. pose proof Hrepr as (Hs & Hc & Hoff & _).
  assert (Vector_end this σ = Ok (ptr_add (buffer_ (data_ v)) (size_ v)) σ)
    as Hend.
  { rewrite (Vector_end_eq σ this v Hv).
    by destruct (Z.leb_spec (size_ v) (capacity_ (data_ v))); [|lia]. }
  assert (Erase_assertion this (ptr_add (buffer_ (data_ v)) (size_ v)) σ
          = Ok true σ) as Hassert.
  { unfold Erase_assertion, cbegin, bind.
    rewrite (Vector_begin_eq σ this v Hv).
    unfold ptr_geb, ptr_add. cbn [p_off].
    by destruct (Z.leb_spec (p_off (buffer_ (data_ v)))
                   (p_off (buffer_ (data_ v)) + size_ v)); [|lia]. }
  split; [done|]. split; [done|].
  unfold Erase, bind. rewrite Hassert. cbn [assert]. rewrite Hend.
  unfold lift, std_move, range_length, ptr_diff, bind, ptr_add.
  cbn [p_blk p_off]. rewrite bool_decide_eq_true_2 by done.
  cbn [ret].
  by destruct (Z.ltb_spec (p_off (buffer_ (data_ v)) + size_ v -
                           (p_off (buffer_ (data_ v)) + size_ v + 1)) 0);
    [|lia].
Qed.

(** X24. [Erase] can throw only when the move assignment of [T] can throw,
    and it then leaves a valid vector: no object has changed, so the
    buffer, the capacity and the size are the same, the block of the vector
    holds as many live elements as before, those before the position are
    untouched, and no other block has changed. *)
Theorem Erase_throw_keeps_vector_valid σ this v elems j σ' :
  vecs σ !! this = Some v →
  vec_repr (heap (mem σ)) v elems →
  (j < length elems)%nat →
  Erase this (ptr_add (buffer_ (data_ v)) (Z.of_nat j)) σ = Throw σ' →
  nothrow_move_assignable = false ∧
  fuse (mem σ) ≠ None ∧
  raws σ' = raws σ ∧ vecs σ' = vecs σ ∧
  Vector_invariant σ' this ∧
  ∃ elems',
    length elems' = length elems ∧
    take j elems' = take j elems ∧
    vec_repr (heap (mem σ')) v elems' ∧
    (∀ a, p_blk (buffer_ (data_ v)) ≠ Some a →
       heap (mem σ') !! a = heap (mem σ) !! a).
Proof.
  intros Hv Hrepr Hj Hrun.
  pose proof (Erase_spec_storage σ this v elems j Hv Hrepr Hj) as Hwp.
  unfold wp in Hwp. rewrite Hrun in Hwp.
  destruct Hwp as (Hf & Hnt & Hraws & Hvecs & elems' & Hlen & Htake & Hrepr'
                   & Hst).
  split_and!; try done.
  - exists v, elems'. split; [by rewrite Hvecs | done].
  - exists elems'. split_and!; try done.
    intros a Ha. destruct Hst as [_ ->]. unfold stored.
    destruct (p_blk (buffer_ (data_ v))) as [a0|]; [|done].
    rewrite lookup_insert_ne by congruence. done.
Qed.

(** X25. [Emplace] below the capacity at a position before the end is not
    exception safe.  When it throws, either every object and the heap are
    as before, or the last element had already been move-constructed into
    the slot behind it: the vector then still has its old size while the
    slot at that index holds a live element, which is never destroyed, and
    the vector no longer satisfies the invariant of the class. *)
Theorem Emplace_in_place_throw_leaves_extra_element
    σ this v elems j values x σ' :
  vecs σ !! this = Some v →
  vec_repr (heap (mem σ)) v elems →
  size_ v < capacity_ (data_ v) →
  (j < length elems)%nat →
  args_value (heap (mem σ)) values x →
  Emplace this (ptr_add (buffer_ (data_ v)) (Z.of_nat j)) values σ = Throw σ' →
  unchanged σ σ' ∨
  (vecs σ' !! this = Some v ∧
   (∃ y, slot_at (heap (mem σ')) (ptr_add (buffer_ (data_ v)) (size_ v))
           = Some (Some y)) ∧
   ¬ Vector_invariant σ' this).
Proof.
  intros Hv Hrepr Hlt Hj Hx Hrun.
  pose proof (Emplace_in_place_spec σ this v elems j values x Hv Hrepr Hlt Hj
                Hx) as Hwp.
  unfold wp in Hwp. rewrite Hrun in Hwp.
  destruct Hwp as [_ [Hsame|(Hraws & Hvecs & elems2 & Hlen & Hh)]];
    [by left|right].
  pose proof Hrepr as (Hs & Hc & Hoff & Hblk).
  assert (vecs σ' !! this = Some v) as Hv' by by rewrite Hvecs.
  destruct (lookup_lt_is_Some_2 elems2 (length elems)) as [y Hy]; [lia|].
  assert (slot_at (heap (mem σ')) (ptr_add (buffer_ (data_ v)) (size_ v))
          = Some (Some y)) as Hslot.
  { rewrite Hh. unfold stored, slot_at, ptr_add. cbn [p_blk p_off].
    destruct (p_blk (buffer_ (data_ v))) as [a|]; [|lia].
    rewrite lookup_insert_eq, Hoff, Z.add_0_l.
    destruct (Z.leb_spec 0 (size_ v)); [|lia].
    rewrite Hs, Nat2Z.id. by apply lookup_blk_of_elem. }
  split; [done|]. split; [by exists y|].
  intros (v' & elems3 & Hv'' & Hrepr3). simplify_eq.
  pose proof (vec_repr_free_slot _ _ _ (size_ v) Hrepr3 ltac:(lia)) as Hfree.
  congruence.
Qed.

(** [std::destroy_n] does not throw. *)
Lemma destroy_loop_no_throw (p : ptr) (k : nat) (μ μ' : memory (T:=T)) :
  destroy_loop p k μ ≠ Throw μ'.
Proof.
  revert p μ. induction k as [|k IH]; intros p μ; [done|].
  simpl. unfold bind, destroy_at.
  destruct (slot_at (heap μ) p) as [[y|]|]; [|done..]. apply IH.
Qed.

Lemma wp_lift_destroy_n_any (Q : unit → state → Prop) E σ p n :
  (∀ μ, Q tt (State (raws σ) (vecs σ) μ)) →
  wp (lift (destroy_n p n)) Q E True σ.
Proof.
  intros HQ. unfold wp, lift, destroy_n.
  pose proof (destroy_loop_no_throw p (Z.to_nat n) (mem σ)) as Hno.
  destruct (destroy_loop p (Z.to_nat n) (mem σ)) as [[] μ'|μ'|e];
    [apply HQ|by destruct (Hno μ')|done].
Qed.

(** [Reserve] beyond the capacity, whatever the byte count of the request
    comes to: when it throws, the vector is as the relocation left it. *)
Lemma Reserve_throws_valid σ this v elems n :
  vecs σ !! this = Some v →
  vec_repr (heap (mem σ)) v elems →
  capacity_ (data_ v) < n →
  wp (Reserve this n) (λ _ _, True) (relocation_throws σ v elems) True σ.
Proof.
  destruct σ as [r vs [h f]], v as [[[[a|] o] c] s].
  all: cbn [raws vecs mem heap fuse]; unfold vec_repr;
    cbn [data_ size_ buffer_ capacity_ p_blk p_off].
  - intros Hv (Hs & Hc & -> & Hpos & Ha) Hn. subst s.
    unfold Reserve. wp_steps.
    destruct (Z.leb_spec n c) as [?|_]; [lia|].
    unfold with_raw, RawMemory_ctor, Allocate.
    destruct (Z.eqb_spec n 0) as [?|_]; [lia|]. cbn [negb].
    wp_steps. apply wp_operator_new_bytes.
    2:{ intros Hthrow f'. by apply relocation_throws_same. }
    intros a' f1 Ha' Hcap Hf1. wp_steps.
    apply wp_new_raw. intros l Hl. cbn [raws vecs mem] in Hl |- *.
    assert (a ≠ a') as Hne by congruence.
    wp_steps.
    eapply wp_mono;
      [apply (relocating_CopyOrMoveInNewData h a a'
                (blk_of elems (Z.to_nat c)) (length elems) _
                (Z.of_nat (length elems)) Hne); [lia|]
      | | |done].
    + eexists (blk_of elems (Z.to_nat c)), _. cbn [heap].
      split; [by rewrite (insert_id h a)|apply relocated_refl].
    + intros [] μ1 _. cbv beta.
      apply wp_bind, wp_lift_destroy_n_any. intros μ2.
      eapply wp_RawMemory_Swap_vec_obj; [solve_lookup..|].
      cbn [raws vecs mem heap fuse data_ size_ buffer_ capacity_].
      unfold RawMemory_dtor. wp_steps. cbn [is_null p_blk negb].
      apply wp_lift_Deallocate_any. intros μ3. by wp_steps.
    + intros μ1 (sb' & db' & Hh & Hrel). destruct μ1 as [h1 f2].
      cbn [heap] in Hh. subst h1.
      eapply wp_raw_cleanup; [solve_lookup|apply lookup_insert_eq|].
      cbn [raws vecs mem heap fuse].
      split; [by rewrite delete_insert_id|]. split; [done|].
      apply relocated_is_blk_of in Hrel as (elems' & Hlen' & ->); [|lia..].
      exists elems'. split; [done|].
      unfold stored. cbn [raws vecs mem heap data_ buffer_ capacity_ p_blk].
      rewrite delete_insert_eq. apply delete_id.
      by rewrite lookup_insert_ne.
  - intros Hv (Hs & Hc & -> & ->) Hn.
    assert (s = 0) as -> by lia.
    destruct elems as [|??]; [|simpl in Hs; lia].
    unfold Reserve. wp_steps.
    destruct (Z.leb_spec n 0) as [?|_]; [lia|].
    unfold with_raw, RawMemory_ctor, Allocate.
    destruct (Z.eqb_spec n 0) as [?|_]; [lia|]. cbn [negb].
    wp_steps. apply wp_operator_new_bytes.
    2:{ intros Hthrow f'. split; [done|]. split; [done|]. by exists []. }
    intros a' f1 Ha' Hcap Hf1. wp_steps.
    apply wp_new_raw. intros l Hl. cbn [raws vecs mem] in Hl |- *.
    wp_steps.
    apply wp_CopyOrMoveInNewData_0. wp_steps.
    apply wp_destroy_n_0; [done|]. wp_steps.
    eapply wp_RawMemory_Swap_vec_obj; [solve_lookup..|].
    cbn [raws vecs mem heap fuse data_ size_ buffer_ capacity_].
    eapply wp_raw_cleanup_null; [solve_lookup|]. done.
Qed.

(** A vector whose relocation into a new block threw is a valid vector. *)
Lemma relocation_throws_valid σ this v elems σ' :
  vecs σ !! this = Some v →
  vec_repr (heap (mem σ)) v elems →
  relocation_throws σ v elems σ' →
  raws σ' = raws σ ∧ vecs σ' = vecs σ ∧
  Vector_invariant σ' this ∧
  ∃ elems',
    length elems' = length elems ∧
    vec_repr (heap (mem σ')) v elems' ∧
    (∀ a, p_blk (buffer_ (data_ v)) ≠ Some a →
       heap (mem σ') !! a = heap (mem σ) !! a).
Proof.
  intros Hv Hrepr (Hraws & Hvecs & elems' & Hlen & Hh).
  pose proof Hrepr as (Hs & Hc & _).
  assert (vec_repr (heap (mem σ')) v elems') as Hrepr'.
  { apply (storage_kept_repr _ v elems elems' v _ Hrepr); [done|lia|lia]. }
  split; [done|]. split; [done|]. split.
  - exists v, elems'. split; [by rewrite Hvecs | done].
  - exists elems'. split; [done|]. split; [done|].
    intros a Ha. rewrite Hh. unfold stored.
    destruct (p_blk (buffer_ (data_ v))) as [a0|]; [|done].
    rewrite lookup_insert_ne by congruence. done.
Qed.

(** X26. Growth gives the basic exception guarantee whatever [T] is: when
    [Emplace] into a full vector, or [Reserve] beyond the capacity, throws,
    no object has changed, so the buffer, the capacity and the size are the
    same; the block of the vector still holds as many live elements as
    before, so the vector satisfies the invariant of the class; and no
    other block has changed, so the new block has been released. *)
Theorem growth_throw_keeps_vector_valid σ this v elems σ' :
  vecs σ !! this = Some v →
  vec_repr (heap (mem σ)) v elems →
  (∃ j values x,
     size_ v = capacity_ (data_ v) ∧ (j ≤ length elems)%nat ∧
     args_value (heap (mem σ)) values x ∧
     Emplace this (ptr_add (buffer_ (data_ v)) (Z.of_nat j)) values σ
     = Throw σ') ∨
  (∃ n, capacity_ (data_ v) < n ∧ Reserve this n σ = Throw σ') →
  raws σ' = raws σ ∧ vecs σ' = vecs σ ∧
  Vector_invariant σ' this ∧
  ∃ elems',
    length elems' = length elems ∧
    vec_repr (heap (mem σ')) v elems' ∧
    (∀ a, p_blk (buffer_ (data_ v)) ≠ Some a →
       heap (mem σ') !! a = heap (mem σ) !! a).
Proof.
  intros Hv Hrepr Hcall.
  apply (relocation_throws_valid σ this v elems σ' Hv Hrepr).
  destruct Hcall as [(j & values & x & Hfull & Hj & Hx & Hrun)|(n & Hn & Hrun)].
  - pose proof (Emplace_full_spec σ this v elems j values x Hv Hrepr Hfull Hj
                  Hx) as Hwp.
    unfold wp in Hwp. rewrite Hrun in Hwp. by destruct Hwp as [_ ?].
  - pose proof (Reserve_throws_valid σ this v elems n Hv Hrepr Hn) as Hwp.
    unfold wp in Hwp. by rewrite Hrun in Hwp.
Qed.

(** X27. [Reserve] does not check the byte count.  When [n * sizeof(T)]
    wraps around and the wrapped count can be allocated, [Reserve(n)] on a
    vector without elements returns normally with the capacity [n] over a
    block that has fewer than [n] slots: the vector no longer satisfies
    the invariant of the class. *)
Theorem Reserve_wrapped_byte_count_breaks_invariant σ this v n :
  vecs σ !! this = Some v →
  vec_repr (heap (mem σ)) v [] →
  capacity_ (data_ v) < n →
  SIZE_MODULUS ≤ n * sizeof_T →
  wrap (n * sizeof_T) ≤ PTRDIFF_MAX →
  fuse (mem σ) = None →
  ∃ σ' v' a blk,
    Reserve this n σ = Ok tt σ' ∧
    vecs σ' !! this = Some v' ∧
    size_ v' = 0 ∧
    capacity_ (data_ v') = n ∧
    buffer_ (data_ v') = Ptr (Some a) 0 ∧
    heap (mem σ') !! a = Some blk ∧
    Z.of_nat (length blk) < n ∧
    ¬ Vector_invariant σ' this.
Proof.
  intros Hv Hrepr Hn Hover Hfit Hf.
  pose proof sizeof_T_bounds as [Hsz _].
  assert (0 ≤ wrap (n * sizeof_T) < SIZE_MODULUS) as Hwrap.
  { unfold wrap. by apply Z.mod_pos_bound. }
  assert (0 ≤ wrap (n * sizeof_T) / sizeof_T < n) as Hslots.
  { split; [apply Z.div_pos; lia|]. apply Z.div_lt_upper_bound; lia. }
  assert (wp (Reserve this n)
            (λ _ σ', ∃ a,
               vecs σ' !! this
               = Some {| data_ := {| buffer_ := Ptr (Some a) 0;
                                     capacity_ := n |};
                         size_ := 0 |} ∧
               heap (mem σ') !! a
               = Some (replicate (Z.to_nat (wrap (n * sizeof_T) / sizeof_T))
                         None))
            (λ _, False) False σ) as Hwp.
  { destruct σ as [r vs [h f]], v as [[[[a|] o] c] s].
    all: cbn [raws vecs mem heap fuse] in *; unfold vec_repr in Hrepr;
      cbn [data_ size_ buffer_ capacity_ p_blk p_off length] in *; subst f.
    - destruct Hrepr as (-> & Hc & -> & Hpos & Ha).
      unfold Reserve. wp_steps.
      destruct (Z.leb_spec n c) as [?|_]; [lia|].
      unfold with_raw, RawMemory_ctor, Allocate.
      destruct (Z.eqb_spec n 0) as [?|_]; [lia|]. cbn [negb].
      wp_steps. apply wp_operator_new_bytes; [|intros [?|?]; [done|lia]].
      intros a' f1 Ha' _ Hf1. wp_steps.
      apply wp_new_raw. intros l Hl. cbn [raws vecs mem] in Hl |- *.
      assert (a ≠ a') as Hne by congruence.
      wp_steps.
      apply wp_CopyOrMoveInNewData_0. wp_steps.
      apply wp_destroy_n_0; [done|]. wp_steps.
      eapply wp_RawMemory_Swap_vec_obj; [solve_lookup..|].
      cbn [raws vecs mem heap fuse data_ size_ buffer_ capacity_].
      eapply wp_raw_cleanup; [solve_lookup..|].
      cbn [raws vecs mem heap fuse data_ size_ buffer_ capacity_].
      exists a'. split; [apply lookup_insert_eq|].
      rewrite lookup_delete_ne by done. apply lookup_insert_eq.
    - destruct Hrepr as (-> & Hc & -> & ->).
      unfold Reserve. wp_steps.
      destruct (Z.leb_spec n 0) as [?|_]; [lia|].
      unfold with_raw, RawMemory_ctor, Allocate.
      destruct (Z.eqb_spec n 0) as [?|_]; [lia|]. cbn [negb].
      wp_steps. apply wp_operator_new_bytes; [|intros [?|?]; [done|lia]].
      intros a' f1 Ha' _ Hf1. wp_steps.
      apply wp_new_raw. intros l Hl. cbn [raws vecs mem] in Hl |- *.
      wp_steps.
      apply wp_CopyOrMoveInNewData_0. wp_steps.
      apply wp_destroy_n_0; [done|]. wp_steps.
      eapply wp_RawMemory_Swap_vec_obj; [solve_lookup..|].
      cbn [raws vecs mem heap fuse data_ size_ buffer_ capacity_].
      eapply wp_raw_cleanup_null; [solve_lookup|].
      cbn [raws vecs mem heap fuse data_ size_ buffer_ capacity_].
      exists a'. split; apply lookup_insert_eq. }
  apply wp_returns in Hwp as ([] & σ' & Hrun & a & Hv' & Ha).
  eexists σ', _, a, _. split; [done|]. split; [done|].
  cbn [data_ size_ buffer_ capacity_].
  split_and!; try done.
  - rewrite length_replicate. lia.
  - intros (v' & elems & Hv'' & _ & _ & _ & Hblk). simplify_eq.
    cbn [data_ size_ buffer_ capacity_ p_blk] in Hblk.
    destruct Hblk as [_ Hblk]. rewrite Ha in Hblk.
    injection Hblk as Hblk. apply (f_equal length) in Hblk.
    rewrite length_replicate in Hblk. unfold blk_of in Hblk.
    rewrite length_app, length_replicate, length_fmap in Hblk. lia.
Qed.

End insertion_properties.

(** ** Well-formed states along the calls *)

Section well_formed.
Context {T : Type} `{!Element T}.
Implicit Types (σ : state (T:=T)) (vs : gmap loc Vector).
Implicit Types (h : gmap addr (list (option T))).
Implicit Types (this l : loc) (v w : Vector) (x : T) (a : addr).
Implicit Types (elems : list T).

Lemma wf_empty : wf (T:=T) ∅ ∅.
Proof.
  split_and!.
  - intros l v Hl. by rewrite lookup_empty in Hl.
  - intros l l' a (v & Hl & _). by rewrite lookup_empty in Hl.
  - intros a [b Hb]. by rewrite lookup_empty in Hb.
Qed.

(** In a well-formed state the block of a vector is not the block of
    another vector. *)
Lemma wf_disjoint vs h l l' v w :
  wf vs h → l ≠ l' → vs !! l = Some v → vs !! l' = Some w →
  ∀ a, p_blk (buffer_ (data_ v)) = Some a → p_blk (buffer_ (data_ w)) ≠ Some a.
Proof.
  intros (_ & Hown & _) Hne Hv Hw a Ha Ha'. apply Hne.
  apply (Hown l l' a); by eexists.
Qed.

Lemma wf_repr vs h l v :
  wf vs h → vs !! l = Some v → ∃ elems, vec_repr h v elems.
Proof. intros (Hrepr & _) Hv. by eapply Hrepr. Qed.

(** The block of a vector is a block of the heap. *)
Lemma vec_repr_block h v elems a :
  vec_repr h v elems → p_blk (buffer_ (data_ v)) = Some a → is_Some (h !! a).
Proof. intros (_ & _ & _ & Hblk) Ha. rewrite Ha in Hblk. by destruct Hblk as [_ ->]. Qed.

(** A vector whose storage was kept. *)
Lemma wf_kept vs h this v elems' v' h' :
  wf vs h → vs !! this = Some v →
  storage_kept h v elems' v' h' →
  vec_repr h' v' elems' →
  wf (<[this := v']> vs) h'.
Proof.
  intros Hwf Hv Hst Hrepr'. pose proof Hwf as (Hreprs & Hown & Hheap).
  pose proof Hst as [Hdata Hh].
  assert (∀ l a, owns (<[this := v']> vs) l a ↔ owns vs l a) as Howns.
  { intros l a. unfold owns. destruct (decide (l = this)) as [->|Hne].
    - rewrite lookup_insert_eq, Hv. split; intros (u & [= <-] & Hu); eexists;
        (split; [done|]); by rewrite ?Hdata in *.
    - by rewrite lookup_insert_ne. }
  split_and!.
  - intros l u Hl. destruct (decide (l = this)) as [->|Hne].
    + rewrite lookup_insert_eq in Hl. simplify_eq. by exists elems'.
    + rewrite lookup_insert_ne in Hl by done.
      destruct (Hreprs l u Hl) as [ws Hws]. exists ws.
      eapply storage_kept_other; [done| |done].
      by eapply (wf_disjoint vs h this l).
  - intros l l' a Hl Hl'. apply Howns in Hl, Hl'. by eapply Hown.
  - intros a Ha. setoid_rewrite Howns. apply Hheap.
    subst h'. unfold stored in Ha.
    destruct (p_blk (buffer_ (data_ v))) as [a0|] eqn:Hp; [|done].
    destruct (decide (a = a0)) as [->|Hne].
    + destruct (Hreprs this v Hv) as [ws Hws]. by eapply vec_repr_block.
    + by rewrite lookup_insert_ne in Ha.
Qed.

(** A vector whose storage was renewed. *)
Lemma wf_renewed vs h this v elems' v' h' :
  wf vs h → vs !! this = Some v →
  storage_renewed h v elems' v' h' →
  vec_repr h' v' elems' →
  wf (<[this := v']> vs) h'.
Proof.
  intros Hwf Hv Hst Hrepr'. pose proof Hwf as (Hreprs & Hown & Hheap).
  pose proof Hst as (a' & Ha' & Hbuf & Hh).
  assert (∀ l a, owns (<[this := v']> vs) l a ↔
                 (l = this ∧ a = a') ∨ (l ≠ this ∧ owns vs l a)) as Howns.
  { intros l a. unfold owns. destruct (decide (l = this)) as [->|Hne].
    - rewrite lookup_insert_eq. split.
      + intros (u & [= <-] & Hu). rewrite Hbuf in Hu. left. by simplify_eq/=.
      + intros [[_ ->]|[? _]]; [|done]. exists v'. by rewrite Hbuf.
    - rewrite lookup_insert_ne by done. split; [by right|].
      by intros [[? _]|[_ ?]]. }
  assert (∀ l a, owns vs l a → a ≠ a') as Hfresh.
  { intros l a (u & Hl & Hu) ->. destruct (Hreprs l u Hl) as [ws Hws].
    destruct (vec_repr_block _ _ _ _ Hws Hu) as [b Hb]. congruence. }
  split_and!.
  - intros l u Hl. destruct (decide (l = this)) as [->|Hne].
    + rewrite lookup_insert_eq in Hl. simplify_eq. by exists elems'.
    + rewrite lookup_insert_ne in Hl by done.
      destruct (Hreprs l u Hl) as [ws Hws]. exists ws.
      eapply storage_renewed_other; [done| |done].
      by eapply (wf_disjoint vs h this l).
  - intros l l' a Hl Hl'. apply Howns in Hl, Hl'.
    destruct Hl as [[? ?]|[Hne Hl]], Hl' as [[? ?]|[Hne' Hl']]; subst;
      try done.
    + by destruct (Hfresh _ _ Hl').
    + by destruct (Hfresh _ _ Hl).
    + by eapply Hown.
  - intros a Ha. setoid_rewrite Howns. subst h'.
    destruct (decide (a = a')) as [->|Hne]; [exists this; by left|].
    rewrite lookup_insert_ne in Ha by done.
    assert (is_Some (h !! a) ∧ p_blk (buffer_ (data_ v)) ≠ Some a) as [Hlive Hold].
    { unfold released in Ha.
      destruct (p_blk (buffer_ (data_ v))) as [a0|]; [|done].
      destruct (decide (a0 = a)) as [->|Hne'].
      - rewrite lookup_delete_eq in Ha. by destruct Ha.
      - rewrite lookup_delete_ne in Ha by done. split; [done|congruence]. }
    destruct (Hheap a Hlive) as [l Hl]. exists l. right. split; [|done].
    intros ->. destruct Hl as (u & Hu & Hp). congruence.
Qed.

(** A new vector without a block. *)
Lemma wf_insert_default vs h this :
  wf vs h → vs !! this = None → wf (<[this := Vector_default]> vs) h.
Proof.
  intros (Hreprs & Hown & Hheap) Hthis.
  assert (∀ l a, owns (<[this := Vector_default]> vs) l a ↔ owns vs l a)
    as Howns.
  { intros l a. unfold owns. destruct (decide (l = this)) as [->|Hne].
    - rewrite lookup_insert_eq, Hthis. split; [|by intros (? & ? & _)].
      by intros (u & [= <-] & Hu).
    - by rewrite lookup_insert_ne. }
  split_and!.
  - intros l u Hl. destruct (decide (l = this)) as [->|Hne].
    + rewrite lookup_insert_eq in Hl. simplify_eq. exists [].
      apply vec_repr_default.
    + rewrite lookup_insert_ne in Hl by done. by eapply Hreprs.
  - intros l l' a Hl Hl'. apply Howns in Hl, Hl'. by eapply Hown.
  - intros a Ha. setoid_rewrite Howns. by apply Hheap.
Qed.

(** The end of a vector. *)
Lemma wf_delete vs h this v :
  wf vs h → vs !! this = Some v →
  wf (delete this vs) (released h (buffer_ (data_ v))).
Proof.
  intros Hwf Hv. pose proof Hwf as (Hreprs & Hown & Hheap).
  assert (∀ l a, owns (delete this vs) l a ↔ l ≠ this ∧ owns vs l a) as Howns.
  { intros l a. unfold owns. destruct (decide (l = this)) as [->|Hne].
    - rewrite lookup_delete_eq. split; [by intros (? & ? & _)|by intros [? _]].
    - rewrite lookup_delete_ne by done. split; [done|by intros [_ ?]]. }
  split_and!.
  - intros l u Hl. destruct (decide (l = this)) as [->|Hne].
    + by rewrite lookup_delete_eq in Hl.
    + rewrite lookup_delete_ne in Hl by done.
      destruct (Hreprs l u Hl) as [ws (Hs & Hc & Hoff & Hblk)]. exists ws.
      unfold vec_repr, released.
      split; [done|]. split; [done|]. split; [done|].
      pose proof (wf_disjoint vs h this l v u Hwf ltac:(done) Hv Hl) as Hdisj.
      revert Hblk. destruct (p_blk (buffer_ (data_ u))) as [b|]; [|done].
      intros [Hpos Hb]. split; [done|].
      destruct (p_blk (buffer_ (data_ v))) as [a0|]; [|done].
      rewrite lookup_delete_ne; [done|]. intros ->. by eapply Hdisj.
  - intros l l' a Hl Hl'. apply Howns in Hl as [_ Hl], Hl' as [_ Hl'].
    by eapply Hown.
  - intros a Ha. setoid_rewrite Howns.
    assert (is_Some (h !! a) ∧ p_blk (buffer_ (data_ v)) ≠ Some a) as [Hlive Hold].
    { unfold released in Ha.
      destruct (p_blk (buffer_ (data_ v))) as [a0|]; [|done].
      destruct (decide (a0 = a)) as [->|Hne'].
      - rewrite lookup_delete_eq in Ha. by destruct Ha.
      - rewrite lookup_delete_ne in Ha by done. split; [done|congruence]. }
    destruct (Hheap a Hlive) as [l Hl]. exists l. split; [|done].
    intros ->. destruct Hl as (u & Hu & Hp). congruence.
Qed.

(** A vector moved to a new object. *)
Lemma wf_moved vs h this other w :
  wf vs h → vs !! other = Some w → vs !! this = None →
  wf (<[other := Vector_default]> (<[this := w]> vs)) h.
Proof.
  intros Hwf Hw Hthis. pose proof Hwf as (Hreprs & Hown & Hheap).
  assert (this ≠ other) as Hne by congruence.
  assert (∀ l a, owns (<[other := Vector_default]> (<[this := w]> vs)) l a ↔
                 (l = this ∧ owns vs other a) ∨
                 (l ≠ this ∧ l ≠ other ∧ owns vs l a)) as Howns.
  { intros l a. unfold owns.
    destruct (decide (l = other)) as [->|Hne1].
    - rewrite lookup_insert_eq. split; [by intros (u & [= <-] & Hu)|].
      intros [[? _]|(_ & ? & _)]; congruence.
    - rewrite lookup_insert_ne by done.
      destruct (decide (l = this)) as [->|Hne2].
      + rewrite lookup_insert_eq, Hw. split; [by left|].
        by intros [[_ ?]|(? & _)].
      + rewrite lookup_insert_ne by done. split; [by right|].
        by intros [[? _]|(_ & _ & ?)]. }
  split_and!.
  - intros l u Hl. destruct (decide (l = other)) as [->|Hne1].
    + rewrite lookup_insert_eq in Hl. simplify_eq. exists []. apply vec_repr_default.
    + rewrite lookup_insert_ne in Hl by done.
      destruct (decide (l = this)) as [->|Hne2].
      * rewrite lookup_insert_eq in Hl. simplify_eq. by eapply Hreprs.
      * rewrite lookup_insert_ne in Hl by done. by eapply Hreprs.
  - intros l l' a Hl Hl'. apply Howns in Hl, Hl'.
    destruct Hl as [[-> Hl]|(? & ? & Hl)], Hl' as [[-> Hl']|(? & ? & Hl')];
      try done.
    + by destruct (Hown _ _ _ Hl Hl').
    + by destruct (Hown _ _ _ Hl Hl').
    + by eapply Hown.
  - intros a Ha. setoid_rewrite Howns.
    destruct (Hheap a Ha) as [l Hl].
    destruct (decide (l = other)) as [->|Hne1]; [exists this; by left|].
    exists l. right. split_and!; try done.
    intros ->. destruct Hl as (u & Hu & _). congruence.
Qed.

(** Two vectors exchanged. *)
Lemma wf_swapped vs h this other v w :
  wf vs h → this ≠ other → vs !! this = Some v → vs !! other = Some w →
  wf (<[other := v]> (<[this := w]> vs)) h.
Proof.
  intros Hwf Hne Hv Hw. pose proof Hwf as (Hreprs & Hown & Hheap).
  assert (∀ l a, owns (<[other := v]> (<[this := w]> vs)) l a ↔
                 (l = other ∧ owns vs this a) ∨
                 (l = this ∧ owns vs other a) ∨
                 (l ≠ this ∧ l ≠ other ∧ owns vs l a)) as Howns.
  { intros l a. unfold owns.
    destruct (decide (l = other)) as [->|Hne1].
    - rewrite lookup_insert_eq, Hv. split; [by left|].
      intros [[_ ?]|[[? _]|(_ & ? & _)]]; [done|congruence|congruence].
    - rewrite lookup_insert_ne by done.
      destruct (decide (l = this)) as [->|Hne2].
      + rewrite lookup_insert_eq, Hw. split; [by right; left|].
        intros [[? _]|[[_ ?]|(? & _)]]; [congruence|done|congruence].
      + rewrite lookup_insert_ne by done. split; [by right; right|].
        intros [[? _]|[[? _]|(_ & _ & ?)]]; [congruence|congruence|done]. }
  split_and!.
  - intros l u Hl. destruct (decide (l = other)) as [->|Hne1].
    + rewrite lookup_insert_eq in Hl. simplify_eq. by eapply Hreprs.
    + rewrite lookup_insert_ne in Hl by done.
      destruct (decide (l = this)) as [->|Hne2].
      * rewrite lookup_insert_eq in Hl. simplify_eq. by eapply Hreprs.
      * rewrite lookup_insert_ne in Hl by done. by eapply Hreprs.
  - intros l l' a Hl Hl'. apply Howns in Hl, Hl'.
    destruct Hl as [[-> Hl]|[[-> Hl]|(? & ? & Hl)]],
             Hl' as [[-> Hl']|[[-> Hl']|(? & ? & Hl')]]; try done.
    all: pose proof (Hown _ _ _ Hl Hl'); congruence.
  - intros a Ha. setoid_rewrite Howns.
    destruct (Hheap a Ha) as [l Hl].
    destruct (decide (l = other)) as [->|Hne1]; [exists this; by right; left|].
    destruct (decide (l = this)) as [->|Hne2]; [exists other; by left|].
    exists l. by right; right.
Qed.

(** What [Emplace] leaves is well formed. *)
Lemma Emplace_keeps_wf σ this v elems j x r σ' :
  heap_wf σ → vecs σ !! this = Some v →
  Emplace_returns σ this v elems j x r σ' →
  Emplace_storage σ this v elems j x σ' →
  heap_wf σ'.
Proof.
  intros Hwf Hv (v' & _ & Hvecs & _ & Hrepr' & _) (v'' & Hv'' & Hst).
  assert (v'' = v') as ->.
  { rewrite Hvecs, lookup_insert_eq in Hv''. congruence. }
  unfold heap_wf. rewrite Hvecs.
  destruct (size_ v =? capacity_ (data_ v)).
  - by eapply wf_renewed.
  - by eapply wf_kept.
Qed.

End well_formed.

Section calls.
Context {T : Type} `{!Element T}.
Implicit Types (σ : state (T:=T)) (vs : gmap loc Vector).
Implicit Types (h : gmap addr (list (option T))).
Implicit Types (this l : loc) (v w : Vector) (x : T) (a : addr).
Implicit Types (elems : list T).

(** X22. Every call that the class allows keeps the program state well
    formed: from a state in which every vector satisfies the invariant of
    the class, no block is shared by two vectors and every block is owned
    by a vector, a constructor, the end of a vector, an assignment, [Swap],
    [Reserve], [Resize], [PushBack], [EmplaceBack], [PopBack], [Insert],
    [Emplace] or [Erase] never goes wrong, and when it returns the state is
    again such a state: no element is lost or constructed twice, no block
    leaks and none is released twice.  Two kinds of call are not among
    them: the copy assignment within the capacity into a shorter, non-empty
    vector, and a [Vector(n)], [Reserve(n)] or [Resize(n)] whose byte count
    [n * sizeof(T)] wraps around. *)
Theorem allowed_calls_keep_states_well_formed σ c :
  heap_wf σ →
  call_allowed σ c →
  wp (run_call c) (λ _ σ', heap_wf σ') (λ _, True) False σ.
Proof.
  intros Hwf Hc. destruct c; cbn [run_call call_allowed] in *.
  - (* Vector() *)
    apply wp_bind. unfold Vector_ctor. apply wp_new_vec. intros this Hthis.
    apply wp_ret. by apply wf_insert_default.
  - (* Vector(n) *)
    destruct Hc as [Hn Hbytes]. apply wp_bind.
    eapply wp_mono; [by apply Vector_ctor_size_spec| | |done]; [|done].
    intros this σ' (v' & Hthis & _ & Hvecs & Hsize & Hcap & Hmax & Hst & _).
    apply wp_ret. unfold heap_wf. rewrite Hvecs.
    destruct (Z.eqb_spec n 0) as [->|Hnz].
    + destruct Hst as [-> ->]. by apply wf_insert_default.
    + rewrite <-(insert_insert_eq (vecs σ) this v' Vector_default).
      eapply wf_renewed; [by apply wf_insert_default|apply lookup_insert_eq|done|].
      eapply storage_renewed_repr; [done|..]; rewrite ?length_replicate; lia.
  - (* Vector(const Vector&) *)
    destruct Hc as [w Hw]. destruct (wf_repr _ _ _ _ Hwf Hw) as [welems Hwrepr].
    pose proof Hwrepr as (Hs & Hcw & _).
    apply wp_bind.
    eapply wp_mono; [by apply (Vector_copy_ctor_spec σ other w welems)| | |done];
      [|done].
    intros this σ' (v' & Hthis & _ & Hvecs & Hsize & Hcap & Hst & _).
    apply wp_ret. unfold heap_wf. rewrite Hvecs.
    destruct (Z.eqb_spec (size_ w) 0) as [Hz|Hnz].
    + destruct Hst as [-> ->]. by apply wf_insert_default.
    + rewrite <-(insert_insert_eq (vecs σ) this v' Vector_default).
      eapply wf_renewed; [by apply wf_insert_default|apply lookup_insert_eq|done|].
      eapply storage_renewed_repr; [done|lia|lia|lia].
  - (* Vector(Vector&&) *)
    destruct Hc as [w Hw]. apply wp_bind.
    eapply wp_mono; [by apply (Vector_move_ctor_spec σ other w)| | |done];
      [|done].
    intros this σ' [Hthis ->]. apply wp_ret. by apply wf_moved.
  - (* the end of a vector *)
    destruct Hc as [v Hv]. destruct (wf_repr _ _ _ _ Hwf Hv) as [elems Hrepr].
    eapply wp_vec_cleanup; [done..|]. by apply wf_delete.
  - (* copy assignment *)
    destruct Hc as (v & w & Hv & Hw & Hcase).
    destruct (decide (this = rhs)) as [->|Hne].
    { unfold Vector_copy_assign. rewrite bool_decide_eq_false_2 by auto.
      by apply wp_ret. }
    destruct (wf_repr _ _ _ _ Hwf Hv) as [elems Hrepr].
    destruct (wf_repr _ _ _ _ Hwf Hw) as [welems Hwrepr].
    pose proof Hrepr as (Hs & Hcv & _). pose proof Hwrepr as (Hws & Hcw & _).
    destruct (decide (capacity_ (data_ v) < size_ w)) as [Hbig|Hfit].
    + eapply wp_mono;
        [by apply (Vector_copy_assign_renews σ this rhs v w elems welems)| | |done];
        [|done].
      intros [] σ' (v' & _ & Hvecs & Hsize & Hcap & Hst & _).
      unfold heap_wf. rewrite Hvecs.
      eapply wf_renewed; [done..|].
      eapply storage_renewed_repr; [done|lia|lia|lia].
    + eapply wp_mono;
        [apply (Vector_copy_assign_keeps σ this rhs v w elems welems);
           [done..|by eapply (wf_disjoint _ _ this rhs)|lia|
            destruct Hcase as [?|[?|?]]; [done|lia|done]]| | |done];
        [|done].
      intros [] σ' (v' & _ & Hvecs & Hsize & Hst & _).
      unfold heap_wf. rewrite Hvecs.
      eapply wf_kept; [done..|].
      eapply (storage_kept_repr _ v elems); [done|done|lia|].
      destruct Hst as [-> _]. lia.
  - (* move assignment *)
    destruct Hc as [[v Hv] [w Hw]].
    unfold Vector_move_assign. case_bool_decide as Hne; [|by apply wp_ret].
    change (wp (Swap this rhs) (λ _ σ', heap_wf σ') (λ _, True) False σ).
    eapply wp_Swap; [done..|]. by apply wf_swapped.
  - (* Swap *)
    destruct Hc as [[v Hv] [w Hw]].
    destruct (decide (this = other)) as [->|Hne].
    + unfold wp. by rewrite (Swap_self σ other v Hv).
    + eapply wp_Swap; [done..|]. by apply wf_swapped.
  - (* Reserve *)
    destruct Hc as ([v Hv] & Hn & Hbytes).
    destruct (wf_repr _ _ _ _ Hwf Hv) as [elems Hrepr].
    pose proof Hrepr as (Hs & Hcv & _).
    destruct (decide (n ≤ capacity_ (data_ v))) as [Hle|Hbig].
    + unfold wp. by rewrite (Reserve_within_capacity σ this v n Hv Hle).
    + eapply wp_mono;
        [apply (Reserve_spec_storage σ this v elems n); [done..|lia|done]| | |done];
        [|done].
      intros [] σ' (v' & _ & Hvecs & Hcap & Hsize & Hmax & Hst & _).
      unfold heap_wf. rewrite Hvecs.
      eapply wf_renewed; [done..|].
      eapply storage_renewed_repr; [done|lia|lia|lia].
  - (* Resize *)
    destruct Hc as ([v Hv] & Hn & Hbytes).
    destruct (wf_repr _ _ _ _ Hwf Hv) as [elems Hrepr].
    pose proof Hrepr as (Hs & Hcv & _).
    eapply wp_mono; [by apply (Resize_spec σ this v elems n)| | |done]; [|done].
    intros [] σ' (v' & _ & Hvecs & Hsize & Hst & _).
    unfold heap_wf. rewrite Hvecs.
    set (elems' := take (Z.to_nat n) elems
                   ++ replicate (Z.to_nat n - length elems) value_init) in *.
    assert (length elems' = Z.to_nat n) as Hlen.
    { unfold elems'. rewrite length_app, length_take, length_replicate. lia. }
    destruct (Z.leb_spec n (capacity_ (data_ v))).
    + eapply wf_kept; [done..|].
      eapply (storage_kept_repr _ v elems); [done|done|lia|].
      destruct Hst as [-> _]. lia.
    + destruct Hst as (Hcap & Hmax & Hst).
      eapply wf_renewed; [done..|].
      eapply storage_renewed_repr; [done|lia|lia|lia].
  - (* PushBack *)
    destruct Hc as [[v Hv] [x Hx]].
    destruct (wf_repr _ _ _ _ Hwf Hv) as [elems Hrepr].
    unfold PushBack. apply wp_bind.
    eapply wp_mono;
      [by apply (EmplaceBack_spec_storage σ this v elems value x)| | |done];
      [|done].
    intros r σ' [Hret Hst]. apply wp_ret. by eapply Emplace_keeps_wf.
  - (* EmplaceBack *)
    destruct Hc as [[v Hv] [x Hx]].
    destruct (wf_repr _ _ _ _ Hwf Hv) as [elems Hrepr].
    apply wp_bind.
    eapply wp_mono;
      [by apply (EmplaceBack_spec_storage σ this v elems values x)| | |done];
      [|done].
    intros r σ' [Hret Hst]. apply wp_ret. by eapply Emplace_keeps_wf.
  - (* PopBack *)
    destruct Hc as [v Hv].
    destruct (wf_repr _ _ _ _ Hwf Hv) as [elems Hrepr].
    pose proof Hrepr as (Hs & Hcv & _).
    eapply wp_mono; [by apply (PopBack_spec σ this v elems)| | |done]; [|done].
    intros [] σ' Hpost.
    destruct (Z.eqb_spec (size_ v) 0) as [Hz|Hnz]; [by subst|]. subst σ'.
    unfold heap_wf. cbn [vecs mem heap].
    assert (storage_kept (heap (mem σ)) v (take (length elems - 1) elems)
              {| data_ := data_ v; size_ := size_ v - 1 |}
              (stored (heap (mem σ)) (buffer_ (data_ v))
                 (blk_of (take (length elems - 1) elems)
                    (Z.to_nat (capacity_ (data_ v)))))) as Hst by by split.
    eapply wf_kept; [done..|].
    eapply (storage_kept_repr _ v elems); [done|done|..]; cbn [data_ size_];
      rewrite ?length_take; lia.
  - (* Insert *)
    destruct Hc as [(v & Hv & Hj) [x Hx]].
    destruct (wf_repr _ _ _ _ Hwf Hv) as [elems Hrepr].
    pose proof Hrepr as (Hs & Hcv & _).
    apply wp_bind. unfold wp at 1. rewrite (Vector_begin_eq σ this v Hv).
    unfold Insert. apply wp_bind.
    eapply wp_mono;
      [apply (Emplace_spec_storage σ this v elems j value x); [done..|lia|done]
      | | |done]; [|done].
    intros r σ' [Hret Hst]. apply wp_ret. by eapply Emplace_keeps_wf.
  - (* Emplace *)
    destruct Hc as [(v & Hv & Hj) [x Hx]].
    destruct (wf_repr _ _ _ _ Hwf Hv) as [elems Hrepr].
    pose proof Hrepr as (Hs & Hcv & _).
    apply wp_bind. unfold wp at 1. rewrite (Vector_begin_eq σ this v Hv).
    apply wp_bind.
    eapply wp_mono;
      [apply (Emplace_spec_storage σ this v elems j values x); [done..|lia|done]
      | | |done]; [|done].
    intros r σ' [Hret Hst]. apply wp_ret. by eapply Emplace_keeps_wf.
  - (* Erase *)
    destruct Hc as (v & Hv & Hj).
    destruct (wf_repr _ _ _ _ Hwf Hv) as [elems Hrepr].
    pose proof Hrepr as (Hs & Hcv & _).
    apply wp_bind. unfold wp at 1. rewrite (Vector_begin_eq σ this v Hv).
    apply wp_bind.
    eapply wp_mono;
      [apply (Erase_spec_storage σ this v elems j); [done..|lia]| | |done];
      [|done].
    intros r σ' [(v' & _ & Hvecs & _ & Hdata & _ & Hrepr' & _) Hh].
    apply wp_ret. unfold heap_wf. rewrite Hvecs.
    eapply wf_kept; [done|done|by split|done].
Qed.

End calls.

(** * The further properties at concrete vectors *)

Section int_vectors.
#[local] Existing Instance int_element.

(** The vectors of the states used below hold their elements. *)
Lemma int_pair_repr (x y : Z) :
  vec_repr (heap (mem (full_pair x y))) full_pair_vector [x; y].
Proof. apply full_pair_repr. vm_compute. discriminate. Defined.

Lemma pair_in_four_repr (x y : Z) :
  vec_repr (heap (mem (pair_in_four x y))) pair_in_four_vector [x; y].
Proof.
  unfold vec_repr. split; [done|]. split; [|done].
  vm_compute. split; discriminate.
Defined.

Lemma pair_of_pair_and_triple_repr :
  vec_repr (heap (mem pair_and_triple)) full_pair_vector [1; 2].
Proof.
  unfold vec_repr. split; [done|]. split; [|done].
  vm_compute. split; discriminate.
Defined.

Lemma triple_of_pair_and_triple_repr :
  vec_repr (heap (mem pair_and_triple)) triple_vector [7; 8; 9].
Proof.
  unfold vec_repr. split; [done|]. split; [|done].
  vm_compute. split; discriminate.
Defined.

Lemma pair_and_triple_disjoint (a : addr) :
  p_blk (buffer_ (data_ full_pair_vector)) = Some a →
  p_blk (buffer_ (data_ triple_vector)) ≠ Some a.
Proof. simpl. congruence. Defined.

Lemma triple_and_pair_disjoint (a : addr) :
  p_blk (buffer_ (data_ triple_vector)) = Some a →
  p_blk (buffer_ (data_ full_pair_vector)) ≠ Some a.
Proof. simpl. congruence. Defined.

(** X1 at [RawMemory<int>(3)], which holds a block of three slots, and at
    [RawMemory<int>(2^62 + 1)], whose byte count wraps around to 4: it
    records the capacity [2^62 + 1] and holds a block of one slot. *)
Lemma RawMemory_ctor_allocates_witness :
  wp (RawMemory_ctor (T := Z) 3)
     (λ x μ', capacity_ x = 3 ∧
              ∃ a, buffer_ x = Ptr (Some a) 0 ∧
                   heap μ' !! a = Some [None; None; None])
     (λ _, False) False (Memory ∅ None) ∧
  wp (RawMemory_ctor (T := Z) (2 ^ 62 + 1))
     (λ x μ', capacity_ x = 2 ^ 62 + 1 ∧
              ∃ a, buffer_ x = Ptr (Some a) 0 ∧ heap μ' !! a = Some [None])
     (λ _, False) False (Memory ∅ None).
Proof.
  split.
  - eapply wp_mono;
      [apply (RawMemory_ctor_allocates (T := Z) (Memory ∅ None) 3); lia
      | | |done].
    + intros x μ' (Hcap & _ & _ & a & slots & Hbuf & _ & Hh & Hslots & _).
      split; [done|]. exists a. split; [done|].
      change (Z.of_nat slots = 3) in Hslots.
      assert (slots = 3%nat) as -> by lia.
      rewrite Hh. apply lookup_insert_eq.
    + intros μ' ([Hf|Hbig] & _); [done|]. vm_compute in Hbig. discriminate.
  - eapply wp_mono;
      [apply (RawMemory_ctor_allocates (T := Z) (Memory ∅ None) (2 ^ 62 + 1));
       vm_compute; discriminate
      | | |done].
    + intros x μ' (Hcap & _ & _ & a & slots & Hbuf & _ & Hh & Hslots & _).
      split; [done|]. exists a. split; [done|].
      change (Z.of_nat slots = 1) in Hslots.
      assert (slots = 1%nat) as -> by lia.
      rewrite Hh. apply lookup_insert_eq.
    + intros μ' ([Hf|Hbig] & _); [done|]. vm_compute in Hbig. discriminate.
Defined.

(** X2 at the first of two [RawMemory] objects. *)
Lemma RawMemory_move_ctor_empties_source_witness :
  ∃ σ', RawMemory_move_ctor (RawObj 0%nat) two_raws
          = Ok {| buffer_ := Ptr (Some 0%nat) 0; capacity_ := 2 |} σ' ∧
        get_raw (RawObj 0%nat) σ' = Ok RawMemory_default σ' ∧
        mem σ' = mem two_raws ∧
        RawMemory_dtor (RawObj 0%nat) σ' = Ok tt σ'.
Proof.
  apply (RawMemory_move_ctor_empties_source two_raws (RawObj 0%nat)).
  vm_compute. reflexivity.
Defined.

(** X3 at [Vector(2)] in the state of a full vector of two elements. *)
Lemma Vector_ctor_size_value_initializes_witness :
  wp (Vector_ctor_size 2)
     (λ this σ', ∃ v',
        vecs σ' !! this = Some v' ∧ size_ v' = 2 ∧ capacity_ (data_ v') = 2 ∧
        vec_repr (heap (mem σ')) v' [0; 0])
     (λ _, False) False (full_pair 1 2).
Proof.
  eapply wp_mono;
    [apply (Vector_ctor_size_value_initializes (full_pair 1 2) 2);
       [lia | vm_compute; reflexivity]
    | | |done].
  - intros this σ' (v' & _ & _ & Hvecs & Hsize & Hcap & Hrepr & _).
    exists v'. split_and!; try done. rewrite Hvecs. apply lookup_insert_eq.
  - intros σ' ([Hf|Hbig] & _); [done|]. vm_compute in Hbig. discriminate.
Defined.

(** X4 at the copy of a full vector of two elements. *)
Lemma Vector_copy_ctor_copies_witness :
  wp (Vector_copy_ctor 0%nat)
     (λ this σ', ∃ v',
        vecs σ' !! this = Some v' ∧ capacity_ (data_ v') = 2 ∧
        vec_repr (heap (mem σ')) v' [1; 2] ∧
        vec_repr (heap (mem σ')) full_pair_vector [1; 2])
     (λ _, False) False (full_pair 1 2).
Proof.
  eapply wp_mono;
    [apply (Vector_copy_ctor_copies (full_pair 1 2) 0%nat full_pair_vector
              [1; 2]); [vm_compute; reflexivity | apply int_pair_repr]
    | | |done].
  - intros this σ' (v' & _ & _ & Hvecs & Hsize & Hcap & Hrepr & Hsrc & _).
    exists v'. split_and!; try done. rewrite Hvecs. apply lookup_insert_eq.
  - intros σ' [Hf _]. done.
Defined.

(** X5 at a full vector of two elements. *)
Lemma Vector_move_ctor_takes_over_witness :
  ∃ this σ',
    Vector_move_ctor 0%nat (full_pair 1 2) = Ok this σ' ∧
    vecs (full_pair 1 2) !! this = None ∧
    vecs σ' !! this = Some full_pair_vector ∧
    vecs σ' !! 0%nat = Some Vector_default ∧
    (∀ l, l ≠ this → l ≠ 0%nat → vecs σ' !! l = vecs (full_pair 1 2) !! l) ∧
    raws σ' = raws (full_pair 1 2) ∧
    mem σ' = mem (full_pair 1 2).
Proof.
  apply (Vector_move_ctor_takes_over (full_pair 1 2) 0%nat full_pair_vector).
  vm_compute. reflexivity.
Defined.


(** X7 at a temporary copy of a full vector of two elements. *)
Lemma temporary_copy_leaves_no_trace_witness :
  wp (bind (Vector_copy_ctor 0%nat)
        (λ copy, bind (Vector_dtor copy) (λ _, end_vec copy)))
     (λ _ σ', unchanged (full_pair 1 2) σ' ∧ no_new_fault (full_pair 1 2) σ')
     (λ σ', fuse (mem (full_pair 1 2)) ≠ None ∧ unchanged (full_pair 1 2) σ')
     False (full_pair 1 2).
Proof.
  apply (temporary_copy_leaves_no_trace (full_pair 1 2) 0%nat full_pair_vector
           [1; 2]).
  - vm_compute. reflexivity.
  - apply int_pair_repr.
Defined.

(** X8 at the second element and at the index 2 of a vector of two
    elements in a block of four slots. *)
Lemma Vector_index_is_checked_witness :
  (∃ x, [1; 2] !! Z.to_nat 1 = Some x ∧
        Vector_index 0%nat 1 (pair_in_four 1 2)
          = Ok (ptr_add (Ptr (Some 0%nat) 0) 1) (pair_in_four 1 2) ∧
        bind (Vector_index 0%nat 1) (λ p, lift (load p)) (pair_in_four 1 2)
          = Ok x (pair_in_four 1 2)) ∧
  Vector_index 0%nat 2 (pair_in_four 1 2) = Fault AssertionFailed.
Proof.
  split.
  - apply (proj1 (Vector_index_is_checked (pair_in_four 1 2) 0%nat
                    pair_in_four_vector [1; 2] 1
                    ltac:(vm_compute; reflexivity) (pair_in_four_repr 1 2)
                    ltac:(lia))).
    simpl. lia.
  - apply (proj2 (Vector_index_is_checked (pair_in_four 1 2) 0%nat
                    pair_in_four_vector [1; 2] 2
                    ltac:(vm_compute; reflexivity) (pair_in_four_repr 1 2)
                    ltac:(lia))).
    simpl. lia.
Defined.

(** X9 at a vector of two elements in a block of four slots. *)
Lemma begin_end_delimit_elements_witness :
  Vector_begin 0%nat (pair_in_four 1 2)
    = Ok (Ptr (Some 0%nat) 0) (pair_in_four 1 2) ∧
  Vector_end 0%nat (pair_in_four 1 2)
    = Ok (ptr_add (Ptr (Some 0%nat) 0) 2) (pair_in_four 1 2) ∧
  lift (load (ptr_add (Ptr (Some 0%nat) 0) 2)) (pair_in_four 1 2)
    = Fault Undefined.
Proof.
  pose proof (begin_end_delimit_elements (pair_in_four 1 2) 0%nat
                pair_in_four_vector [1; 2]
                ltac:(vm_compute; reflexivity) (pair_in_four_repr 1 2))
    as (Hb & He & _ & _ & Hu).
  split; [exact Hb|]. split; [exact He|exact Hu].
Defined.

(** X10 at [Reserve(1)] and [Reserve(5)] on a full vector of two
    elements. *)
Lemma Reserve_keeps_elements_witness :
  Reserve 0%nat 1 (full_pair 1 2) = Ok tt (full_pair 1 2) ∧
  wp (Reserve 0%nat 5)
     (λ _ σ', ∃ v', vecs σ' !! 0%nat = Some v' ∧ capacity_ (data_ v') = 5 ∧
                    vec_repr (heap (mem σ')) v' [1; 2])
     (λ _, False) False (full_pair 1 2).
Proof.
  pose proof (Reserve_keeps_elements (full_pair 1 2) 0%nat full_pair_vector
                [1; 2] 1
                ltac:(vm_compute; reflexivity) (int_pair_repr 1 2))
    as [Hin _].
  pose proof (Reserve_keeps_elements (full_pair 1 2) 0%nat full_pair_vector
                [1; 2] 5
                ltac:(vm_compute; reflexivity) (int_pair_repr 1 2))
    as [_ Hout].
  split; [apply Hin; simpl; lia|].
  eapply wp_mono;
    [apply Hout; [simpl; lia | vm_compute; reflexivity]| | |done].
  - intros [] σ' (v' & _ & Hvecs & _ & Hcap & Hrepr & _).
    exists v'. split_and!; try done. rewrite Hvecs. apply lookup_insert_eq.
  - intros σ' ([Hf|Hbig] & _); [done|]. vm_compute in Hbig. discriminate.
Defined.

(** X11 at [Resize(3)] on a full vector of two elements. *)
Lemma Resize_sets_size_witness :
  wp (Resize 0%nat 3)
     (λ _ σ', ∃ v', vecs σ' !! 0%nat = Some v' ∧ size_ v' = 3 ∧
                    capacity_ (data_ v') = 3 ∧
                    vec_repr (heap (mem σ')) v' [1; 2; 0])
     (λ _, False) False (full_pair 1 2).
Proof.
  eapply wp_mono;
    [apply (Resize_sets_size (full_pair 1 2) 0%nat full_pair_vector [1; 2] 3);
       [vm_compute; reflexivity | apply int_pair_repr | lia
       | vm_compute; reflexivity]
    | | |done].
  - intros [] σ' (v' & _ & Hvecs & Hsize & Hrepr & Hcap & _).
    exists v'. split_and!; try done. rewrite Hvecs. apply lookup_insert_eq.
  - intros σ' ([Hf|Hbig] & _); [done|]. vm_compute in Hbig. discriminate.
Defined.

(** X12 at a full vector of two elements. *)
Lemma PopBack_removes_last_witness :
  ∃ σ' v',
    PopBack 0%nat (full_pair 1 2) = Ok tt σ' ∧
    vecs σ' !! 0%nat = Some v' ∧
    size_ v' = 1 ∧
    vec_repr (heap (mem σ')) v' [1].
Proof.
  destruct (proj2 (PopBack_removes_last (full_pair 1 2) 0%nat full_pair_vector
                     [1; 2]
                     ltac:(vm_compute; reflexivity) (int_pair_repr 1 2))
              ltac:(simpl; lia))
    as (σ' & v' & Hrun & _ & Hvecs & _ & _ & Hsize & Hrepr & _).
  exists σ', v'. split_and!; try done. rewrite Hvecs. apply lookup_insert_eq.
Defined.

(** X13 at the two vectors of [pair_and_triple]. *)
Lemma Swap_exchanges_witness :
  Swap 0%nat 1%nat pair_and_triple =
    Ok tt (State ∅ (<[1%nat := full_pair_vector]>
                      (<[0%nat := triple_vector]> (vecs pair_and_triple)))
             (mem pair_and_triple)) ∧
  Swap 0%nat 0%nat pair_and_triple = Ok tt pair_and_triple.
Proof.
  pose proof (Swap_exchanges pair_and_triple 0%nat 1%nat full_pair_vector
                triple_vector
                ltac:(discriminate)
                ltac:(vm_compute; reflexivity)
                ltac:(vm_compute; reflexivity)) as (Hswap & _ & _ & Hself).
  split; [exact Hswap | exact Hself].
Defined.

(** X14 at the assignment of the vector of three elements to the full
    vector of two elements. *)
Lemma copy_assign_beyond_capacity_witness :
  wp (Vector_copy_assign 0%nat 1%nat)
     (λ _ σ', ∃ v', vecs σ' !! 0%nat = Some v' ∧ capacity_ (data_ v') = 3 ∧
                    vec_repr (heap (mem σ')) v' [7; 8; 9] ∧
                    vec_repr (heap (mem σ')) triple_vector [7; 8; 9])
     (λ _, False) False pair_and_triple.
Proof.
  eapply wp_mono;
    [apply (copy_assign_beyond_capacity pair_and_triple 0%nat 1%nat
              full_pair_vector triple_vector [1; 2] [7; 8; 9]);
       [discriminate | vm_compute; reflexivity | vm_compute; reflexivity
       | apply pair_of_pair_and_triple_repr
       | apply triple_of_pair_and_triple_repr
       | apply pair_and_triple_disjoint
       | simpl; lia]
    | | |done].
  - intros [] σ' (v' & _ & Hvecs & _ & Hcap & Hrepr & Hsrc & _).
    exists v'. split_and!; try done. rewrite Hvecs. apply lookup_insert_eq.
  - intros σ' [Hf _]. done.
Defined.

(** X15 at the assignment of the full vector of two elements to the vector
    of three elements. *)
Lemma copy_assign_within_capacity_copies_witness :
  wp (Vector_copy_assign 1%nat 0%nat)
     (λ _ σ', ∃ v', vecs σ' !! 1%nat = Some v' ∧ capacity_ (data_ v') = 3 ∧
                    size_ v' = 2 ∧
                    vec_repr (heap (mem σ')) v' [1; 2] ∧
                    vec_repr (heap (mem σ')) full_pair_vector [1; 2])
     (λ _, False) False pair_and_triple.
Proof.
  eapply wp_mono;
    [apply (copy_assign_within_capacity_copies pair_and_triple 1%nat 0%nat
              triple_vector full_pair_vector [7; 8; 9] [1; 2]);
       [discriminate | vm_compute; reflexivity | vm_compute; reflexivity
       | apply triple_of_pair_and_triple_repr
       | apply pair_of_pair_and_triple_repr
       | apply triple_and_pair_disjoint
       | simpl; lia
       | left; simpl; lia]
    | | |done].
  - intros [] σ' (v' & _ & Hvecs & Hdata & Hsize & Hrepr & Hsrc & _).
    exists v'. split_and!; try done.
    + rewrite Hvecs. apply lookup_insert_eq.
    + by rewrite Hdata.
  - intros σ' [Hf _]. done.
Defined.

(** X16 at the same assignment, the first copy assignment of an element
    throwing: the destination has size 3 and its third slot is
    uninitialized. *)
Lemma copy_assign_shrinking_throw_breaks_invariant_witness :
  Vector_copy_assign 1%nat 0%nat (with_fuse pair_and_triple 0)
    = Throw (State ∅ (vecs pair_and_triple)
               (Memory (<[1%nat := [Some 7; Some 8; None]]>
                          (<[0%nat := [Some 1; Some 2]]> ∅)) None)) ∧
  ¬ Vector_invariant
      (State ∅ (vecs pair_and_triple)
         (Memory (<[1%nat := [Some 7; Some 8; None]]>
                    (<[0%nat := [Some 1; Some 2]]> ∅)) None)) 1%nat.
Proof.
  split; [vm_compute; reflexivity|].
  apply (copy_assign_shrinking_throw_breaks_invariant
           (with_fuse pair_and_triple 0) 1%nat 0%nat
           triple_vector full_pair_vector [7; 8; 9] [1; 2]).
  - discriminate.
  - vm_compute. reflexivity.
  - vm_compute. reflexivity.
  - apply triple_of_pair_and_triple_repr.
  - apply pair_of_pair_and_triple_repr.
  - apply triple_and_pair_disjoint.
  - simpl. lia.
  - vm_compute. reflexivity.
Defined.

(** X17 at the insertion of 5 at the second position of a full vector of
    two elements: the vector moves to the block 1 and the block 0 is
    released. *)
Lemma Emplace_reallocates_only_when_full_witness :
  Emplace 0%nat (Ptr (Some 0%nat) 1) (CtorValue 5) (full_pair 1 2)
    = Ok (Ptr (Some 1%nat) 1)
         (State ∅
            (<[0%nat := {| data_ := {| buffer_ := Ptr (Some 1%nat) 0;
                                       capacity_ := 4 |};
                           size_ := 3 |}]> ∅)
            (Memory (<[1%nat := [Some 1; Some 5; Some 2; None]]> ∅) None)) ∧
  ∃ v' a',
    buffer_ (data_ v') = Ptr (Some a') 0 ∧
    heap (mem (full_pair 1 2)) !! a' = None ∧
    (<[1%nat := [Some 1; Some 5; Some 2; None]]> ∅
       : gmap addr (list (option Z))) !! 0%nat = None.
Proof.
  assert (Emplace 0%nat (Ptr (Some 0%nat) 1) (CtorValue 5) (full_pair 1 2)
    = Ok (Ptr (Some 1%nat) 1)
         (State ∅
            (<[0%nat := {| data_ := {| buffer_ := Ptr (Some 1%nat) 0;
                                       capacity_ := 4 |};
                           size_ := 3 |}]> ∅)
            (Memory (<[1%nat := [Some 1; Some 5; Some 2; None]]> ∅) None)))
    as Hrun by (vm_compute; reflexivity).
  split; [exact Hrun|].
  destruct (Emplace_reallocates_only_when_full (full_pair 1 2) 0%nat
              full_pair_vector [1; 2] 1 (CtorValue 5) 5 _ _
              ltac:(vm_compute; reflexivity) (int_pair_repr 1 2)
              ltac:(simpl; lia) eq_refl Hrun)
    as (v' & _ & _ & Hfull).
  destruct (Hfull eq_refl) as (a' & Hbuf & Hfresh & _ & Hold & _).
  exists v', a'. split; [exact Hbuf|]. split; [exact Hfresh|].
  apply (Hold 0%nat). reflexivity.
Defined.

(** X18 at [v.PushBack(v[0])] on a full vector of two elements. *)
Lemma PushBack_appends_witness :
  wp (PushBack 0%nat (CtorCopyOf (Ptr (Some 0%nat) 0)))
     (λ _ σ', ∃ v', vecs σ' !! 0%nat = Some v' ∧
                    vec_repr (heap (mem σ')) v' [1; 2; 1])
     (λ _, False) False (full_pair 1 2).
Proof.
  eapply wp_mono;
    [apply (proj1 (PushBack_appends (full_pair 1 2) 0%nat full_pair_vector
                     [1; 2] (CtorCopyOf (Ptr (Some 0%nat) 0)) 1
                     ltac:(vm_compute; reflexivity) (int_pair_repr 1 2)
                     (or_intror (ex_intro _ O (conj eq_refl eq_refl)))))
    | | |done].
  - intros [] σ' (v' & Hv' & _ & Hrepr). by exists v'.
  - intros σ' [[Hf|[_ Hbig]] _]; [done|]. vm_compute in Hbig. discriminate.
Defined.

(** X19 at a full vector of two elements: the capacity has become 4. *)
Lemma PushBack_PopBack_round_trip_witness :
  wp (bind (PushBack 0%nat (CtorValue 3)) (λ _, PopBack 0%nat))
     (λ _ σ', ∃ v', vecs σ' !! 0%nat = Some v' ∧ size_ v' = 2 ∧
                    capacity_ (data_ v') = 4 ∧
                    vec_repr (heap (mem σ')) v' [1; 2])
     (λ _, False) False (full_pair 1 2).
Proof.
  eapply wp_mono;
    [apply (PushBack_PopBack_round_trip (full_pair 1 2) 0%nat full_pair_vector
              [1; 2] (CtorValue 3) 3
              ltac:(vm_compute; reflexivity) (int_pair_repr 1 2) eq_refl)
    | | |done].
  - intros [] σ' (v' & _ & Hvecs & Hsize & Hrepr & Hcap).
    exists v'. split_and!; try done. rewrite Hvecs. apply lookup_insert_eq.
  - intros σ' [[Hf|[_ Hbig]] _]; [done|]. vm_compute in Hbig. discriminate.
Defined.

(** X20 at the second position of a full vector of two elements. *)
Lemma Insert_Erase_round_trip_witness :
  wp (bind (Insert 0%nat (Ptr (Some 0%nat) 1) (CtorValue 5))
        (λ r, Erase 0%nat r))
     (λ r' σ', ∃ v', vecs σ' !! 0%nat = Some v' ∧
                     vec_repr (heap (mem σ')) v' [1; 2] ∧
                     r' = ptr_add (buffer_ (data_ v')) 1)
     (λ _, False) False (full_pair 1 2).
Proof.
  eapply wp_mono;
    [apply (Insert_Erase_round_trip (full_pair 1 2) 0%nat full_pair_vector
              [1; 2] 1 (CtorValue 5) 5
              ltac:(vm_compute; reflexivity) (int_pair_repr 1 2)
              ltac:(simpl; lia) eq_refl)
    | | |done].
  - intros r' σ' (v' & _ & Hvecs & _ & Hrepr & Hr).
    exists v'. split_and!; try done. rewrite Hvecs. apply lookup_insert_eq.
  - intros σ' [Hf|[_ Hbig]]; [done|]. vm_compute in Hbig. discriminate.
Defined.

(** X21 at a full vector of two elements. *)
Lemma Erase_at_end_is_undefined_witness :
  Erase 0%nat (Ptr (Some 0%nat) 2) (full_pair 1 2) = Fault Undefined.
Proof.
  apply (Erase_at_end_is_undefined (full_pair 1 2) 0%nat full_pair_vector
           [1; 2]).
  - vm_compute. reflexivity.
  - apply int_pair_repr.
Defined.

(** X23 at a [PushBack] below the capacity whose constructor throws. *)
Lemma PushBack_strong_exception_guarantee_witness :
  PushBack 0%nat (CtorValue 3) (with_fuse (pair_in_four 1 2) 0)
    = Throw (pair_in_four 1 2) ∧
  unchanged (with_fuse (pair_in_four 1 2) 0) (pair_in_four 1 2).
Proof.
  assert (PushBack 0%nat (CtorValue 3) (with_fuse (pair_in_four 1 2) 0)
          = Throw (pair_in_four 1 2)) as Hrun by (vm_compute; reflexivity).
  split; [exact Hrun|].
  apply (proj1 (PushBack_strong_exception_guarantee
                  (with_fuse (pair_in_four 1 2) 0) 0%nat pair_in_four_vector
                  [1; 2] (CtorValue 3) 3
                  ltac:(vm_compute; reflexivity) (pair_in_four_repr 1 2)
                  (or_introl eq_refl) eq_refl)).
  exact Hrun.
Defined.

(** X24 at the first position of a full vector of two elements whose move
    assignment throws. *)
Lemma Erase_throw_keeps_vector_valid_witness :
  Erase (Element0 := throwing_copy_element) 0%nat (Ptr (Some 0%nat) 0)
    (with_fuse (full_pair 1 2) 0)
    = Throw (full_pair 1 2) ∧
  Vector_invariant (Element0 := throwing_copy_element) (full_pair 1 2) 0%nat.
Proof.
  assert (Erase (Element0 := throwing_copy_element) 0%nat (Ptr (Some 0%nat) 0)
            (with_fuse (full_pair 1 2) 0)
          = Throw (full_pair 1 2)) as Hrun by (vm_compute; reflexivity).
  split; [exact Hrun|].
  apply (Erase_throw_keeps_vector_valid (Element0 := throwing_copy_element)
           (with_fuse (full_pair 1 2) 0) 0%nat full_pair_vector [1; 2] 0
           (full_pair 1 2)
           ltac:(vm_compute; reflexivity)
           (full_pair_repr (Element0 := throwing_copy_element) 1 2
              ltac:(vm_compute; discriminate))
           ltac:(simpl; lia) Hrun).
Defined.

(** X25 at the insertion of 5 at the first position of a vector of two
    elements in a block of four slots, the first move assignment throwing:
    the size is 2 and the third slot holds a live element. *)
Lemma Emplace_in_place_throw_leaves_extra_element_witness :
  Emplace (Element0 := throwing_copy_element) 0%nat (Ptr (Some 0%nat) 0)
    (CtorValue 5) (with_fuse (pair_in_four 1 2) 2)
    = Throw (State ∅ (vecs (pair_in_four 1 2))
               (Memory (<[0%nat := [Some 1; Some 2; Some 2; None]]> ∅) None)) ∧
  ¬ Vector_invariant (Element0 := throwing_copy_element)
      (State ∅ (vecs (pair_in_four 1 2))
         (Memory (<[0%nat := [Some 1; Some 2; Some 2; None]]> ∅) None)) 0%nat.
Proof.
  assert (Emplace (Element0 := throwing_copy_element) 0%nat
            (Ptr (Some 0%nat) 0) (CtorValue 5) (with_fuse (pair_in_four 1 2) 2)
          = Throw (State ∅ (vecs (pair_in_four 1 2))
                     (Memory (<[0%nat := [Some 1; Some 2; Some 2; None]]> ∅)
                        None))) as Hrun by (vm_compute; reflexivity).
  split; [exact Hrun|].
  destruct (Emplace_in_place_throw_leaves_extra_element
              (Element0 := throwing_copy_element)
              (with_fuse (pair_in_four 1 2) 2) 0%nat pair_in_four_vector
              [1; 2] 0 (CtorValue 5) 5 _
              ltac:(vm_compute; reflexivity) (pair_in_four_repr 1 2)
              ltac:(simpl; lia) ltac:(simpl; lia) eq_refl Hrun)
    as [(_ & _ & Hheap)|(_ & _ & Hbroken)]; [|exact Hbroken].
  apply (f_equal (λ h, h !! 0%nat)) in Hheap. vm_compute in Hheap.
  discriminate.
Defined.

(** X26 at the insertion of a third element at the end of a full vector of
    two move-only elements, the move of the second element throwing during
    the relocation: the first element is left moved from, and the vector
    still holds two live elements in its old block. *)
Lemma growth_throw_keeps_vector_valid_witness :
  Emplace (Element0 := move_only_element) 0%nat (Ptr (Some 0%nat) 2)
    (CtorValue (Some 3)) (with_fuse (full_pair (Some 1) (Some 2)) 3)
    = Throw (State ∅ (vecs (full_pair (Some 1) (Some 2)))
               (Memory (<[0%nat := [Some None; Some (Some 2)]]> ∅) None)) ∧
  Vector_invariant (Element0 := move_only_element)
    (State ∅ (vecs (full_pair (Some 1) (Some 2)))
       (Memory (<[0%nat := [Some None; Some (Some 2)]]> ∅) None)) 0%nat.
Proof.
  assert (Emplace (Element0 := move_only_element) 0%nat (Ptr (Some 0%nat) 2)
            (CtorValue (Some 3)) (with_fuse (full_pair (Some 1) (Some 2)) 3)
          = Throw (State ∅ (vecs (full_pair (Some 1) (Some 2)))
                     (Memory (<[0%nat := [Some None; Some (Some 2)]]> ∅)
                        None))) as Hrun by (vm_compute; reflexivity).
  split; [exact Hrun|].
  apply (growth_throw_keeps_vector_valid (Element0 := move_only_element)
           (with_fuse (full_pair (Some 1) (Some 2)) 3) 0%nat full_pair_vector
           [Some 1; Some 2] _
           ltac:(vm_compute; reflexivity)
           (full_pair_repr (Element0 := move_only_element) (Some 1) (Some 2)
              ltac:(vm_compute; discriminate))).
  left. exists 2%nat, (CtorValue (Some 3)), (Some 3).
  split; [reflexivity|]. split; [simpl; lia|]. split; [reflexivity|].
  exact Hrun.
Defined.

(** X27 at [Reserve(2^62 + 1)] on a default-constructed vector of [int]:
    the byte count wraps around to 4. *)
Lemma Reserve_wrapped_byte_count_breaks_invariant_witness :
  ∃ σ' v' a blk,
    Reserve 0%nat (2 ^ 62 + 1)
      (State ∅ (<[0%nat := Vector_default]> ∅) (Memory ∅ None)) = Ok tt σ' ∧
    vecs σ' !! 0%nat = Some v' ∧
    size_ v' = 0 ∧
    capacity_ (data_ v') = 2 ^ 62 + 1 ∧
    buffer_ (data_ v') = Ptr (Some a) 0 ∧
    heap (mem σ') !! a = Some blk ∧
    Z.of_nat (length blk) < 2 ^ 62 + 1 ∧
    ¬ Vector_invariant σ' 0%nat.
Proof.
  apply (Reserve_wrapped_byte_count_breaks_invariant
           (State ∅ (<[0%nat := Vector_default]> ∅) (Memory ∅ None)) 0%nat
           Vector_default (2 ^ 62 + 1)).
  - vm_compute. reflexivity.
  - apply vec_repr_default.
  - vm_compute. reflexivity.
  - vm_compute. discriminate.
  - vm_compute. discriminate.
  - reflexivity.
Defined.

(** The state of a full vector of two elements is well formed. *)
Lemma full_pair_wf (x y : Z) : heap_wf (full_pair x y).
Proof.
  unfold heap_wf, full_pair. cbn [vecs mem heap].
  rewrite <-(insert_insert_eq ∅ 0%nat full_pair_vector Vector_default).
  eapply (wf_renewed _ ∅ 0%nat Vector_default [x; y]).
  - apply wf_insert_default; [apply wf_empty | apply lookup_empty].
  - apply lookup_insert_eq.
  - exists 0%nat. split; [apply lookup_empty|]. split; reflexivity.
  - by unfold vec_repr.
Defined.

(** X22 at an insertion into a full vector of two elements and at
    [Reserve(5)] on it. *)
Lemma allowed_calls_keep_states_well_formed_witness :
  wp (run_call (CallInsert 0%nat 1 (CtorValue 5)))
     (λ _ σ', heap_wf σ') (λ _, True) False (full_pair 1 2) ∧
  wp (run_call (CallReserve 0%nat 5))
     (λ _ σ', heap_wf σ') (λ _, True) False (full_pair 1 2).
Proof.
  split.
  - apply (allowed_calls_keep_states_well_formed (full_pair 1 2)
             (CallInsert 0%nat 1 (CtorValue 5))).
    + apply full_pair_wf.
    + split.
      * exists full_pair_vector. split; [vm_compute; reflexivity | simpl; lia].
      * exists 5. reflexivity.
  - apply (allowed_calls_keep_states_well_formed (full_pair 1 2)
             (CallReserve 0%nat 5)).
    + apply full_pair_wf.
    + split; [by exists full_pair_vector|].
      split; [lia | vm_compute; reflexivity].
Defined.

End int_vectors.
